(** * Hex game with a Monte Carlo bot: the graph, the priority queue,
      the shortest-path search and the win checks of
      [HexGame_with_AI_bot.cpp], embedded and verified.

    Conventions of the embedding.
    - [int] is [Z]; [numType] is instantiated at [int], as [Hex_Board]
      (an [undirected_Graph<int>]) and [ShortestPath<Hex_Board,int>] do.
      The only sums on costs are those of the search, which adds the cost
      of an edge to the cost of a settled node; on a board they stay below
      the number of cells ([seek_path_costs_on_a_board]).
    - A [std::vector] is a [list]; [v[i]] is [vat d v i].  Reading or writing
      outside a vector is undefined in the source: the model reads the
      default [d] and writes nothing there, and the theorems are stated for
      indices inside the vectors.
    - A non-const method of [Graph] that the search calls through its
      reference ([neighbors], [adjacent]) returns the graph next to its
      result, so that what it does to the graph is visible.
    - Text sent to [cout] is left out, except for [get_edge_value], whose
      message is the only sign of a missing edge. *)

From Stdlib Require Import QArith ZArith List Bool Lia Permutation Finite.
Import ListNotations.
Local Open Scope Z_scope.

(** ** Vectors indexed by [int] *)

Section Vectors.
Context {A : Type}.

Definition vat (d : A) (v : list A) (i : Z) : A :=
  if i <? 0 then d else nth (Z.to_nat i) v d.

Fixpoint upd_nat (v : list A) (n : nat) (x : A) : list A :=
  match v, n with
  | [], _ => []
  | _ :: r, O => x :: r
  | y :: r, S k => y :: upd_nat r k x
  end.

Definition vset (v : list A) (i : Z) (x : A) : list A :=
  if i <? 0 then v else upd_nat v (Z.to_nat i) x.

Definition vsize (v : list A) : Z := Z.of_nat (length v).
End Vectors.

(** [for(int i=0; i<n; ++i)] runs over [range n]. *)
Definition range (n : Z) : list Z := map Z.of_nat (seq 0 (Z.to_nat n)).

(** ** Auxiliary classes *)

Record bool_and_num_Pair := mk_bool_num { get_bool : bool; get_value : Z }.

Module Pair.
Record int_and_num_Pair := mk { get_value1 : Z; get_value2 : Z }.
Definition set_value2 (p : int_and_num_Pair) (v : Z) := mk (get_value1 p) v.
End Pair.
Abbreviation int_and_num_Pair := Pair.int_and_num_Pair.

Module Triad.
Record int_int_and_num_Triad :=
  mk { get_value1 : Z; get_value2 : Z; get_value3 : Z }.

(** The three-way comparison written out in the queue's search loops. *)
Definition same (a b : int_int_and_num_Triad) : bool :=
  (get_value1 a =? get_value1 b) && (get_value2 a =? get_value2 b)
  && (get_value3 a =? get_value3 b).
End Triad.
Abbreviation int_int_and_num_Triad := Triad.int_int_and_num_Triad.

(** ** class PriorityQueue *)

Module PriorityQueue.
Definition t := list int_int_and_num_Triad.

Definition size (queue : t) : Z := vsize queue.

Definition contains_elem_with_val1_val2 (queue : t) (val1 val2 : Z) : bool :=
  existsb (fun e => (Triad.get_value1 e =? val1) && (Triad.get_value2 e =? val2))
          queue.

(** The inner loop over [ref_queue]: is [e] one of its elements? *)
Definition in_ref (ref_queue : t) (e : int_int_and_num_Triad) : bool :=
  existsb (fun r => Triad.same r e) ref_queue.

(** [condition] starts true and the first queue element found in
    [ref_queue] makes it false and leaves both loops. *)
Fixpoint any_not_in_ref_loop (queue ref_queue : t) : bool :=
  match queue with
  | [] => true
  | e :: rest =>
      if in_ref ref_queue e then false else any_not_in_ref_loop rest ref_queue
  end.

Definition theres_any_in_queue_not_in_ref (queue ref_queue : t) : bool :=
  if (size queue >? 0) && (size ref_queue =? 0) then true
  else any_not_in_ref_loop queue ref_queue.

Definition none : int_int_and_num_Triad := Triad.mk (-1) (-1) (-1).

(** [aux] is declared outside the loop over the queue and never set back
    to false. *)
Fixpoint first_not_in_ref_loop (aux : bool) (queue ref_queue : t)
  : int_int_and_num_Triad :=
  match queue with
  | [] => none
  | e :: rest =>
      let aux' := aux || in_ref ref_queue e in
      if negb aux' then e else first_not_in_ref_loop aux' rest ref_queue
  end.

Definition get_first_in_queue_not_in_ref_NotDelete (queue ref_queue : t)
  : int_int_and_num_Triad :=
  if (size queue >? 0) && (size ref_queue =? 0) then
    vat (Triad.mk 0 0 0) queue 0
  else first_not_in_ref_loop false queue ref_queue.

(** Returns the element and the queue without it; [seen] is the part of
    the queue already passed, kept in front of the rest. *)
Fixpoint getAndDelete_loop (aux : bool) (seen queue ref_queue : t)
  : int_int_and_num_Triad * t :=
  match queue with
  | [] => (none, seen)
  | e :: rest =>
      let aux' := aux || in_ref ref_queue e in
      if negb aux' then (e, seen ++ rest)
      else getAndDelete_loop aux' (seen ++ [e]) rest ref_queue
  end.

Definition getAndDelete_first_in_queue_not_in_ref (queue ref_queue : t)
  : int_int_and_num_Triad * t :=
  if (size queue >? 0) && (size ref_queue =? 0) then
    (vat (Triad.mk 0 0 0) queue 0, tl queue)
  else getAndDelete_loop false [] queue ref_queue.

(** The loop of [insert]: before the first element whose cost is at
    least the new one, at the end when there is none. *)
Fixpoint insert_loop (queue : t) (new_element : int_int_and_num_Triad) : t :=
  match queue with
  | [] => [new_element]
  | e :: rest =>
      if Triad.get_value3 e >=? Triad.get_value3 new_element
      then new_element :: e :: rest
      else e :: insert_loop rest new_element
  end.

Definition insert (queue : t) (new_element : int_int_and_num_Triad) : t :=
  if size queue =? 0 then queue ++ [new_element]
  else insert_loop queue new_element.

Definition get_top_NotDelete (queue : t) : option int_int_and_num_Triad :=
  match queue with [] => None | e :: _ => Some e end.

Definition improves_cost_of_node (queue : t) (new_element : int_int_and_num_Triad)
  : bool :=
  negb (existsb (fun e =>
                   (Triad.get_value2 e =? Triad.get_value2 new_element)
                   && (Triad.get_value3 e <=? Triad.get_value3 new_element))
                queue).

(** The inner loop of [update_queue_with_shorter_path]: erase the first
    element going to [val2], then [break]. *)
Fixpoint erase_first_to (queue : t) (val2 : Z) : t :=
  match queue with
  | [] => []
  | e :: rest =>
      if Triad.get_value2 e =? val2 then rest
      else e :: erase_first_to rest val2
  end.

(** The outer loop [for(int i=0; i<queue.size(); ++i)]: its bound is read
    again at every turn, after the erasure of the turn before.  [fuel]
    only bounds the recursion: the loop makes at most as many turns as the
    queue had elements. *)
Fixpoint update_loop (fuel : nat) (i : Z) (queue : t) (val2 : Z) : t :=
  match fuel with
  | O => queue
  | S fuel' =>
      if i <? size queue
      then update_loop fuel' (i + 1) (erase_first_to queue val2) val2
      else queue
  end.

Definition update_queue_with_shorter_path (queue : t)
           (new_element : int_int_and_num_Triad) : t :=
  insert (update_loop (length queue) 0 queue (Triad.get_value2 new_element))
         new_element.
(** [queue.erase(queue.begin()+n)].  Outside the queue the source is
    undefined; the model leaves the queue as it is. *)
Definition erase_at (queue : t) (n : Z) : t :=
  if (0 <=? n) && (n <? size queue)
  then firstn (Z.to_nat n) queue ++ skipn (S (Z.to_nat n)) queue
  else queue.

(** [queue.insert(queue.begin()+n, e)], for [n] up to the size of the
    queue. *)
Definition insert_at (queue : t) (n : Z) (e : int_int_and_num_Triad) : t :=
  if (0 <=? n) && (n <=? size queue)
  then firstn (Z.to_nat n) queue ++ e :: skipn (Z.to_nat n) queue
  else queue.

Definition change_Prioirity (queue : t) (index new_position : Z) : t :=
  let temp := vat (Triad.mk 0 0 0) queue index in
  let queue := erase_at queue index in
  insert_at queue new_position temp.

Definition contains (queue : t) (queue_element : int_int_and_num_Triad) : bool :=
  existsb (fun e => Triad.same e queue_element) queue.

Definition contains_elem_with_val1 (queue : t) (val1 : Z) : bool :=
  existsb (fun e => Triad.get_value1 e =? val1) queue.

Definition contains_elem_with_val2 (queue : t) (val2 : Z) : bool :=
  existsb (fun e => Triad.get_value2 e =? val2) queue.

(** The element and the queue without it; [None] stands for reading
    [queue[0]] in an empty queue. *)
Definition get_top_and_delete (queue : t)
  : option (int_int_and_num_Triad * t) :=
  match queue with [] => None | e :: rest => Some (e, rest) end.

Definition get_element_n_NotDelete (queue : t) (n : Z)
  : option int_int_and_num_Triad :=
  if n <? 0 then None else nth_error queue (Z.to_nat n).

Definition get_element_n_and_delete (queue : t) (n : Z)
  : option (int_int_and_num_Triad * t) :=
  match get_element_n_NotDelete queue n with
  | None => None
  | Some temp => Some (temp, erase_at queue n)
  end.

Definition delete_top (queue : t) : t := erase_at queue 0.
End PriorityQueue.

(** ** class Graph *)

Inductive representationMode := CON_MATRIX | EDGE_LIST.

(** What [get_edge_value] writes to [cout] before it returns. *)
Inductive report :=
| Edge_doesnt_exist (nodeFrom nodeTo : Z)
| Graph_is_empty.

Module Graph.
Record t := mk {
  size : Z;
  connectivityMatrix : list (list bool_and_num_Pair);
  edgeList : list (list int_and_num_Pair);
  preferredRepresentation : representationMode;
  nodeValues : list Z;
  nodeTags : list Z;
  conMatrix_was_computed : bool;
  edgeList_was_computed : bool }.

Definition with_connectivityMatrix (m : list (list bool_and_num_Pair))
           (flag : bool) (g : t) : t :=
  mk (size g) m (edgeList g) (preferredRepresentation g) (nodeValues g)
     (nodeTags g) flag (edgeList_was_computed g).

Definition with_edgeList (l : list (list int_and_num_Pair)) (flag : bool)
           (g : t) : t :=
  mk (size g) (connectivityMatrix g) l (preferredRepresentation g)
     (nodeValues g) (nodeTags g) (conMatrix_was_computed g) flag.

Definition with_nodeValues (v : list Z) (g : t) : t :=
  mk (size g) (connectivityMatrix g) (edgeList g) (preferredRepresentation g)
     v (nodeTags g) (conMatrix_was_computed g) (edgeList_was_computed g).

Definition with_nodeTags (v : list Z) (g : t) : t :=
  mk (size g) (connectivityMatrix g) (edgeList g) (preferredRepresentation g)
     (nodeValues g) v (conMatrix_was_computed g) (edgeList_was_computed g).

(** [Graph(int size, representationMode rep)] *)
Definition new (size : Z) (rep : representationMode) : t :=
  mk size [] [] rep [] [] false false.

Definition no_edge : bool_and_num_Pair := mk_bool_num false 0.

(** [connectivityMatrix[i][j]] *)
Definition entry (m : list (list bool_and_num_Pair)) (i j : Z)
  : bool_and_num_Pair :=
  vat no_edge (vat [] m i) j.

(** [connectivityMatrix[i][j] = p] *)
Definition set_entry (m : list (list bool_and_num_Pair)) (i j : Z)
           (p : bool_and_num_Pair) : list (list bool_and_num_Pair) :=
  vset m i (vset (vat [] m i) j p).

(** The two nested [push_back] loops that append [n] rows of [n] cells
    [(false, 0)] to the matrix. *)
Definition push_blank_rows (m : list (list bool_and_num_Pair)) (n : Z)
  : list (list bool_and_num_Pair) :=
  fold_left
    (fun m i =>
       fold_left (fun m _ => vset m i (vat [] m i ++ [no_edge]))
                 (range n) (m ++ [[]]))
    (range n) m.

(** The inner loop of [generate_conMatrix_from_edgeList]: the entries of
    [edgeList[i]] written into row [i] of the matrix. *)
Definition copy_row (i : Z) (m : list (list bool_and_num_Pair))
           (row : list int_and_num_Pair) : list (list bool_and_num_Pair) :=
  fold_left
    (fun m e =>
       let auxIndex := Pair.get_value1 e in
       let costAux := Pair.get_value2 e in
       set_entry m i auxIndex (mk_bool_num true costAux))
    row m.

Definition copy_rows (rows : list (list int_and_num_Pair)) (indices : list Z)
           (m : list (list bool_and_num_Pair)) : list (list bool_and_num_Pair) :=
  fold_left (fun m i => copy_row i m (vat [] rows i)) indices m.

Definition generate_conMatrix_from_edgeList (g : t) : t :=
  if edgeList_was_computed g then
    let blank := push_blank_rows [] (size g) in
    let filled := copy_rows (edgeList g) (range (size g)) blank in
    with_connectivityMatrix filled true g
  else g.

(** One row of the matrix read as a list of (node, cost): the loop over
    [j] shared by [generate_edgeList_from_conMatrix] and [neighbors]. *)
Definition row_edges (g : t) (i : Z) : list int_and_num_Pair :=
  flat_map
    (fun j =>
       if get_bool (entry (connectivityMatrix g) i j)
       then [Pair.mk j (get_value (entry (connectivityMatrix g) i j))]
       else [])
    (range (size g)).

Definition generate_edgeList_from_conMatrix (g : t) : t :=
  if conMatrix_was_computed g then
    with_edgeList (map (row_edges g) (range (size g))) true g
  else g.

Definition V (g : t) : Z := size g.

Definition E (g : t) : Z :=
  if edgeList_was_computed g then
    fold_left (fun count i => count + vsize (vat [] (edgeList g) i))
              (range (size g)) 0
  else if conMatrix_was_computed g then
    fold_left
      (fun count i =>
         fold_left
           (fun count j =>
              if get_bool (entry (connectivityMatrix g) i j) then count + 1
              else count)
           (range (size g)) count)
      (range (size g)) 0
  else -1.

Definition adjacent (g : t) (nodeFrom nodeTo : Z) : bool * t :=
  if edgeList_was_computed g then
    (existsb (fun e => Pair.get_value1 e =? nodeTo)
             (vat [] (edgeList g) nodeFrom), g)
  else if conMatrix_was_computed g then
    (get_bool (entry (connectivityMatrix g) nodeFrom nodeTo), g)
  else (false, g).

Definition neighbors (g : t) (nodeFrom : Z) : list int_and_num_Pair * t :=
  if edgeList_was_computed g then (vat [] (edgeList g) nodeFrom, g)
  else if conMatrix_was_computed g then (row_edges g nodeFrom, g)
  else ([], g).

Definition get_node_value (g : t) (i : Z) : Z := vat 0 (nodeValues g) i.

Definition set_node_value (g : t) (node val : Z) : t :=
  let values :=
    if vsize (nodeValues g) =? 0
    then nodeValues g ++ map (fun _ => 0) (range (size g))
    else nodeValues g in
  with_nodeValues (vset values node val) g.

Definition get_node_tag (g : t) (i : Z) : Z := vat 0 (nodeTags g) i.

Definition set_node_tag (g : t) (node val : Z) : t :=
  let tags :=
    if vsize (nodeTags g) =? 0
    then nodeTags g ++ map (fun _ => 0) (range (size g))
    else nodeTags g in
  with_nodeTags (vset tags node val) g.

(** The search loop of the edge-list branch: the cost of the first entry
    going to [nodeTo]. *)
Fixpoint find_cost (row : list int_and_num_Pair) (nodeTo : Z) : option Z :=
  match row with
  | [] => None
  | e :: rest =>
      if Pair.get_value1 e =? nodeTo then Some (Pair.get_value2 e)
      else find_cost rest nodeTo
  end.

(** The value returned and what was printed, if anything. *)
Definition get_edge_value (g : t) (nodeFrom nodeTo : Z) : Z * option report :=
  if edgeList_was_computed g then
    match find_cost (vat [] (edgeList g) nodeFrom) nodeTo with
    | Some costVal => (costVal, None)
    | None => (0, Some (Edge_doesnt_exist nodeFrom nodeTo))
    end
  else if conMatrix_was_computed g then
    if get_bool (entry (connectivityMatrix g) nodeFrom nodeTo)
    then (get_value (entry (connectivityMatrix g) nodeFrom nodeTo), None)
    else (0, Some (Edge_doesnt_exist nodeFrom nodeTo))
  else (0, Some Graph_is_empty).

(** The constructor of [undirected_Graph] that [Hex_Board] uses: no
    matrix, no edge list, node values and tags set to 0.  Its [density]
    member, a [float] fixed at 0 that nothing reads, is left out. *)
Definition undirected_for_board (size : Z) (mode : representationMode) : t :=
  let g := new size mode in
  let g := with_nodeValues (nodeValues g ++ map (fun _ => 0) (range size)) g in
  with_nodeTags (nodeTags g ++ map (fun _ => 0) (range size)) g.
(** The two getters that build the other representation when it is
    missing: what they return, next to the graph as they leave it. *)
Definition get_connectivityMatrix (g : t)
  : list (list bool_and_num_Pair) * t :=
  let g :=
    if negb (conMatrix_was_computed g) then generate_conMatrix_from_edgeList g
    else g in
  (connectivityMatrix g, g).

Definition get_edgeList (g : t) : list (list int_and_num_Pair) * t :=
  let g :=
    if negb (edgeList_was_computed g) then generate_edgeList_from_conMatrix g
    else g in
  (edgeList g, g).
End Graph.

(** ** class undirected_Graph: the methods that edit edges *)

Module undirected_Graph.
(** The search loop of [force_set_edge_value]: the cost of the first
    entry going to [nodeTo] becomes [val]; [None] when there is none. *)
Fixpoint set_first_cost (row : list int_and_num_Pair) (nodeTo val : Z)
  : option (list int_and_num_Pair) :=
  match row with
  | [] => None
  | e :: rest =>
      if Pair.get_value1 e =? nodeTo then Some (Pair.set_value2 e val :: rest)
      else option_map (cons e) (set_first_cost rest nodeTo val)
  end.

(** Both directions of an edge in the matrix. *)
Definition set_both (m : list (list bool_and_num_Pair))
           (nodeFrom nodeTo val : Z) : list (list bool_and_num_Pair) :=
  Graph.set_entry (Graph.set_entry m nodeFrom nodeTo (mk_bool_num true val))
                  nodeTo nodeFrom (mk_bool_num true val).

(** [push_back] on both lists of an edge. *)
Definition push_both (l : list (list int_and_num_Pair))
           (nodeFrom nodeTo val : Z) : list (list int_and_num_Pair) :=
  let l := vset l nodeFrom (vat [] l nodeFrom ++ [Pair.mk nodeTo val]) in
  vset l nodeTo (vat [] l nodeTo ++ [Pair.mk nodeFrom val]).

Definition force_set_edge_value (g : Graph.t) (nodeFrom nodeTo val : Z)
  : Graph.t :=
  let g :=
    if Graph.edgeList_was_computed g then
      let l := Graph.edgeList g in
      match set_first_cost (vat [] l nodeFrom) nodeTo val with
      | Some row =>
          let l := vset l nodeFrom row in
          match set_first_cost (vat [] l nodeTo) nodeFrom val with
          | Some row' => Graph.with_edgeList (vset l nodeTo row') true g
          | None => Graph.with_edgeList l true g
          end
      | None => Graph.with_edgeList (push_both l nodeFrom nodeTo val) true g
      end
    else g in
  if Graph.conMatrix_was_computed g then
    Graph.with_connectivityMatrix
      (set_both (Graph.connectivityMatrix g) nodeFrom nodeTo val) true g
  else g.

Definition addEdge (g : Graph.t) (nodeFrom nodeTo cost : Z) : Graph.t :=
  let g :=
    if Graph.edgeList_was_computed g then
      if existsb (fun e => Pair.get_value1 e =? nodeTo)
                 (vat [] (Graph.edgeList g) nodeFrom)
      then g
      else Graph.with_edgeList
             (push_both (Graph.edgeList g) nodeFrom nodeTo cost) true g
    else g in
  if Graph.conMatrix_was_computed g then
    if get_bool (Graph.entry (Graph.connectivityMatrix g) nodeFrom nodeTo)
    then g
    else Graph.with_connectivityMatrix
           (set_both (Graph.connectivityMatrix g) nodeFrom nodeTo cost) true g
  else g.
(** The search loop of [deleteEdge]: the row without its first entry
    going to [nodeTo]; [None] when there is none. *)
Fixpoint erase_first_to (row : list int_and_num_Pair) (nodeTo : Z)
  : option (list int_and_num_Pair) :=
  match row with
  | [] => None
  | e :: rest =>
      if Pair.get_value1 e =? nodeTo then Some rest
      else option_map (cons e) (erase_first_to rest nodeTo)
  end.

(** Both directions of an edge taken out of the matrix. *)
Definition clear_both (m : list (list bool_and_num_Pair)) (nodeFrom nodeTo : Z)
  : list (list bool_and_num_Pair) :=
  Graph.set_entry (Graph.set_entry m nodeFrom nodeTo (mk_bool_num false 0))
                  nodeTo nodeFrom (mk_bool_num false 0).

Definition deleteEdge (g : Graph.t) (nodeFrom nodeTo : Z) : Graph.t :=
  let g :=
    if Graph.edgeList_was_computed g then
      let l := Graph.edgeList g in
      match erase_first_to (vat [] l nodeFrom) nodeTo with
      | Some row =>
          let l := vset l nodeFrom row in
          match erase_first_to (vat [] l nodeTo) nodeFrom with
          | Some row' => Graph.with_edgeList (vset l nodeTo row') true g
          | None => Graph.with_edgeList l true g
          end
      | None => g
      end
    else g in
  if Graph.conMatrix_was_computed g then
    if get_bool (Graph.entry (Graph.connectivityMatrix g) nodeFrom nodeTo)
    then Graph.with_connectivityMatrix
           (clear_both (Graph.connectivityMatrix g) nodeFrom nodeTo) true g
    else g
  else g.
End undirected_Graph.

(** ** class Hex_Board *)

Module Hex_Board.
Record t := mk { graph : Graph.t; border_length : Z }.

Definition with_graph (g : Graph.t) (b : t) : t := mk g (border_length b).

Definition coordinate_to_nodeIndex (b : t) (x y : Z) : Z :=
  if (x <? 0) || (x >? border_length b - 1) || (y <? 0)
     || (y >? border_length b - 1)
  then -999
  else x * border_length b + y.

Definition nodeIndex_to_coordinate (b : t) (index : Z) : Z * Z :=
  if (index <? 0) || (index >? Graph.size (graph b) - 1) then (-999, -999)
  else (Z.quot index (border_length b), Z.rem index (border_length b)).

(** The values that [temp_nodeFrom] takes for the node at [(x, y)], in the
    order of the nine branches of [generate_graph_matrixMode]. *)
Definition nodes_connected_to (border_length x y : Z) : list Z :=
  if (x =? 0) && (y =? 0) then
    [x * border_length + y + 1; (x + 1) * border_length + y]
  else if (x =? border_length - 1) && (y =? border_length - 1) then
    [(x - 1) * border_length + y; x * border_length + y - 1]
  else if (x =? border_length - 1) && (y =? 0) then
    [(x - 1) * border_length + y; (x - 1) * border_length + y + 1;
     x * border_length + y + 1]
  else if (x =? 0) && (y =? border_length - 1) then
    [x * border_length + y - 1; (x + 1) * border_length + y - 1;
     (x + 1) * border_length + y]
  else if x =? 0 then
    [x * border_length + y - 1; x * border_length + y + 1;
     (x + 1) * border_length + y - 1; (x + 1) * border_length + y]
  else if x =? border_length - 1 then
    [(x - 1) * border_length + y; (x - 1) * border_length + y + 1;
     x * border_length + y - 1; x * border_length + y + 1]
  else if y =? 0 then
    [(x - 1) * border_length + y; (x - 1) * border_length + y + 1;
     x * border_length + y + 1; (x + 1) * border_length + y]
  else if y =? border_length - 1 then
    [(x - 1) * border_length + y; x * border_length + y - 1;
     (x + 1) * border_length + y - 1; (x + 1) * border_length + y]
  else
    [(x - 1) * border_length + y; (x - 1) * border_length + y + 1;
     x * border_length + y - 1; x * border_length + y + 1;
     (x + 1) * border_length + y - 1; (x + 1) * border_length + y].

(** The body of the loop over [node]: every
    [connectivityMatrix[temp_nodeFrom][node].set_pair(true, cost)]. *)
Definition connect_node (b : t) (m : list (list bool_and_num_Pair)) (node : Z)
  : list (list bool_and_num_Pair) :=
  let node_coords := nodeIndex_to_coordinate b node in
  let x := fst node_coords in
  let y := snd node_coords in
  let cost := 1 in
  fold_left
    (fun m temp_nodeFrom =>
       Graph.set_entry m temp_nodeFrom node (mk_bool_num true cost))
    (nodes_connected_to (border_length b) x y) m.

Definition generate_graph_matrixMode (b : t) : t :=
  if Graph.conMatrix_was_computed (graph b) then b
  else
    let blank :=
      Graph.push_blank_rows (Graph.connectivityMatrix (graph b))
                            (Graph.size (graph b)) in
    let m := fold_left (connect_node b) (range (Graph.size (graph b))) blank in
    with_graph (Graph.with_connectivityMatrix m true (graph b)) b.

Definition generate_graph_edgeListMode (b : t) : t :=
  let b := generate_graph_matrixMode b in
  let g := Graph.generate_edgeList_from_conMatrix (graph b) in
  with_graph (Graph.with_edgeList (Graph.edgeList g) true g) b.

Definition generate_blank_connected_board (b : t) : t :=
  match Graph.preferredRepresentation (graph b) with
  | CON_MATRIX => generate_graph_matrixMode b
  | EDGE_LIST => generate_graph_edgeListMode b
  end.

(** [Hex_Board(int border_length, representationMode repr_mode)] *)
Definition new (border_length : Z) (repr_mode : representationMode) : t :=
  generate_blank_connected_board
    (mk (Graph.undirected_for_board (border_length * border_length) repr_mode)
        border_length).

Definition get_node_tag_byCoordinates (b : t) (x y : Z) : Z :=
  Graph.get_node_tag (graph b) (coordinate_to_nodeIndex b x y).

Definition set_node_tag (b : t) (node val : Z) : t :=
  with_graph (Graph.set_node_tag (graph b) node val) b.

Definition set_node_tag_byCoordinates (b : t) (x y val : Z) : t :=
  set_node_tag b (coordinate_to_nodeIndex b x y) val.

Definition set_node_value_byCoordinates (b : t) (x y val : Z) : t :=
  with_graph
    (Graph.set_node_value (graph b) (coordinate_to_nodeIndex b x y) val) b.

Definition get_border_length (b : t) : Z := border_length b.
Definition get_node_value_byCoordinates (b : t) (x y : Z) : Z :=
  Graph.get_node_value (graph b) (coordinate_to_nodeIndex b x y).

(** The two loops call [deleteEdge(i, j)] for every [j <= i]; [node] is
    not read. *)
Definition disconnect_node_from_neighbors (b : t) (node : Z) : t :=
  with_graph
    (fold_left
       (fun g i =>
          fold_left (fun g j => undirected_Graph.deleteEdge g i j)
                    (range (i + 1)) g)
       (range (Graph.size (graph b))) (graph b))
    b.
End Hex_Board.

(** ** class ShortestPath *)

Module ShortestPath.
(** The members of the class but [graph]: the reference to the graph is
    the graph that [seek_path] takes and gives back. *)
Record t := mk {
  nodeFrom : Z;
  nodeTo : Z;
  currentNode : Z;
  terminated : bool;
  path_was_seeked : bool;
  path_exists : bool;
  nodeTo_was_visited : bool;
  open_set : list Z;
  closed_set : list Z;
  tentative_costs : list Z;
  neighbors : list int_and_num_Pair;
  queue : PriorityQueue.t;
  last_top_of_queue : int_int_and_num_Triad;
  used_queue_elements : list int_int_and_num_Triad;
  shortest_path : list int_and_num_Pair;
  shortest_path_cost : Z;
  raw_shortest_path : list int_int_and_num_Triad }.

Definition INT_MAX : Z := 2147483647.

(** [numeric_limits<int>::infinity()] is 0, so the conditional of the
    constructor and of [seek_path] yields [numeric_limits<int>::max()]. *)
Definition infinity_or_max : Z := if 0 >? INT_MAX then 0 else INT_MAX.

(** The constructor.  [currentNode] is left uninitialised there; it is
    written by [seek_path] before it is read. *)
Definition new : t :=
  mk 0 0 0 false false false false [] [] [] [] [] (Triad.mk 0 0 0) [] []
     infinity_or_max [].

Definition i_is_in_vector (i : Z) (_vector : list Z) : bool :=
  existsb (fun k => k =? i) _vector.

Definition join_current_and_neighbor_and_cost (currentNode : Z)
           (neighbor : int_and_num_Pair) : int_int_and_num_Triad :=
  Triad.mk currentNode (Pair.get_value1 neighbor) (Pair.get_value2 neighbor).

(** The block run when the object has been used before. *)
Definition clear_prior (sp : t) : t :=
  if path_was_seeked sp then
    mk (nodeFrom sp) (nodeTo sp) (currentNode sp) false false false false
       [] [] [] [] [] (Triad.mk 0 0 0) [] [] 0 []
  else sp.

Definition banned_nodes_of (g : Graph.t) (avoid_nodes_with_these_tags : list Z)
  : list Z :=
  filter
    (fun i =>
       let tag_read := Graph.get_node_tag g i in
       existsb (fun banned_tag => tag_read =? banned_tag)
               avoid_nodes_with_these_tags)
    (range (Graph.V g)).

(** The body of the loop over [neighbors]. *)
Definition relax (open_set banned_nodes tentative_costs : list Z)
           (currentNode : Z) (queue : PriorityQueue.t)
           (neighbor : int_and_num_Pair) : PriorityQueue.t :=
  if existsb (fun k => k =? Pair.get_value1 neighbor) open_set
     && negb (i_is_in_vector (Pair.get_value1 neighbor) banned_nodes)
  then
    let temp :=
      Pair.set_value2 neighbor
        (Pair.get_value2 neighbor + vat 0 tentative_costs currentNode) in
    let triad := join_current_and_neighbor_and_cost currentNode temp in
    if negb (PriorityQueue.contains_elem_with_val1_val2
               queue (Triad.get_value1 triad) (Triad.get_value2 triad))
       && PriorityQueue.improves_cost_of_node queue triad
    then PriorityQueue.update_queue_with_shorter_path queue triad
    else queue
  else queue.

(** [open_set] without its first occurrence of [node], if it has one. *)
Fixpoint erase_first (open_set : list Z) (node : Z) : option (list Z) :=
  match open_set with
  | [] => None
  | k :: rest =>
      if k =? node then Some rest
      else option_map (cons k) (erase_first rest node)
  end.

(** One turn of the [while] loop. *)
Definition seek_turn (g : Graph.t) (banned_nodes : list Z) (sp : t)
  : Graph.t * t :=
  let (neighbors, g) := Graph.neighbors g (currentNode sp) in
  let queue :=
    fold_left
      (relax (open_set sp) banned_nodes (tentative_costs sp) (currentNode sp))
      neighbors (queue sp) in
  if (PriorityQueue.size queue >? 0)
     && PriorityQueue.theres_any_in_queue_not_in_ref
          queue (used_queue_elements sp)
  then
    let aux_top_of_queue :=
      PriorityQueue.get_first_in_queue_not_in_ref_NotDelete
        queue (used_queue_elements sp) in
    if negb (Triad.get_value2 aux_top_of_queue =? nodeTo sp) then
      let (another_aux_element, queue) :=
        PriorityQueue.getAndDelete_first_in_queue_not_in_ref
          queue (used_queue_elements sp) in
      let used_queue_elements :=
        used_queue_elements sp ++ [another_aux_element] in
      let last_top_of_queue := another_aux_element in
      let currentNode := Triad.get_value2 last_top_of_queue in
      let (open_set, closed_set) :=
        match erase_first (open_set sp) currentNode with
        | Some rest => (rest, closed_set sp ++ [currentNode])
        | None => (open_set sp, closed_set sp)
        end in
      let tentative_costs :=
        vset (tentative_costs sp) currentNode
             (Triad.get_value3 last_top_of_queue) in
      (g, mk (nodeFrom sp) (nodeTo sp) currentNode (terminated sp)
             (path_was_seeked sp) (path_exists sp) (nodeTo_was_visited sp)
             open_set closed_set tentative_costs neighbors queue
             last_top_of_queue used_queue_elements (shortest_path sp)
             (shortest_path_cost sp) (raw_shortest_path sp))
    else
      let another_aux_element :=
        PriorityQueue.get_first_in_queue_not_in_ref_NotDelete
          queue (used_queue_elements sp) in
      let used_queue_elements :=
        used_queue_elements sp ++ [another_aux_element] in
      let last_top_of_queue := another_aux_element in
      let tentative_costs :=
        vset (tentative_costs sp) (currentNode sp)
             (Triad.get_value3 last_top_of_queue) in
      if (PriorityQueue.size queue >? 0)
         && PriorityQueue.theres_any_in_queue_not_in_ref
              queue used_queue_elements
      then
        let currentNode :=
          Triad.get_value1
            (PriorityQueue.get_first_in_queue_not_in_ref_NotDelete
               queue used_queue_elements) in
        (g, mk (nodeFrom sp) (nodeTo sp) currentNode (terminated sp)
               (path_was_seeked sp) (path_exists sp) true
               (open_set sp) (closed_set sp) tentative_costs neighbors queue
               last_top_of_queue used_queue_elements (shortest_path sp)
               (shortest_path_cost sp) (raw_shortest_path sp))
      else
        (g, mk (nodeFrom sp) (nodeTo sp) (currentNode sp) true
               (path_was_seeked sp) true true
               (open_set sp) (closed_set sp) tentative_costs neighbors queue
               last_top_of_queue used_queue_elements (shortest_path sp)
               (shortest_path_cost sp) (raw_shortest_path sp))
  else
    (g, mk (nodeFrom sp) (nodeTo sp) (currentNode sp) true
           (path_was_seeked sp) (nodeTo_was_visited sp) (nodeTo_was_visited sp)
           (open_set sp) (closed_set sp) (tentative_costs sp) neighbors queue
           (last_top_of_queue sp) (used_queue_elements sp) (shortest_path sp)
           (shortest_path_cost sp) (raw_shortest_path sp)).

(** [while(terminated == false)]: [None] when [fuel] turns were not
    enough. *)
Fixpoint seek_loop (fuel : nat) (g : Graph.t) (banned_nodes : list Z) (sp : t)
  : option (Graph.t * t) :=
  if terminated sp then Some (g, sp)
  else
    match fuel with
    | O => None
    | S fuel' =>
        let (g', sp') := seek_turn g banned_nodes sp in
        seek_loop fuel' g' banned_nodes sp'
    end.

(** The [while(currentNode != nodeFrom)] loop of [reproduce_found_path].
    [None] when a node has no recorded element ([get_top_NotDelete] on an
    empty queue) or when [fuel] steps were not enough. *)
Fixpoint walk_back (fuel : nat)
         (elements_of_each_destination_node : list PriorityQueue.t)
         (nodeFrom currentNode : Z)
         (raw_shortest_path : list int_int_and_num_Triad)
  : option (Z * list int_int_and_num_Triad) :=
  if negb (currentNode =? nodeFrom) then
    match fuel with
    | O => None
    | S fuel' =>
        match PriorityQueue.get_top_NotDelete
                (vat [] elements_of_each_destination_node currentNode) with
        | None => None
        | Some rawAux =>
            walk_back fuel' elements_of_each_destination_node nodeFrom
                      (Triad.get_value1 rawAux) (rawAux :: raw_shortest_path)
        end
    end
  else Some (currentNode, raw_shortest_path).

Definition reproduce_found_path (g : Graph.t) (sp : t) : option t :=
  let elements_of_each_destination_node :=
    map (fun i =>
           fold_left
             (fun q e =>
                if Triad.get_value2 e =? i then PriorityQueue.insert q e else q)
             (used_queue_elements sp) [])
        (range (Graph.V g)) in
  match walk_back (length (used_queue_elements sp))
                  elements_of_each_destination_node
                  (nodeFrom sp) (nodeTo sp) (raw_shortest_path sp) with
  | None => None
  | Some (currentNode, raw_shortest_path) =>
      let '(shortest_path, _, current_cost) :=
        fold_left
          (fun '(path, previous_cost, _) rawAux =>
             let current_cost := Triad.get_value3 rawAux in
             let step_cost := current_cost - previous_cost in
             (path ++ [Pair.mk (Triad.get_value2 rawAux) step_cost],
              current_cost, current_cost))
          raw_shortest_path (shortest_path sp, 0, 0) in
      Some (mk (nodeFrom sp) (nodeTo sp) currentNode (terminated sp)
               (path_was_seeked sp) (path_exists sp) (nodeTo_was_visited sp)
               (open_set sp) (closed_set sp) (tentative_costs sp)
               (neighbors sp) (queue sp) (last_top_of_queue sp)
               (used_queue_elements sp) shortest_path current_cost
               raw_shortest_path)
  end.

(** [seek_path].  The loop is given one turn more than there are nodes in
    the open set: every turn that does not end the search closes one. *)
Definition seek_path (g : Graph.t) (sp : t) (_nodeFrom _nodeTo : Z)
           (avoid_nodes_with_these_tags : list Z) : option (Graph.t * t) :=
  let sp := clear_prior sp in
  let banned_nodes := banned_nodes_of g avoid_nodes_with_these_tags in
  if existsb (fun node => (node =? _nodeFrom) || (node =? _nodeTo))
             banned_nodes
  then
    Some (g, mk _nodeFrom _nodeTo (currentNode sp) true true false
                (nodeTo_was_visited sp) (open_set sp) (closed_set sp)
                (tentative_costs sp) (neighbors sp) (queue sp)
                (last_top_of_queue sp) (used_queue_elements sp)
                (shortest_path sp) (shortest_path_cost sp)
                (raw_shortest_path sp))
  else
    let open_set' :=
      open_set sp
      ++ filter (fun i => negb (i_is_in_vector i banned_nodes)
                          && negb (i =? _nodeFrom))
                (range (Graph.V g)) in
    let closed_set' :=
      closed_set sp
      ++ filter (fun i => negb (i_is_in_vector i banned_nodes)
                          && (i =? _nodeFrom))
                (range (Graph.V g)) in
    let tentative_costs' :=
      tentative_costs sp
      ++ map (fun i => if negb (i =? _nodeFrom) then infinity_or_max else 0)
             (range (Graph.V g)) in
    let started :=
      mk _nodeFrom _nodeTo _nodeFrom false (path_was_seeked sp)
         (path_exists sp) (nodeTo_was_visited sp) open_set' closed_set'
         tentative_costs' (neighbors sp) (queue sp) (last_top_of_queue sp)
         (used_queue_elements sp) (shortest_path sp) (shortest_path_cost sp)
         (raw_shortest_path sp) in
    match seek_loop (S (length open_set')) g banned_nodes started with
    | None => None
    | Some (g, sp) =>
        let sp :=
          mk (nodeFrom sp) (nodeTo sp) (currentNode sp) (terminated sp) true
             (path_exists sp) (nodeTo_was_visited sp) (open_set sp)
             (closed_set sp) (tentative_costs sp) (neighbors sp) (queue sp)
             (last_top_of_queue sp) (used_queue_elements sp)
             (shortest_path sp) (shortest_path_cost sp)
             (raw_shortest_path sp) in
        if path_exists sp then
          match reproduce_found_path g sp with
          | None => None
          | Some sp => Some (g, sp)
          end
        else Some (g, sp)
    end.

Definition get_path_was_seeked (sp : t) : bool := path_was_seeked sp.

Definition get_path_exists (sp : t) : bool := path_exists sp.

Definition get_path (sp : t) : list int_and_num_Pair :=
  if path_was_seeked sp then
    if path_exists sp then shortest_path sp else []
  else [].

Definition get_path_cost (sp : t) : Z :=
  if path_was_seeked sp then
    if path_exists sp then shortest_path_cost sp else -1
  else -1.
End ShortestPath.

(** ** class Hex_Game *)

Module Hex_Game.
Record t := mk {
  board : Hex_Board.t;
  border_length : Z;
  player_1_moves : list (Z * Z);
  player_2_moves : list (Z * Z);
  who_starts : Z;
  vs_robot : bool;
  swap_rule : bool;
  this_is_movement_number : Z;
  swap_has_been_done : bool;
  game_finished : bool;
  who_won : Z }.

Definition with_board (b : Hex_Board.t) (game : t) : t :=
  mk b (border_length game) (player_1_moves game) (player_2_moves game)
     (who_starts game) (vs_robot game) (swap_rule game)
     (this_is_movement_number game) (swap_has_been_done game)
     (game_finished game) (who_won game).

(** [Hex_Game(int border_length, int who_starts, bool vs_robot,
    bool swap_rule)] *)
Definition new (border_length who_starts : Z) (vs_robot swap_rule : bool) : t :=
  mk (Hex_Board.new border_length CON_MATRIX) border_length [] [] who_starts
     vs_robot swap_rule 1 false false 0.

(** The inner [for] loop of the three win checks: [path.seek_path] for
    every [nodeTo] until one search finds a path.  The result carries the
    board and the [path] object as the searches leave them. *)
Fixpoint seek_each_target (b : Hex_Board.t) (path : ShortestPath.t)
         (avoid_these_tags : list Z) (nodeFrom : Z) (targets : list Z)
  : option (bool * Hex_Board.t * ShortestPath.t) :=
  match targets with
  | [] => Some (false, b, path)
  | nodeTo :: rest =>
      match ShortestPath.seek_path (Hex_Board.graph b) path nodeFrom nodeTo
                                   avoid_these_tags with
      | None => None
      | Some (g, path) =>
          let b := Hex_Board.with_graph g b in
          if ShortestPath.get_path_exists path then Some (true, b, path)
          else seek_each_target b path avoid_these_tags nodeFrom rest
      end
  end.

(** The outer [for] loop, left as soon as [connects] is set. *)
Fixpoint seek_each_source (b : Hex_Board.t) (path : ShortestPath.t)
         (avoid_these_tags : list Z) (sources targets : list Z)
  : option (bool * Hex_Board.t * ShortestPath.t) :=
  match sources with
  | [] => Some (false, b, path)
  | nodeFrom :: rest =>
      match seek_each_target b path avoid_these_tags nodeFrom targets with
      | None => None
      | Some (true, b, path) => Some (true, b, path)
      | Some (false, b, path) =>
          seek_each_source b path avoid_these_tags rest targets
      end
  end.

(** West border to east border through the cells of player 2, on the
    board handed in by the bot. *)
Definition check_bot_won (_board : Hex_Board.t) : option (bool * Hex_Board.t) :=
  let path := ShortestPath.new in
  let avoid_these_tags := [0; 1] in
  let L := Hex_Board.get_border_length _board in
  match seek_each_source _board path avoid_these_tags
          (map (fun w => Hex_Board.coordinate_to_nodeIndex _board w 0) (range L))
          (map (fun e => Hex_Board.coordinate_to_nodeIndex _board e (L - 1))
               (range L)) with
  | None => None
  | Some (connects, _board, _) => Some (connects, _board)
  end.

(** North border to south border through the cells of player 1. *)
Definition check_connection_vertical (game : t) : option (bool * t) :=
  let path := ShortestPath.new in
  let avoid_these_tags := [0; 2] in
  match seek_each_source (board game) path avoid_these_tags
          (map (fun n => Hex_Board.coordinate_to_nodeIndex (board game) 0 n)
               (range (border_length game)))
          (map (fun s => Hex_Board.coordinate_to_nodeIndex
                           (board game) (border_length game - 1) s)
               (range (border_length game))) with
  | None => None
  | Some (connects, b, _) => Some (connects, with_board b game)
  end.

(** West border to east border through the cells of player 2. *)
Definition check_connection_lateral (game : t) : option (bool * t) :=
  let path := ShortestPath.new in
  let avoid_these_tags := [0; 1] in
  match seek_each_source (board game) path avoid_these_tags
          (map (fun w => Hex_Board.coordinate_to_nodeIndex (board game) w 0)
               (range (border_length game)))
          (map (fun e => Hex_Board.coordinate_to_nodeIndex
                           (board game) e (border_length game - 1))
               (range (border_length game))) with
  | None => None
  | Some (connects, b, _) => Some (connects, with_board b game)
  end.

(** *** The choice of the bot's move in [game_loop]

    A win ratio is a [double] obtained as [victories / (victories +
    defeats)] with at most [N_MC_ITERATIONS] runs, or the initial [-1]:
    the model keeps it as the rational it stands for, on which [>] decides
    the same. *)
Definition N_MC_ITERATIONS : Z := 750.

Definition ratio (bot_victories human_victories : Z) : Q :=
  Qmake bot_victories (Z.to_pos (bot_victories + human_victories)).

Definition Qgtb (a b : Q) : bool := negb (Qle_bool a b).

(** The loop over [nodes_and_ratios] from index 1. *)
Definition scan_max (temp_index_of_max : Z) (temp_max : Q)
           (rest : list (Z * Q)) : Z * Q :=
  fold_left
    (fun '(temp_index_of_max, temp_max) entry =>
       if Qgtb (snd entry) temp_max then (fst entry, snd entry)
       else (temp_index_of_max, temp_max))
    rest (temp_index_of_max, temp_max).

Inductive bot_move :=
| Swap (node : Z) (win_ratio : Q)
| Place (node : Z) (win_ratio : Q).

(** From the ratios to the move.  [swap_runs] is what the Monte Carlo
    runs of the swap case return when they are made, and
    [first_move_of_player1] the node of player 1's last recorded move.
    [None] stands for reading [nodes_and_ratios[0]] in an empty vector. *)
Definition choose_move (swap_rule : bool) (this_is_movement_number : Z)
           (nodes_and_ratios : list (Z * Q)) (swap_runs : Q)
           (first_move_of_player1 : Z) : option bot_move :=
  let '(ratio_bot_victories_with_swap, player1_first_move) :=
    if (this_is_movement_number =? 2) && swap_rule
    then (swap_runs, first_move_of_player1)
    else (inject_Z (-1), -999) in
  match nodes_and_ratios with
  | [] => None
  | first :: rest =>
      let '(temp_index_of_max, temp_max) :=
        scan_max (fst first) (snd first) rest in
      if swap_rule && Qgtb ratio_bot_victories_with_swap temp_max
      then Some (Swap player1_first_move ratio_bot_victories_with_swap)
      else Some (Place temp_index_of_max temp_max)
  end.
(** *** The bot's turn in [game_loop]

    Of the Monte Carlo runs the model has those that draw no random
    number but through [shuffle]: the runs for a candidate when the swap
    rule is off, and the runs of the swap case.  [shufflable] is the
    vector as a call of [shuffle] has left it. *)

(** [unused_nodes], and [shufflable] before it is shuffled: the nodes
    whose tag is 0, in increasing order. *)
Definition unused_nodes (board : Hex_Board.t) : list Z :=
  filter (fun i => Graph.get_node_tag (Hex_Board.graph board) i =? 0)
         (range (Graph.V (Hex_Board.graph board))).

(** The loop over [shufflable] of one run: the stones put on the copy of
    the board, the players taking turns. *)
Definition fill_board (aux_board : Hex_Board.t) (aux_current_player : Z)
           (skipped_node : Z) (shufflable : list Z) : Hex_Board.t * Z :=
  fold_left
    (fun '(aux_board, aux_current_player) next_node =>
       if negb (next_node =? skipped_node)
       then (Hex_Board.set_node_tag aux_board next_node aux_current_player,
             Z.rem aux_current_player 2 + 1)
       else (aux_board, aux_current_player))
    shufflable (aux_board, aux_current_player).

(** One run for the candidate [fixed_possible_node] when the swap rule is
    off: the board that [check_bot_won] is given. *)
Definition playout (board : Hex_Board.t) (fixed_possible_node : Z)
           (shufflable : list Z) : Hex_Board.t :=
  let aux_current_player := 2 in
  let aux_board :=
    Hex_Board.set_node_tag board fixed_possible_node aux_current_player in
  fst (fill_board aux_board aux_current_player fixed_possible_node shufflable).

(** One run of the swap case: player 1's first move becomes player 2's
    and the turn goes back to player 1. *)
Definition playout_after_swap (board : Hex_Board.t) (player1_first_move : Z)
           (shufflable : list Z) : Hex_Board.t :=
  let aux_current_player := 2 in
  let aux_board :=
    Hex_Board.set_node_tag board player1_first_move aux_current_player in
  let aux_current_player := Z.rem aux_current_player 2 + 1 in
  fst (fill_board aux_board aux_current_player player1_first_move shufflable).

(** The counting of the runs: a run that [check_bot_won] finds won counts
    for the bot, any other for the human.  [None] when a check does not
    return. *)
Definition count_victories (runs : list Hex_Board.t) : option (Z * Z) :=
  fold_left
    (fun counts aux_board =>
       match counts with
       | None => None
       | Some (bot_victories, human_victories) =>
           match check_bot_won aux_board with
           | None => None
           | Some (true, _) => Some (bot_victories + 1, human_victories)
           | Some (false, _) => Some (bot_victories, human_victories + 1)
           end
       end)
    runs (Some (0, 0)).


Definition ratio_bot_victories_with_swap (board : Hex_Board.t)
           (player1_first_move : Z) (shuffles : list (list Z)) : option Q :=
  match count_victories
          (map (playout_after_swap board player1_first_move) shuffles) with
  | None => None
  | Some (bot_victories, human_victories) =>
      Some (ratio bot_victories human_victories)
  end.


End Hex_Game.

(** * Vocabulary of the statements *)

Definition trd (val1 val2 val3 : Z) : int_int_and_num_Triad :=
  Triad.mk val1 val2 val3.

Definition edge (val1 val2 : Z) : int_and_num_Pair := Pair.mk val1 val2.

(** The costs of a queue never go down from front to back. *)
Fixpoint nondecreasing (queue : PriorityQueue.t) : bool :=
  match queue with
  | [] => true
  | a :: rest =>
      match rest with
      | [] => true
      | b :: _ => (Triad.get_value3 a <=? Triad.get_value3 b) && nondecreasing rest
      end
  end.

(** [a] stands somewhere in front of [b]. *)
Definition comes_before (a b : int_int_and_num_Triad) (queue : PriorityQueue.t)
  : Prop :=
  exists l1 l2 l3, queue = l1 ++ a :: l2 ++ b :: l3.

(** The entries of a queue that go to [val2]. *)
Definition entries_to (val2 : Z) (queue : PriorityQueue.t) : PriorityQueue.t :=
  filter (fun e => Triad.get_value2 e =? val2) queue.

(** Two graphs on two nodes in matrix form: one without any edge, one whose
    edge between 0 and 1 costs 0 (what [addEdge(0, 1, 0)] builds, and what
    the random generator builds when the drawn cost rounds down to 0). *)
Definition two_nodes (m : list (list bool_and_num_Pair)) : Graph.t :=
  Graph.mk 2 m [] CON_MATRIX [0; 0] [0; 0] true false.

Definition graph_without_edges : Graph.t :=
  two_nodes [[Graph.no_edge; Graph.no_edge]; [Graph.no_edge; Graph.no_edge]].

Definition graph_with_free_edge : Graph.t :=
  two_nodes [[Graph.no_edge; mk_bool_num true 0];
             [mk_bool_num true 0; Graph.no_edge]].

(** The candidate moves [l1 ++ c :: l2] seen from the chosen one: those in
    front of [c] have a strictly lower ratio, those behind none higher. *)
Definition first_maximum (c : Z * Q) (candidates : list (Z * Q)) : Prop :=
  exists l1 l2,
    candidates = l1 ++ c :: l2
    /\ (forall e, In e l1 -> (snd e < snd c)%Q)
    /\ (forall e, In e l2 -> (snd e <= snd c)%Q).

(** [ratio_bot_victories_with_swap] as [game_loop] has it before the
    choice. *)
Definition ratio_with_swap (swap_rule : bool) (this_is_movement_number : Z)
           (swap_runs : Q) : Q :=
  if (this_is_movement_number =? 2) && swap_rule then swap_runs
  else inject_Z (-1).

(** A matrix of [n] rows of [n] cells. *)
Definition square (n : Z) (m : list (list bool_and_num_Pair)) : Prop :=
  length m = Z.to_nat n /\ Forall (fun row => length row = Z.to_nat n) m.

(** An edge list as the conversions read it: present, one row per node,
    every entry going to a node of the graph. *)
Definition edgeList_in_shape (g : Graph.t) : Prop :=
  Graph.edgeList_was_computed g = true
  /\ 0 <= Graph.size g
  /\ length (Graph.edgeList g) = Z.to_nat (Graph.size g)
  /\ Forall (Forall (fun e => 0 <= Pair.get_value1 e < Graph.size g))
            (Graph.edgeList g).

(** No row lists one node with two different costs. *)
Definition one_cost_per_edge (g : Graph.t) : Prop :=
  Forall
    (fun row =>
       forall e1 e2, In e1 row -> In e2 row ->
                     Pair.get_value1 e1 = Pair.get_value1 e2 ->
                     Pair.get_value2 e1 = Pair.get_value2 e2)
    (Graph.edgeList g).

(** Matrix from list, then list from that matrix. *)
Definition round_trip (g : Graph.t) : Graph.t :=
  Graph.generate_edgeList_from_conMatrix
    (Graph.generate_conMatrix_from_edgeList g).

(** The undirected graph on one node in edge-list mode, as its constructor
    leaves it (with one node no random number is drawn): a 1 x 1 matrix
    without edge and one empty row, both marked computed. *)
Definition graph_on_one_node : Graph.t :=
  Graph.mk 1 [[Graph.no_edge]] [[]] EDGE_LIST [0] [0] true true.

(** A loop added at cost 5, then forced to cost 7. *)
Definition graph_with_loop : Graph.t :=
  undirected_Graph.force_set_edge_value
    (undirected_Graph.addEdge graph_on_one_node 0 0 5) 0 0 7.

(** The six neighbours of a cell of the rhombic board, by coordinates. *)
Definition hex_near (x y x' y' : Z) : Prop :=
  (x' = x - 1 /\ y' = y) \/ (x' = x - 1 /\ y' = y + 1)
  \/ (x' = x /\ y' = y - 1) \/ (x' = x /\ y' = y + 1)
  \/ (x' = x + 1 /\ y' = y - 1) \/ (x' = x + 1 /\ y' = y).

(** The boards of a game: the constructed board and what tag-setting, by
    index or by coordinates of a cell of the board, makes of it. *)
Inductive in_play (L : Z) (mode : representationMode) : Hex_Board.t -> Prop :=
| in_play_new : in_play L mode (Hex_Board.new L mode)
| in_play_tag b node val :
    in_play L mode b -> 0 <= node < L * L ->
    in_play L mode (Hex_Board.set_node_tag b node val)
| in_play_tag_at b x y val :
    in_play L mode b -> 0 <= x < L -> 0 <= y < L ->
    in_play L mode (Hex_Board.set_node_tag_byCoordinates b x y val).

(** The written cells of the board's matrix: [i] is among the nodes
    connected to [j]. *)
Definition hex_linked (L i j : Z) : bool :=
  existsb (fun k => k =? i)
          (Hex_Board.nodes_connected_to L (Z.quot j L) (Z.rem j L)).

(** [v] is listed among the neighbours of [u]. *)
Definition linked (g : Graph.t) (u v : Z) : bool :=
  existsb (fun e => Pair.get_value1 e =? v) (fst (Graph.neighbors g u)).

(** The graph of a board of border length [L] built in [mode], whatever its
    tags: the graph of the constructed board with another tag vector, one
    tag per node. *)
Definition board_of (L : Z) (mode : representationMode) (b : Hex_Board.t)
  : Prop :=
  Hex_Board.border_length b = L
  /\ Hex_Board.graph b
     = Graph.with_nodeTags (Graph.nodeTags (Hex_Board.graph b))
                           (Hex_Board.graph (Hex_Board.new L mode))
  /\ length (Graph.nodeTags (Hex_Board.graph b)) = Z.to_nat (L * L).

(** ** The search *)

(** The tag of [u] is one of the tags to avoid. *)
Definition banned (g : Graph.t) (avoid : list Z) (u : Z) : bool :=
  existsb (fun banned_tag => Graph.get_node_tag g u =? banned_tag) avoid.

(** A node of the graph that the search may walk on. *)
Definition allowed (g : Graph.t) (avoid : list Z) (u : Z) : Prop :=
  0 <= u < Graph.size g /\ banned g avoid u = false.

(** [t] is reached from [s] along neighbours, on allowed nodes only (the
    path of no step included). *)
Inductive joined (g : Graph.t) (avoid : list Z) (s : Z) : Z -> Prop :=
| joined_here : allowed g avoid s -> joined g avoid s s
| joined_step u v :
    joined g avoid s u -> linked g u v = true -> allowed g avoid v ->
    joined g avoid s v.

(** The nodes settled so far: the source and where the consumed triads
    lead. *)
Definition closed_nodes (s : Z) (sp : ShortestPath.t) : list Z :=
  s :: map Triad.get_value2 (ShortestPath.used_queue_elements sp).

(** Consumed triads, newest first: each leaves from the source or from the
    end of an older one. *)
Fixpoint chained (s : Z) (newest_first : list int_int_and_num_Triad) : Prop :=
  match newest_first with
  | [] => True
  | e :: older =>
      In (Triad.get_value1 e) (s :: map Triad.get_value2 older)
      /\ chained s older
  end.

(** The frontier: no two entries for one node, every entry an edge from a
    settled node to an open one. *)
Definition queue_ok (g : Graph.t) (open closed : list Z)
           (queue : PriorityQueue.t) : Prop :=
  NoDup (map Triad.get_value2 queue)
  /\ forall e, In e queue ->
               In (Triad.get_value2 e) open
               /\ In (Triad.get_value1 e) closed
               /\ linked g (Triad.get_value1 e) (Triad.get_value2 e) = true.

(** Every edge costs 1, as on a board. *)
Definition unit_costs (g : Graph.t) : Prop :=
  forall u nb, 0 <= u < Graph.size g ->
               In nb (fst (Graph.neighbors g u)) -> Pair.get_value2 nb = 1.

(** The costs that the search holds are small: with [n] triads consumed, a
    settled node costs at most [n], a consumed triad too, and a queued triad
    at most [n + 1].  No sum computed by the loop leaves the range of
    [int]. *)
Definition costs_small (g : Graph.t) (s : Z) (sp : ShortestPath.t) : Prop :=
  length (ShortestPath.tentative_costs sp) = Z.to_nat (Graph.size g)
  /\ (forall u, In u (closed_nodes s sp) ->
                0 <= vat 0 (ShortestPath.tentative_costs sp) u
                <= Z.of_nat (length (ShortestPath.used_queue_elements sp)))
  /\ (forall e, In e (ShortestPath.used_queue_elements sp) ->
                0 <= Triad.get_value3 e
                <= Z.of_nat (length (ShortestPath.used_queue_elements sp)))
  /\ (forall e, In e (ShortestPath.queue sp) ->
                0 <= Triad.get_value3 e
                <= Z.of_nat (length (ShortestPath.used_queue_elements sp)) + 1).

(** What holds of the object at the head of every turn of the loop. *)
Record searching (g : Graph.t) (avoid : list Z) (s t : Z)
       (sp : ShortestPath.t) : Prop := {
  sr_from : ShortestPath.nodeFrom sp = s;
  sr_to : ShortestPath.nodeTo sp = t;
  sr_running : ShortestPath.terminated sp = false;
  sr_unvisited : ShortestPath.nodeTo_was_visited sp = false;
  sr_current : In (ShortestPath.currentNode sp) (closed_nodes s sp);
  sr_open :
    forall v, In v (ShortestPath.open_set sp)
              <-> allowed g avoid v /\ ~ In v (closed_nodes s sp);
  sr_open_nodup : NoDup (ShortestPath.open_set sp);
  sr_closed_nodup : NoDup (closed_nodes s sp);
  sr_target : s <> t -> In t (ShortestPath.open_set sp);
  sr_queue :
    queue_ok g (ShortestPath.open_set sp) (closed_nodes s sp)
             (ShortestPath.queue sp);
  sr_expanded :
    forall u v, In u (closed_nodes s sp) -> u <> ShortestPath.currentNode sp ->
                linked g u v = true -> In v (ShortestPath.open_set sp) ->
                In v (map Triad.get_value2 (ShortestPath.queue sp));
  sr_joined : forall u, In u (closed_nodes s sp) -> joined g avoid s u;
  sr_chain : chained s (rev (ShortestPath.used_queue_elements sp));
  sr_costs : unit_costs g -> costs_small g s sp }.

(** What the backward walk of [reproduce_found_path] needs of the consumed
    triads. *)
Definition walkable (g : Graph.t) (s t : Z) (sp : ShortestPath.t) : Prop :=
  chained s (rev (ShortestPath.used_queue_elements sp))
  /\ NoDup (closed_nodes s sp)
  /\ In t (closed_nodes s sp)
  /\ forall u, In u (closed_nodes s sp) -> 0 <= u < Graph.size g.

(** What holds of the object when the loop has ended. *)
Record finished (g : Graph.t) (avoid : list Z) (s t : Z)
       (sp : ShortestPath.t) : Prop := {
  fin_from : ShortestPath.nodeFrom sp = s;
  fin_to : ShortestPath.nodeTo sp = t;
  fin_terminated : ShortestPath.terminated sp = true;
  fin_exists :
    ShortestPath.path_exists sp = true <-> s <> t /\ joined g avoid s t;
  fin_walkable : ShortestPath.path_exists sp = true -> walkable g s t sp;
  fin_costs :
    unit_costs g ->
    forall e, In e (ShortestPath.used_queue_elements sp) ->
              0 <= Triad.get_value3 e < Graph.size g }.

(** An object that [seek_path] may be called on: used before, or holding
    nothing yet, as the constructor leaves it. *)
Definition ready (sp : ShortestPath.t) : Prop :=
  ShortestPath.path_was_seeked sp = true
  \/ (ShortestPath.open_set sp = [] /\ ShortestPath.closed_set sp = []
      /\ ShortestPath.tentative_costs sp = [] /\ ShortestPath.queue sp = []
      /\ ShortestPath.used_queue_elements sp = []
      /\ ShortestPath.shortest_path sp = []
      /\ ShortestPath.raw_shortest_path sp = []
      /\ ShortestPath.nodeTo_was_visited sp = false).

(** ** The win checks *)

(** Every cell is empty or holds a stone of player 1 or of player 2. *)
Definition tags_of_a_game (g : Graph.t) : Prop :=
  forall u, 0 <= u < Graph.size g ->
            Graph.get_node_tag g u = 0 \/ Graph.get_node_tag g u = 1
            \/ Graph.get_node_tag g u = 2.

(** A chain of adjacent cells from [u] on, all tagged [player] (the chain of
    one cell included). *)
Inductive owned_path (g : Graph.t) (player : Z) (u : Z) : Z -> Prop :=
| owned_here :
    0 <= u < Graph.size g -> Graph.get_node_tag g u = player ->
    owned_path g player u u
| owned_step v w :
    owned_path g player u v ->
    fst (Graph.adjacent g v w) = true ->
    0 <= w < Graph.size g -> Graph.get_node_tag g w = player ->
    owned_path g player u w.

(** ** Breadth-first search, the reference of the refinement claim *)

(** [allowed], decided. *)
Definition allowedb (g : Graph.t) (avoid : list Z) (v : Z) : bool :=
  (0 <=? v) && (v <? Graph.size g) && negb (banned g avoid v).

(** One neighbour seen from the node taken off the queue: an allowed node
    not visited yet is marked and queued. *)
Definition bfs_visit (g : Graph.t) (avoid : list Z) (state : list Z * list Z)
           (v : Z) : list Z * list Z :=
  if allowedb g avoid v && negb (existsb (fun k => k =? v) (snd state))
  then (fst state ++ [v], snd state ++ [v])
  else state.

(** The nodes visited when the queue has run empty (or after [fuel] nodes
    have been taken off it). *)
Fixpoint bfs_loop (fuel : nat) (g : Graph.t) (avoid : list Z)
         (queue visited : list Z) : list Z :=
  match fuel, queue with
  | S fuel', u :: rest =>
      let state :=
        fold_left (bfs_visit g avoid)
                  (map Pair.get_value1 (fst (Graph.neighbors g u)))
                  (rest, visited) in
      bfs_loop fuel' g avoid (fst state) (snd state)
  | _, _ => visited
  end.

(** Plain breadth-first search from [s] over the nodes that are not
    banned: is [t] visited?  Every node is queued at most once, so as many
    turns as the graph has nodes are enough. *)
Definition bfs_reaches (g : Graph.t) (avoid : list Z) (s t : Z) : bool :=
  if allowedb g avoid s
  then existsb (fun k => k =? t)
               (bfs_loop (Z.to_nat (Graph.size g)) g avoid [s] [s])
  else false.

(** The allowed nodes that the search has not visited, counted. *)
Definition unvisited (g : Graph.t) (avoid : list Z) (visited : list Z) : nat :=
  length (filter (fun v => allowedb g avoid v
                           && negb (existsb (fun k => k =? v) visited))
                 (range (Graph.size g))).

(** What holds of the queue and of the visited nodes at every turn of the
    breadth-first search from [s]. *)
Record bfs_state (g : Graph.t) (avoid : list Z) (s : Z)
       (queue visited : list Z) : Prop := {
  bfs_started : In s visited;
  bfs_queued : forall v, In v queue -> In v visited;
  bfs_sound : forall v, In v visited -> joined g avoid s v;
  bfs_done :
    forall u v, In u visited -> ~ In u queue -> linked g u v = true ->
                allowed g avoid v -> In v visited }.

(** A game in progress on a board of border length 3: player 1 holds the
    middle cell, every other cell is empty. *)
Definition board_with_one_stone : Hex_Board.t :=
  Hex_Board.set_node_tag_byCoordinates (Hex_Board.new 3 CON_MATRIX) 1 1 1.

(** What a caller reads from the object after a search. *)
Definition answer (sp : ShortestPath.t) : bool * Z * list int_and_num_Pair :=
  (ShortestPath.get_path_exists sp, ShortestPath.get_path_cost sp,
   ShortestPath.get_path sp).

(** ** Graphs under edition *)

(** A graph held as a matrix only, of one row and one column per node. *)
Definition matrix_graph (g : Graph.t) : Prop :=
  Graph.conMatrix_was_computed g = true
  /\ Graph.edgeList_was_computed g = false
  /\ square (Graph.size g) (Graph.connectivityMatrix g).

(** What the two edge queries answer for a pair of nodes: adjacency, the
    value returned and the message printed. *)
Definition answers (g : Graph.t) (a b : Z) : bool * (Z * option report) :=
  (fst (Graph.adjacent g a b), Graph.get_edge_value g a b).

(** The pair [(a, b)] is [(u, v)] or [(v, u)]. *)
Definition same_edge (u v a b : Z) : bool :=
  ((a =? u) && (b =? v)) || ((a =? v) && (b =? u)).

(** Adjacency and edge values read the same in both directions. *)
Definition undirected (g : Graph.t) : Prop :=
  forall a b, 0 <= a < Graph.size g -> 0 <= b < Graph.size g ->
              fst (Graph.adjacent g a b) = fst (Graph.adjacent g b a)
              /\ fst (Graph.get_edge_value g a b)
                 = fst (Graph.get_edge_value g b a).

(** ** Walks and what the search knows of their costs *)

(** A walk from [u]: every step is an entry of the neighbour list of the
    node before it, and leads to a node that the search may walk on. *)
Fixpoint walk (g : Graph.t) (avoid : list Z) (u : Z)
         (steps : list int_and_num_Pair) : Prop :=
  match steps with
  | [] => True
  | nb :: rest =>
      In nb (fst (Graph.neighbors g u))
      /\ allowed g avoid (Pair.get_value1 nb)
      /\ walk g avoid (Pair.get_value1 nb) rest
  end.

(** Where a walk from [u] ends. *)
Definition walk_end (u : Z) (steps : list int_and_num_Pair) : Z :=
  last (map Pair.get_value1 steps) u.

(** The costs of the steps added up. *)
Definition walk_cost (steps : list int_and_num_Pair) : Z :=
  fold_right (fun nb cost => Pair.get_value2 nb + cost) 0 steps.

(** No edge has a negative cost. *)
Definition nonnegative_costs (g : Graph.t) : Prop :=
  forall u nb, 0 <= u < Graph.size g ->
               In nb (fst (Graph.neighbors g u)) -> 0 <= Pair.get_value2 nb.

(** No neighbour list names a node twice. *)
Definition one_entry_per_neighbour (g : Graph.t) : Prop :=
  forall u, 0 <= u < Graph.size g ->
            NoDup (map Pair.get_value1 (fst (Graph.neighbors g u))).

(** The cost at which a node was settled: 0 for the source, the cost of
    the consumed triad that leads to it otherwise. *)
Definition settled_at (s : Z) (used : list int_int_and_num_Triad) (u c : Z)
  : Prop :=
  (u = s /\ c = 0)
  \/ exists e, In e used /\ Triad.get_value2 e = u /\ Triad.get_value3 e = c.

(** What the loop keeps of the costs, at the head of every turn. *)
Record priced (g : Graph.t) (avoid : list Z) (s : Z) (sp : ShortestPath.t)
  : Prop := {
  pr_length :
    length (ShortestPath.tentative_costs sp) = Z.to_nat (Graph.size g);
  pr_paths :
    ShortestPath.shortest_path sp = []
    /\ ShortestPath.raw_shortest_path sp = [];
  pr_source : vat 0 (ShortestPath.tentative_costs sp) s = 0;
  pr_used :
    forall e, In e (ShortestPath.used_queue_elements sp) ->
              vat 0 (ShortestPath.tentative_costs sp) (Triad.get_value2 e)
              = Triad.get_value3 e;
  pr_edges :
    forall e, In e (ShortestPath.used_queue_elements sp
                    ++ ShortestPath.queue sp) ->
      exists nb, In nb (fst (Graph.neighbors g (Triad.get_value1 e)))
                 /\ Pair.get_value1 nb = Triad.get_value2 e
                 /\ Triad.get_value3 e
                    = Pair.get_value2 nb
                      + vat 0 (ShortestPath.tentative_costs sp)
                            (Triad.get_value1 e);
  pr_best :
    nonnegative_costs g -> one_entry_per_neighbour g ->
    nondecreasing (ShortestPath.queue sp) = true
    /\ (forall u steps,
           In u (closed_nodes s sp) -> walk g avoid s steps ->
           walk_end s steps = u ->
           vat 0 (ShortestPath.tentative_costs sp) u <= walk_cost steps)
    /\ (forall u nb,
           In u (closed_nodes s sp) -> u <> ShortestPath.currentNode sp ->
           In nb (fst (Graph.neighbors g u)) ->
           In (Pair.get_value1 nb) (ShortestPath.open_set sp) ->
           exists e, In e (ShortestPath.queue sp)
                     /\ Triad.get_value2 e = Pair.get_value1 nb
                     /\ Triad.get_value3 e
                        <= vat 0 (ShortestPath.tentative_costs sp) u
                           + Pair.get_value2 nb) }.

(** What is known of the consumed triads when the loop has found the
    target. *)
Record accounted (g : Graph.t) (avoid : list Z) (s t : Z)
       (sp : ShortestPath.t) : Prop := {
  ac_paths :
    ShortestPath.shortest_path sp = []
    /\ ShortestPath.raw_shortest_path sp = [];
  ac_allowed :
    forall e, In e (ShortestPath.used_queue_elements sp) ->
              allowed g avoid (Triad.get_value2 e);
  ac_edges :
    forall e, In e (ShortestPath.used_queue_elements sp) ->
      exists nb c,
        In nb (fst (Graph.neighbors g (Triad.get_value1 e)))
        /\ Pair.get_value1 nb = Triad.get_value2 e
        /\ settled_at s (ShortestPath.used_queue_elements sp)
                      (Triad.get_value1 e) c
        /\ Triad.get_value3 e = Pair.get_value2 nb + c;
  ac_best :
    nonnegative_costs g -> one_entry_per_neighbour g ->
    forall e steps,
      In e (ShortestPath.used_queue_elements sp) -> Triad.get_value2 e = t ->
      walk g avoid s steps -> walk_end s steps = t ->
      Triad.get_value3 e <= walk_cost steps }.

(** The consumed triads from [u] to [t], each leaving where the one before
    it leads. *)
Fixpoint trail (used : list int_int_and_num_Triad) (u : Z)
         (raw : list int_int_and_num_Triad) (t : Z) : Prop :=
  match raw with
  | [] => t = u
  | e :: rest =>
      Triad.get_value1 e = u /\ In e used
      /\ trail used (Triad.get_value2 e) rest t
  end.

(** The steps that [reproduce_found_path] makes of the triads: the node
    reached and the cost over the one before. *)
Fixpoint steps_of (previous_cost : Z) (raw : list int_int_and_num_Triad)
  : list int_and_num_Pair :=
  match raw with
  | [] => []
  | e :: rest =>
      Pair.mk (Triad.get_value2 e) (Triad.get_value3 e - previous_cost)
      :: steps_of (Triad.get_value3 e) rest
  end.


(** Two boards of border length 2: player 1 holds the column 0 of the
    first, player 2 the row 0 of the second. *)
Definition board_with_a_column : Hex_Board.t :=
  Hex_Board.set_node_tag
    (Hex_Board.set_node_tag (Hex_Board.new 2 CON_MATRIX) 0 1) 2 1.

Definition board_with_a_row : Hex_Board.t :=
  Hex_Board.set_node_tag
    (Hex_Board.set_node_tag (Hex_Board.new 2 CON_MATRIX) 0 2) 1 2.

(** * Proofs *)

(** ** Vectors and ranges *)

Lemma in_range_iff (n v : Z) : In v (range n) <-> 0 <= v < n.
Proof.
  unfold range. rewrite in_map_iff. split.
  - intros (k & <- & Hk). apply in_seq in Hk. lia.
  - intros H. exists (Z.to_nat v). split; [lia|]. apply in_seq. lia.
Qed.

Lemma range_nonpos (n : Z) : n <= 0 -> range n = [].
Proof. intros H. unfold range. replace (Z.to_nat n) with O by lia. reflexivity. Qed.

Lemma range_succ (n : Z) : 0 <= n -> range (n + 1) = range n ++ [n].
Proof.
  intros H. unfold range.
  replace (Z.to_nat (n + 1)) with (S (Z.to_nat n)) by lia.
  rewrite seq_S, map_app. simpl. f_equal. f_equal. lia.
Qed.

Lemma range_length (n : Z) : length (range n) = Z.to_nat n.
Proof. unfold range. now rewrite length_map, length_seq. Qed.

Lemma NoDup_range (n : Z) : NoDup (range n).
Proof.
  unfold range. apply Injective_map_NoDup.
  - intros a b H. lia.
  - apply seq_NoDup.
Qed.

(** ** The priority queue *)

Lemma insert_is_loop queue new_element :
  PriorityQueue.insert queue new_element
  = PriorityQueue.insert_loop queue new_element.
Proof.
  unfold PriorityQueue.insert, PriorityQueue.size, vsize.
  destruct queue; reflexivity.
Qed.

Lemma nondecreasing_cons a queue :
  nondecreasing (a :: queue) = true ->
  nondecreasing queue = true
  /\ forall e, In e queue -> Triad.get_value3 a <= Triad.get_value3 e.
Proof.
  revert a. induction queue as [|b rest IH]; intros a H.
  - split; [reflexivity | intros e []].
  - cbn [nondecreasing] in H. apply andb_prop in H as [Hab Hrest].
    split; [exact Hrest|].
    apply Z.leb_le in Hab. destruct (IH b Hrest) as [_ Hall].
    intros e [<- | He]; [exact Hab|]. specialize (Hall e He). lia.
Qed.

Lemma nondecreasing_intro a queue :
  nondecreasing queue = true ->
  (forall e, In e queue -> Triad.get_value3 a <= Triad.get_value3 e) ->
  nondecreasing (a :: queue) = true.
Proof.
  intros Hq Hall. destruct queue as [|b rest]; [reflexivity|].
  cbn [nondecreasing]. apply andb_true_intro. split; [|exact Hq].
  apply Z.leb_le, Hall. now left.
Qed.

Lemma insert_loop_split queue new_element :
  exists front back,
    queue = front ++ back
    /\ PriorityQueue.insert_loop queue new_element = front ++ new_element :: back
    /\ (forall e, In e front ->
                  Triad.get_value3 e < Triad.get_value3 new_element)
    /\ (forall e, hd_error back = Some e ->
                  Triad.get_value3 new_element <= Triad.get_value3 e).
Proof.
  induction queue as [|a rest IH].
  - exists [], []. repeat split; simpl; intros; try contradiction; discriminate.
  - cbn [PriorityQueue.insert_loop].
    destruct (Triad.get_value3 a >=? Triad.get_value3 new_element) eqn:Hge.
    + exists [], (a :: rest). repeat split; simpl; intros e He;
        try contradiction.
      injection He as <-. apply Z.geb_le in Hge. exact Hge.
    + destruct IH as (front & back & Hq & Hins & Hfront & Hback).
      exists (a :: front), back. rewrite Hins, Hq. repeat split; auto.
      intros e [<- | He]; [|now apply Hfront].
      rewrite Z.geb_leb in Hge. apply Z.leb_gt in Hge. exact Hge.
Qed.

Lemma nondecreasing_app_inv front back :
  nondecreasing (front ++ back) = true ->
  nondecreasing front = true /\ nondecreasing back = true
  /\ forall a b, In a front -> In b back ->
                 Triad.get_value3 a <= Triad.get_value3 b.
Proof.
  induction front as [|x front IH]; intros H.
  - repeat split; auto. intros a b [].
  - change ((x :: front) ++ back) with (x :: (front ++ back)) in H.
    apply nondecreasing_cons in H as [Hrest Hall].
    destruct (IH Hrest) as (Hf & Hb & Hcross).
    repeat split; auto.
    + apply nondecreasing_intro; auto. intros e He. apply Hall.
      apply in_or_app. now left.
    + intros a b [<- | Ha] Hb'; [|now apply Hcross].
      apply Hall. apply in_or_app. now right.
Qed.

Lemma nondecreasing_app front back :
  nondecreasing front = true -> nondecreasing back = true ->
  (forall a b, In a front -> In b back ->
               Triad.get_value3 a <= Triad.get_value3 b) ->
  nondecreasing (front ++ back) = true.
Proof.
  induction front as [|x front IH]; intros Hf Hb Hcross; [exact Hb|].
  change ((x :: front) ++ back) with (x :: (front ++ back)).
  apply nondecreasing_cons in Hf as [Hf Hall].
  apply nondecreasing_intro.
  - apply IH; auto. intros a b Ha Hb'. apply Hcross; [now right | exact Hb'].
  - intros e He. apply in_app_or in He as [He | He]; [now apply Hall|].
    apply Hcross; [now left | exact He].
Qed.

(** C4, as the code has it: [insert] puts the new triad right before the
    first entry whose cost is at least its own, and at the end when there is
    no such entry.  A queue in non-decreasing order of cost stays so, every
    entry in front of the new triad is strictly cheaper, and every entry of
    the same cost, though inserted earlier, ends up behind it. *)
Theorem insert_keeps_order_new_first_among_ties
        (queue : PriorityQueue.t) (new_element : int_int_and_num_Triad) :
  nondecreasing queue = true ->
  exists front back,
    queue = front ++ back
    /\ PriorityQueue.insert queue new_element = front ++ new_element :: back
    /\ (forall e, In e front ->
                  Triad.get_value3 e < Triad.get_value3 new_element)
    /\ (forall e, In e back ->
                  Triad.get_value3 new_element <= Triad.get_value3 e)
    /\ (forall e, In e queue ->
                  Triad.get_value3 e = Triad.get_value3 new_element ->
                  In e back)
    /\ nondecreasing (PriorityQueue.insert queue new_element) = true.
Proof.
  intros Hsorted. rewrite insert_is_loop.
  destruct (insert_loop_split queue new_element)
    as (front & back & Hq & Hins & Hfront & Hhead).
  exists front, back. rewrite Hins.
  assert (Hparts := Hsorted). rewrite Hq in Hparts.
  apply nondecreasing_app_inv in Hparts as (Hf & Hb & Hcross).
  assert (Hback : forall e, In e back ->
                            Triad.get_value3 new_element <= Triad.get_value3 e).
  { destruct back as [|b back']; [intros e []|].
    specialize (Hhead b eq_refl).
    apply nondecreasing_cons in Hb as [_ Hall].
    intros e [<- | He]; [exact Hhead|]. specialize (Hall e He). lia. }
  repeat split; auto.
  - intros e He Hcost. rewrite Hq in He. apply in_app_or in He as [He | He];
      [|exact He].
    specialize (Hfront e He). lia.
  - apply nondecreasing_app; auto.
    + apply nondecreasing_intro; auto.
    + intros a b Ha [<- | Hb']; [specialize (Hfront a Ha); lia|].
      now apply Hcross.
Qed.

Lemma insert_keeps_order_new_first_among_ties_witness :
  nondecreasing [trd 0 1 5; trd 0 3 7] = true
  /\ exists front back,
      [trd 0 1 5; trd 0 3 7] = front ++ back
      /\ PriorityQueue.insert [trd 0 1 5; trd 0 3 7] (trd 0 2 5)
         = front ++ trd 0 2 5 :: back
      /\ (forall e, In e front -> Triad.get_value3 e < 5)
      /\ (forall e, In e back -> 5 <= Triad.get_value3 e)
      /\ (forall e, In e [trd 0 1 5; trd 0 3 7] ->
                    Triad.get_value3 e = 5 -> In e back)
      /\ nondecreasing (PriorityQueue.insert [trd 0 1 5; trd 0 3 7] (trd 0 2 5))
         = true.
Proof.
  split; [reflexivity|].
  apply (insert_keeps_order_new_first_among_ties
           [trd 0 1 5; trd 0 3 7] (trd 0 2 5)).
  reflexivity.
Defined.

(** C4, as the specification words it, fails on a tie: the triad inserted
    first does not come before the one inserted after it at the same
    cost. *)
Lemma insert_is_not_stable :
  nondecreasing [trd 0 1 5] = true
  /\ PriorityQueue.insert [trd 0 1 5] (trd 0 2 5) = [trd 0 2 5; trd 0 1 5]
  /\ ~ comes_before (trd 0 1 5) (trd 0 2 5)
         (PriorityQueue.insert [trd 0 1 5] (trd 0 2 5)).
Proof.
  split; [reflexivity|]. split; [reflexivity|].
  intros (l1 & l2 & l3 & H). cbn in H.
  destruct l1 as [|x [|y l1]]; cbn in H.
  - inversion H.
  - inversion H as [[Hx Hrest]]. destruct l2; discriminate.
  - inversion H as [[Hx Hy Hrest]]. destruct l1; discriminate.
Qed.

Lemma erase_first_to_absent queue val2 :
  ~ In val2 (map Triad.get_value2 queue) ->
  PriorityQueue.erase_first_to queue val2 = queue.
Proof.
  induction queue as [|e rest IH]; intros Hnot; [reflexivity|].
  cbn [PriorityQueue.erase_first_to].
  destruct (Triad.get_value2 e =? val2) eqn:He.
  - apply Z.eqb_eq in He. exfalso. apply Hnot. now left.
  - f_equal. apply IH. intros Hin. apply Hnot. now right.
Qed.

Lemma filter_absent queue val2 :
  ~ In val2 (map Triad.get_value2 queue) ->
  filter (fun e => negb (Triad.get_value2 e =? val2)) queue = queue.
Proof.
  induction queue as [|e rest IH]; intros Hnot; [reflexivity|].
  cbn [filter]. destruct (Triad.get_value2 e =? val2) eqn:He.
  - apply Z.eqb_eq in He. exfalso. apply Hnot. now left.
  - cbn. f_equal. apply IH. intros Hin. apply Hnot. now right.
Qed.

Lemma erase_first_to_unique queue val2 :
  NoDup (map Triad.get_value2 queue) ->
  PriorityQueue.erase_first_to queue val2
  = filter (fun e => negb (Triad.get_value2 e =? val2)) queue.
Proof.
  induction queue as [|e rest IH]; intros Hnd; [reflexivity|].
  cbn [map] in Hnd. apply NoDup_cons_iff in Hnd as [Hnot Hnd].
  cbn [PriorityQueue.erase_first_to filter].
  destruct (Triad.get_value2 e =? val2) eqn:He; cbn [negb].
  - apply Z.eqb_eq in He. subst val2. symmetry. now apply filter_absent.
  - f_equal. now apply IH.
Qed.

Lemma erase_first_to_length queue val2 :
  (length (PriorityQueue.erase_first_to queue val2) <= length queue)%nat.
Proof.
  induction queue as [|e rest IH]; cbn [PriorityQueue.erase_first_to length];
    [lia|].
  destruct (Triad.get_value2 e =? val2); cbn [length]; lia.
Qed.

(** The recursion bound of [update_loop] is never what stops it: from turn
    [i] on, as many turns as the queue has elements beyond [i] are enough,
    and more change nothing. *)
Lemma update_loop_fuel_enough val2 (extra : nat) :
  forall fuel i queue,
    0 <= i -> (length queue <= Z.to_nat i + fuel)%nat ->
    PriorityQueue.update_loop (fuel + extra) i queue val2
    = PriorityQueue.update_loop fuel i queue val2.
Proof.
  induction fuel as [|fuel IH]; intros i queue Hi Hlen.
  - assert (Hstop : (i <? PriorityQueue.size queue) = false).
    { apply Z.ltb_ge. unfold PriorityQueue.size, vsize. lia. }
    destruct extra; cbn [Nat.add PriorityQueue.update_loop];
      [reflexivity | now rewrite Hstop].
  - cbn [Nat.add PriorityQueue.update_loop].
    destruct (i <? PriorityQueue.size queue); [|reflexivity].
    apply IH; [lia|].
    pose proof (erase_first_to_length queue val2). lia.
Qed.

Lemma update_loop_absent fuel i queue val2 :
  ~ In val2 (map Triad.get_value2 queue) ->
  PriorityQueue.update_loop fuel i queue val2 = queue.
Proof.
  revert i. induction fuel as [|fuel IH]; intros i Hnot; [reflexivity|].
  cbn [PriorityQueue.update_loop].
  destruct (i <? PriorityQueue.size queue); [|reflexivity].
  rewrite erase_first_to_absent by exact Hnot. now apply IH.
Qed.

Lemma filtered_has_none queue val2 :
  ~ In val2
      (map Triad.get_value2
           (filter (fun e => negb (Triad.get_value2 e =? val2)) queue)).
Proof.
  rewrite in_map_iff. intros (e & He & Hin).
  apply filter_In in Hin as [_ Hneq]. subst val2.
  rewrite Z.eqb_refl in Hneq. discriminate.
Qed.

(** When no two entries go to the same node, as in every queue the search
    builds, the loops of [update_queue_with_shorter_path] do remove the
    entry going to the new triad's node. *)
Lemma update_queue_unique queue new_element :
  NoDup (map Triad.get_value2 queue) ->
  PriorityQueue.update_queue_with_shorter_path queue new_element
  = PriorityQueue.insert
      (filter (fun e => negb (Triad.get_value2 e
                              =? Triad.get_value2 new_element)) queue)
      new_element.
Proof.
  intros Hnd. unfold PriorityQueue.update_queue_with_shorter_path. f_equal.
  destruct queue as [|a rest]; [reflexivity|].
  cbn [length PriorityQueue.update_loop].
  replace (0 <? PriorityQueue.size (a :: rest)) with true
    by (symmetry; apply Z.ltb_lt; unfold PriorityQueue.size, vsize;
        cbn [length]; lia).
  rewrite erase_first_to_unique by exact Hnd.
  apply update_loop_absent, filtered_has_none.
Qed.

(** C5 at a queue that holds two entries for node 5, built with [insert]
    alone: the outer loop stops after one turn, because its bound has
    shrunk to 1, and the second old entry survives next to the new one. *)
Theorem update_queue_leaves_an_old_entry :
  PriorityQueue.insert (PriorityQueue.insert [] (trd 0 5 1)) (trd 1 5 2)
  = [trd 0 5 1; trd 1 5 2]
  /\ PriorityQueue.update_queue_with_shorter_path
       [trd 0 5 1; trd 1 5 2] (trd 2 5 0)
     = [trd 2 5 0; trd 1 5 2]
  /\ entries_to 5 (PriorityQueue.update_queue_with_shorter_path
                     [trd 0 5 1; trd 1 5 2] (trd 2 5 0))
     <> [trd 2 5 0].
Proof.
  split; [reflexivity|]. split; [reflexivity|]. cbn. discriminate.
Qed.

(** ** The cost of an edge *)

Lemma find_cost_none row nodeTo :
  existsb (fun e => Pair.get_value1 e =? nodeTo) row = false ->
  Graph.find_cost row nodeTo = None.
Proof.
  induction row as [|e rest IH]; intros H; [reflexivity|].
  cbn [existsb] in H. apply orb_false_elim in H as [He Hrest].
  cbn [Graph.find_cost]. rewrite He. now apply IH.
Qed.

Lemma find_cost_some row nodeTo :
  existsb (fun e => Pair.get_value1 e =? nodeTo) row = true ->
  exists c, Graph.find_cost row nodeTo = Some c /\ In (Pair.mk nodeTo c) row.
Proof.
  induction row as [|e rest IH]; intros H; [discriminate|].
  cbn [existsb] in H. cbn [Graph.find_cost].
  destruct (Pair.get_value1 e =? nodeTo) eqn:He.
  - exists (Pair.get_value2 e). split; [reflexivity|]. left.
    apply Z.eqb_eq in He. subst nodeTo. now destruct e.
  - destruct (IH H) as (c & Hc & Hin). exists c. split; [exact Hc | now right].
Qed.

(** C6, as the code has it: asked for the cost of an edge that is not
    there, [get_edge_value] writes a line to [cout] and returns 0 -- the
    number it also returns for an edge that is there and costs 0.  No
    failure reaches the caller. *)
Theorem get_edge_value_of_missing_edge_is_zero (g : Graph.t) (u v : Z) :
  fst (Graph.adjacent g u v) = false ->
  exists printed, Graph.get_edge_value g u v = (0, Some printed).
Proof.
  unfold Graph.adjacent, Graph.get_edge_value.
  destruct (Graph.edgeList_was_computed g).
  - cbn [fst]. intros H. rewrite (find_cost_none _ _ H). eauto.
  - destruct (Graph.conMatrix_was_computed g); cbn [fst].
    + intros ->. eauto.
    + intros _. eauto.
Qed.

Lemma get_edge_value_of_missing_edge_is_zero_witness :
  fst (Graph.adjacent graph_without_edges 0 1) = false
  /\ exists printed,
      Graph.get_edge_value graph_without_edges 0 1 = (0, Some printed).
Proof.
  split; [reflexivity|].
  apply (get_edge_value_of_missing_edge_is_zero graph_without_edges 0 1).
  reflexivity.
Defined.

(** C6, as the specification words it, fails: between two nodes that no
    edge joins the call returns the value 0, and that is also the answer
    for the existing edge of the second graph. *)
Lemma get_edge_value_returns_a_valid_looking_zero :
  fst (Graph.adjacent graph_without_edges 0 1) = false
  /\ fst (Graph.get_edge_value graph_without_edges 0 1) = 0
  /\ fst (Graph.adjacent graph_with_free_edge 0 1) = true
  /\ fst (Graph.get_edge_value graph_with_free_edge 0 1)
     = fst (Graph.get_edge_value graph_without_edges 0 1).
Proof. repeat split. Qed.

(** ** The choice of the bot's move *)

Lemma Qgtb_lt (a b : Q) : Hex_Game.Qgtb a b = true <-> (b < a)%Q.
Proof.
  unfold Hex_Game.Qgtb. rewrite negb_true_iff.
  split; intros H.
  - apply Qnot_le_lt. intros Hle. apply Qle_bool_iff in Hle. congruence.
  - destruct (Qle_bool a b) eqn:E; [|reflexivity].
    apply Qle_bool_iff in E. exfalso. exact (Qlt_not_le _ _ H E).
Qed.

Lemma Qgtb_le (a b : Q) : Hex_Game.Qgtb a b = false <-> (a <= b)%Q.
Proof.
  unfold Hex_Game.Qgtb. rewrite negb_false_iff. apply Qle_bool_iff.
Qed.

Lemma scan_max_keeps_first_maximum rest :
  forall pre mid temp_index_of_max temp_max,
    (forall e, In e pre -> (snd e < temp_max)%Q) ->
    (forall e, In e mid -> (snd e <= temp_max)%Q) ->
    first_maximum (Hex_Game.scan_max temp_index_of_max temp_max rest)
                  (pre ++ (temp_index_of_max, temp_max) :: mid ++ rest).
Proof.
  induction rest as [|e rest IH]; intros pre mid i m Hpre Hmid.
  - exists pre, mid. rewrite app_nil_r. cbn. auto.
  - unfold Hex_Game.scan_max. cbn [fold_left].
    destruct (Hex_Game.Qgtb (snd e) m) eqn:Hgt.
    + apply Qgtb_lt in Hgt.
      replace (pre ++ (i, m) :: mid ++ e :: rest)
        with ((pre ++ (i, m) :: mid) ++ (fst e, snd e) :: [] ++ rest)
        by (rewrite <- app_assoc; cbn; now destruct e).
      apply IH; [|intros ? []].
      intros x Hx. apply in_app_or in Hx as [Hx | [<- | Hx]].
      * eapply Qlt_trans; [now apply Hpre | exact Hgt].
      * exact Hgt.
      * eapply Qle_lt_trans; [now apply Hmid | exact Hgt].
    + apply Qgtb_le in Hgt.
      replace (pre ++ (i, m) :: mid ++ e :: rest)
        with (pre ++ (i, m) :: (mid ++ [e]) ++ rest)
        by (now rewrite <- app_assoc).
      apply IH; [exact Hpre|].
      intros x Hx. apply in_app_or in Hx as [Hx | [<- | []]];
        [now apply Hmid | exact Hgt].
Qed.

(** C9: among the candidate cells the bot keeps the first one whose ratio
    no other exceeds (a later cell replaces the current choice only with a
    strictly greater ratio), and it swaps exactly when the swap rule is on
    and the ratio of the swap is strictly greater than that best ratio;
    otherwise it places its stone on the kept cell. *)
Theorem choose_move_takes_first_maximum_and_swaps_only_when_better
        (swap_rule : bool) (this_is_movement_number : Z)
        (first : Z * Q) (rest : list (Z * Q)) (swap_runs : Q)
        (first_move_of_player1 : Z) :
  exists node best,
    first_maximum (node, best) (first :: rest)
    /\ ((exists swapped,
            Hex_Game.choose_move swap_rule this_is_movement_number
                                 (first :: rest) swap_runs first_move_of_player1
            = Some (Hex_Game.Swap swapped
                      (ratio_with_swap swap_rule this_is_movement_number
                                       swap_runs))
            /\ swap_rule = true
            /\ (best < ratio_with_swap swap_rule this_is_movement_number
                                       swap_runs)%Q
            /\ (this_is_movement_number = 2 -> swapped = first_move_of_player1))
        \/ (Hex_Game.choose_move swap_rule this_is_movement_number
                                 (first :: rest) swap_runs first_move_of_player1
            = Some (Hex_Game.Place node best)
            /\ (swap_rule = false
                \/ (ratio_with_swap swap_rule this_is_movement_number swap_runs
                    <= best)%Q))).
Proof.
  pose proof (scan_max_keeps_first_maximum rest [] [] (fst first) (snd first))
    as Hmax.
  cbn [app] in Hmax. replace (fst first, snd first) with first in Hmax
    by now destruct first.
  specialize (Hmax (fun e (H : In e []) => match H with end)
                   (fun e (H : In e []) => match H with end)).
  destruct (Hex_Game.scan_max (fst first) (snd first) rest) as [node best] eqn:Hscan.
  exists node, best. split; [exact Hmax|].
  unfold Hex_Game.choose_move, ratio_with_swap.
  destruct ((this_is_movement_number =? 2) && swap_rule) eqn:Hsecond;
    rewrite Hscan.
  - apply andb_prop in Hsecond as [Hmv ->]. cbn [andb].
    destruct (Hex_Game.Qgtb swap_runs best) eqn:Hgt.
    + left. exists first_move_of_player1. apply Qgtb_lt in Hgt. auto.
    + right. apply Qgtb_le in Hgt. auto.
  - destruct swap_rule; cbn [andb].
    + destruct (Hex_Game.Qgtb (inject_Z (-1)) best) eqn:Hgt.
      * left. exists (-999). apply Qgtb_lt in Hgt.
        rewrite andb_true_r in Hsecond. apply Z.eqb_neq in Hsecond.
        repeat split; auto. intros; contradiction.
      * right. apply Qgtb_le in Hgt. auto.
    + right. auto.
Qed.

(** ** Reading and writing vectors and matrices *)

Section VectorFacts.
Context {A : Type}.
Implicit Types (v : list A) (d x : A).

Lemma upd_nat_length v n x : length (upd_nat v n x) = length v.
Proof.
  revert n. induction v as [|y r IH]; intros [|k]; cbn; auto.
Qed.

Lemma nth_upd_nat v n k x d :
  nth k (upd_nat v n x) d
  = if (Nat.eqb k n && Nat.ltb n (length v))%bool then x else nth k v d.
Proof.
  revert n k. induction v as [|y r IH]; intros n k.
  - cbn. rewrite andb_false_r. now destruct n.
  - destruct n as [|n], k as [|k]; cbn [upd_nat nth length]; try reflexivity.
    rewrite IH. reflexivity.
Qed.

Lemma vset_length v i x : length (vset v i x) = length v.
Proof. unfold vset. destruct (i <? 0); [reflexivity | apply upd_nat_length]. Qed.

Lemma vat_vset v i j x d :
  vat d (vset v i x) j
  = if ((j =? i) && (0 <=? i) && (i <? vsize v))%bool then x else vat d v j.
Proof.
  unfold vat, vset, vsize.
  destruct (Z.ltb_spec i 0) as [Hi | Hi].
  - replace (0 <=? i) with false by (symmetry; apply Z.leb_gt; lia).
    now rewrite andb_false_r.
  - destruct (Z.ltb_spec j 0) as [Hj | Hj].
    + replace (j =? i) with false by (symmetry; apply Z.eqb_neq; lia).
      reflexivity.
    + rewrite nth_upd_nat.
      replace (0 <=? i) with true by (symmetry; apply Z.leb_le; lia).
      rewrite andb_true_r.
      replace (Nat.eqb (Z.to_nat j) (Z.to_nat i)) with (j =? i).
      2:{ destruct (Z.eqb_spec j i) as [-> | Hne]; symmetry.
          - apply Nat.eqb_refl.
          - apply Nat.eqb_neq. lia. }
      replace (Nat.ltb (Z.to_nat i) (length v))
        with (i <? Z.of_nat (length v)); [reflexivity|].
      destruct (Z.ltb_spec i (Z.of_nat (length v))); symmetry.
      * apply Nat.ltb_lt. lia.
      * apply Nat.ltb_ge. lia.
Qed.

Lemma upd_nat_overflow v n x : (length v <= n)%nat -> upd_nat v n x = v.
Proof.
  revert n. induction v as [|y r IH]; intros [|k] H; cbn in *;
    try reflexivity; try lia.
  f_equal. apply IH. lia.
Qed.

Lemma vat_outside v i d : i < 0 \/ vsize v <= i -> vat d v i = d.
Proof.
  unfold vat, vsize. intros H. destruct (Z.ltb_spec i 0); [reflexivity|].
  apply nth_overflow. lia.
Qed.

Lemma vat_in v i d : 0 <= i < vsize v -> In (vat d v i) v.
Proof.
  unfold vat, vsize. intros H.
  replace (i <? 0) with false by (symmetry; apply Z.ltb_ge; lia).
  apply nth_In. lia.
Qed.

Lemma vat_last v x d : vat d (v ++ [x]) (vsize v) = x.
Proof.
  unfold vat, vsize.
  replace (Z.of_nat (length v) <? 0) with false
    by (symmetry; apply Z.ltb_ge; lia).
  rewrite Nat2Z.id. apply nth_middle.
Qed.

Lemma vat_app_front v w i d : i < vsize v -> vat d (v ++ w) i = vat d v i.
Proof.
  unfold vat, vsize. intros H. destruct (Z.ltb_spec i 0); [reflexivity|].
  apply app_nth1. lia.
Qed.

Lemma upd_nat_last v x y : upd_nat (v ++ [x]) (length v) y = v ++ [y].
Proof. induction v as [|z r IH]; cbn; [reflexivity | now rewrite IH]. Qed.

Lemma vset_last v x y : vset (v ++ [x]) (vsize v) y = v ++ [y].
Proof.
  unfold vset, vsize.
  replace (Z.of_nat (length v) <? 0) with false
    by (symmetry; apply Z.ltb_ge; lia).
  rewrite Nat2Z.id. apply upd_nat_last.
Qed.
End VectorFacts.

Lemma vat_map_range {A} (f : Z -> A) (n i : Z) (d : A) :
  0 <= i < n -> vat d (map f (range n)) i = f i.
Proof.
  intros H. unfold vat, range.
  replace (i <? 0) with false by (symmetry; apply Z.ltb_ge; lia).
  rewrite map_map.
  rewrite (nth_indep _ d (f (Z.of_nat 0))) by (rewrite length_map, length_seq; lia).
  rewrite (map_nth (fun k => f (Z.of_nat k))), seq_nth by lia.
  f_equal. lia.
Qed.

Lemma entry_set_entry m i j p i' j' :
  Graph.entry (Graph.set_entry m i j p) i' j'
  = if ((i' =? i) && (j' =? j) && (0 <=? i) && (i <? vsize m)
        && (0 <=? j) && (j <? vsize (vat [] m i)))%bool
    then p else Graph.entry m i' j'.
Proof.
  unfold Graph.entry, Graph.set_entry. rewrite vat_vset.
  destruct (Z.eqb_spec i' i) as [-> | Hi]; cbn [andb]; [|reflexivity].
  destruct (0 <=? i) eqn:H0; cbn [andb]; [|now rewrite andb_false_r].
  destruct (i <? vsize m) eqn:H1; cbn [andb];
    [|now rewrite !andb_false_r].
  rewrite vat_vset.
  destruct (j' =? j); cbn [andb]; [|reflexivity].
  now destruct (0 <=? j), (j <? vsize (vat [] m i)).
Qed.

Lemma square_row n m i :
  square n m -> 0 <= i < n -> vsize (vat [] m i) = n.
Proof.
  intros [Hlen Hrows] Hi. unfold vsize.
  rewrite Forall_forall in Hrows. rewrite (Hrows (vat [] m i)); [lia|].
  apply vat_in. unfold vsize. lia.
Qed.

Lemma square_size n m : square n m -> 0 <= n -> vsize m = n.
Proof. intros [Hlen _] Hn. unfold vsize. lia. Qed.

Lemma Forall_upd_nat {A} (P : A -> Prop) v n x :
  Forall P v -> P x -> Forall P (upd_nat v n x).
Proof.
  intros Hv Hx. revert n. induction Hv as [|y r Hy Hr IH]; intros [|k]; cbn;
    auto.
Qed.

Lemma square_set_entry n m i j p :
  square n m -> square n (Graph.set_entry m i j p).
Proof.
  intros [Hlen Hrows]. unfold Graph.set_entry. split.
  - now rewrite vset_length.
  - unfold vset at 1. destruct (Z.ltb_spec i 0) as [Hneg | Hpos]; [exact Hrows|].
    destruct (Z.ltb_spec i (vsize m)) as [Hin | Hout].
    + apply Forall_upd_nat; [exact Hrows|]. rewrite vset_length.
      rewrite Forall_forall in Hrows. apply Hrows. apply vat_in. lia.
    + rewrite upd_nat_overflow; [exact Hrows|]. unfold vsize in Hout. lia.
Qed.

Lemma blank_row_fold (l : list Z) rows row :
  fold_left (fun m (_ : Z) =>
               vset m (vsize rows) (vat [] m (vsize rows) ++ [Graph.no_edge]))
            l (rows ++ [row])
  = rows ++ [row ++ repeat Graph.no_edge (length l)].
Proof.
  revert row. induction l as [|k l IH]; intros row.
  - cbn. now rewrite app_nil_r.
  - cbn [fold_left]. rewrite vat_last, vset_last, IH.
    rewrite <- app_assoc. reflexivity.
Qed.

Lemma push_rows_from_empty (cols : list Z) (k : nat) :
  fold_left
    (fun m i =>
       fold_left (fun m (_ : Z) => vset m i (vat [] m i ++ [Graph.no_edge]))
                 cols (m ++ [[]]))
    (map Z.of_nat (seq 0 k)) []
  = repeat (repeat Graph.no_edge (length cols)) k.
Proof.
  induction k as [|k IH]; [reflexivity|].
  rewrite seq_S, map_app, fold_left_app, IH. cbn [map fold_left Nat.add].
  replace (Z.of_nat k)
    with (vsize (repeat (repeat Graph.no_edge (length cols)) k))
    by (unfold vsize; now rewrite repeat_length).
  rewrite blank_row_fold. cbn [app]. now rewrite <- repeat_cons.
Qed.

Lemma push_blank_rows_from_empty (n : Z) :
  Graph.push_blank_rows [] n
  = repeat (repeat Graph.no_edge (Z.to_nat n)) (Z.to_nat n).
Proof.
  unfold Graph.push_blank_rows. unfold range at 2.
  rewrite push_rows_from_empty. now rewrite range_length.
Qed.

Lemma square_blank (n : Z) :
  square n (repeat (repeat Graph.no_edge (Z.to_nat n)) (Z.to_nat n)).
Proof.
  split; [apply repeat_length|].
  apply Forall_forall. intros row Hrow. apply repeat_spec in Hrow. subst row.
  apply repeat_length.
Qed.

Lemma entry_blank (n i j : Z) :
  Graph.entry (repeat (repeat Graph.no_edge (Z.to_nat n)) (Z.to_nat n)) i j
  = Graph.no_edge.
Proof.
  unfold Graph.entry.
  assert (Hrow : vat [] (repeat (repeat Graph.no_edge (Z.to_nat n)) (Z.to_nat n)) i
                 = [] \/
                 vat [] (repeat (repeat Graph.no_edge (Z.to_nat n)) (Z.to_nat n)) i
                 = repeat Graph.no_edge (Z.to_nat n)).
  { unfold vat. destruct (i <? 0); [now left|].
    destruct (Nat.lt_ge_cases (Z.to_nat i) (Z.to_nat n)) as [Hlt | Hge].
    - right. now apply nth_repeat_lt.
    - left. apply nth_overflow. now rewrite repeat_length. }
  destruct Hrow as [-> | ->]; unfold vat; destruct (j <? 0); try reflexivity.
  - now destruct (Z.to_nat j).
  - apply nth_repeat.
Qed.

(** ** The two representations of a graph *)

Lemma row_edges_find_cost (g : Graph.t) (u v : Z) (l : list Z) :
  Graph.find_cost
    (flat_map
       (fun j =>
          if get_bool (Graph.entry (Graph.connectivityMatrix g) u j)
          then [Pair.mk j (get_value (Graph.entry (Graph.connectivityMatrix g) u j))]
          else [])
       l) v
  = if existsb (fun j => j =? v) l
       && get_bool (Graph.entry (Graph.connectivityMatrix g) u v)
    then Some (get_value (Graph.entry (Graph.connectivityMatrix g) u v))
    else None.
Proof.
  induction l as [|j l IH]; [reflexivity|].
  cbn [flat_map existsb].
  destruct (get_bool (Graph.entry (Graph.connectivityMatrix g) u j)) eqn:Hj.
  - cbn [app Graph.find_cost Pair.get_value1 Pair.get_value2].
    destruct (Z.eqb_spec j v) as [-> | Hne].
    + cbn [orb andb]. now rewrite Hj.
    + cbn [orb]. exact IH.
  - cbn [app]. rewrite IH.
    destruct (Z.eqb_spec j v) as [-> | Hne]; cbn [orb]; [|reflexivity].
    rewrite Hj. now rewrite andb_false_r.
Qed.

Lemma row_edges_existsb (g : Graph.t) (u v : Z) (l : list Z) :
  existsb (fun e => Pair.get_value1 e =? v)
    (flat_map
       (fun j =>
          if get_bool (Graph.entry (Graph.connectivityMatrix g) u j)
          then [Pair.mk j (get_value (Graph.entry (Graph.connectivityMatrix g) u j))]
          else [])
       l)
  = existsb (fun j => j =? v) l
    && get_bool (Graph.entry (Graph.connectivityMatrix g) u v).
Proof.
  induction l as [|j l IH]; [reflexivity|].
  cbn [flat_map existsb]. rewrite existsb_app, IH.
  destruct (get_bool (Graph.entry (Graph.connectivityMatrix g) u j)) eqn:Hj.
  - cbn [existsb Pair.get_value1 orb].
    destruct (Z.eqb_spec j v) as [-> | Hne]; cbn [orb andb]; [|reflexivity].
    now rewrite Hj.
  - cbn [existsb orb].
    destruct (Z.eqb_spec j v) as [-> | Hne]; cbn [orb andb]; [|reflexivity].
    rewrite Hj. now rewrite andb_false_r.
Qed.

Lemma existsb_range (n v : Z) :
  0 <= v < n -> existsb (fun j => j =? v) (range n) = true.
Proof.
  intros H. apply existsb_exists. exists v. split; [|apply Z.eqb_refl].
  now apply in_range_iff.
Qed.

(** One row of the edge list written into the matrix. *)
Lemma write_row (n i : Z) (row : list int_and_num_Pair) :
  0 <= i < n ->
  Forall (fun e => 0 <= Pair.get_value1 e < n) row ->
  forall m, square n m ->
    square n (Graph.copy_row i m row)
    /\ (forall i' j', i' <> i ->
          Graph.entry (Graph.copy_row i m row) i' j' = Graph.entry m i' j')
    /\ (forall j', existsb (fun e => Pair.get_value1 e =? j') row = false ->
                   Graph.entry (Graph.copy_row i m row) i j' = Graph.entry m i j')
    /\ (forall j', existsb (fun e => Pair.get_value1 e =? j') row = true ->
                   exists c, In (Pair.mk j' c) row
                             /\ Graph.entry (Graph.copy_row i m row) i j'
                                = mk_bool_num true c).
Proof.
  intros Hi Hrow. induction Hrow as [|e row He Hrow IH]; intros m Hm.
  - cbn. split; [exact Hm|]. split; [reflexivity|].
    split; [reflexivity | discriminate].
  - change (Graph.copy_row i m (e :: row))
      with (Graph.copy_row i
              (Graph.set_entry m i (Pair.get_value1 e)
                               (mk_bool_num true (Pair.get_value2 e))) row).
    set (m1 := Graph.set_entry m i (Pair.get_value1 e)
                               (mk_bool_num true (Pair.get_value2 e))).
    assert (Hm1 : square n m1) by now apply square_set_entry.
    destruct (IH m1 Hm1) as (Hsq & Hother & Hkeep & Hset).
    split; [exact Hsq|]. split; [|split].
    + intros i' j' Hne. rewrite Hother by exact Hne. unfold m1.
      rewrite entry_set_entry.
      replace (i' =? i) with false by (symmetry; now apply Z.eqb_neq).
      reflexivity.
    + intros j' Hno. cbn [existsb] in Hno.
      apply orb_false_elim in Hno as [Hne Hno].
      rewrite Hkeep by exact Hno. unfold m1. rewrite entry_set_entry.
      rewrite Z.eqb_sym in Hne. rewrite Hne. now rewrite andb_false_r.
    + intros j' Hyes.
      destruct (existsb (fun e0 => Pair.get_value1 e0 =? j') row) eqn:Hrest.
      * destruct (Hset j' Hrest) as (c & Hin & Hc). exists c. split; auto.
        now right.
      * cbn [existsb] in Hyes. rewrite Hrest, orb_false_r in Hyes.
        apply Z.eqb_eq in Hyes. subst j'.
        exists (Pair.get_value2 e). split; [left; now destruct e|].
        rewrite Hkeep by exact Hrest. unfold m1. rewrite entry_set_entry.
        rewrite (square_size n m Hm) by lia.
        rewrite (square_row n m i Hm Hi).
        rewrite !Z.eqb_refl.
        replace (0 <=? i) with true by (symmetry; apply Z.leb_le; lia).
        replace (i <? n) with true by (symmetry; apply Z.ltb_lt; lia).
        replace (0 <=? Pair.get_value1 e) with true
          by (symmetry; apply Z.leb_le; lia).
        replace (Pair.get_value1 e <? n) with true
          by (symmetry; apply Z.ltb_lt; lia).
        reflexivity.
Qed.

(** All rows written, each once. *)
Lemma write_rows (n : Z) (rows : list (list int_and_num_Pair)) (l : list Z) :
  NoDup l ->
  (forall i, In i l -> 0 <= i < n) ->
  (forall i, Forall (fun e => 0 <= Pair.get_value1 e < n) (vat [] rows i)) ->
  forall m, square n m ->
    square n (Graph.copy_rows rows l m)
    /\ (forall i j, ~ In i l ->
          Graph.entry (Graph.copy_rows rows l m) i j = Graph.entry m i j)
    /\ (forall i j, In i l ->
          (existsb (fun e => Pair.get_value1 e =? j) (vat [] rows i) = false ->
           Graph.entry (Graph.copy_rows rows l m) i j = Graph.entry m i j)
          /\ (existsb (fun e => Pair.get_value1 e =? j) (vat [] rows i) = true ->
              exists c, In (Pair.mk j c) (vat [] rows i)
                        /\ Graph.entry (Graph.copy_rows rows l m) i j
                           = mk_bool_num true c)).
Proof.
  intros Hnd Hin Hrows. induction Hnd as [|i l Hnot Hnd IH]; intros m Hm.
  - cbn. split; [exact Hm|]. split; [reflexivity|]. intros i j [].
  - change (Graph.copy_rows rows (i :: l) m)
      with (Graph.copy_rows rows l (Graph.copy_row i m (vat [] rows i))).
    assert (Hi : 0 <= i < n) by (apply Hin; now left).
    destruct (write_row n i (vat [] rows i) Hi (Hrows i) m Hm)
      as (Hsq1 & Hother1 & Hkeep1 & Hset1).
    set (m1 := Graph.copy_row i m (vat [] rows i)) in *.
    destruct (IH (fun k Hk => Hin k (or_intror Hk)) m1 Hsq1)
      as (Hsq & Hout & Hrow).
    split; [exact Hsq|]. split.
    + intros i' j Hni. rewrite Hout by (intros H; apply Hni; now right).
      apply Hother1. intros ->. apply Hni. now left.
    + intros i' j [<- | Hi'].
      * rewrite (Hout i j Hnot). split; [apply Hkeep1 | apply Hset1].
      * destruct (Hrow i' j Hi') as [Hkeep Hset].
        assert (Hne : i' <> i) by (intros ->; contradiction).
        rewrite <- (Hother1 i' j Hne). split; assumption.
Qed.

Lemma rows_in_shape (g : Graph.t) :
  edgeList_in_shape g ->
  forall i, Forall (fun e => 0 <= Pair.get_value1 e < Graph.size g)
                   (vat [] (Graph.edgeList g) i).
Proof.
  intros (_ & _ & Hlen & Hall) i.
  destruct (Z.ltb_spec i 0) as [Hneg | Hpos].
  - rewrite vat_outside by now left. constructor.
  - destruct (Z.ltb_spec i (vsize (Graph.edgeList g))) as [Hlt | Hge].
    + rewrite Forall_forall in Hall. apply Hall. apply vat_in. lia.
    + rewrite vat_outside by now right. constructor.
Qed.

(** What [generate_conMatrix_from_edgeList] leaves in the matrix. *)
Lemma conMatrix_from_edgeList_entries (g : Graph.t) :
  edgeList_in_shape g ->
  Graph.size (Graph.generate_conMatrix_from_edgeList g) = Graph.size g
  /\ Graph.conMatrix_was_computed (Graph.generate_conMatrix_from_edgeList g)
     = true
  /\ forall i j, 0 <= i < Graph.size g ->
       (existsb (fun e => Pair.get_value1 e =? j)
                (vat [] (Graph.edgeList g) i) = false ->
        Graph.entry
          (Graph.connectivityMatrix (Graph.generate_conMatrix_from_edgeList g))
          i j = Graph.no_edge)
       /\ (existsb (fun e => Pair.get_value1 e =? j)
                   (vat [] (Graph.edgeList g) i) = true ->
           exists c, In (Pair.mk j c) (vat [] (Graph.edgeList g) i)
                     /\ Graph.entry
                          (Graph.connectivityMatrix
                             (Graph.generate_conMatrix_from_edgeList g)) i j
                        = mk_bool_num true c).
Proof.
  intros Hshape. pose proof Hshape as (Hflag & Hn & Hlen & Hall).
  unfold Graph.generate_conMatrix_from_edgeList. rewrite Hflag.
  cbv zeta. unfold Graph.with_connectivityMatrix. cbn [Graph.size
    Graph.conMatrix_was_computed Graph.edgeList Graph.connectivityMatrix].
  rewrite push_blank_rows_from_empty.
  destruct (write_rows (Graph.size g) (Graph.edgeList g) (range (Graph.size g))
              (NoDup_range _) (fun i Hi => proj1 (in_range_iff _ _) Hi)
              (rows_in_shape g Hshape) _ (square_blank (Graph.size g)))
    as (Hsq & _ & Hrows).
  split; [reflexivity|]. split; [reflexivity|].
  intros i j Hi.
  destruct (Hrows i j (proj2 (in_range_iff _ _) Hi)) as [Hkeep Hset].
  split.
  - intros Hno. rewrite Hkeep by exact Hno. apply entry_blank.
  - exact Hset.
Qed.

Lemma round_trip_row (g : Graph.t) (u : Z) :
  edgeList_in_shape g -> 0 <= u < Graph.size g ->
  Graph.edgeList_was_computed (round_trip g) = true
  /\ vat [] (Graph.edgeList (round_trip g)) u
     = Graph.row_edges (Graph.generate_conMatrix_from_edgeList g) u.
Proof.
  intros Hshape Hu.
  destruct (conMatrix_from_edgeList_entries g Hshape) as (Hsize & Hflag & _).
  unfold round_trip, Graph.generate_edgeList_from_conMatrix.
  rewrite Hflag. unfold Graph.with_edgeList.
  cbn [Graph.edgeList_was_computed Graph.edgeList]. split; [reflexivity|].
  rewrite Hsize. now rewrite vat_map_range.
Qed.

(** C8, as the code has it: when no row of the edge list names one node
    with two different costs, the matrix built from the list and the list
    built back from that matrix answer [adjacent] and [get_edge_value] as
    the original list did, for every pair of nodes. *)
Theorem round_trip_keeps_adjacency_and_costs (g : Graph.t) (u v : Z) :
  edgeList_in_shape g ->
  one_cost_per_edge g ->
  0 <= u < Graph.size g ->
  0 <= v < Graph.size g ->
  fst (Graph.adjacent (round_trip g) u v) = fst (Graph.adjacent g u v)
  /\ Graph.get_edge_value (round_trip g) u v = Graph.get_edge_value g u v.
Proof.
  intros Hshape Hcost Hu Hv.
  destruct (round_trip_row g u Hshape Hu) as [Hflag Hrow].
  destruct (conMatrix_from_edgeList_entries g Hshape) as (Hsize & _ & Hentries).
  destruct (Hentries u v Hu) as [Hno Hyes].
  pose proof Hshape as (Hflag0 & _).
  unfold Graph.adjacent, Graph.get_edge_value.
  rewrite Hflag, Hflag0, Hrow. cbn [fst].
  unfold Graph.row_edges. rewrite row_edges_existsb, row_edges_find_cost.
  rewrite Hsize, (existsb_range _ _ Hv). cbn [andb].
  destruct (existsb (fun e => Pair.get_value1 e =? v)
                    (vat [] (Graph.edgeList g) u)) eqn:Hex.
  - destruct (Hyes eq_refl) as (c & Hin & ->). cbn [get_bool get_value].
    split; [reflexivity|].
    destruct (find_cost_some _ _ Hex) as (c0 & -> & Hin0).
    f_equal.
    assert (Hrow_in : In (vat [] (Graph.edgeList g) u) (Graph.edgeList g)).
    { destruct Hshape as (_ & _ & Hlen & _). apply vat_in. unfold vsize. lia. }
    unfold one_cost_per_edge in Hcost. rewrite Forall_forall in Hcost.
    exact (Hcost _ Hrow_in _ _ Hin Hin0 eq_refl).
  - rewrite (Hno eq_refl). cbn [Graph.no_edge get_bool].
    split; [reflexivity|]. now rewrite (find_cost_none _ _ Hex).
Qed.

Lemma graph_on_one_node_in_shape :
  edgeList_in_shape (undirected_Graph.addEdge graph_on_one_node 0 0 5).
Proof.
  unfold edgeList_in_shape. cbn. repeat split; try lia; try reflexivity.
  repeat constructor; cbn; lia.
Qed.

Lemma round_trip_keeps_adjacency_and_costs_witness :
  fst (Graph.adjacent
         (round_trip (undirected_Graph.addEdge graph_on_one_node 0 0 5)) 0 0)
  = fst (Graph.adjacent (undirected_Graph.addEdge graph_on_one_node 0 0 5) 0 0)
  /\ Graph.get_edge_value
       (round_trip (undirected_Graph.addEdge graph_on_one_node 0 0 5)) 0 0
     = Graph.get_edge_value (undirected_Graph.addEdge graph_on_one_node 0 0 5)
                            0 0.
Proof.
  apply (round_trip_keeps_adjacency_and_costs
           (undirected_Graph.addEdge graph_on_one_node 0 0 5) 0 0).
  - exact graph_on_one_node_in_shape.
  - unfold one_cost_per_edge. cbn. repeat constructor.
    intros e1 e2 [<- | [<- | []]] [<- | [<- | []]] _; reflexivity.
  - cbn. lia.
  - cbn. lia.
Defined.

(** C8, as the specification words it, fails on a graph reached with the
    class's own methods: after [addEdge(0, 0, 5)] and
    [force_set_edge_value(0, 0, 7)] the row of node 0 holds the loop twice,
    at costs 7 and 5; the list answers 7 (its first entry), the matrix keeps
    the last one written, and after the round trip the cost is 5. *)
Lemma round_trip_changes_a_cost :
  Graph.edgeList graph_with_loop = [[edge 0 7; edge 0 5]]
  /\ edgeList_in_shape graph_with_loop
  /\ Graph.get_edge_value graph_with_loop 0 0 = (7, None)
  /\ Graph.get_edge_value (round_trip graph_with_loop) 0 0 = (5, None).
Proof.
  split; [reflexivity|]. split; [|split; reflexivity].
  unfold edgeList_in_shape. cbn. repeat split; try lia; try reflexivity.
  repeat constructor; cbn; lia.
Qed.

(** ** The adjacency of the board *)

Lemma coords_unique (L a b a' b' : Z) :
  0 <= b < L -> 0 <= b' < L -> a * L + b = a' * L + b' -> a = a' /\ b = b'.
Proof. intros Hb Hb' H. assert (a = a') by nia. subst a'. lia. Qed.

Lemma coords_of_index (L i : Z) :
  0 < L -> 0 <= i < L * L ->
  0 <= Z.quot i L < L /\ 0 <= Z.rem i L < L
  /\ i = Z.quot i L * L + Z.rem i L.
Proof.
  intros HL Hi.
  rewrite Z.quot_div_nonneg, Z.rem_mod_nonneg by lia.
  pose proof (Z.mod_pos_bound i L HL) as Hmod.
  pose proof (Z.div_mod i L ltac:(lia)) as Hdm.
  assert (0 <= i / L) by (apply Z.div_pos; lia).
  assert (i / L < L) by (apply Z.div_lt_upper_bound; lia).
  repeat split; lia.
Qed.

(** Each written index decoded back into coordinates. *)
Ltac decode_as L H a b :=
  match type of H with
  | ?x' * L + ?y' = _ =>
      let H2 := fresh "Hxy" in
      assert (H2 : x' = a /\ y' = b) by (apply (coords_unique L); lia)
  end.

Ltac decode L H :=
  match type of H with
  | _ = (?x - 1) * L + ?y + 1 => decode_as L H (x - 1) (y + 1)
  | _ = (?x + 1) * L + ?y - 1 => decode_as L H (x + 1) (y - 1)
  | _ = (?x - 1) * L + ?y => decode_as L H (x - 1) y
  | _ = (?x + 1) * L + ?y => decode_as L H (x + 1) y
  | _ = ?x * L + ?y + 1 => decode_as L H x (y + 1)
  | _ = ?x * L + ?y - 1 => decode_as L H x (y - 1)
  end.

Ltac pick_listed :=
  cbn [In]; repeat (first [left; lia | right]); fail.

Lemma connected_iff_near (L x y x' y' : Z) :
  2 <= L -> 0 <= x < L -> 0 <= y < L -> 0 <= x' < L -> 0 <= y' < L ->
  In (x' * L + y') (Hex_Board.nodes_connected_to L x y) <-> hex_near x y x' y'.
Proof.
  intros HL Hx Hy Hx' Hy'. unfold Hex_Board.nodes_connected_to, hex_near.
  destruct (Z.eqb_spec x 0) as [Hx0 | Hx0];
    destruct (Z.eqb_spec y 0) as [Hy0 | Hy0];
    destruct (Z.eqb_spec x (L - 1)) as [HxL | HxL];
    destruct (Z.eqb_spec y (L - 1)) as [HyL | HyL];
    cbn [andb]; try lia;
    (split;
     [ cbn [In]; intros H;
       repeat match type of H with
              | _ \/ _ => destruct H as [H | H]
              | False => contradiction
              end;
       symmetry in H; decode L H; lia
     | intros H;
       repeat match type of H with
              | _ \/ _ => destruct H as [H | H]
              end;
       destruct H as [-> ->]; first [lia | pick_listed] ]).
Qed.

(** For [L >= 2] the constructor writes inside the matrix only: every
    [temp_nodeFrom] is a node of the board. *)
Lemma writes_stay_on_the_board (L x y k : Z) :
  2 <= L -> 0 <= x < L -> 0 <= y < L ->
  In k (Hex_Board.nodes_connected_to L x y) -> 0 <= k < L * L.
Proof.
  intros HL Hx Hy. unfold Hex_Board.nodes_connected_to.
  destruct (Z.eqb_spec x 0) as [Hx0 | Hx0];
    destruct (Z.eqb_spec y 0) as [Hy0 | Hy0];
    destruct (Z.eqb_spec x (L - 1)) as [HxL | HxL];
    destruct (Z.eqb_spec y (L - 1)) as [HyL | HyL];
    cbn [andb In]; intros H;
    repeat match type of H with
           | _ \/ _ => destruct H as [H | H]
           | False => contradiction
           end;
    subst k; nia.
Qed.

Lemma hex_near_sym (x y x' y' : Z) : hex_near x y x' y' <-> hex_near x' y' x y.
Proof. unfold hex_near. lia. Qed.

Lemma hex_linked_iff (L i j : Z) :
  2 <= L -> 0 <= i < L * L -> 0 <= j < L * L ->
  hex_linked L i j = true
  <-> hex_near (Z.quot j L) (Z.rem j L) (Z.quot i L) (Z.rem i L).
Proof.
  intros HL Hi Hj.
  destruct (coords_of_index L i ltac:(lia) Hi) as (Hxi & Hyi & Ei).
  destruct (coords_of_index L j ltac:(lia) Hj) as (Hxj & Hyj & Ej).
  rewrite <- (connected_iff_near L _ _ _ _ HL Hxj Hyj Hxi Hyi). rewrite <- Ei.
  unfold hex_linked. rewrite existsb_exists. split.
  - intros (k & Hk & E). apply Z.eqb_eq in E. now subst k.
  - intros H. exists i. split; [exact H | apply Z.eqb_refl].
Qed.

Lemma hex_linked_sym (L i j : Z) :
  2 <= L -> 0 <= i < L * L -> 0 <= j < L * L ->
  hex_linked L i j = hex_linked L j i.
Proof.
  intros HL Hi Hj. apply eq_true_iff_eq.
  rewrite !hex_linked_iff by assumption. apply hex_near_sym.
Qed.

(** The writes of one turn of the loop over [node]. *)
Lemma connect_fold (n node : Z) (p : bool_and_num_Pair) (froms : list Z) :
  forall m, square n m ->
    square n (fold_left (fun m f => Graph.set_entry m f node p) froms m)
    /\ forall i j, 0 <= i < n -> 0 <= j < n ->
         Graph.entry (fold_left (fun m f => Graph.set_entry m f node p) froms m)
                     i j
         = if (j =? node) && existsb (fun k => k =? i) froms then p
           else Graph.entry m i j.
Proof.
  induction froms as [|f froms IH]; intros m Hm.
  - cbn. split; [exact Hm|]. intros i j _ _. now rewrite andb_false_r.
  - cbn [fold_left existsb].
    destruct (IH (Graph.set_entry m f node p) (square_set_entry n m f node p Hm))
      as [Hsq Hentry].
    split; [exact Hsq|]. intros i j Hi Hj. rewrite (Hentry i j Hi Hj).
    rewrite entry_set_entry.
    destruct (Z.eqb_spec j node) as [-> | Hjn]; cbn [andb].
    2:{ now rewrite andb_false_r. }
    destruct (existsb (fun k => k =? i) froms); [now rewrite orb_true_r|].
    rewrite orb_false_r. rewrite (Z.eqb_sym i f).
    destruct (Z.eqb_spec f i) as [-> | Hfi]; cbn [andb]; [|reflexivity].
    rewrite (square_size n m Hm) by lia. rewrite (square_row n m i Hm Hi).
    replace (0 <=? i) with true by (symmetry; apply Z.leb_le; lia).
    replace (i <? n) with true by (symmetry; apply Z.ltb_lt; lia).
    replace (0 <=? node) with true by (symmetry; apply Z.leb_le; lia).
    replace (node <? n) with true by (symmetry; apply Z.ltb_lt; lia).
    reflexivity.
Qed.

Lemma connect_node_entries (b : Hex_Board.t) (node : Z) :
  0 <= node < Graph.size (Hex_Board.graph b) ->
  forall m, square (Graph.size (Hex_Board.graph b)) m ->
    square (Graph.size (Hex_Board.graph b)) (Hex_Board.connect_node b m node)
    /\ forall i j, 0 <= i < Graph.size (Hex_Board.graph b) ->
                   0 <= j < Graph.size (Hex_Board.graph b) ->
         Graph.entry (Hex_Board.connect_node b m node) i j
         = if (j =? node) && hex_linked (Hex_Board.border_length b) i node
           then mk_bool_num true 1 else Graph.entry m i j.
Proof.
  intros Hnode m Hm. unfold Hex_Board.connect_node, hex_linked.
  unfold Hex_Board.nodeIndex_to_coordinate.
  replace (node <? 0) with false by (symmetry; apply Z.ltb_ge; lia).
  replace (node >? Graph.size (Hex_Board.graph b) - 1) with false
    by (symmetry; rewrite Z.gtb_ltb; apply Z.ltb_ge; lia).
  cbn [orb fst snd]. now apply connect_fold.
Qed.

Lemma connect_all_entries (b : Hex_Board.t) (nodes : list Z) :
  (forall k, In k nodes -> 0 <= k < Graph.size (Hex_Board.graph b)) ->
  forall m, square (Graph.size (Hex_Board.graph b)) m ->
    square (Graph.size (Hex_Board.graph b))
           (fold_left (Hex_Board.connect_node b) nodes m)
    /\ forall i j, 0 <= i < Graph.size (Hex_Board.graph b) ->
                   0 <= j < Graph.size (Hex_Board.graph b) ->
         Graph.entry (fold_left (Hex_Board.connect_node b) nodes m) i j
         = if existsb (fun k => k =? j) nodes
              && hex_linked (Hex_Board.border_length b) i j
           then mk_bool_num true 1 else Graph.entry m i j.
Proof.
  induction nodes as [|node nodes IH]; intros Hin m Hm.
  - cbn. split; [exact Hm | reflexivity].
  - cbn [fold_left existsb].
    destruct (connect_node_entries b node (Hin node (or_introl eq_refl)) m Hm)
      as [Hsq1 Hentry1].
    destruct (IH (fun k Hk => Hin k (or_intror Hk)) _ Hsq1) as [Hsq Hentry].
    split; [exact Hsq|]. intros i j Hi Hj.
    rewrite (Hentry i j Hi Hj), (Hentry1 i j Hi Hj).
    rewrite (Z.eqb_sym node j).
    destruct (Z.eqb_spec j node) as [-> | Hne]; cbn [orb andb]; [|reflexivity].
    destruct (existsb (fun k => k =? node) nodes); cbn [andb];
      destruct (hex_linked (Hex_Board.border_length b) i node); reflexivity.
Qed.

(** What the constructor builds. *)
Lemma new_board_graph (L : Z) (mode : representationMode) :
  Hex_Board.border_length (Hex_Board.new L mode) = L
  /\ Graph.size (Hex_Board.graph (Hex_Board.new L mode)) = L * L
  /\ Graph.conMatrix_was_computed (Hex_Board.graph (Hex_Board.new L mode)) = true
  /\ Graph.nodeTags (Hex_Board.graph (Hex_Board.new L mode))
     = map (fun _ => 0) (range (L * L))
  /\ (forall i j, 0 <= i < L * L -> 0 <= j < L * L ->
        Graph.entry
          (Graph.connectivityMatrix (Hex_Board.graph (Hex_Board.new L mode))) i j
        = if hex_linked L i j then mk_bool_num true 1 else Graph.no_edge)
  /\ (Graph.edgeList_was_computed (Hex_Board.graph (Hex_Board.new L mode)) = true ->
      Graph.edgeList (Hex_Board.graph (Hex_Board.new L mode))
      = map (Graph.row_edges (Hex_Board.graph (Hex_Board.new L mode)))
            (range (L * L))).
Proof.
  set (b0 := Hex_Board.mk (Graph.undirected_for_board (L * L) mode) L).
  assert (Hmat :
    Hex_Board.border_length (Hex_Board.generate_graph_matrixMode b0) = L
    /\ Graph.size (Hex_Board.graph (Hex_Board.generate_graph_matrixMode b0))
       = L * L
    /\ Graph.conMatrix_was_computed
         (Hex_Board.graph (Hex_Board.generate_graph_matrixMode b0)) = true
    /\ Graph.edgeList_was_computed
         (Hex_Board.graph (Hex_Board.generate_graph_matrixMode b0)) = false
    /\ Graph.nodeTags (Hex_Board.graph (Hex_Board.generate_graph_matrixMode b0))
       = map (fun _ => 0) (range (L * L))
    /\ forall i j, 0 <= i < L * L -> 0 <= j < L * L ->
        Graph.entry
          (Graph.connectivityMatrix
             (Hex_Board.graph (Hex_Board.generate_graph_matrixMode b0))) i j
        = if hex_linked L i j then mk_bool_num true 1 else Graph.no_edge).
  { unfold Hex_Board.generate_graph_matrixMode. cbn.
    repeat split.
    intros i j Hi Hj. rewrite push_blank_rows_from_empty.
    destruct (connect_all_entries b0 (range (L * L))
                (fun k Hk => proj1 (in_range_iff _ _) Hk) _
                (square_blank (L * L))) as [_ Hentry].
    cbn [b0 Hex_Board.graph Graph.undirected_for_board Graph.with_nodeTags
         Graph.with_nodeValues Graph.new Graph.size Hex_Board.border_length]
      in Hentry.
    rewrite (Hentry i j Hi Hj), (existsb_range _ _ Hj), entry_blank.
    reflexivity. }
  destruct Hmat as (HL & Hsize & Hflag & Hnolist & Htags & Hentry).
  unfold Hex_Board.new, Hex_Board.generate_blank_connected_board. fold b0.
  cbn [b0 Hex_Board.graph Graph.undirected_for_board Graph.with_nodeTags
       Graph.with_nodeValues Graph.new Graph.preferredRepresentation].
  fold b0. destruct mode.
  - repeat split; auto. rewrite Hnolist. discriminate.
  - unfold Hex_Board.generate_graph_edgeListMode.
    unfold Graph.generate_edgeList_from_conMatrix. rewrite Hflag.
    cbn [Hex_Board.with_graph Hex_Board.graph Hex_Board.border_length
         Graph.with_edgeList Graph.size Graph.conMatrix_was_computed
         Graph.nodeTags Graph.connectivityMatrix Graph.edgeList
         Graph.edgeList_was_computed].
    rewrite Hsize. repeat split; auto.
Qed.

(** What the queries of a graph read in its matrix, whether they go
    through the matrix or through the list derived from it. *)
Lemma matrix_queries (g : Graph.t) (u v : Z) :
  Graph.conMatrix_was_computed g = true ->
  (Graph.edgeList_was_computed g = true ->
   Graph.edgeList g = map (Graph.row_edges g) (range (Graph.size g))) ->
  0 <= u < Graph.size g -> 0 <= v < Graph.size g ->
  Graph.adjacent g u v = (get_bool (Graph.entry (Graph.connectivityMatrix g) u v), g)
  /\ Graph.get_edge_value g u v
     = (if get_bool (Graph.entry (Graph.connectivityMatrix g) u v)
        then (get_value (Graph.entry (Graph.connectivityMatrix g) u v), None)
        else (0, Some (Edge_doesnt_exist u v)))
  /\ Graph.neighbors g u = (Graph.row_edges g u, g).
Proof.
  intros Hflag Hlist Hu Hv.
  unfold Graph.adjacent, Graph.get_edge_value, Graph.neighbors. rewrite Hflag.
  destruct (Graph.edgeList_was_computed g) eqn:Hel.
  - rewrite (Hlist eq_refl), vat_map_range by exact Hu.
    unfold Graph.row_edges at 1 2.
    rewrite row_edges_existsb, row_edges_find_cost, (existsb_range _ _ Hv).
    cbn [andb].
    destruct (get_bool (Graph.entry (Graph.connectivityMatrix g) u v));
      repeat split.
  - repeat split.
Qed.

Lemma set_node_tag_length (g : Graph.t) (node val : Z) :
  length (Graph.nodeTags g) = Z.to_nat (Graph.size g) ->
  Graph.set_node_tag g node val
  = Graph.with_nodeTags (vset (Graph.nodeTags g) node val) g
  /\ length (Graph.nodeTags (Graph.set_node_tag g node val))
     = Z.to_nat (Graph.size g).
Proof.
  intros Hlen. unfold Graph.set_node_tag.
  assert (Htags : (if vsize (Graph.nodeTags g) =? 0
                   then Graph.nodeTags g ++ map (fun _ => 0) (range (Graph.size g))
                   else Graph.nodeTags g) = Graph.nodeTags g).
  { destruct (Z.eqb_spec (vsize (Graph.nodeTags g)) 0) as [Hz | Hz];
      [|reflexivity].
    unfold vsize in Hz. destruct (Graph.nodeTags g); [|discriminate].
    cbn in Hlen. unfold range. rewrite <- Hlen. reflexivity. }
  rewrite Htags. split; [reflexivity|].
  cbn [Graph.with_nodeTags Graph.nodeTags]. now rewrite vset_length.
Qed.

Lemma in_play_board_of (L : Z) (mode : representationMode) (b : Hex_Board.t) :
  in_play L mode b -> board_of L mode b.
Proof.
  assert (Hstep : forall b node val,
             board_of L mode b -> board_of L mode (Hex_Board.set_node_tag b node val)).
  { intros b0 node val (HL & Hgraph & Hlen).
    destruct (new_board_graph L mode) as (_ & Hsize & _).
    assert (Hsz : Graph.size (Hex_Board.graph b0) = L * L)
      by (rewrite Hgraph; exact Hsize).
    destruct (set_node_tag_length (Hex_Board.graph b0) node val) as [Heq Hlen'];
      [now rewrite Hsz|].
    unfold board_of, Hex_Board.set_node_tag.
    cbn [Hex_Board.with_graph Hex_Board.graph Hex_Board.border_length].
    split; [exact HL|]. split; [|now rewrite Hlen', Hsz].
    rewrite Heq. cbn [Graph.nodeTags Graph.with_nodeTags].
    set (tags := vset _ node val). clearbody tags.
    rewrite Hgraph. reflexivity. }
  induction 1 as [|b node val Hb IH Hnode|b x y val Hb IH Hx Hy].
  - destruct (new_board_graph L mode) as (HL & _ & _ & Htags & _).
    split; [exact HL|]. split.
    + now destruct (Hex_Board.graph (Hex_Board.new L mode)).
    + rewrite Htags, length_map. apply range_length.
  - now apply Hstep.
  - now apply Hstep.
Qed.

Lemma with_nodeTags_queries (tags : list Z) (g : Graph.t) (u v : Z) :
  fst (Graph.adjacent (Graph.with_nodeTags tags g) u v)
  = fst (Graph.adjacent g u v)
  /\ Graph.get_edge_value (Graph.with_nodeTags tags g) u v
     = Graph.get_edge_value g u v
  /\ fst (Graph.neighbors (Graph.with_nodeTags tags g) u)
     = fst (Graph.neighbors g u).
Proof.
  unfold Graph.adjacent, Graph.get_edge_value, Graph.neighbors,
    Graph.with_nodeTags, Graph.row_edges.
  cbn [Graph.edgeList_was_computed Graph.conMatrix_was_computed Graph.edgeList
       Graph.connectivityMatrix Graph.size].
  destruct (Graph.edgeList_was_computed g), (Graph.conMatrix_was_computed g);
    repeat split.
Qed.

Lemma adjacent_keeps_graph (g : Graph.t) (u v : Z) :
  snd (Graph.adjacent g u v) = g.
Proof.
  unfold Graph.adjacent.
  now destruct (Graph.edgeList_was_computed g), (Graph.conMatrix_was_computed g).
Qed.

Lemma neighbors_keeps_graph (g : Graph.t) (u : Z) :
  snd (Graph.neighbors g u) = g.
Proof.
  unfold Graph.neighbors.
  now destruct (Graph.edgeList_was_computed g), (Graph.conMatrix_was_computed g).
Qed.

(** The queries on the constructed board, read off its matrix. *)
Lemma new_board_queries (L : Z) (mode : representationMode) (u v : Z) :
  0 <= u < L * L -> 0 <= v < L * L ->
  fst (Graph.adjacent (Hex_Board.graph (Hex_Board.new L mode)) u v)
  = hex_linked L u v
  /\ fst (Graph.get_edge_value (Hex_Board.graph (Hex_Board.new L mode)) u v)
     = (if hex_linked L u v then 1 else 0).
Proof.
  intros Hu Hv.
  destruct (new_board_graph L mode) as (_ & Hsize & Hflag & _ & Hentry & Hlist).
  destruct (matrix_queries (Hex_Board.graph (Hex_Board.new L mode)) u v
              Hflag ltac:(now rewrite Hsize) ltac:(now rewrite Hsize)
              ltac:(now rewrite Hsize)) as (Hadj & Hval & _).
  rewrite Hadj, Hval, (Hentry u v Hu Hv).
  now destruct (hex_linked L u v).
Qed.

(** C7: on the board of border length [L >= 2], as constructed and after
    any tag-setting, [adjacent] and the value of [get_edge_value] are the
    same in both directions for every pair of nodes, an existing edge costs
    1, both answers are those of the board as constructed, and [adjacent]
    leaves the graph as it was. *)
Theorem board_adjacency_is_symmetric_and_fixed
        (L : Z) (mode : representationMode) (b : Hex_Board.t) (u v : Z) :
  2 <= L ->
  in_play L mode b ->
  0 <= u < L * L ->
  0 <= v < L * L ->
  fst (Graph.adjacent (Hex_Board.graph b) u v)
  = fst (Graph.adjacent (Hex_Board.graph b) v u)
  /\ fst (Graph.get_edge_value (Hex_Board.graph b) u v)
     = fst (Graph.get_edge_value (Hex_Board.graph b) v u)
  /\ (fst (Graph.adjacent (Hex_Board.graph b) u v) = true ->
      fst (Graph.get_edge_value (Hex_Board.graph b) u v) = 1)
  /\ fst (Graph.adjacent (Hex_Board.graph b) u v)
     = fst (Graph.adjacent (Hex_Board.graph (Hex_Board.new L mode)) u v)
  /\ Graph.get_edge_value (Hex_Board.graph b) u v
     = Graph.get_edge_value (Hex_Board.graph (Hex_Board.new L mode)) u v
  /\ snd (Graph.adjacent (Hex_Board.graph b) u v) = Hex_Board.graph b.
Proof.
  intros HL Hplay Hu Hv.
  destruct (in_play_board_of L mode b Hplay) as (_ & Hgraph & _).
  set (tags := Graph.nodeTags (Hex_Board.graph b)) in Hgraph.
  destruct (with_nodeTags_queries tags (Hex_Board.graph (Hex_Board.new L mode))
              u v) as (Hadj & Hval & _).
  destruct (with_nodeTags_queries tags (Hex_Board.graph (Hex_Board.new L mode))
              v u) as (Hadj' & Hval' & _).
  rewrite <- Hgraph in Hadj, Hval, Hadj', Hval'.
  destruct (new_board_queries L mode u v Hu Hv) as [Huv Hcost].
  destruct (new_board_queries L mode v u Hv Hu) as [Hvu Hcost'].
  rewrite adjacent_keeps_graph.
  rewrite Hadj, Hval, Hadj', Hval', Huv, Hvu, Hcost, Hcost'.
  rewrite (hex_linked_sym L u v HL Hu Hv).
  repeat split. now intros ->.
Qed.

Lemma board_adjacency_is_symmetric_and_fixed_witness :
  fst (Graph.adjacent
         (Hex_Board.graph (Hex_Board.set_node_tag (Hex_Board.new 2 CON_MATRIX) 1 2))
         0 1)
  = fst (Graph.adjacent
           (Hex_Board.graph (Hex_Board.set_node_tag (Hex_Board.new 2 CON_MATRIX) 1 2))
           1 0)
  /\ fst (Graph.adjacent
            (Hex_Board.graph (Hex_Board.set_node_tag (Hex_Board.new 2 CON_MATRIX) 1 2))
            0 1) = true.
Proof.
  split; [|reflexivity].
  apply (board_adjacency_is_symmetric_and_fixed
           2 CON_MATRIX (Hex_Board.set_node_tag (Hex_Board.new 2 CON_MATRIX) 1 2)
           0 1); try lia.
  apply in_play_tag; [apply in_play_new | lia].
Defined.

(** ** The frontier of the search *)

Lemma insert_loop_perm queue new_element :
  Permutation (PriorityQueue.insert_loop queue new_element)
              (new_element :: queue).
Proof.
  induction queue as [|e rest IH]; cbn [PriorityQueue.insert_loop].
  - apply Permutation_refl.
  - destruct (Triad.get_value3 e >=? Triad.get_value3 new_element).
    + apply Permutation_refl.
    + eapply Permutation_trans; [apply perm_skip, IH | apply perm_swap].
Qed.

Lemma insert_perm queue new_element :
  Permutation (PriorityQueue.insert queue new_element) (new_element :: queue).
Proof. rewrite insert_is_loop. apply insert_loop_perm. Qed.

Lemma insert_In queue new_element x :
  In x (PriorityQueue.insert queue new_element) <-> x = new_element \/ In x queue.
Proof.
  split; intros H.
  - apply (Permutation_in _ (insert_perm queue new_element)) in H.
    destruct H as [<- | H]; auto.
  - apply (Permutation_in _ (Permutation_sym (insert_perm queue new_element))).
    destruct H as [-> | H]; [now left | now right].
Qed.

Lemma kept_entries_distinct (keep : int_int_and_num_Triad -> bool)
      (queue : PriorityQueue.t) :
  NoDup (map Triad.get_value2 queue) ->
  NoDup (map Triad.get_value2 (filter keep queue)).
Proof.
  induction queue as [|e rest IH]; intros Hnd; [constructor|].
  cbn [map] in Hnd. apply NoDup_cons_iff in Hnd as [Hfresh Hnd].
  cbn [filter]. destruct (keep e); [|now apply IH].
  cbn [map]. constructor; [|now apply IH].
  intros Hin. apply Hfresh. apply in_map_iff in Hin as (x & <- & Hx).
  apply in_map. now apply filter_In in Hx as [Hx _].
Qed.

Lemma update_queue_ok (g : Graph.t) (open closed : list Z)
      (queue : PriorityQueue.t) (triad : int_int_and_num_Triad) :
  queue_ok g open closed queue ->
  In (Triad.get_value2 triad) open ->
  In (Triad.get_value1 triad) closed ->
  linked g (Triad.get_value1 triad) (Triad.get_value2 triad) = true ->
  queue_ok g open closed
           (PriorityQueue.update_queue_with_shorter_path queue triad)
  /\ (forall v, In v (map Triad.get_value2 queue) ->
                In v (map Triad.get_value2
                          (PriorityQueue.update_queue_with_shorter_path
                             queue triad)))
  /\ In (Triad.get_value2 triad)
        (map Triad.get_value2
             (PriorityQueue.update_queue_with_shorter_path queue triad)).
Proof.
  intros [Hnd Hall] Hopen Hclosed Hlinked.
  rewrite (update_queue_unique _ _ Hnd).
  set (kept := filter (fun e => negb (Triad.get_value2 e
                                      =? Triad.get_value2 triad)) queue).
  split; [split|split].
  - apply (Permutation_NoDup
             (Permutation_map Triad.get_value2
                (Permutation_sym (insert_perm kept triad)))).
    cbn [map]. constructor.
    + apply filtered_has_none.
    + now apply kept_entries_distinct.
  - intros e He. apply insert_In in He as [-> | He]; [auto|].
    apply Hall. now apply filter_In in He as [He _].
  - intros v Hv. apply in_map_iff in Hv as (e & <- & He).
    destruct (Z.eqb_spec (Triad.get_value2 e) (Triad.get_value2 triad))
      as [Heq | Hne].
    + rewrite Heq. apply in_map, insert_In. now left.
    + apply in_map, insert_In. right. apply filter_In. split; [exact He|].
      apply negb_true_iff. now apply Z.eqb_neq.
  - apply in_map, insert_In. now left.
Qed.

Lemma existsb_mem (v : Z) (l : list Z) :
  existsb (fun k => k =? v) l = true <-> In v l.
Proof.
  rewrite existsb_exists. split.
  - intros (k & Hk & E). apply Z.eqb_eq in E. now subst k.
  - intros H. exists v. split; [exact H | apply Z.eqb_refl].
Qed.

Lemma not_improving_is_queued queue triad :
  negb (PriorityQueue.contains_elem_with_val1_val2
          queue (Triad.get_value1 triad) (Triad.get_value2 triad))
  && PriorityQueue.improves_cost_of_node queue triad = false ->
  In (Triad.get_value2 triad) (map Triad.get_value2 queue).
Proof.
  intros H. apply andb_false_iff in H as [H | H].
  - apply negb_false_iff in H.
    unfold PriorityQueue.contains_elem_with_val1_val2 in H.
    apply existsb_exists in H as (e & He & Heq).
    apply andb_prop in Heq as [_ Heq]. apply Z.eqb_eq in Heq.
    rewrite <- Heq. now apply in_map.
  - unfold PriorityQueue.improves_cost_of_node in H.
    apply negb_false_iff in H.
    apply existsb_exists in H as (e & He & Heq).
    apply andb_prop in Heq as [Heq _]. apply Z.eqb_eq in Heq.
    rewrite <- Heq. now apply in_map.
Qed.

(** One neighbour relaxed. *)
Lemma relax_ok (g : Graph.t) (open closed banned_nodes tentative_costs : list Z)
      (currentNode : Z) (queue : PriorityQueue.t) (neighbor : int_and_num_Pair) :
  queue_ok g open closed queue ->
  In currentNode closed ->
  linked g currentNode (Pair.get_value1 neighbor) = true ->
  (forall v, In v open -> ShortestPath.i_is_in_vector v banned_nodes = false) ->
  queue_ok g open closed
           (ShortestPath.relax open banned_nodes tentative_costs currentNode
                               queue neighbor)
  /\ (forall v, In v (map Triad.get_value2 queue) ->
                In v (map Triad.get_value2
                          (ShortestPath.relax open banned_nodes tentative_costs
                                              currentNode queue neighbor)))
  /\ (In (Pair.get_value1 neighbor) open ->
      In (Pair.get_value1 neighbor)
         (map Triad.get_value2
              (ShortestPath.relax open banned_nodes tentative_costs
                                  currentNode queue neighbor))).
Proof.
  intros Hq Hcur Hlinked Hbanned. unfold ShortestPath.relax.
  destruct (existsb (fun k => k =? Pair.get_value1 neighbor) open) eqn:Hopen;
    cbn [andb].
  2:{ split; [exact Hq|]. split; [auto|]. intros Hin.
      apply existsb_mem in Hin. congruence. }
  apply existsb_mem in Hopen. rewrite (Hbanned _ Hopen). cbn [negb].
  set (triad := ShortestPath.join_current_and_neighbor_and_cost currentNode _).
  destruct (negb (PriorityQueue.contains_elem_with_val1_val2 queue
                    (Triad.get_value1 triad) (Triad.get_value2 triad))
            && PriorityQueue.improves_cost_of_node queue triad) eqn:Hadd.
  - destruct (update_queue_ok g open closed queue triad Hq Hopen Hcur Hlinked)
      as (Hok & Hkeeps & Hhas).
    split; [exact Hok|]. split; [exact Hkeeps|]. intros _. exact Hhas.
  - split; [exact Hq|]. split; [auto|]. intros _.
    exact (not_improving_is_queued queue triad Hadd).
Qed.

(** All neighbours relaxed. *)
Lemma relax_all_ok (g : Graph.t) (open closed banned_nodes tentative_costs : list Z)
      (currentNode : Z) (neighbors : list int_and_num_Pair) :
  In currentNode closed ->
  (forall nb, In nb neighbors ->
              linked g currentNode (Pair.get_value1 nb) = true) ->
  (forall v, In v open -> ShortestPath.i_is_in_vector v banned_nodes = false) ->
  forall queue,
    queue_ok g open closed queue ->
    queue_ok g open closed
      (fold_left (ShortestPath.relax open banned_nodes tentative_costs currentNode)
                 neighbors queue)
    /\ (forall v, In v (map Triad.get_value2 queue) ->
                  In v (map Triad.get_value2
                          (fold_left
                             (ShortestPath.relax open banned_nodes
                                                 tentative_costs currentNode)
                             neighbors queue)))
    /\ (forall nb, In nb neighbors -> In (Pair.get_value1 nb) open ->
                   In (Pair.get_value1 nb)
                      (map Triad.get_value2
                           (fold_left
                              (ShortestPath.relax open banned_nodes
                                                  tentative_costs currentNode)
                              neighbors queue))).
Proof.
  intros Hcur Hlinked Hbanned.
  induction neighbors as [|nb rest IH]; intros queue Hq.
  - cbn. split; [exact Hq|]. split; [auto | intros nb []].
  - cbn [fold_left].
    destruct (relax_ok g open closed banned_nodes tentative_costs currentNode
                queue nb Hq Hcur (Hlinked nb (or_introl eq_refl)) Hbanned)
      as (Hq1 & Hkeep1 & Hhas1).
    destruct (IH (fun x Hx => Hlinked x (or_intror Hx)) _ Hq1)
      as (Hq' & Hkeep & Hhas).
    split; [exact Hq'|]. split.
    + intros v Hv. apply Hkeep, Hkeep1, Hv.
    + intros x [<- | Hx] Hopen.
      * apply Hkeep, Hhas1, Hopen.
      * now apply Hhas.
Qed.

Lemma same_refl (e : int_int_and_num_Triad) : Triad.same e e = true.
Proof. unfold Triad.same. now rewrite !Z.eqb_refl. Qed.

Lemma same_to (a b : int_int_and_num_Triad) :
  Triad.same a b = true -> Triad.get_value2 a = Triad.get_value2 b.
Proof.
  unfold Triad.same. intros H. apply andb_prop in H as [H _].
  apply andb_prop in H as [_ H]. now apply Z.eqb_eq.
Qed.

Lemma in_ref_other_nodes ref_queue e :
  ~ In (Triad.get_value2 e) (map Triad.get_value2 ref_queue) ->
  PriorityQueue.in_ref ref_queue e = false.
Proof.
  intros Hnot. unfold PriorityQueue.in_ref.
  destruct (existsb (fun r => Triad.same r e) ref_queue) eqn:H; [|reflexivity].
  apply existsb_exists in H as (r & Hr & Hsame). exfalso. apply Hnot.
  rewrite <- (same_to _ _ Hsame). now apply in_map.
Qed.

Lemma in_ref_last ref_queue e : PriorityQueue.in_ref (ref_queue ++ [e]) e = true.
Proof.
  unfold PriorityQueue.in_ref. rewrite existsb_app. cbn.
  now rewrite same_refl, orb_true_r.
Qed.

(** While no entry of the queue has been consumed, the three searches of
    the queue against the consumed triads see its head. *)
Lemma theres_any_when_disjoint queue ref_queue :
  (forall e, In e queue -> PriorityQueue.in_ref ref_queue e = false) ->
  PriorityQueue.theres_any_in_queue_not_in_ref queue ref_queue = true.
Proof.
  intros H. unfold PriorityQueue.theres_any_in_queue_not_in_ref.
  destruct ((PriorityQueue.size queue >? 0)
            && (PriorityQueue.size ref_queue =? 0)); [reflexivity|].
  induction queue as [|e rest IH]; [reflexivity|].
  cbn [PriorityQueue.any_not_in_ref_loop].
  rewrite (H e (or_introl eq_refl)). apply IH.
  intros x Hx. apply H. now right.
Qed.

Lemma get_first_is_head e rest ref_queue :
  PriorityQueue.in_ref ref_queue e = false ->
  PriorityQueue.get_first_in_queue_not_in_ref_NotDelete (e :: rest) ref_queue = e.
Proof.
  intros H. unfold PriorityQueue.get_first_in_queue_not_in_ref_NotDelete.
  destruct ((PriorityQueue.size (e :: rest) >? 0)
            && (PriorityQueue.size ref_queue =? 0)); [reflexivity|].
  cbn [PriorityQueue.first_not_in_ref_loop orb]. now rewrite H.
Qed.

Lemma getAndDelete_is_head e rest ref_queue :
  PriorityQueue.in_ref ref_queue e = false ->
  PriorityQueue.getAndDelete_first_in_queue_not_in_ref (e :: rest) ref_queue
  = (e, rest).
Proof.
  intros H. unfold PriorityQueue.getAndDelete_first_in_queue_not_in_ref.
  destruct ((PriorityQueue.size (e :: rest) >? 0)
            && (PriorityQueue.size ref_queue =? 0)); [reflexivity|].
  cbn [PriorityQueue.getAndDelete_loop orb]. now rewrite H.
Qed.

(** Once the head has been recorded as consumed without being removed, the
    queue counts as exhausted, whatever else it holds. *)
Lemma theres_none_after_recording e rest ref_queue :
  PriorityQueue.theres_any_in_queue_not_in_ref (e :: rest) (ref_queue ++ [e])
  = false.
Proof.
  unfold PriorityQueue.theres_any_in_queue_not_in_ref.
  replace (PriorityQueue.size (ref_queue ++ [e]) =? 0) with false.
  - rewrite andb_false_r. cbn [PriorityQueue.any_not_in_ref_loop].
    now rewrite in_ref_last.
  - symmetry. apply Z.eqb_neq. unfold PriorityQueue.size, vsize.
    rewrite last_length. lia.
Qed.

Lemma erase_first_open (open : list Z) (node : Z) :
  NoDup open -> In node open ->
  exists rest,
    ShortestPath.erase_first open node = Some rest
    /\ NoDup rest
    /\ (length rest < length open)%nat
    /\ forall v, In v rest <-> In v open /\ v <> node.
Proof.
  induction open as [|k open IH]; intros Hnd Hin; [contradiction|].
  apply NoDup_cons_iff in Hnd as [Hnot Hnd].
  cbn [ShortestPath.erase_first].
  destruct (Z.eqb_spec k node) as [-> | Hne].
  - exists open. split; [reflexivity|]. split; [exact Hnd|].
    split; [cbn; lia|]. intros v. split.
    + intros Hv. split; [now right|]. intros ->. contradiction.
    + intros [[<- | Hv] Hneq]; [contradiction | exact Hv].
  - destruct Hin as [-> | Hin]; [contradiction|].
    destruct (IH Hnd Hin) as (rest & -> & Hnd' & Hlen & Hiff).
    exists (k :: rest). cbn [option_map length].
    split; [reflexivity|]. split; [|split; [lia|]].
    + constructor; [|exact Hnd']. intros Hk. apply Hiff in Hk as [Hk _].
      contradiction.
    + intros v. split.
      * intros [<- | Hv]; [split; [now left | exact Hne]|].
        apply Hiff in Hv as [Hv Hneq]. split; [now right | exact Hneq].
      * intros [[<- | Hv] Hneq]; [now left | right; apply Hiff; auto].
Qed.

(** ** The search loop *)

Lemma banned_nodes_spec (g : Graph.t) (avoid : list Z) (v : Z) :
  ShortestPath.i_is_in_vector v (ShortestPath.banned_nodes_of g avoid) = true
  <-> 0 <= v < Graph.size g /\ banned g avoid v = true.
Proof.
  unfold ShortestPath.i_is_in_vector, ShortestPath.banned_nodes_of, Graph.V.
  rewrite existsb_mem, filter_In, in_range_iff. reflexivity.
Qed.

Lemma allowed_not_banned_node (g : Graph.t) (avoid : list Z) (v : Z) :
  allowed g avoid v ->
  ShortestPath.i_is_in_vector v (ShortestPath.banned_nodes_of g avoid) = false.
Proof.
  intros [_ Hok].
  destruct (ShortestPath.i_is_in_vector v (ShortestPath.banned_nodes_of g avoid))
    eqn:H; [|reflexivity].
  apply banned_nodes_spec in H as [_ H]. congruence.
Qed.

Lemma joined_allowed (g : Graph.t) (avoid : list Z) (s u : Z) :
  joined g avoid s u -> allowed g avoid u.
Proof. now destruct 1. Qed.

Lemma joined_source_allowed (g : Graph.t) (avoid : list Z) (s u : Z) :
  joined g avoid s u -> allowed g avoid s.
Proof. induction 1; assumption. Qed.

Lemma linked_listed (g : Graph.t) (u v : Z) :
  linked g u v = true
  <-> exists nb, In nb (fst (Graph.neighbors g u)) /\ Pair.get_value1 nb = v.
Proof.
  unfold linked. rewrite existsb_exists. split.
  - intros (nb & Hnb & E). apply Z.eqb_eq in E. eauto.
  - intros (nb & Hnb & E). exists nb. split; [exact Hnb | now apply Z.eqb_eq].
Qed.

Lemma closed_nodes_snoc (s : Z) (used : list int_int_and_num_Triad)
      (x : int_int_and_num_Triad) (u : Z) :
  In u (s :: map Triad.get_value2 (used ++ [x]))
  <-> In u (s :: map Triad.get_value2 used) \/ u = Triad.get_value2 x.
Proof.
  rewrite map_app. cbn [map In]. rewrite in_app_iff. cbn [In].
  intuition congruence.
Qed.

Lemma closed_nodes_snoc_NoDup (s : Z) (used : list int_int_and_num_Triad)
      (x : int_int_and_num_Triad) :
  NoDup (s :: map Triad.get_value2 used) ->
  ~ In (Triad.get_value2 x) (s :: map Triad.get_value2 used) ->
  NoDup (s :: map Triad.get_value2 (used ++ [x])).
Proof.
  intros Hnd Hnot. rewrite map_app. cbn [map].
  change (NoDup ((s :: map Triad.get_value2 used) ++ [Triad.get_value2 x])).
  apply NoDup_app; [exact Hnd | repeat constructor; intros [] |].
  intros a Ha [<- | []]. contradiction.
Qed.

Lemma chained_snoc (s : Z) (used : list int_int_and_num_Triad)
      (x : int_int_and_num_Triad) :
  chained s (rev used) ->
  In (Triad.get_value1 x) (s :: map Triad.get_value2 used) ->
  chained s (rev (used ++ [x])).
Proof.
  intros Hch Hin. rewrite rev_unit. cbn [chained]. split; [|exact Hch].
  destruct Hin as [<- | Hin]; [now left | right].
  rewrite map_rev. now apply in_rev in Hin.
Qed.

(** When the frontier is empty and every settled node has been expanded,
    the settled nodes are all that the source is joined to. *)
Lemma joined_is_closed (g : Graph.t) (avoid : list Z) (s : Z)
      (open closed : list Z) :
  In s closed ->
  (forall v, In v open <-> allowed g avoid v /\ ~ In v closed) ->
  (forall u v, In u closed -> linked g u v = true -> ~ In v open) ->
  forall v, joined g avoid s v -> In v closed.
Proof.
  intros Hs Hopen Hnone v Hv.
  induction Hv as [_ | u v _ IH Hlinked Hallowed]; [exact Hs|].
  destruct (in_dec Z.eq_dec v closed) as [Hin | Hout]; [exact Hin|].
  exfalso. apply (Hnone u v IH Hlinked). apply Hopen. auto.
Qed.

Ltac sp_fields :=
  unfold closed_nodes in *;
  cbn [ShortestPath.nodeFrom ShortestPath.nodeTo ShortestPath.currentNode
       ShortestPath.terminated ShortestPath.path_was_seeked
       ShortestPath.path_exists ShortestPath.nodeTo_was_visited
       ShortestPath.open_set ShortestPath.closed_set
       ShortestPath.tentative_costs ShortestPath.neighbors ShortestPath.queue
       ShortestPath.last_top_of_queue ShortestPath.used_queue_elements
       ShortestPath.shortest_path ShortestPath.shortest_path_cost
       ShortestPath.raw_shortest_path] in *.

Lemma erase_first_to_incl queue val2 e :
  In e (PriorityQueue.erase_first_to queue val2) -> In e queue.
Proof.
  induction queue as [|x rest IH]; cbn [PriorityQueue.erase_first_to];
    [auto|].
  destruct (Triad.get_value2 x =? val2); [now right|].
  intros [<- | H]; [now left | right; now apply IH].
Qed.

Lemma update_loop_incl fuel e val2 :
  forall i queue,
    In e (PriorityQueue.update_loop fuel i queue val2) -> In e queue.
Proof.
  induction fuel as [|fuel IH]; intros i queue; cbn [PriorityQueue.update_loop];
    [auto|].
  destruct (i <? PriorityQueue.size queue); [|auto].
  intros H. apply IH in H. now apply erase_first_to_incl in H.
Qed.

(** Whatever the queue, a triad found after relaxing a neighbour was there
    before or carries the cost of the edge added to the cost of the current
    node. *)
Lemma relax_costs (open banned_nodes tentative_costs : list Z) (currentNode : Z)
      (queue : PriorityQueue.t) (neighbor : int_and_num_Pair)
      (e : int_int_and_num_Triad) :
  In e (ShortestPath.relax open banned_nodes tentative_costs currentNode
                           queue neighbor) ->
  In e queue
  \/ Triad.get_value3 e
     = Pair.get_value2 neighbor + vat 0 tentative_costs currentNode.
Proof.
  unfold ShortestPath.relax.
  destruct (existsb _ open && negb _); [|auto].
  destruct (negb _ && PriorityQueue.improves_cost_of_node queue _); [|auto].
  unfold PriorityQueue.update_queue_with_shorter_path. intros H.
  apply insert_In in H as [-> | H]; [now right | left].
  now apply update_loop_incl in H.
Qed.

Lemma relax_all_costs (open banned_nodes tentative_costs : list Z)
      (currentNode : Z) (neighbors : list int_and_num_Pair)
      (e : int_int_and_num_Triad) :
  forall queue,
    In e (fold_left
            (ShortestPath.relax open banned_nodes tentative_costs currentNode)
            neighbors queue) ->
    In e queue
    \/ exists nb, In nb neighbors
                  /\ Triad.get_value3 e
                     = Pair.get_value2 nb + vat 0 tentative_costs currentNode.
Proof.
  induction neighbors as [|nb rest IH]; intros queue H; [now left|].
  cbn [fold_left] in H. apply IH in H as [H | (x & Hx & Hcost)].
  - apply relax_costs in H as [H | H]; [now left | right].
    exists nb. split; [now left | exact H].
  - right. exists x. split; [now right | exact Hcost].
Qed.

(** Settled nodes are different nodes of the graph: there are at most as
    many as the graph has nodes. *)
Lemma closed_count (n : Z) (closed : list Z) :
  NoDup closed -> (forall u, In u closed -> 0 <= u < n) ->
  (length closed <= Z.to_nat n)%nat.
Proof.
  intros Hnd Hin. rewrite <- (range_length n).
  apply NoDup_incl_length; [exact Hnd|].
  intros u Hu. apply in_range_iff. now apply Hin.
Qed.

(** One turn of the loop: the graph is handed back as it was, and either
    the search goes on with one open node less, or it has ended with the
    right answer. *)
Lemma seek_turn_step (g : Graph.t) (avoid : list Z) (s t : Z)
      (sp : ShortestPath.t) :
  searching g avoid s t sp ->
  exists sp',
    ShortestPath.seek_turn g (ShortestPath.banned_nodes_of g avoid) sp = (g, sp')
    /\ ((searching g avoid s t sp'
         /\ (length (ShortestPath.open_set sp')
             < length (ShortestPath.open_set sp))%nat)
        \/ finished g avoid s t sp').
Proof.
  intros [Hfrom Hto Hrun Hunv Hcur Hopen Hond Hcnd Htgt Hq Hexp Hjoin Hchain
          Hcosts].
  unfold ShortestPath.seek_turn.
  pose proof (neighbors_keeps_graph g (ShortestPath.currentNode sp)) as Hg.
  assert (Hlisted : forall nb,
             In nb (fst (Graph.neighbors g (ShortestPath.currentNode sp))) ->
             linked g (ShortestPath.currentNode sp) (Pair.get_value1 nb) = true).
  { intros nb Hnb. apply linked_listed. eauto. }
  assert (Hcurlinked : forall v,
             linked g (ShortestPath.currentNode sp) v = true ->
             exists nb,
               In nb (fst (Graph.neighbors g (ShortestPath.currentNode sp)))
               /\ Pair.get_value1 nb = v).
  { intros v Hv. now apply linked_listed. }
  assert (Hunit : unit_costs g ->
             forall nb,
               In nb (fst (Graph.neighbors g (ShortestPath.currentNode sp))) ->
               Pair.get_value2 nb = 1).
  { intros Hu nb Hnb. refine (Hu _ nb _ Hnb).
    apply (joined_allowed g avoid s), Hjoin, Hcur. }
  destruct (Graph.neighbors g (ShortestPath.currentNode sp)) as [nbrs g'].
  cbn [fst snd] in Hg, Hlisted, Hcurlinked, Hunit. subst g'.
  assert (Hnotbanned : forall v, In v (ShortestPath.open_set sp) ->
             ShortestPath.i_is_in_vector v (ShortestPath.banned_nodes_of g avoid)
             = false).
  { intros v Hv. apply allowed_not_banned_node. now apply Hopen in Hv as [Hv _]. }
  destruct (relax_all_ok g (ShortestPath.open_set sp) (closed_nodes s sp)
              (ShortestPath.banned_nodes_of g avoid)
              (ShortestPath.tentative_costs sp) (ShortestPath.currentNode sp)
              nbrs Hcur Hlisted Hnotbanned (ShortestPath.queue sp) Hq)
    as ([Hnd' Hq'] & Hkeep & Hhas).
  pose proof (fun e => relax_all_costs
                         (ShortestPath.open_set sp)
                         (ShortestPath.banned_nodes_of g avoid)
                         (ShortestPath.tentative_costs sp)
                         (ShortestPath.currentNode sp) nbrs e
                         (ShortestPath.queue sp)) as Hfrom_relax.
  set (queue' := fold_left _ nbrs (ShortestPath.queue sp)) in *.
  assert (Hall : forall u v, In u (closed_nodes s sp) -> linked g u v = true ->
                             In v (ShortestPath.open_set sp) ->
                             In v (map Triad.get_value2 queue')).
  { intros u v Hu Hlinked Hv.
    destruct (Z.eq_dec u (ShortestPath.currentNode sp)) as [-> | Hne].
    - destruct (Hcurlinked v Hlinked) as (nb & Hnb & <-). now apply Hhas.
    - apply Hkeep. now apply (Hexp u v). }
  assert (Hfresh : forall e, In e queue' ->
             PriorityQueue.in_ref (ShortestPath.used_queue_elements sp) e = false).
  { intros e He. apply in_ref_other_nodes. intros Hin.
    destruct (Hq' e He) as (Hopen_e & _). apply Hopen in Hopen_e as [_ Hnot].
    apply Hnot. now right. }
  assert (Hs_closed : In s (closed_nodes s sp)) by now left.
  assert (Hs_allowed : allowed g avoid s)
    by (apply (joined_allowed g avoid s), Hjoin, Hs_closed).
  assert (Hqueue_costs : unit_costs g ->
             forall e, In e queue' ->
               0 <= Triad.get_value3 e
               <= Z.of_nat (length (ShortestPath.used_queue_elements sp)) + 1).
  { intros Hu e He. destruct (Hcosts Hu) as (_ & Hsettled & _ & Hqueued).
    apply Hfrom_relax in He as [He | (nb & Hnb & ->)]; [now apply Hqueued|].
    rewrite (Hunit Hu nb Hnb). specialize (Hsettled _ Hcur). lia. }
  assert (Hcount : (length (closed_nodes s sp) <= Z.to_nat (Graph.size g))%nat).
  { apply closed_count; [exact Hcnd|]. intros u Hu.
    now apply (joined_allowed g avoid s), Hjoin. }
  destruct queue' as [|x rest] eqn:Equeue.
  - (* nothing left to expand *)
    cbn [PriorityQueue.size vsize length Z.of_nat Z.gtb Z.compare andb].
    eexists. split; [reflexivity|]. right.
    constructor; sp_fields; auto.
    + rewrite Hunv. split; [discriminate|]. intros [Hst Hjoined]. exfalso.
      assert (Ht : In t (s :: map Triad.get_value2
                                  (ShortestPath.used_queue_elements sp))).
      { apply (joined_is_closed g avoid s (ShortestPath.open_set sp));
          [exact Hs_closed | exact Hopen | | exact Hjoined].
        intros u v Hu Hlinked Hv. exact (Hall u v Hu Hlinked Hv). }
      apply Hopen in Htgt; tauto.
    + rewrite Hunv. discriminate.
    + intros Hu e He. destruct (Hcosts Hu) as (_ & _ & Hused & _).
      specialize (Hused e He). cbn [length] in Hcount.
      rewrite length_map in Hcount. lia.
  - assert (Hpos : (PriorityQueue.size (x :: rest) >? 0) = true).
    { unfold PriorityQueue.size, vsize. cbn [length]. rewrite Z.gtb_ltb.
      apply Z.ltb_lt. lia. }
    rewrite Hpos, (theres_any_when_disjoint _ _ Hfresh). cbn [andb].
    rewrite (get_first_is_head x rest _ (Hfresh x (or_introl eq_refl))).
    destruct (Hq' x (or_introl eq_refl)) as (Hx_open & Hx_from & Hx_linked).
    pose proof (proj1 (Hopen _) Hx_open) as [Hx_allowed Hx_new].
    assert (Hx_joined : joined g avoid s (Triad.get_value2 x)).
    { eapply joined_step; [apply Hjoin, Hx_from | exact Hx_linked
                           | exact Hx_allowed]. }
    assert (Hcount' : (length (s :: map Triad.get_value2
                                      (ShortestPath.used_queue_elements sp
                                       ++ [x]))
                       <= Z.to_nat (Graph.size g))%nat).
    { apply closed_count; [now apply closed_nodes_snoc_NoDup|].
      intros u Hu. apply closed_nodes_snoc in Hu as [Hu | ->].
      - now apply (joined_allowed g avoid s), Hjoin.
      - apply Hx_allowed. }
    cbn [length] in Hcount'. rewrite length_map, last_length in Hcount'.
    destruct (Z.eqb_spec (Triad.get_value2 x) (ShortestPath.nodeTo sp))
      as [Htarget | Hother]; cbn [negb].
    + (* the head goes to the target *)
      rewrite theres_none_after_recording.
      eexists. split; [reflexivity|]. right.
      assert (Hst : s <> t).
      { intros ->. apply Hx_new. rewrite Htarget, Hto. now left. }
      constructor; sp_fields; auto.
      * split; [|reflexivity]. intros _. split; [exact Hst|].
        rewrite <- Hto, <- Htarget. exact Hx_joined.
      * intros _. unfold walkable. sp_fields.
        split; [now apply chained_snoc|].
        split; [now apply closed_nodes_snoc_NoDup|].
        split.
        -- apply closed_nodes_snoc. right. now rewrite Htarget, Hto.
        -- intros u Hu. apply closed_nodes_snoc in Hu as [Hu | ->].
           ++ now apply (joined_allowed g avoid s), Hjoin.
           ++ apply Hx_allowed.
      * intros Hu e He. destruct (Hcosts Hu) as (_ & _ & Hused & _).
        apply in_app_or in He as [He | [<- | []]].
        -- specialize (Hused e He). lia.
        -- specialize (Hqueue_costs Hu x (or_introl eq_refl)). lia.
    + (* the head goes elsewhere: consume it and settle its node *)
      rewrite (getAndDelete_is_head x rest _ (Hfresh x (or_introl eq_refl))).
      destruct (erase_first_open _ _ Hond Hx_open)
        as (open' & -> & Hond' & Hshorter & Hopen').
      eexists. split; [reflexivity|]. left. split; [|sp_fields; exact Hshorter].
      cbn [map] in Hnd'. apply NoDup_cons_iff in Hnd' as [Hx_once Hnd_rest].
      constructor; sp_fields; auto.
      * apply closed_nodes_snoc. now right.
      * intros v. rewrite Hopen', Hopen, closed_nodes_snoc.
        cbn [In]. tauto.
      * now apply closed_nodes_snoc_NoDup.
      * intros Hst. apply Hopen'. split; [now apply Htgt|].
        rewrite <- Hto. congruence.
      * split; [exact Hnd_rest|]. intros e He.
        destruct (Hq' e (or_intror He)) as (He_open & He_from & He_linked).
        split; [|split; [|exact He_linked]].
        -- apply Hopen'. split; [exact He_open|]. intros Heq.
           apply Hx_once. rewrite <- Heq. now apply in_map.
        -- apply closed_nodes_snoc. now left.
      * intros u v Hu Hne Hlinked Hv.
        apply closed_nodes_snoc in Hu as [Hu | Hu]; [|contradiction].
        apply Hopen' in Hv as [Hv Hvx].
        destruct (Hall u v Hu Hlinked Hv) as [Heq | Hin]; [congruence | exact Hin].
      * intros u Hu. apply closed_nodes_snoc in Hu as [Hu | ->];
          [now apply Hjoin | exact Hx_joined].
      * now apply chained_snoc.
      * intros Hu. destruct (Hcosts Hu) as (Hlen & Hsettled & Hused & _).
        pose proof (Hqueue_costs Hu x (or_introl eq_refl)) as Hx_cost.
        unfold costs_small. sp_fields. rewrite vset_length, last_length.
        split; [exact Hlen|]. split; [|split].
        -- intros u Hin. rewrite vat_vset.
           apply closed_nodes_snoc in Hin as [Hin | ->].
           ++ specialize (Hsettled u Hin).
              destruct ((u =? Triad.get_value2 x) && _ && _); lia.
           ++ rewrite Z.eqb_refl. unfold vsize. rewrite Hlen.
              replace (0 <=? Triad.get_value2 x) with true
                by (symmetry; apply Z.leb_le; apply Hx_allowed).
              replace (Triad.get_value2 x <? Z.of_nat (Z.to_nat (Graph.size g)))
                with true
                by (symmetry; apply Z.ltb_lt; destruct Hx_allowed; lia).
              cbn [andb]. lia.
        -- intros e He. apply in_app_or in He as [He | [<- | []]].
           ++ specialize (Hused e He). lia.
           ++ lia.
        -- intros e He. specialize (Hqueue_costs Hu e (or_intror He)). lia.
Qed.

Lemma seek_loop_when_terminated (fuel : nat) (g : Graph.t) (banned_nodes : list Z)
      (sp : ShortestPath.t) :
  ShortestPath.terminated sp = true ->
  ShortestPath.seek_loop fuel g banned_nodes sp = Some (g, sp).
Proof. intros H. destruct fuel; cbn [ShortestPath.seek_loop]; now rewrite H. Qed.

(** The loop ends within one turn more than there are open nodes. *)
Lemma seek_loop_finishes (g : Graph.t) (avoid : list Z) (s t : Z) (fuel : nat) :
  forall sp,
    searching g avoid s t sp ->
    (length (ShortestPath.open_set sp) < fuel)%nat ->
    exists sp',
      ShortestPath.seek_loop fuel g (ShortestPath.banned_nodes_of g avoid) sp
      = Some (g, sp')
      /\ finished g avoid s t sp'.
Proof.
  induction fuel as [|fuel IH]; intros sp Hsp Hfuel; [lia|].
  cbn [ShortestPath.seek_loop]. rewrite (sr_running _ _ _ _ _ Hsp).
  destruct (seek_turn_step g avoid s t sp Hsp) as (sp1 & -> & [[Hgo Hless] | Hend]).
  - apply IH; [exact Hgo | lia].
  - exists sp1. split; [|exact Hend].
    apply seek_loop_when_terminated, (fin_terminated _ _ _ _ _ Hend).
Qed.

(** ** Reproducing the path *)

Lemma walk_back_at_source (fuel : nat) (elements : list PriorityQueue.t)
      (s : Z) (raw : list int_int_and_num_Triad) :
  ShortestPath.walk_back fuel elements s s raw = Some (s, raw).
Proof. destruct fuel; cbn [ShortestPath.walk_back]; now rewrite Z.eqb_refl. Qed.

Lemma walk_back_more_fuel (elements : list PriorityQueue.t) (s : Z) (fuel : nat) :
  forall cur raw r,
    ShortestPath.walk_back fuel elements s cur raw = Some r ->
    ShortestPath.walk_back (S fuel) elements s cur raw = Some r.
Proof.
  induction fuel as [|fuel IH]; intros cur raw r H.
  - cbn [ShortestPath.walk_back] in H |- *.
    destruct (negb (cur =? s)); [discriminate | exact H].
  - remember (S fuel) as n. cbn [ShortestPath.walk_back]. subst n.
    cbn [ShortestPath.walk_back] in H.
    destruct (negb (cur =? s)); [|exact H].
    destruct (PriorityQueue.get_top_NotDelete (vat [] elements cur));
      [|discriminate].
    now apply IH.
Qed.

(** Along chained triads the walk gets back to the source. *)
Lemma walk_back_chain (elements : list PriorityQueue.t) (s : Z)
      (older : list int_int_and_num_Triad) :
  chained s older ->
  (forall e, In e older ->
             Triad.get_value2 e <> s
             /\ PriorityQueue.get_top_NotDelete
                  (vat [] elements (Triad.get_value2 e)) = Some e) ->
  forall e raw, In e older ->
    exists raw',
      ShortestPath.walk_back (length older) elements s (Triad.get_value2 e) raw
      = Some (s, raw').
Proof.
  induction older as [|e0 older IH]; intros Hch Hlook e raw He; [contradiction|].
  destruct Hch as [Hfrom Hch].
  assert (IH' := IH Hch (fun x Hx => Hlook x (or_intror Hx))).
  destruct He as [<- | He].
  - destruct (Hlook e0 (or_introl eq_refl)) as [Hne Htop].
    cbn [length ShortestPath.walk_back].
    replace (Triad.get_value2 e0 =? s) with false
      by (symmetry; now apply Z.eqb_neq).
    cbn [negb]. rewrite Htop.
    destruct Hfrom as [<- | Hfrom].
    + eexists. apply walk_back_at_source.
    + apply in_map_iff in Hfrom as (e' & <- & He'). now apply IH'.
  - destruct (IH' e raw He) as (raw' & Hwalk).
    exists raw'. now apply walk_back_more_fuel.
Qed.

Lemma group_skips (i : Z) (l : list int_int_and_num_Triad) (q : PriorityQueue.t) :
  ~ In i (map Triad.get_value2 l) ->
  fold_left (fun q e => if Triad.get_value2 e =? i
                        then PriorityQueue.insert q e else q) l q = q.
Proof.
  revert q. induction l as [|x l IH]; intros q Hnot; [reflexivity|].
  cbn [fold_left].
  replace (Triad.get_value2 x =? i) with false.
  - apply IH. intros H. apply Hnot. now right.
  - symmetry. apply Z.eqb_neq. intros H. apply Hnot. now left.
Qed.

(** The consumed triads grouped by node: one triad for a settled node. *)
Lemma group_single (used : list int_int_and_num_Triad) (e : int_int_and_num_Triad) :
  NoDup (map Triad.get_value2 used) -> In e used ->
  fold_left (fun q x => if Triad.get_value2 x =? Triad.get_value2 e
                        then PriorityQueue.insert q x else q) used []
  = [e].
Proof.
  intros Hnd He. apply in_split in He as (l1 & l2 & ->).
  rewrite map_app in Hnd. cbn [map] in Hnd.
  pose proof (NoDup_remove_2 _ _ _ Hnd) as Hnot.
  rewrite fold_left_app. cbn [fold_left]. rewrite Z.eqb_refl.
  rewrite (group_skips _ l1 [])
    by (intros H; apply Hnot, in_or_app; now left).
  rewrite group_skips by (intros H; apply Hnot, in_or_app; now right).
  reflexivity.
Qed.

Lemma reproduce_found_path_returns (g : Graph.t) (sp : ShortestPath.t) :
  walkable g (ShortestPath.nodeFrom sp) (ShortestPath.nodeTo sp) sp ->
  exists sp',
    ShortestPath.reproduce_found_path g sp = Some sp'
    /\ ShortestPath.path_exists sp' = ShortestPath.path_exists sp
    /\ ShortestPath.path_was_seeked sp' = ShortestPath.path_was_seeked sp
    /\ ShortestPath.nodeFrom sp' = ShortestPath.nodeFrom sp
    /\ ShortestPath.nodeTo sp' = ShortestPath.nodeTo sp
    /\ ShortestPath.used_queue_elements sp'
       = ShortestPath.used_queue_elements sp.
Proof.
  intros (Hch & Hnd & Ht & Hrange). unfold closed_nodes in *.
  apply NoDup_cons_iff in Hnd as [Hs Hnd].
  unfold ShortestPath.reproduce_found_path.
  set (elements := map _ (range (Graph.V g))).
  assert (Hwalk : exists raw',
             ShortestPath.walk_back
               (length (ShortestPath.used_queue_elements sp)) elements
               (ShortestPath.nodeFrom sp) (ShortestPath.nodeTo sp)
               (ShortestPath.raw_shortest_path sp)
             = Some (ShortestPath.nodeFrom sp, raw')).
  { destruct Ht as [<- | Ht]; [eexists; apply walk_back_at_source|].
    apply in_map_iff in Ht as (e & <- & He).
    rewrite <- length_rev.
    apply walk_back_chain; [exact Hch | | now apply in_rev in He].
    intros x Hx. apply in_rev in Hx. split.
    - intros Heq. apply Hs. rewrite <- Heq. now apply in_map.
    - unfold elements.
      rewrite vat_map_range
        by (apply Hrange; right; now apply in_map).
      now rewrite group_single. }
  destruct Hwalk as (raw' & ->).
  destruct (fold_left _ raw' (ShortestPath.shortest_path sp, 0, 0))
    as [[path previous_cost] current_cost].
  eexists. split; [reflexivity|]. repeat split.
Qed.

(** ** [seek_path] *)

Lemma clear_prior_clean (sp : ShortestPath.t) :
  ready sp ->
  ShortestPath.open_set (ShortestPath.clear_prior sp) = []
  /\ ShortestPath.closed_set (ShortestPath.clear_prior sp) = []
  /\ ShortestPath.tentative_costs (ShortestPath.clear_prior sp) = []
  /\ ShortestPath.queue (ShortestPath.clear_prior sp) = []
  /\ ShortestPath.used_queue_elements (ShortestPath.clear_prior sp) = []
  /\ ShortestPath.shortest_path (ShortestPath.clear_prior sp) = []
  /\ ShortestPath.raw_shortest_path (ShortestPath.clear_prior sp) = []
  /\ ShortestPath.nodeTo_was_visited (ShortestPath.clear_prior sp) = false.
Proof.
  unfold ShortestPath.clear_prior. intros [Hused | Hclean].
  - rewrite Hused. repeat split.
  - destruct (ShortestPath.path_was_seeked sp); [repeat split | exact Hclean].
Qed.

Lemma ready_new : ready ShortestPath.new.
Proof. right. repeat split. Qed.

Lemma early_return_iff (g : Graph.t) (avoid : list Z) (s t : Z) :
  0 <= s < Graph.size g -> 0 <= t < Graph.size g ->
  existsb (fun node => (node =? s) || (node =? t))
          (ShortestPath.banned_nodes_of g avoid) = false
  <-> allowed g avoid s /\ allowed g avoid t.
Proof.
  intros Hs Ht. split.
  - intros H.
    assert (Hnone : forall v, v = s \/ v = t -> banned g avoid v = false).
    { intros v Hv. destruct (banned g avoid v) eqn:Hb; [|reflexivity].
      assert (Hin : In v (ShortestPath.banned_nodes_of g avoid)).
      { apply existsb_mem. apply banned_nodes_spec. split; [|exact Hb].
        destruct Hv; subst v; assumption. }
      assert (existsb (fun node => (node =? s) || (node =? t))
                      (ShortestPath.banned_nodes_of g avoid) = true).
      { apply existsb_exists. exists v. split; [exact Hin|].
        destruct Hv; subst v; rewrite Z.eqb_refl; [reflexivity|].
        apply orb_true_r. }
      congruence. }
    split; (split; [assumption | apply Hnone; auto]).
  - intros [[_ Hbs] [_ Hbt]].
    destruct (existsb _ (ShortestPath.banned_nodes_of g avoid)) eqn:H;
      [|reflexivity].
    apply existsb_exists in H as (v & Hv & Heq).
    apply existsb_mem, banned_nodes_spec in Hv as [_ Hv].
    apply orb_prop in Heq as [Heq | Heq]; apply Z.eqb_eq in Heq; subst v;
      congruence.
Qed.

Lemma open_at_start (g : Graph.t) (avoid : list Z) (s v : Z) :
  In v (filter (fun i => negb (ShortestPath.i_is_in_vector
                                 i (ShortestPath.banned_nodes_of g avoid))
                         && negb (i =? s))
               (range (Graph.V g)))
  <-> allowed g avoid v /\ ~ In v [s].
Proof.
  rewrite filter_In, in_range_iff, andb_true_iff, !negb_true_iff.
  unfold allowed, Graph.V. cbn [In]. split.
  - intros (Hrange & Hnb & Hne). apply Z.eqb_neq in Hne.
    split; [split; [exact Hrange|] | intros [-> | []]; congruence].
    destruct (banned g avoid v) eqn:Hb; [|reflexivity].
    assert (ShortestPath.i_is_in_vector v (ShortestPath.banned_nodes_of g avoid)
            = true) by (apply banned_nodes_spec; auto).
    congruence.
  - intros [[Hrange Hb] Hne]. split; [exact Hrange|]. split.
    + now apply allowed_not_banned_node.
    + apply Z.eqb_neq. intros ->. apply Hne. now left.
Qed.

(** What [seek_path] returns, for every pair of nodes of the graph: it hands
    the graph back unchanged, marks the object as used, and reports a path
    exactly when the target differs from the source and is joined to it.
    When every edge costs 1, the cost of every triad it has consumed is
    below the number of nodes: the sums that the search forms are those of
    the cost of an edge and the cost of a settled node, so they stay far
    from the ends of [int] on a board. *)
Theorem seek_path_full (g : Graph.t) (sp : ShortestPath.t) (s t : Z)
        (avoid : list Z) :
  ready sp -> 0 <= s < Graph.size g -> 0 <= t < Graph.size g ->
  exists sp',
    ShortestPath.seek_path g sp s t avoid = Some (g, sp')
    /\ ShortestPath.path_was_seeked sp' = true
    /\ (ShortestPath.path_exists sp' = true <-> s <> t /\ joined g avoid s t)
    /\ (unit_costs g ->
        forall e, In e (ShortestPath.used_queue_elements sp') ->
                  0 <= Triad.get_value3 e < Graph.size g).
Proof.
  intros Hready Hs Ht. unfold ShortestPath.seek_path.
  destruct (clear_prior_clean sp Hready)
    as (Ho & Hc & Htc & Hq & Hu & Hp & Hr & Hv).
  set (sp0 := ShortestPath.clear_prior sp) in *.
  destruct (existsb (fun node => (node =? s) || (node =? t))
                    (ShortestPath.banned_nodes_of g avoid)) eqn:Hearly.
  - eexists. split; [reflexivity|]. split; [reflexivity|].
    cbn [ShortestPath.path_exists ShortestPath.used_queue_elements].
    split; [|rewrite Hu; intros _ e []].
    split; [discriminate|].
    intros [_ Hj]. exfalso.
    assert (existsb (fun node => (node =? s) || (node =? t))
                    (ShortestPath.banned_nodes_of g avoid) = false).
    { apply early_return_iff; auto. split.
      - exact (joined_source_allowed _ _ _ _ Hj).
      - exact (joined_allowed _ _ _ _ Hj). }
    congruence.
  - apply early_return_iff in Hearly as [Hsa Hta]; [|assumption|assumption].
    rewrite Ho, Hc, Htc. cbn [app].
    set (started := ShortestPath.mk s t s false _ _ _ _ _ _ _ _ _ _ _ _ _).
    assert (Hstart : searching g avoid s t started).
    { constructor; unfold started; sp_fields; try reflexivity.
      - rewrite Hv. reflexivity.
      - rewrite Hu. now left.
      - intros v. rewrite Hu. apply open_at_start.
      - apply NoDup_filter, NoDup_range.
      - rewrite Hu. repeat constructor. intros [].
      - intros Hst. apply open_at_start. split; [exact Hta|].
        intros [-> | []]. contradiction.
      - rewrite Hq. split; [constructor | intros e []].
      - rewrite Hu. intros u v [<- | []] Hne. contradiction.
      - rewrite Hu. intros u [<- | []]. now apply joined_here.
      - rewrite Hu. exact I.
      - intros _. unfold costs_small, started. sp_fields.
        rewrite Hu, Hq, length_map, range_length.
        split; [reflexivity|]. split; [|split; intros e []].
        intros u [<- | []]. unfold Graph.V. rewrite vat_map_range by exact Hs.
        rewrite Z.eqb_refl. cbn. lia. }
    destruct (seek_loop_finishes g avoid s t
                (S (length (ShortestPath.open_set started))) started Hstart
                (Nat.lt_succ_diag_r _))
      as (sp1 & Hloop & Hfin).
    unfold started in Hloop at 1. cbn [ShortestPath.open_set] in Hloop.
    fold started in Hloop. rewrite Hloop.
    cbn [ShortestPath.path_exists].
    destruct (ShortestPath.path_exists sp1) eqn:Hexists.
    + destruct (reproduce_found_path_returns g
                  (ShortestPath.mk
                     (ShortestPath.nodeFrom sp1) (ShortestPath.nodeTo sp1)
                     (ShortestPath.currentNode sp1) (ShortestPath.terminated sp1)
                     true (ShortestPath.path_exists sp1)
                     (ShortestPath.nodeTo_was_visited sp1)
                     (ShortestPath.open_set sp1) (ShortestPath.closed_set sp1)
                     (ShortestPath.tentative_costs sp1)
                     (ShortestPath.neighbors sp1) (ShortestPath.queue sp1)
                     (ShortestPath.last_top_of_queue sp1)
                     (ShortestPath.used_queue_elements sp1)
                     (ShortestPath.shortest_path sp1)
                     (ShortestPath.shortest_path_cost sp1)
                     (ShortestPath.raw_shortest_path sp1)))
        as (sp2 & Hrep & Hpe & Hpws & _ & _ & Hsame).
      { sp_fields.
        rewrite (fin_from _ _ _ _ _ Hfin), (fin_to _ _ _ _ _ Hfin).
        exact (fin_walkable _ _ _ _ _ Hfin Hexists). }
      rewrite Hexists in Hrep. rewrite Hrep.
      exists sp2. split; [reflexivity|]. split; [exact Hpws|].
      rewrite Hpe, Hsame.
      cbn [ShortestPath.path_exists ShortestPath.used_queue_elements].
      split; [exact (fin_exists _ _ _ _ _ Hfin)|].
      exact (fin_costs _ _ _ _ _ Hfin).
    + eexists. split; [reflexivity|]. split; [reflexivity|].
      cbn [ShortestPath.path_exists ShortestPath.used_queue_elements].
      split; [|exact (fin_costs _ _ _ _ _ Hfin)].
      pose proof (fin_exists _ _ _ _ _ Hfin) as Hiff.
      rewrite Hexists in Hiff. exact Hiff.
Qed.

Corollary seek_path_spec (g : Graph.t) (sp : ShortestPath.t) (s t : Z)
          (avoid : list Z) :
  ready sp -> 0 <= s < Graph.size g -> 0 <= t < Graph.size g ->
  exists sp',
    ShortestPath.seek_path g sp s t avoid = Some (g, sp')
    /\ ShortestPath.path_was_seeked sp' = true
    /\ (ShortestPath.path_exists sp' = true <-> s <> t /\ joined g avoid s t).
Proof.
  intros Hready Hs Ht.
  destruct (seek_path_full g sp s t avoid Hready Hs Ht)
    as (sp' & Hret & Hseeked & Hiff & _).
  exists sp'. auto.
Qed.

(** ** The win checks *)

Lemma with_own_graph (b : Hex_Board.t) :
  Hex_Board.with_graph (Hex_Board.graph b) b = b.
Proof. now destruct b. Qed.

Lemma seek_each_target_spec (b : Hex_Board.t) (avoid : list Z) (s : Z)
      (targets : list Z) :
  0 <= s < Graph.size (Hex_Board.graph b) ->
  (forall t, In t targets -> 0 <= t < Graph.size (Hex_Board.graph b)) ->
  forall path, ready path ->
    exists connects path',
      Hex_Game.seek_each_target b path avoid s targets
      = Some (connects, b, path')
      /\ ready path'
      /\ (connects = true
          <-> exists t, In t targets /\ s <> t
                        /\ joined (Hex_Board.graph b) avoid s t).
Proof.
  intros Hs. induction targets as [|t rest IH]; intros Hin path Hready.
  - exists false, path. split; [reflexivity|]. split; [exact Hready|].
    split; [discriminate | intros (t & [] & _)].
  - cbn [Hex_Game.seek_each_target].
    destruct (seek_path_spec (Hex_Board.graph b) path s t avoid Hready Hs
                (Hin t (or_introl eq_refl)))
      as (sp' & -> & Hseeked & Hexists).
    rewrite with_own_graph. unfold ShortestPath.get_path_exists.
    destruct (ShortestPath.path_exists sp') eqn:Hpe.
    + exists true, sp'. split; [reflexivity|]. split; [now left|].
      split; [|reflexivity]. intros _. exists t. split; [now left|].
      now apply Hexists.
    + destruct (IH (fun x Hx => Hin x (or_intror Hx)) sp' (or_introl Hseeked))
        as (connects & path' & -> & Hready' & Hiff).
      exists connects, path'. split; [reflexivity|]. split; [exact Hready'|].
      rewrite Hiff. split.
      * intros (x & Hx & Hrest). exists x. split; [now right | exact Hrest].
      * intros (x & [<- | Hx] & Hrest); [|exists x; auto].
        apply Hexists in Hrest. discriminate.
Qed.

Lemma seek_each_source_spec (b : Hex_Board.t) (avoid : list Z)
      (sources targets : list Z) :
  (forall s, In s sources -> 0 <= s < Graph.size (Hex_Board.graph b)) ->
  (forall t, In t targets -> 0 <= t < Graph.size (Hex_Board.graph b)) ->
  forall path, ready path ->
    exists connects path',
      Hex_Game.seek_each_source b path avoid sources targets
      = Some (connects, b, path')
      /\ ready path'
      /\ (connects = true
          <-> exists s t, In s sources /\ In t targets /\ s <> t
                          /\ joined (Hex_Board.graph b) avoid s t).
Proof.
  intros Hsrc Htgt. induction sources as [|s rest IH]; intros path Hready.
  - exists false, path. split; [reflexivity|]. split; [exact Hready|].
    split; [discriminate | intros (s & t & [] & _)].
  - cbn [Hex_Game.seek_each_source].
    destruct (seek_each_target_spec b avoid s targets
                (Hsrc s (or_introl eq_refl)) Htgt path Hready)
      as (found & path1 & -> & Hready1 & Hfound).
    destruct found.
    + exists true, path1. split; [reflexivity|]. split; [exact Hready1|].
      split; [|reflexivity]. intros _.
      destruct (proj1 Hfound eq_refl) as (t & Ht & Hrest).
      exists s, t. split; [now left|]. auto.
    + destruct (IH (fun x Hx => Hsrc x (or_intror Hx)) path1 Hready1)
        as (connects & path' & -> & Hready' & Hiff).
      exists connects, path'. split; [reflexivity|]. split; [exact Hready'|].
      rewrite Hiff. split.
      * intros (x & t & Hx & Hrest). exists x, t. split; [now right | exact Hrest].
      * intros (x & t & [<- | Hx] & Ht & Hrest); [|exists x, t; auto].
        assert (false = true) by (apply Hfound; eauto). discriminate.
Qed.

Lemma coordinate_on_board (b : Hex_Board.t) (L x y : Z) :
  Hex_Board.border_length b = L -> 0 <= x < L -> 0 <= y < L ->
  Hex_Board.coordinate_to_nodeIndex b x y = x * L + y
  /\ 0 <= x * L + y < L * L.
Proof.
  intros HL Hx Hy. unfold Hex_Board.coordinate_to_nodeIndex. rewrite HL.
  replace (x <? 0) with false by (symmetry; apply Z.ltb_ge; lia).
  replace (y <? 0) with false by (symmetry; apply Z.ltb_ge; lia).
  replace (x >? L - 1) with false
    by (symmetry; rewrite Z.gtb_ltb; apply Z.ltb_ge; lia).
  replace (y >? L - 1) with false
    by (symmetry; rewrite Z.gtb_ltb; apply Z.ltb_ge; lia).
  cbn [orb]. split; [reflexivity | nia].
Qed.

Lemma board_of_size (L : Z) (mode : representationMode) (b : Hex_Board.t) :
  board_of L mode b -> Graph.size (Hex_Board.graph b) = L * L.
Proof.
  intros (_ & Hgraph & _). rewrite Hgraph.
  now destruct (new_board_graph L mode) as (_ & Hsize & _).
Qed.

(** Every edge of a board costs 1. *)
Lemma board_unit_costs (L : Z) (mode : representationMode) (b : Hex_Board.t) :
  board_of L mode b -> unit_costs (Hex_Board.graph b).
Proof.
  intros Hboard u nb. rewrite (board_of_size L mode b Hboard).
  destruct Hboard as (_ & Hgraph & _). rewrite Hgraph. intros Hu.
  destruct (with_nodeTags_queries
              (Graph.nodeTags (Hex_Board.graph b))
              (Hex_Board.graph (Hex_Board.new L mode)) u u) as (_ & _ & ->).
  destruct (new_board_graph L mode) as (_ & Hsize & Hflag & _ & Hentry & Hlist).
  destruct (matrix_queries (Hex_Board.graph (Hex_Board.new L mode)) u u
              Hflag ltac:(now rewrite Hsize) ltac:(now rewrite Hsize)
              ltac:(now rewrite Hsize)) as (_ & _ & ->).
  cbn [fst]. unfold Graph.row_edges. rewrite Hsize. intros Hnb.
  apply in_flat_map in Hnb as (j & Hj & Hnb). apply in_range_iff in Hj.
  rewrite (Hentry u j Hu Hj) in Hnb.
  destruct (hex_linked L u j); cbn in Hnb; [|contradiction].
  destruct Hnb as [<- | []]. reflexivity.
Qed.

(** On a board the costs that a search consumes are below the number of
    cells. *)
Corollary seek_path_costs_on_a_board
          (L : Z) (mode : representationMode) (b : Hex_Board.t)
          (sp : ShortestPath.t) (s t : Z) (avoid : list Z) :
  board_of L mode b -> ready sp -> 0 <= s < L * L -> 0 <= t < L * L ->
  exists sp',
    ShortestPath.seek_path (Hex_Board.graph b) sp s t avoid
    = Some (Hex_Board.graph b, sp')
    /\ forall e, In e (ShortestPath.used_queue_elements sp') ->
                 0 <= Triad.get_value3 e < L * L.
Proof.
  intros Hboard Hready Hs Ht.
  pose proof (board_of_size L mode b Hboard) as Hsize.
  destruct (seek_path_full (Hex_Board.graph b) sp s t avoid Hready
              ltac:(now rewrite Hsize) ltac:(now rewrite Hsize))
    as (sp' & Hret & _ & _ & Hcosts).
  exists sp'. split; [exact Hret|]. rewrite <- Hsize.
  exact (Hcosts (board_unit_costs L mode b Hboard)).
Qed.

Lemma adjacent_linked (g : Graph.t) (u v : Z) :
  0 <= v < Graph.size g -> fst (Graph.adjacent g u v) = linked g u v.
Proof.
  intros Hv. unfold Graph.adjacent, linked, Graph.neighbors.
  destruct (Graph.edgeList_was_computed g); [reflexivity|].
  destruct (Graph.conMatrix_was_computed g); [|reflexivity].
  cbn [fst]. unfold Graph.row_edges.
  now rewrite row_edges_existsb, (existsb_range _ _ Hv).
Qed.

(** With the empty tag and one player's tag banned, the allowed cells of a
    game are those of the other player. *)
Lemma allowed_is_owned (g : Graph.t) (player other u : Z) :
  tags_of_a_game g ->
  (player = 1 /\ other = 2) \/ (player = 2 /\ other = 1) ->
  allowed g [0; other] u
  <-> 0 <= u < Graph.size g /\ Graph.get_node_tag g u = player.
Proof.
  intros Htags Hplayers. unfold allowed, banned. cbn [existsb].
  rewrite orb_false_r, orb_false_iff, !Z.eqb_neq.
  split.
  - intros [Hu [H0 Hother]]. split; [exact Hu|].
    destruct (Htags u Hu) as [H | [H | H]]; lia.
  - intros [Hu Hown]. split; [exact Hu|]. lia.
Qed.

Lemma joined_is_owned_path (g : Graph.t) (player other s t : Z) :
  tags_of_a_game g ->
  (player = 1 /\ other = 2) \/ (player = 2 /\ other = 1) ->
  joined g [0; other] s t <-> owned_path g player s t.
Proof.
  intros Htags Hplayers. split.
  - induction 1 as [Hs | u v _ IH Hlinked Hv].
    + apply (allowed_is_owned g player other s Htags Hplayers) in Hs as [Hs Htag].
      now apply owned_here.
    + apply (allowed_is_owned g player other v Htags Hplayers) in Hv as [Hv Htag].
      apply (owned_step g player s u v IH); auto.
      now rewrite adjacent_linked.
  - induction 1 as [Hs Htag | v w _ IH Hadj Hw Htag].
    + apply joined_here.
      now apply (allowed_is_owned g player other s Htags Hplayers).
    + apply (joined_step g _ s v w IH).
      * now rewrite <- adjacent_linked.
      * now apply (allowed_is_owned g player other w Htags Hplayers).
Qed.

(** Both win checks on the boards of a game, stated with [joined]: the
    check returns, gives the game back as it was, and answers whether some
    border node is joined to some node of the opposite border. *)
Lemma win_check_spec (L : Z) (mode : representationMode) (b : Hex_Board.t)
      (avoid : list Z) (source target : Z -> Z * Z) :
  2 <= L -> board_of L mode b ->
  (forall k, 0 <= k < L ->
             0 <= fst (source k) < L /\ 0 <= snd (source k) < L
             /\ 0 <= fst (target k) < L /\ 0 <= snd (target k) < L) ->
  exists connects path',
    Hex_Game.seek_each_source b ShortestPath.new avoid
      (map (fun k => Hex_Board.coordinate_to_nodeIndex
                       b (fst (source k)) (snd (source k))) (range L))
      (map (fun k => Hex_Board.coordinate_to_nodeIndex
                       b (fst (target k)) (snd (target k))) (range L))
    = Some (connects, b, path')
    /\ (connects = true
        <-> exists n m, 0 <= n < L /\ 0 <= m < L
              /\ Hex_Board.coordinate_to_nodeIndex
                   b (fst (source n)) (snd (source n))
                 <> Hex_Board.coordinate_to_nodeIndex
                      b (fst (target m)) (snd (target m))
              /\ joined (Hex_Board.graph b) avoid
                   (Hex_Board.coordinate_to_nodeIndex
                      b (fst (source n)) (snd (source n)))
                   (Hex_Board.coordinate_to_nodeIndex
                      b (fst (target m)) (snd (target m)))).
Proof.
  intros HL Hboard Hcoords.
  pose proof (board_of_size L mode b Hboard) as Hsize.
  destruct Hboard as (Hborder & _).
  assert (Hnode : forall x y, 0 <= x < L -> 0 <= y < L ->
             0 <= Hex_Board.coordinate_to_nodeIndex b x y
             < Graph.size (Hex_Board.graph b)).
  { intros x y Hx Hy.
    destruct (coordinate_on_board b L x y Hborder Hx Hy) as [-> Hr].
    now rewrite Hsize. }
  destruct (seek_each_source_spec b avoid
              (map (fun k => Hex_Board.coordinate_to_nodeIndex
                               b (fst (source k)) (snd (source k))) (range L))
              (map (fun k => Hex_Board.coordinate_to_nodeIndex
                               b (fst (target k)) (snd (target k))) (range L)))
    with (path := ShortestPath.new)
    as (connects & path' & Hrun & _ & Hiff).
  - intros s Hin. apply in_map_iff in Hin as (k & <- & Hk).
    apply in_range_iff in Hk. apply Hnode; apply Hcoords; exact Hk.
  - intros s Hin. apply in_map_iff in Hin as (k & <- & Hk).
    apply in_range_iff in Hk. apply Hnode; apply Hcoords; exact Hk.
  - exact ready_new.
  - exists connects, path'. split; [exact Hrun|]. rewrite Hiff. split.
    + intros (s & t & Hs & Ht & Hrest).
      apply in_map_iff in Hs as (n & <- & Hn).
      apply in_map_iff in Ht as (m & <- & Hm).
      apply in_range_iff in Hn, Hm. exists n, m. auto.
    + intros (n & m & Hn & Hm & Hrest).
      eexists _, _. split; [|split; [|exact Hrest]].
      * apply in_map_iff. exists n. split; [reflexivity|].
        now apply in_range_iff.
      * apply in_map_iff. exists m. split; [reflexivity|].
        now apply in_range_iff.
Qed.

Lemma with_own_board (game : Hex_Game.t) :
  Hex_Game.with_board (Hex_Game.board game) game = game.
Proof. now destruct game. Qed.

Lemma owned_path_end (g : Graph.t) (player u v : Z) :
  owned_path g player u v -> Graph.get_node_tag g v = player.
Proof. now destruct 1. Qed.

Lemma north_is_not_south (L n s : Z) :
  2 <= L -> 0 <= n < L -> 0 <= s < L -> 0 * L + n <> (L - 1) * L + s.
Proof. intros. nia. Qed.

Lemma west_is_not_east (L w e : Z) :
  2 <= L -> 0 <= w < L -> 0 <= e < L -> w * L + 0 <> e * L + (L - 1).
Proof.
  intros HL Hw He H.
  destruct (Z.le_gt_cases w e) as [Hle | Hgt]; nia.
Qed.

(** C3: on the board of a game of border length [L >= 2], with the empty
    tag and the other player's tag banned, the vertical check answers true
    exactly when a chain of adjacent cells tagged 1 leads from a cell of the
    north border to a cell of the south border, and the lateral check
    exactly when a chain of cells tagged 2 leads from the west border to the
    east border; both return the game as it was.  On a board without
    stones both answer false. *)
Theorem win_checks_find_the_chain_of_the_player
        (L : Z) (mode : representationMode) (game : Hex_Game.t) :
  2 <= L ->
  Hex_Game.border_length game = L ->
  in_play L mode (Hex_Game.board game) ->
  tags_of_a_game (Hex_Board.graph (Hex_Game.board game)) ->
  (exists connects,
      Hex_Game.check_connection_vertical game = Some (connects, game)
      /\ (connects = true
          <-> exists n s, 0 <= n < L /\ 0 <= s < L
                /\ owned_path (Hex_Board.graph (Hex_Game.board game)) 1
                     (Hex_Board.coordinate_to_nodeIndex (Hex_Game.board game) 0 n)
                     (Hex_Board.coordinate_to_nodeIndex
                        (Hex_Game.board game) (L - 1) s)))
  /\ (exists connects,
         Hex_Game.check_connection_lateral game = Some (connects, game)
         /\ (connects = true
             <-> exists w e, 0 <= w < L /\ 0 <= e < L
                   /\ owned_path (Hex_Board.graph (Hex_Game.board game)) 2
                        (Hex_Board.coordinate_to_nodeIndex
                           (Hex_Game.board game) w 0)
                        (Hex_Board.coordinate_to_nodeIndex
                           (Hex_Game.board game) e (L - 1))))
  /\ ((forall u, 0 <= u < L * L ->
                 Graph.get_node_tag (Hex_Board.graph (Hex_Game.board game)) u = 0) ->
      Hex_Game.check_connection_vertical game = Some (false, game)
      /\ Hex_Game.check_connection_lateral game = Some (false, game)).
Proof.
  intros HL Hborder Hplay Htags.
  pose proof (in_play_board_of L mode _ Hplay) as Hboard.
  pose proof (board_of_size L mode _ Hboard) as Hsize.
  assert (HbL : Hex_Board.border_length (Hex_Game.board game) = L)
    by apply Hboard.
  destruct (win_check_spec L mode (Hex_Game.board game) [0; 2]
              (fun n => (0, n)) (fun s => (L - 1, s)) HL Hboard)
    as (cv & pv & Hv & Hviff); [cbn [fst snd]; intros; lia|].
  destruct (win_check_spec L mode (Hex_Game.board game) [0; 1]
              (fun w => (w, 0)) (fun e => (e, L - 1)) HL Hboard)
    as (cl & pl & Hl & Hliff); [cbn [fst snd]; intros; lia|].
  cbn [fst snd] in Hv, Hviff, Hl, Hliff.
  assert (Hvertical :
    Hex_Game.check_connection_vertical game = Some (cv, game)
    /\ (cv = true
        <-> exists n s, 0 <= n < L /\ 0 <= s < L
              /\ owned_path (Hex_Board.graph (Hex_Game.board game)) 1
                   (Hex_Board.coordinate_to_nodeIndex (Hex_Game.board game) 0 n)
                   (Hex_Board.coordinate_to_nodeIndex
                      (Hex_Game.board game) (L - 1) s))).
  { split.
    - unfold Hex_Game.check_connection_vertical. rewrite Hborder, Hv.
      now rewrite with_own_board.
    - rewrite Hviff. split.
      + intros (n & s & Hn & Hs & _ & Hj). exists n, s.
        split; [exact Hn|]. split; [exact Hs|].
        apply (joined_is_owned_path _ 1 2); auto.
      + intros (n & s & Hn & Hs & Hp). exists n, s.
        split; [exact Hn|]. split; [exact Hs|]. split.
        * destruct (coordinate_on_board _ L 0 n HbL ltac:(lia) Hn) as [-> _].
          destruct (coordinate_on_board _ L (L - 1) s HbL ltac:(lia) Hs)
            as [-> _].
          now apply north_is_not_south.
        * apply (joined_is_owned_path _ 1 2); auto. }
  assert (Hlateral :
    Hex_Game.check_connection_lateral game = Some (cl, game)
    /\ (cl = true
        <-> exists w e, 0 <= w < L /\ 0 <= e < L
              /\ owned_path (Hex_Board.graph (Hex_Game.board game)) 2
                   (Hex_Board.coordinate_to_nodeIndex (Hex_Game.board game) w 0)
                   (Hex_Board.coordinate_to_nodeIndex
                      (Hex_Game.board game) e (L - 1)))).
  { split.
    - unfold Hex_Game.check_connection_lateral. rewrite Hborder, Hl.
      now rewrite with_own_board.
    - rewrite Hliff. split.
      + intros (w & e & Hw & He & _ & Hj). exists w, e.
        split; [exact Hw|]. split; [exact He|].
        apply (joined_is_owned_path _ 2 1); auto.
      + intros (w & e & Hw & He & Hp). exists w, e.
        split; [exact Hw|]. split; [exact He|]. split.
        * destruct (coordinate_on_board _ L w 0 HbL Hw ltac:(lia)) as [-> _].
          destruct (coordinate_on_board _ L e (L - 1) HbL He ltac:(lia))
            as [-> _].
          now apply west_is_not_east.
        * apply (joined_is_owned_path _ 2 1); auto. }
  split; [exists cv; exact Hvertical|]. split; [exists cl; exact Hlateral|].
  intros Hempty.
  assert (Hnone : forall player u v,
             player <> 0 ->
             ~ owned_path (Hex_Board.graph (Hex_Game.board game)) player u v).
  { intros player u v Hne Hp. pose proof (owned_path_end _ _ _ _ Hp) as Htag.
    assert (Hv' : 0 <= v < L * L) by (rewrite <- Hsize; now destruct Hp).
    rewrite (Hempty v Hv') in Htag. congruence. }
  destruct Hvertical as [-> Hcv], Hlateral as [-> Hcl].
  destruct cv.
  - destruct (proj1 Hcv eq_refl) as (n & s & _ & _ & Hp).
    now apply Hnone in Hp.
  - destruct cl; [|split; reflexivity].
    destruct (proj1 Hcl eq_refl) as (w & e & _ & _ & Hp).
    now apply Hnone in Hp.
Qed.

Lemma new_board_tags (L : Z) (mode : representationMode) (u : Z) :
  Graph.get_node_tag (Hex_Board.graph (Hex_Board.new L mode)) u = 0.
Proof.
  destruct (new_board_graph L mode) as (_ & _ & _ & Htags & _).
  unfold Graph.get_node_tag. rewrite Htags. unfold vat.
  destruct (u <? 0); [reflexivity|].
  generalize (Z.to_nat u) as k. generalize (range (L * L)) as l.
  induction l as [|x l IH]; intros [|k]; cbn; auto.
Qed.

Lemma win_checks_find_the_chain_of_the_player_witness :
  Hex_Game.check_connection_vertical (Hex_Game.new 5 1 true false)
  = Some (false, Hex_Game.new 5 1 true false)
  /\ Hex_Game.check_connection_lateral (Hex_Game.new 5 1 true false)
     = Some (false, Hex_Game.new 5 1 true false).
Proof.
  apply (win_checks_find_the_chain_of_the_player
           5 CON_MATRIX (Hex_Game.new 5 1 true false)).
  - lia.
  - reflexivity.
  - apply in_play_new.
  - intros u _. left. apply new_board_tags.
  - intros u _. apply new_board_tags.
Defined.

(** ** The board after a win check *)

Lemma seek_turn_keeps_graph (g : Graph.t) (banned_nodes : list Z)
      (sp : ShortestPath.t) :
  fst (ShortestPath.seek_turn g banned_nodes sp) = g.
Proof.
  unfold ShortestPath.seek_turn.
  pose proof (neighbors_keeps_graph g (ShortestPath.currentNode sp)) as Hg.
  destruct (Graph.neighbors g (ShortestPath.currentNode sp)) as [nbrs g'].
  cbn [snd] in Hg. subst g'.
  repeat match goal with
         | |- context [if ?c then _ else _] => destruct c
         | |- context [let (_, _) := ?p in _] => destruct p
         | |- context [match ?o with Some _ => _ | None => _ end] => destruct o
         end; reflexivity.
Qed.

Lemma seek_loop_keeps_graph (banned_nodes : list Z) (fuel : nat) :
  forall g sp r,
    ShortestPath.seek_loop fuel g banned_nodes sp = Some r -> fst r = g.
Proof.
  induction fuel as [|fuel IH]; intros g sp r H; cbn [ShortestPath.seek_loop] in H.
  - destruct (ShortestPath.terminated sp); [|discriminate].
    now injection H as <-.
  - destruct (ShortestPath.terminated sp); [now injection H as <-|].
    pose proof (seek_turn_keeps_graph g banned_nodes sp) as Hg.
    destruct (ShortestPath.seek_turn g banned_nodes sp) as [g' sp'].
    cbn [fst] in Hg. subst g'. now apply IH in H.
Qed.

(** Whatever the graph, the object and the nodes: when [seek_path] returns,
    it returns the graph it was given. *)
Lemma seek_path_keeps_graph (g : Graph.t) (sp : ShortestPath.t) (s t : Z)
      (avoid : list Z) (r : Graph.t * ShortestPath.t) :
  ShortestPath.seek_path g sp s t avoid = Some r -> fst r = g.
Proof.
  unfold ShortestPath.seek_path. intros H.
  destruct (existsb _ (ShortestPath.banned_nodes_of g avoid));
    [now injection H as <-|].
  match type of H with
  | match ?loop with _ => _ end = _ => destruct loop as [[g1 sp1]|] eqn:Hloop
  end; [|discriminate].
  apply seek_loop_keeps_graph in Hloop. cbn [fst] in Hloop. subst g1.
  cbn [ShortestPath.path_exists] in H.
  destruct (ShortestPath.path_exists sp1).
  - destruct (ShortestPath.reproduce_found_path g _); [|discriminate].
    now injection H as <-.
  - now injection H as <-.
Qed.

Lemma seek_each_target_keeps_board (avoid : list Z) (s : Z) (targets : list Z) :
  forall b path connects b' path',
    Hex_Game.seek_each_target b path avoid s targets = Some (connects, b', path') ->
    b' = b.
Proof.
  induction targets as [|t rest IH]; intros b path connects b' path' H;
    cbn [Hex_Game.seek_each_target] in H.
  - now injection H as _ <- _.
  - destruct (ShortestPath.seek_path (Hex_Board.graph b) path s t avoid)
      as [[g sp]|] eqn:Hseek; [|discriminate].
    apply seek_path_keeps_graph in Hseek. cbn [fst] in Hseek. subst g.
    rewrite with_own_graph in H.
    destruct (ShortestPath.get_path_exists sp).
    + now injection H as _ <- _.
    + now apply IH in H.
Qed.

Lemma seek_each_source_keeps_board (avoid : list Z) (sources targets : list Z) :
  forall b path connects b' path',
    Hex_Game.seek_each_source b path avoid sources targets
    = Some (connects, b', path') ->
    b' = b.
Proof.
  induction sources as [|s rest IH]; intros b path connects b' path' H;
    cbn [Hex_Game.seek_each_source] in H.
  - now injection H as _ <- _.
  - destruct (Hex_Game.seek_each_target b path avoid s targets)
      as [[[found b1] path1]|] eqn:Hinner; [|discriminate].
    apply seek_each_target_keeps_board in Hinner. subst b1.
    destruct found.
    + now injection H as _ <- _.
    + now apply IH in H.
Qed.

(** C10: a win check that returns hands back the very board it was given
    -- tags, values, matrix, edge list and flags -- whatever that board is;
    and on the boards of a game of border length [L >= 2] the three checks
    do return. *)
Theorem win_checks_leave_the_board_as_it_was :
  (forall game connects game',
      Hex_Game.check_connection_vertical game = Some (connects, game') ->
      game' = game)
  /\ (forall game connects game',
         Hex_Game.check_connection_lateral game = Some (connects, game') ->
         game' = game)
  /\ (forall board connects board',
         Hex_Game.check_bot_won board = Some (connects, board') ->
         board' = board)
  /\ (forall L mode game,
         2 <= L -> Hex_Game.border_length game = L ->
         in_play L mode (Hex_Game.board game) ->
         exists vertical lateral bot,
           Hex_Game.check_connection_vertical game = Some (vertical, game)
           /\ Hex_Game.check_connection_lateral game = Some (lateral, game)
           /\ Hex_Game.check_bot_won (Hex_Game.board game)
              = Some (bot, Hex_Game.board game)).
Proof.
  split; [|split; [|split]].
  - intros game connects game' H. unfold Hex_Game.check_connection_vertical in H.
    destruct (Hex_Game.seek_each_source _ _ _ _ _) as [[[c b] p]|] eqn:Hrun;
      [|discriminate].
    apply seek_each_source_keeps_board in Hrun. subst b.
    rewrite with_own_board in H. now injection H as _ <-.
  - intros game connects game' H. unfold Hex_Game.check_connection_lateral in H.
    destruct (Hex_Game.seek_each_source _ _ _ _ _) as [[[c b] p]|] eqn:Hrun;
      [|discriminate].
    apply seek_each_source_keeps_board in Hrun. subst b.
    rewrite with_own_board in H. now injection H as _ <-.
  - intros board connects board' H. unfold Hex_Game.check_bot_won in H.
    destruct (Hex_Game.seek_each_source _ _ _ _ _) as [[[c b] p]|] eqn:Hrun;
      [|discriminate].
    apply seek_each_source_keeps_board in Hrun. subst b.
    now injection H as _ <-.
  - intros L mode game HL Hborder Hplay.
    pose proof (in_play_board_of L mode _ Hplay) as Hboard.
    assert (HbL : Hex_Board.border_length (Hex_Game.board game) = L)
      by apply Hboard.
    destruct (win_check_spec L mode (Hex_Game.board game) [0; 2]
                (fun n => (0, n)) (fun s => (L - 1, s)) HL Hboard)
      as (cv & pv & Hv & _); [cbn [fst snd]; intros; lia|].
    destruct (win_check_spec L mode (Hex_Game.board game) [0; 1]
                (fun w => (w, 0)) (fun e => (e, L - 1)) HL Hboard)
      as (cl & pl & Hl & _); [cbn [fst snd]; intros; lia|].
    cbn [fst snd] in Hv, Hl. exists cv, cl, cl.
    unfold Hex_Game.check_connection_vertical, Hex_Game.check_connection_lateral,
      Hex_Game.check_bot_won, Hex_Board.get_border_length.
    rewrite Hborder, HbL, Hv, Hl, with_own_board. repeat split.
Qed.

Lemma win_checks_leave_the_board_as_it_was_witness :
  exists vertical lateral bot,
    Hex_Game.check_connection_vertical (Hex_Game.new 3 2 true true)
    = Some (vertical, Hex_Game.new 3 2 true true)
    /\ Hex_Game.check_connection_lateral (Hex_Game.new 3 2 true true)
       = Some (lateral, Hex_Game.new 3 2 true true)
    /\ Hex_Game.check_bot_won (Hex_Game.board (Hex_Game.new 3 2 true true))
       = Some (bot, Hex_Game.board (Hex_Game.new 3 2 true true)).
Proof.
  apply (proj2 (proj2 (proj2 win_checks_leave_the_board_as_it_was))
           3 CON_MATRIX (Hex_Game.new 3 2 true true)).
  - lia.
  - reflexivity.
  - apply in_play_new.
Defined.

(** ** A search from a node to itself *)

(** Whatever the graph and the banned tags, a search whose target is its
    source returns with "no path": the source is closed from the start, so
    no triad ever leads to it. *)
Lemma seek_path_to_the_source_itself (g : Graph.t) (sp : ShortestPath.t)
      (s : Z) (avoid : list Z) :
  ready sp -> 0 <= s < Graph.size g ->
  exists sp',
    ShortestPath.seek_path g sp s s avoid = Some (g, sp')
    /\ answer sp' = (false, -1, []).
Proof.
  intros Hready Hs.
  destruct (seek_path_spec g sp s s avoid Hready Hs Hs)
    as (sp' & Hrun & Hseeked & Hexists).
  exists sp'. split; [exact Hrun|].
  unfold answer, ShortestPath.get_path_exists, ShortestPath.get_path_cost,
    ShortestPath.get_path.
  rewrite Hseeked.
  destruct (ShortestPath.path_exists sp'); [|reflexivity].
  destruct (proj1 Hexists eq_refl) as [Hne _]. contradiction.
Qed.

(** C1 on a board of border length 3 where player 1 holds the middle cell
    (node 4), with the tags 0 and 2 banned as in the vertical check: node 4
    is not banned, and the search from 4 to 4 reports that no path exists,
    with cost -1 and an empty step list. *)
Theorem seek_path_from_a_node_to_itself_reports_no_path :
  banned (Hex_Board.graph board_with_one_stone) [0; 2] 4 = false
  /\ option_map (fun r => answer (snd r))
       (ShortestPath.seek_path (Hex_Board.graph board_with_one_stone)
                               ShortestPath.new 4 4 [0; 2])
     = Some (false, -1, []).
Proof. split; vm_compute; reflexivity. Qed.

(** C2 on the same board: breadth-first search from node 4 visits node 4,
    and [seek_path] from 4 to 4 reports that no path exists. *)
Theorem seek_path_and_bfs_differ_from_a_node_to_itself :
  bfs_reaches (Hex_Board.graph board_with_one_stone) [0; 2] 4 4 = true
  /\ option_map (fun r => ShortestPath.get_path_exists (snd r))
       (ShortestPath.seek_path (Hex_Board.graph board_with_one_stone)
                               ShortestPath.new 4 4 [0; 2])
     = Some false.
Proof. split; vm_compute; reflexivity. Qed.

(** ** Breadth-first search and [seek_path] *)

Lemma allowedb_iff (g : Graph.t) (avoid : list Z) (v : Z) :
  allowedb g avoid v = true <-> allowed g avoid v.
Proof.
  unfold allowedb, allowed.
  rewrite !andb_true_iff, negb_true_iff, Z.leb_le, Z.ltb_lt. tauto.
Qed.

(** Marking one more allowed node leaves one unvisited node less. *)
Lemma unvisited_after_visit (g : Graph.t) (avoid : list Z) (visited : list Z)
      (v : Z) :
  allowed g avoid v -> ~ In v visited ->
  S (unvisited g avoid (visited ++ [v])) = unvisited g avoid visited.
Proof.
  intros Hv Hnew. unfold unvisited.
  assert (Hin : In v (range (Graph.size g))) by (apply in_range_iff, Hv).
  pose proof (NoDup_range (Graph.size g)) as Hnd.
  revert Hin Hnd. generalize (range (Graph.size g)) as l.
  assert (Hsame : forall x, x <> v ->
             existsb (fun k => k =? x) (visited ++ [v])
             = existsb (fun k => k =? x) visited).
  { intros x Hx. rewrite existsb_app. cbn [existsb].
    replace (v =? x) with false by (symmetry; apply Z.eqb_neq; congruence).
    now rewrite !orb_false_r. }
  induction l as [|x l IH]; intros Hin Hnd; [contradiction|].
  apply NoDup_cons_iff in Hnd as [Hx Hnd]. cbn [filter].
  destruct Hin as [-> | Hin].
  - replace (existsb (fun k => k =? v) (visited ++ [v])) with true
      by (symmetry; apply existsb_mem, in_or_app; right; now left).
    replace (existsb (fun k => k =? v) visited) with false
      by (symmetry; apply not_true_is_false; now rewrite existsb_mem).
    rewrite (proj2 (allowedb_iff g avoid v) Hv). cbn [andb negb length].
    f_equal. f_equal. apply filter_ext_in. intros y Hy.
    rewrite Hsame; [reflexivity|]. intros ->. contradiction.
  - rewrite Hsame by (intros ->; contradiction).
    destruct (allowedb g avoid x && negb (existsb (fun k => k =? x) visited));
      cbn [length]; rewrite <- (IH Hin Hnd); reflexivity.
Qed.

(** The neighbours of the node taken off the queue, all seen. *)
Lemma bfs_visit_all (g : Graph.t) (avoid : list Z) (s u : Z) (nbs : list Z) :
  (forall v, In v nbs -> linked g u v = true) ->
  joined g avoid s u ->
  forall queue visited,
    (forall v, In v visited -> joined g avoid s v) ->
    exists fresh,
      fold_left (bfs_visit g avoid) nbs (queue, visited)
      = (queue ++ fresh, visited ++ fresh)
      /\ (forall v, In v fresh -> joined g avoid s v)
      /\ (forall v, In v nbs -> allowed g avoid v -> In v (visited ++ fresh))
      /\ (unvisited g avoid (visited ++ fresh) + length fresh
          = unvisited g avoid visited)%nat.
Proof.
  intros Hlinked Hu. induction nbs as [|v nbs IH]; intros queue visited Hsound.
  - exists []. rewrite !app_nil_r. cbn.
    split; [reflexivity|]. split; [intros v []|]. split; [intros v []|lia].
  - cbn [fold_left]. unfold bfs_visit at 2. cbn [fst snd].
    assert (IH' := IH (fun x Hx => Hlinked x (or_intror Hx))).
    destruct (allowedb g avoid v) eqn:Hok; cbn [andb].
    + destruct (existsb (fun k => k =? v) visited) eqn:Hseen; cbn [negb].
      * destruct (IH' queue visited Hsound) as (fresh & -> & Hf & Hall & Hcount).
        exists fresh. repeat split; auto.
        intros x [<- | Hx] Hax; [|now apply Hall].
        apply in_or_app. left. now apply existsb_mem.
      * apply allowedb_iff in Hok.
        assert (Hnew : ~ In v visited)
          by (rewrite <- existsb_mem; congruence).
        assert (Hjv : joined g avoid s v).
        { apply (joined_step g avoid s u v Hu); [|exact Hok].
          apply Hlinked. now left. }
        destruct (IH' (queue ++ [v]) (visited ++ [v])) as
            (fresh & -> & Hf & Hall & Hcount).
        { intros x Hx. apply in_app_or in Hx as [Hx | [<- | []]]; auto. }
        exists (v :: fresh). rewrite <- !app_assoc. cbn [app].
        rewrite <- !app_assoc in Hall, Hcount. cbn [app] in Hall, Hcount.
        split; [reflexivity|]. split; [|split].
        -- intros x [<- | Hx]; auto.
        -- intros x [<- | Hx] Hax; [|now apply Hall].
           apply in_or_app. right. now left.
        -- cbn [length]. rewrite <- (unvisited_after_visit g avoid visited v Hok Hnew).
           lia.
    + destruct (IH' queue visited Hsound) as (fresh & -> & Hf & Hall & Hcount).
      exists fresh. repeat split; auto.
      intros x [<- | Hx] Hax; [|now apply Hall].
      apply allowedb_iff in Hax. congruence.
Qed.

(** Run with enough fuel, the search ends with the nodes joined to the
    source, and with all of them. *)
Lemma bfs_loop_visits_the_joined (g : Graph.t) (avoid : list Z) (s : Z)
      (fuel : nat) :
  forall queue visited,
    bfs_state g avoid s queue visited ->
    (length queue + unvisited g avoid visited <= fuel)%nat ->
    forall t, In t (bfs_loop fuel g avoid queue visited) <-> joined g avoid s t.
Proof.
  assert (Hclosed : forall visited,
             bfs_state g avoid s [] visited ->
             forall t, In t visited <-> joined g avoid s t).
  { intros visited [Hs _ Hsound Hdone] t. split; [apply Hsound|].
    induction 1 as [_ | u v _ IH Hl Hv]; [exact Hs|].
    apply (Hdone u v IH); auto. }
  induction fuel as [|fuel IH]; intros queue visited Hstate Hfuel t.
  - destruct queue; [|cbn in Hfuel; lia]. cbn. now apply Hclosed.
  - destruct queue as [|u rest]; [cbn; now apply Hclosed|].
    cbn [bfs_loop].
    destruct Hstate as [Hs Hqueued Hsound Hdone].
    assert (Hu : joined g avoid s u) by (apply Hsound, Hqueued; now left).
    destruct (bfs_visit_all g avoid s u
                (map Pair.get_value1 (fst (Graph.neighbors g u))))
      with (queue := rest) (visited := visited)
      as (fresh & -> & Hfresh & Hall & Hcount); auto.
    { intros v Hv. apply in_map_iff in Hv as (nb & <- & Hnb).
      apply linked_listed. eauto. }
    cbn [fst snd]. apply IH.
    + constructor.
      * apply in_or_app. now left.
      * intros v Hv. apply in_or_app. apply in_app_or in Hv as [Hv | Hv];
          [left; apply Hqueued; now right | now right].
      * intros v Hv. apply in_app_or in Hv as [Hv | Hv]; auto.
      * intros u' v Hu' Hnotq Hl Hv.
        destruct (Z.eq_dec u' u) as [-> | Hne].
        -- apply Hall; [|exact Hv]. apply linked_listed in Hl as (nb & Hnb & <-).
           now apply in_map.
        -- apply in_app_or in Hu' as [Hu' | Hu'].
           ++ apply in_or_app. left. apply (Hdone u' v Hu'); auto.
              intros [Heq | Hin]; [congruence|].
              apply Hnotq, in_or_app. now left.
           ++ exfalso. apply Hnotq, in_or_app. now right.
    + rewrite length_app. cbn [length] in Hfuel. lia.
Qed.

(** Breadth-first search decides [joined]. *)
Lemma bfs_reaches_iff_joined (g : Graph.t) (avoid : list Z) (s t : Z) :
  bfs_reaches g avoid s t = true <-> joined g avoid s t.
Proof.
  unfold bfs_reaches. destruct (allowedb g avoid s) eqn:Hs.
  - apply allowedb_iff in Hs. rewrite existsb_mem.
    apply bfs_loop_visits_the_joined.
    + constructor.
      * now left.
      * auto.
      * intros v [<- | []]. now apply joined_here.
      * intros u v [<- | []] Hnot. exfalso. apply Hnot. now left.
    + pose proof (unvisited_after_visit g avoid [] s Hs (fun H => H)) as Hone.
      cbn [app] in Hone.
      assert (Hle : (unvisited g avoid [] <= Z.to_nat (Graph.size g))%nat).
      { unfold unvisited. rewrite <- (range_length (Graph.size g)).
        apply filter_length_le. }
      cbn [length]. lia.
  - split; [discriminate|]. intros Hj.
    apply joined_source_allowed, allowedb_iff in Hj. congruence.
Qed.

(** Between two different nodes of any graph, and for every set of banned
    tags, [seek_path] returns and reports a path exactly when breadth-first
    search over the nodes that are not banned reaches the target. *)
Theorem seek_path_agrees_with_bfs_between_different_nodes
        (g : Graph.t) (sp : ShortestPath.t) (s t : Z) (avoid : list Z) :
  ready sp -> 0 <= s < Graph.size g -> 0 <= t < Graph.size g -> s <> t ->
  exists sp',
    ShortestPath.seek_path g sp s t avoid = Some (g, sp')
    /\ ShortestPath.get_path_exists sp' = bfs_reaches g avoid s t.
Proof.
  intros Hready Hs Ht Hne.
  destruct (seek_path_spec g sp s t avoid Hready Hs Ht)
    as (sp' & Hrun & _ & Hexists).
  exists sp'. split; [exact Hrun|].
  unfold ShortestPath.get_path_exists. apply eq_true_iff_eq.
  rewrite Hexists, bfs_reaches_iff_joined. tauto.
Qed.

(** * More on the priority queue *)

Lemma insert_sorted queue new_element :
  nondecreasing queue = true ->
  nondecreasing (PriorityQueue.insert queue new_element) = true.
Proof.
  intros Hsorted. rewrite insert_is_loop.
  destruct (insert_loop_split queue new_element)
    as (front & back & -> & -> & Hfront & Hback).
  apply nondecreasing_app_inv in Hsorted as (Hf & Hb & Hfb).
  assert (Hnew : forall e, In e back ->
                           Triad.get_value3 new_element <= Triad.get_value3 e).
  { destruct back as [|b back]; [intros e []|].
    pose proof (Hback b eq_refl) as Hle.
    apply nondecreasing_cons in Hb as [_ Hb].
    intros e [<- | He]; [exact Hle | specialize (Hb e He); lia]. }
  apply nondecreasing_app; [exact Hf | now apply nondecreasing_intro |].
  intros a b Ha [<- | Hb']; [specialize (Hfront a Ha); lia | now apply Hfb].
Qed.

Lemma inserted_all_sorted (l : list int_int_and_num_Triad) :
  forall queue,
    nondecreasing queue = true ->
    nondecreasing (fold_left PriorityQueue.insert l queue) = true
    /\ Permutation (fold_left PriorityQueue.insert l queue) (l ++ queue).
Proof.
  induction l as [|e l IH]; intros queue Hsorted; cbn [fold_left app].
  - split; [exact Hsorted | apply Permutation_refl].
  - destruct (IH (PriorityQueue.insert queue e) (insert_sorted _ _ Hsorted))
      as [Hs Hp].
    split; [exact Hs|].
    eapply Permutation_trans; [exact Hp|].
    eapply Permutation_trans;
      [apply Permutation_app_head, insert_perm
      | apply Permutation_sym, Permutation_middle].
Qed.

(** X1: whatever the queue, [insert] adds the new triad and nothing else:
    the queue afterwards is a rearrangement of the old entries and the new
    one, it is one longer, and the four membership tests find the new
    triad. *)
Theorem insert_adds_the_new_triad_only
        (queue : PriorityQueue.t) (new_element : int_int_and_num_Triad) :
  Permutation (PriorityQueue.insert queue new_element) (new_element :: queue)
  /\ PriorityQueue.size (PriorityQueue.insert queue new_element)
     = PriorityQueue.size queue + 1
  /\ PriorityQueue.contains (PriorityQueue.insert queue new_element)
                            new_element = true
  /\ PriorityQueue.contains_elem_with_val1_val2
       (PriorityQueue.insert queue new_element)
       (Triad.get_value1 new_element) (Triad.get_value2 new_element) = true
  /\ PriorityQueue.contains_elem_with_val1
       (PriorityQueue.insert queue new_element)
       (Triad.get_value1 new_element) = true
  /\ PriorityQueue.contains_elem_with_val2
       (PriorityQueue.insert queue new_element)
       (Triad.get_value2 new_element) = true.
Proof.
  pose proof (insert_perm queue new_element) as Hperm.
  assert (Hin : In new_element (PriorityQueue.insert queue new_element))
    by (apply insert_In; now left).
  split; [exact Hperm|]. split.
  - unfold PriorityQueue.size, vsize.
    rewrite (Permutation_length Hperm). cbn [length]. lia.
  - unfold PriorityQueue.contains, PriorityQueue.contains_elem_with_val1_val2,
      PriorityQueue.contains_elem_with_val1,
      PriorityQueue.contains_elem_with_val2.
    repeat split; apply existsb_exists; exists new_element;
      (split; [exact Hin|]); rewrite ?same_refl, ?Z.eqb_refl; reflexivity.
Qed.

(** X2: a queue filled by [insert] alone, from the empty queue and in any
    order of arrival, is sorted by cost and holds what was inserted;
    [get_top_and_delete] then hands out an entry of least cost and leaves
    the rest sorted.  Only when nothing was inserted is there no top. *)
Theorem inserting_sorts_and_the_top_is_cheapest
        (arrivals : list int_int_and_num_Triad) :
  nondecreasing (fold_left PriorityQueue.insert arrivals []) = true
  /\ Permutation (fold_left PriorityQueue.insert arrivals []) arrivals
  /\ match PriorityQueue.get_top_and_delete
             (fold_left PriorityQueue.insert arrivals []) with
     | None => arrivals = []
     | Some (top, rest) =>
         Forall (fun e => Triad.get_value3 top <= Triad.get_value3 e) arrivals
         /\ Permutation (top :: rest) arrivals
         /\ nondecreasing rest = true
         /\ PriorityQueue.get_top_NotDelete
              (fold_left PriorityQueue.insert arrivals []) = Some top
     end.
Proof.
  destruct (inserted_all_sorted arrivals [] eq_refl) as [Hsorted Hperm].
  rewrite app_nil_r in Hperm.
  split; [exact Hsorted|]. split; [exact Hperm|].
  destruct (fold_left PriorityQueue.insert arrivals []) as [|top rest];
    cbn [PriorityQueue.get_top_and_delete PriorityQueue.get_top_NotDelete].
  - apply Permutation_nil in Hperm. exact Hperm.
  - apply nondecreasing_cons in Hsorted as [Hrest Hmin].
    split; [|split; [exact Hperm | split; [exact Hrest | reflexivity]]].
    apply Forall_forall. intros e He.
    apply (Permutation_in _ (Permutation_sym Hperm)) in He as [<- | He];
      [lia | now apply Hmin].
Qed.

Lemma any_not_in_ref_loop_spec queue ref_queue :
  PriorityQueue.any_not_in_ref_loop queue ref_queue
  = negb (existsb (PriorityQueue.contains ref_queue) queue).
Proof.
  induction queue as [|e rest IH];
    cbn [PriorityQueue.any_not_in_ref_loop existsb]; [reflexivity|].
  change (PriorityQueue.in_ref ref_queue e)
    with (PriorityQueue.contains ref_queue e).
  destruct (PriorityQueue.contains ref_queue e); [reflexivity | exact IH].
Qed.

(** X3: [theres_any_in_queue_not_in_ref] answers true exactly when no
    entry of the queue is found in [ref_queue]: one entry of the queue
    that is in [ref_queue] makes it false, whatever the other entries, and
    on the empty queue it is true. *)
Theorem theres_any_in_queue_not_in_ref_means_none_is_in_ref
        (queue ref_queue : PriorityQueue.t) :
  PriorityQueue.theres_any_in_queue_not_in_ref queue ref_queue
  = forallb (fun e => negb (PriorityQueue.contains ref_queue e)) queue.
Proof.
  unfold PriorityQueue.theres_any_in_queue_not_in_ref.
  destruct ((PriorityQueue.size queue >? 0)
            && (PriorityQueue.size ref_queue =? 0)) eqn:Hfirst.
  - apply andb_prop in Hfirst as [_ Hempty]. apply Z.eqb_eq in Hempty.
    destruct ref_queue; [|unfold PriorityQueue.size, vsize in Hempty;
                          cbn [length] in Hempty; lia].
    symmetry. apply forallb_forall. reflexivity.
  - rewrite any_not_in_ref_loop_spec.
    induction queue as [|e rest IH]; cbn [existsb forallb]; [reflexivity|].
    destruct (PriorityQueue.contains ref_queue e); cbn [negb orb andb];
      [reflexivity|].
    apply IH. cbn [andb]. destruct (PriorityQueue.size rest >? 0) eqn:Hrest;
      [|reflexivity].
    cbn [andb]. apply andb_false_iff in Hfirst as [Hpos | Hsize];
      [|exact Hsize].
    unfold PriorityQueue.size, vsize in Hpos. cbn [length] in Hpos.
    rewrite Z.gtb_ltb in Hpos. apply Z.ltb_ge in Hpos. lia.
Qed.

Lemma first_not_in_ref_loop_stuck queue ref_queue :
  PriorityQueue.first_not_in_ref_loop true queue ref_queue
  = PriorityQueue.none.
Proof.
  induction queue as [|e rest IH]; cbn [PriorityQueue.first_not_in_ref_loop];
    [reflexivity | exact IH].
Qed.

Lemma getAndDelete_loop_stuck queue ref_queue :
  forall seen,
    PriorityQueue.getAndDelete_loop true seen queue ref_queue
    = (PriorityQueue.none, seen ++ queue).
Proof.
  induction queue as [|e rest IH]; intros seen;
    cbn [PriorityQueue.getAndDelete_loop orb negb].
  - now rewrite app_nil_r.
  - rewrite IH, <- app_assoc. reflexivity.
Qed.

(** X4: the two searches for "the first entry of the queue that is not in
    [ref_queue]" never look behind the head of the queue: they hand out
    the head when it is not in [ref_queue], and the triad (-1, -1, -1)
    otherwise, even when a later entry is not in [ref_queue]; the deleting
    one takes the head it hands out off the queue and otherwise leaves the
    queue as it is. *)
Theorem searches_for_an_entry_not_in_ref_see_the_head_only
        (queue ref_queue : PriorityQueue.t) :
  PriorityQueue.get_first_in_queue_not_in_ref_NotDelete queue ref_queue
  = match queue with
    | [] => PriorityQueue.none
    | e :: _ =>
        if PriorityQueue.contains ref_queue e then PriorityQueue.none else e
    end
  /\ PriorityQueue.getAndDelete_first_in_queue_not_in_ref queue ref_queue
     = match queue with
       | [] => (PriorityQueue.none, [])
       | e :: rest =>
           if PriorityQueue.contains ref_queue e
           then (PriorityQueue.none, queue)
           else (e, rest)
       end.
Proof.
  unfold PriorityQueue.get_first_in_queue_not_in_ref_NotDelete,
    PriorityQueue.getAndDelete_first_in_queue_not_in_ref.
  destruct queue as [|e rest]; [split; reflexivity|].
  change (PriorityQueue.contains ref_queue e)
    with (PriorityQueue.in_ref ref_queue e).
  destruct ((PriorityQueue.size (e :: rest) >? 0)
            && (PriorityQueue.size ref_queue =? 0)) eqn:Hfirst.
  - apply andb_prop in Hfirst as [_ Hempty]. apply Z.eqb_eq in Hempty.
    destruct ref_queue; [|unfold PriorityQueue.size, vsize in Hempty;
                          cbn [length] in Hempty; lia].
    split; reflexivity.
  - cbn [PriorityQueue.first_not_in_ref_loop PriorityQueue.getAndDelete_loop
         orb app].
    destruct (PriorityQueue.in_ref ref_queue e); cbn [negb].
    + rewrite first_not_in_ref_loop_stuck, getAndDelete_loop_stuck.
      split; reflexivity.
    + split; reflexivity.
Qed.

Lemma filter_sorted (keep : int_int_and_num_Triad -> bool) queue :
  nondecreasing queue = true -> nondecreasing (filter keep queue) = true.
Proof.
  induction queue as [|a rest IH]; intros Hsorted; [reflexivity|].
  apply nondecreasing_cons in Hsorted as [Hrest Hmin]. cbn [filter].
  destruct (keep a); [|now apply IH].
  apply nondecreasing_intro; [now apply IH|].
  intros e He. apply filter_In in He as [He _]. now apply Hmin.
Qed.

Lemma filter_perm_inv (keep : int_int_and_num_Triad -> bool) l1 l2 :
  Permutation l1 l2 -> Permutation (filter keep l1) (filter keep l2).
Proof.
  induction 1 as [|x l1 l2 _ IH|x y l|l1 l2 l3 _ IH1 _ IH2]; cbn [filter].
  - constructor.
  - destruct (keep x); [now constructor | exact IH].
  - destruct (keep x), (keep y); try apply Permutation_refl. apply perm_swap.
  - eapply Permutation_trans; eassumption.
Qed.

Lemma insert_loop_filter (keep : int_int_and_num_Triad -> bool) queue e :
  keep e = false ->
  filter keep (PriorityQueue.insert_loop queue e) = filter keep queue.
Proof.
  intros He. induction queue as [|a rest IH];
    cbn [PriorityQueue.insert_loop filter]; [now rewrite He|].
  destruct (Triad.get_value3 a >=? Triad.get_value3 e); cbn [filter].
  - now rewrite He.
  - now rewrite IH.
Qed.

Lemma insert_loop_entries_to queue e :
  ~ In (Triad.get_value2 e) (map Triad.get_value2 queue) ->
  entries_to (Triad.get_value2 e) (PriorityQueue.insert_loop queue e) = [e].
Proof.
  unfold entries_to.
  induction queue as [|a rest IH]; intros Hnot;
    cbn [PriorityQueue.insert_loop filter].
  - now rewrite Z.eqb_refl.
  - cbn [map] in Hnot.
    assert (Ha : (Triad.get_value2 a =? Triad.get_value2 e) = false).
    { apply Z.eqb_neq. intros Heq. apply Hnot. now left. }
    assert (Hrest : filter (fun x => Triad.get_value2 x =? Triad.get_value2 e)
                           rest = []).
    { clear IH. induction rest as [|b rest IH]; [reflexivity|].
      cbn [filter map] in *.
      destruct (Z.eqb_spec (Triad.get_value2 b) (Triad.get_value2 e)) as [Hb|Hb].
      - exfalso. apply Hnot. right. now left.
      - apply IH. intros [H | H]; apply Hnot; [now left | right; now right]. }
    destruct (Triad.get_value3 a >=? Triad.get_value3 e); cbn [filter].
    + now rewrite Z.eqb_refl, Ha, Hrest.
    + rewrite Ha. apply IH. intros H. apply Hnot. now right.
Qed.

(** X5: on a queue that is sorted by cost and has at most one entry for
    every destination, as the search keeps it,
    [update_queue_with_shorter_path] leaves the new triad as the only
    entry for its destination, keeps the entries for the other
    destinations in their order, and the queue is again sorted with at
    most one entry for every destination. *)
Theorem update_queue_replaces_the_entry_of_the_destination
        (queue : PriorityQueue.t) (new_element : int_int_and_num_Triad) :
  nondecreasing queue = true ->
  NoDup (map Triad.get_value2 queue) ->
  entries_to (Triad.get_value2 new_element)
             (PriorityQueue.update_queue_with_shorter_path queue new_element)
  = [new_element]
  /\ filter (fun e => negb (Triad.get_value2 e
                            =? Triad.get_value2 new_element))
            (PriorityQueue.update_queue_with_shorter_path queue new_element)
     = filter (fun e => negb (Triad.get_value2 e
                              =? Triad.get_value2 new_element)) queue
  /\ nondecreasing
       (PriorityQueue.update_queue_with_shorter_path queue new_element) = true
  /\ NoDup (map Triad.get_value2
                (PriorityQueue.update_queue_with_shorter_path
                   queue new_element)).
Proof.
  intros Hsorted Hnd. rewrite (update_queue_unique _ _ Hnd).
  set (others := filter _ queue).
  assert (Hnone : ~ In (Triad.get_value2 new_element)
                       (map Triad.get_value2 others))
    by apply filtered_has_none.
  split; [|split; [|split]].
  - rewrite insert_is_loop. now apply insert_loop_entries_to.
  - rewrite insert_is_loop, insert_loop_filter
      by (now rewrite Z.eqb_refl).
    unfold others. clear. induction queue as [|a rest IH]; [reflexivity|].
    cbn [filter].
    destruct (negb (Triad.get_value2 a =? Triad.get_value2 new_element)) eqn:Ha;
      cbn [filter]; [rewrite Ha; now f_equal | exact IH].
  - apply insert_sorted, filter_sorted, Hsorted.
  - apply (Permutation_NoDup
             (Permutation_sym
                (Permutation_map Triad.get_value2
                                 (insert_perm others new_element)))).
    cbn [map]. constructor; [exact Hnone|].
    unfold others. clear - Hnd. induction queue as [|a rest IH];
      [constructor|].
    cbn [map] in Hnd. apply NoDup_cons_iff in Hnd as [Ha Hrest].
    cbn [filter]. destruct (negb _); [|now apply IH].
    cbn [map]. constructor; [|now apply IH].
    intros Hin. apply Ha. apply in_map_iff in Hin as (x & Hx & Hin).
    apply filter_In in Hin as [Hin _]. rewrite <- Hx. now apply in_map.
Qed.

Lemma update_queue_replaces_the_entry_of_the_destination_witness :
  entries_to 5 (PriorityQueue.update_queue_with_shorter_path
                  [trd 0 4 1; trd 0 5 3] (trd 4 5 2))
  = [trd 4 5 2]
  /\ PriorityQueue.update_queue_with_shorter_path
       [trd 0 4 1; trd 0 5 3] (trd 4 5 2)
     = [trd 0 4 1; trd 4 5 2].
Proof.
  split; [|reflexivity].
  apply (update_queue_replaces_the_entry_of_the_destination
           [trd 0 4 1; trd 0 5 3] (trd 4 5 2)).
  - reflexivity.
  - cbn. repeat constructor; cbn; intuition lia.
Defined.

Lemma insert_at_in_range (queue : PriorityQueue.t) (n : Z) e :
  0 <= n <= PriorityQueue.size queue ->
  PriorityQueue.insert_at queue n e
  = firstn (Z.to_nat n) queue ++ e :: skipn (Z.to_nat n) queue.
Proof.
  intros Hn. unfold PriorityQueue.insert_at.
  replace (0 <=? n) with true by (symmetry; apply Z.leb_le; lia).
  replace (n <=? PriorityQueue.size queue) with true
    by (symmetry; apply Z.leb_le; lia).
  reflexivity.
Qed.

Lemma erase_at_in_range (queue : PriorityQueue.t) (n : Z) :
  0 <= n < PriorityQueue.size queue ->
  PriorityQueue.erase_at queue n
  = firstn (Z.to_nat n) queue ++ skipn (S (Z.to_nat n)) queue.
Proof.
  intros Hn. unfold PriorityQueue.erase_at.
  replace (0 <=? n) with true by (symmetry; apply Z.leb_le; lia).
  replace (n <? PriorityQueue.size queue) with true
    by (symmetry; apply Z.ltb_lt; lia).
  reflexivity.
Qed.

Lemma erase_at_length (queue : PriorityQueue.t) (n : Z) :
  0 <= n < PriorityQueue.size queue ->
  PriorityQueue.size (PriorityQueue.erase_at queue n)
  = PriorityQueue.size queue - 1.
Proof.
  intros Hn. rewrite erase_at_in_range by exact Hn.
  unfold PriorityQueue.size, vsize in *.
  rewrite length_app, length_firstn, length_skipn. lia.
Qed.

(** Putting an entry in at a place and taking out what is at that place
    gives the queue back. *)
Lemma erase_at_insert_at (queue : PriorityQueue.t) (n : Z) e :
  0 <= n <= PriorityQueue.size queue ->
  PriorityQueue.erase_at (PriorityQueue.insert_at queue n e) n = queue
  /\ PriorityQueue.get_element_n_NotDelete
       (PriorityQueue.insert_at queue n e) n = Some e
  /\ PriorityQueue.size (PriorityQueue.insert_at queue n e)
     = PriorityQueue.size queue + 1.
Proof.
  intros Hn. rewrite insert_at_in_range by exact Hn.
  unfold PriorityQueue.size, vsize in Hn.
  assert (Hlen : length (firstn (Z.to_nat n) queue) = Z.to_nat n)
    by (rewrite length_firstn; lia).
  assert (Hsize : PriorityQueue.size
                    (firstn (Z.to_nat n) queue ++ e :: skipn (Z.to_nat n) queue)
                  = Z.of_nat (length queue) + 1).
  { unfold PriorityQueue.size, vsize.
    rewrite length_app, Hlen. cbn [length]. rewrite length_skipn. lia. }
  split; [|split].
  - rewrite erase_at_in_range by (rewrite Hsize; lia).
    rewrite firstn_app, Hlen, Nat.sub_diag, firstn_O, app_nil_r.
    rewrite firstn_firstn, Nat.min_id.
    replace (S (Z.to_nat n)) with (length (firstn (Z.to_nat n) queue) + 1)%nat
      by lia.
    rewrite skipn_app, Hlen.
    replace (Z.to_nat n + 1 - Z.to_nat n)%nat with 1%nat by lia.
    rewrite skipn_all2 by lia. cbn [skipn app].
    apply firstn_skipn.
  - unfold PriorityQueue.get_element_n_NotDelete.
    replace (n <? 0) with false by (symmetry; apply Z.ltb_ge; lia).
    rewrite nth_error_app2 by lia. rewrite Hlen, Nat.sub_diag. reflexivity.
  - exact Hsize.
Qed.

(** Taking the entry at a place out and putting it back there gives the
    queue back. *)
Lemma insert_at_erase_at (queue : PriorityQueue.t) (n : Z) :
  0 <= n < PriorityQueue.size queue ->
  PriorityQueue.insert_at (PriorityQueue.erase_at queue n) n
                          (vat (Triad.mk 0 0 0) queue n) = queue.
Proof.
  intros Hn.
  rewrite insert_at_in_range by (rewrite erase_at_length by exact Hn; lia).
  rewrite erase_at_in_range by exact Hn.
  unfold PriorityQueue.size, vsize in Hn.
  assert (Hlen : length (firstn (Z.to_nat n) queue) = Z.to_nat n)
    by (rewrite length_firstn; lia).
  rewrite firstn_app, Hlen, Nat.sub_diag, firstn_O, app_nil_r.
  rewrite firstn_firstn, Nat.min_id.
  rewrite skipn_app, Hlen, Nat.sub_diag, skipn_all2 by lia.
  cbn [skipn app]. unfold vat.
  replace (n <? 0) with false by (symmetry; apply Z.ltb_ge; lia).
  rewrite <- (firstn_skipn (Z.to_nat n) queue) at 4.
  f_equal.
  destruct (skipn (Z.to_nat n) queue) as [|x rest] eqn:Hskip.
  - exfalso. apply (f_equal (@length _)) in Hskip.
    rewrite length_skipn in Hskip. cbn [length] in Hskip. lia.
  - f_equal.
    + rewrite <- (firstn_skipn (Z.to_nat n) queue) at 1.
      rewrite app_nth2 by lia. rewrite Hlen, Nat.sub_diag, Hskip. reflexivity.
    + transitivity (skipn 1 (skipn (Z.to_nat n) queue));
        [rewrite skipn_skipn; reflexivity | now rewrite Hskip].
Qed.

(** X6: [change_Prioirity] moves one entry and nothing else: for places
    inside the queue, the entry that was at [index] is afterwards at
    [new_position], the other entries keep their order (the queue without
    the moved entry is the same before and after), the queue has the same
    entries and the same length, and moving an entry to the place where it
    is changes nothing. *)
Theorem change_Prioirity_moves_one_entry
        (queue : PriorityQueue.t) (index new_position : Z) :
  0 <= index < PriorityQueue.size queue ->
  0 <= new_position < PriorityQueue.size queue ->
  PriorityQueue.get_element_n_NotDelete
    (PriorityQueue.change_Prioirity queue index new_position) new_position
  = PriorityQueue.get_element_n_NotDelete queue index
  /\ PriorityQueue.erase_at
       (PriorityQueue.change_Prioirity queue index new_position) new_position
     = PriorityQueue.erase_at queue index
  /\ Permutation (PriorityQueue.change_Prioirity queue index new_position)
                 queue
  /\ PriorityQueue.size
       (PriorityQueue.change_Prioirity queue index new_position)
     = PriorityQueue.size queue
  /\ PriorityQueue.change_Prioirity queue index index = queue.
Proof.
  intros Hindex Hnew. unfold PriorityQueue.change_Prioirity.
  set (temp := vat (Triad.mk 0 0 0) queue index).
  pose proof (erase_at_length queue index Hindex) as Hshort.
  destruct (erase_at_insert_at (PriorityQueue.erase_at queue index)
                               new_position temp ltac:(lia))
    as (Hback & Hat & Hsize).
  assert (Hread : PriorityQueue.get_element_n_NotDelete queue index = Some temp).
  { unfold PriorityQueue.get_element_n_NotDelete, temp, vat.
    replace (index <? 0) with false by (symmetry; apply Z.ltb_ge; lia).
    apply nth_error_nth'. unfold PriorityQueue.size, vsize in Hindex. lia. }
  assert (Hsplit : forall (l : PriorityQueue.t) n e,
             0 <= n <= PriorityQueue.size l ->
             Permutation (PriorityQueue.insert_at l n e) (e :: l)).
  { intros l n e Hn. rewrite insert_at_in_range by exact Hn.
    rewrite <- (firstn_skipn (Z.to_nat n) l) at 3.
    apply Permutation_sym, Permutation_middle. }
  split; [now rewrite Hat, Hread|]. split; [exact Hback|].
  split; [|split; [lia | now apply insert_at_erase_at]].
  eapply Permutation_trans; [apply Hsplit; lia|].
  rewrite <- (insert_at_erase_at queue index Hindex) at 2.
  apply Permutation_sym, Hsplit. lia.
Qed.

Lemma change_Prioirity_moves_one_entry_witness :
  PriorityQueue.change_Prioirity [trd 0 1 1; trd 0 2 2; trd 0 3 3] 2 0
  = [trd 0 3 3; trd 0 1 1; trd 0 2 2]
  /\ PriorityQueue.erase_at
       (PriorityQueue.change_Prioirity [trd 0 1 1; trd 0 2 2; trd 0 3 3] 2 0) 0
     = PriorityQueue.erase_at [trd 0 1 1; trd 0 2 2; trd 0 3 3] 2.
Proof.
  split; [reflexivity|].
  apply (change_Prioirity_moves_one_entry
           [trd 0 1 1; trd 0 2 2; trd 0 3 3] 2 0); cbn; lia.
Defined.

(** * More on the graph classes *)

(** ** Tags and values of the nodes *)

Lemma lazy_vector_read (v : list Z) (n node val i : Z) :
  v = [] \/ length v = Z.to_nat n ->
  0 <= node < n -> 0 <= i < n ->
  vat 0 (vset (if vsize v =? 0 then v ++ map (fun _ => 0) (range n) else v)
              node val) i
  = if i =? node then val
    else match v with [] => 0 | _ => vat 0 v i end.
Proof.
  intros Hv Hnode Hi. rewrite vat_vset.
  assert (Hlen : vsize (if vsize v =? 0 then v ++ map (fun _ => 0) (range n)
                        else v) = n).
  { unfold vsize. destruct Hv as [-> | Hv].
    - cbn [length Z.of_nat Z.eqb app]. rewrite length_map, range_length. lia.
    - destruct (Z.eqb_spec (Z.of_nat (length v)) 0); [|lia].
      rewrite length_app, length_map, range_length. lia. }
  rewrite Hlen.
  replace (0 <=? node) with true by (symmetry; apply Z.leb_le; lia).
  replace (node <? n) with true by (symmetry; apply Z.ltb_lt; lia).
  rewrite !andb_true_r. destruct (i =? node); [reflexivity|].
  destruct v as [|x v]; [|reflexivity].
  cbn [vsize length Z.of_nat Z.eqb app]. now rewrite vat_map_range.
Qed.

(** X7: a tag or a value written to a node of the graph is what is read
    back from that node, and the write leaves the other nodes as they
    were; the first write to a graph whose vector is still empty sets the
    other nodes to 0.  Writing a tag changes no value and writing a value
    no tag, and neither changes the size, the matrix or the edge list. *)
Theorem node_tags_and_values_are_read_back
        (g : Graph.t) (node val i : Z) :
  Graph.nodeTags g = [] \/ length (Graph.nodeTags g) = Z.to_nat (Graph.size g) ->
  Graph.nodeValues g = []
  \/ length (Graph.nodeValues g) = Z.to_nat (Graph.size g) ->
  0 <= node < Graph.size g ->
  0 <= i < Graph.size g ->
  Graph.get_node_tag (Graph.set_node_tag g node val) i
  = (if i =? node then val
     else match Graph.nodeTags g with [] => 0 | _ => Graph.get_node_tag g i end)
  /\ Graph.get_node_value (Graph.set_node_value g node val) i
     = (if i =? node then val
        else match Graph.nodeValues g with
             | [] => 0
             | _ => Graph.get_node_value g i
             end)
  /\ Graph.get_node_value (Graph.set_node_tag g node val) i
     = Graph.get_node_value g i
  /\ Graph.get_node_tag (Graph.set_node_value g node val) i
     = Graph.get_node_tag g i
  /\ Graph.set_node_tag g node val
     = Graph.with_nodeTags (Graph.nodeTags (Graph.set_node_tag g node val)) g
  /\ Graph.set_node_value g node val
     = Graph.with_nodeValues
         (Graph.nodeValues (Graph.set_node_value g node val)) g
  /\ length (Graph.nodeTags (Graph.set_node_tag g node val))
     = Z.to_nat (Graph.size g)
  /\ length (Graph.nodeValues (Graph.set_node_value g node val))
     = Z.to_nat (Graph.size g).
Proof.
  intros Htags Hvalues Hnode Hi.
  unfold Graph.get_node_tag, Graph.get_node_value, Graph.set_node_tag,
    Graph.set_node_value, Graph.with_nodeTags, Graph.with_nodeValues.
  cbn [Graph.nodeTags Graph.nodeValues Graph.size].
  rewrite !vset_length.
  repeat split;
    try (apply lazy_vector_read; assumption).
  - destruct Htags as [-> | Htags].
    + cbn [vsize length Z.of_nat Z.eqb app]. rewrite length_map, range_length.
      reflexivity.
    + unfold vsize. destruct (Z.eqb_spec (Z.of_nat (length (Graph.nodeTags g))) 0);
        [|exact Htags].
      rewrite length_app, length_map, range_length. lia.
  - destruct Hvalues as [-> | Hvalues].
    + cbn [vsize length Z.of_nat Z.eqb app]. rewrite length_map, range_length.
      reflexivity.
    + unfold vsize.
      destruct (Z.eqb_spec (Z.of_nat (length (Graph.nodeValues g))) 0);
        [|exact Hvalues].
      rewrite length_app, length_map, range_length. lia.
Qed.

Lemma node_tags_and_values_are_read_back_witness :
  Graph.get_node_tag
    (Graph.set_node_tag (Graph.new 3 CON_MATRIX) 1 2) 1 = 2
  /\ Graph.get_node_tag
       (Graph.set_node_tag (Graph.new 3 CON_MATRIX) 1 2) 0 = 0.
Proof.
  split.
  - apply (node_tags_and_values_are_read_back (Graph.new 3 CON_MATRIX) 1 2 1);
      cbn; try lia; now left.
  - apply (node_tags_and_values_are_read_back (Graph.new 3 CON_MATRIX) 1 2 0);
      cbn; try lia; now left.
Defined.

(** ** From the matrix to the edge list *)

Lemma count_row (g : Graph.t) (i : Z) (l : list Z) :
  forall count,
    fold_left
      (fun count j =>
         if get_bool (Graph.entry (Graph.connectivityMatrix g) i j)
         then count + 1 else count)
      l count
    = count
      + vsize (flat_map
                 (fun j =>
                    if get_bool (Graph.entry (Graph.connectivityMatrix g) i j)
                    then [Pair.mk j (get_value
                                       (Graph.entry (Graph.connectivityMatrix g)
                                                    i j))]
                    else [])
                 l).
Proof.
  unfold vsize.
  induction l as [|j l IH]; intros count; cbn [fold_left flat_map];
    [cbn; lia|].
  rewrite IH, length_app.
  destruct (get_bool (Graph.entry (Graph.connectivityMatrix g) i j));
    cbn [length]; lia.
Qed.

Lemma count_rows (g : Graph.t) (rows : list (list int_and_num_Pair))
      (n : Z) (l : list Z) :
  (forall i, In i l -> 0 <= i < n) ->
  rows = map (Graph.row_edges g) (range n) ->
  forall count,
    fold_left
      (fun count i =>
         fold_left
           (fun count j =>
              if get_bool (Graph.entry (Graph.connectivityMatrix g) i j)
              then count + 1 else count)
           (range (Graph.size g)) count)
      l count
    = fold_left (fun count i => count + vsize (vat [] rows i)) l count.
Proof.
  intros Hl ->. induction l as [|i l IH]; intros count; [reflexivity|].
  cbn [fold_left]. rewrite count_row, vat_map_range by (apply Hl; now left).
  apply IH. intros k Hk. apply Hl. now right.
Qed.

(** X8: building the edge list from the matrix changes no answer of the
    graph: on a graph held as a matrix only, for nodes of the graph,
    [adjacent], [get_edge_value] (value and message), [neighbors] (the
    same entries in the same order) and the edge count [E] are after
    [generate_edgeList_from_conMatrix] what they were before, and
    [get_edgeList] returns the list so built. *)
Theorem edge_list_from_matrix_answers_the_same (g : Graph.t) (u v : Z) :
  Graph.conMatrix_was_computed g = true ->
  Graph.edgeList_was_computed g = false ->
  0 <= u < Graph.size g ->
  0 <= v < Graph.size g ->
  answers (Graph.generate_edgeList_from_conMatrix g) u v = answers g u v
  /\ fst (Graph.neighbors (Graph.generate_edgeList_from_conMatrix g) u)
     = fst (Graph.neighbors g u)
  /\ Graph.E (Graph.generate_edgeList_from_conMatrix g) = Graph.E g
  /\ Graph.V (Graph.generate_edgeList_from_conMatrix g) = Graph.V g
  /\ Graph.get_edgeList g
     = (Graph.edgeList (Graph.generate_edgeList_from_conMatrix g),
        Graph.generate_edgeList_from_conMatrix g).
Proof.
  intros Hm Hl Hu Hv.
  set (g' := Graph.generate_edgeList_from_conMatrix g).
  assert (Hg' : g' = Graph.with_edgeList
                       (map (Graph.row_edges g) (range (Graph.size g))) true g)
    by (unfold g', Graph.generate_edgeList_from_conMatrix; now rewrite Hm).
  assert (Hrow : forall i, Graph.row_edges g' i = Graph.row_edges g i)
    by (intros i; rewrite Hg'; reflexivity).
  destruct (matrix_queries g' u v) as (Hadj' & Hval' & Hnb');
    [now rewrite Hg' | | now rewrite Hg' | now rewrite Hg' |].
  { intros _. rewrite Hg' at 1. cbn [Graph.edgeList Graph.with_edgeList].
    rewrite Hg' at 2. cbn [Graph.size Graph.with_edgeList].
    apply map_ext. intros i. now rewrite Hrow. }
  destruct (matrix_queries g u v Hm) as (Hadj & Hval & Hnb);
    [now rewrite Hl | exact Hu | exact Hv |].
  unfold answers. rewrite Hadj', Hval', Hnb', Hadj, Hval, Hnb, Hrow.
  replace (Graph.connectivityMatrix g') with (Graph.connectivityMatrix g)
    by now rewrite Hg'.
  split; [reflexivity|]. split; [reflexivity|]. split; [|split].
  - unfold Graph.E. rewrite Hm, Hl.
    replace (Graph.edgeList_was_computed g') with true by now rewrite Hg'.
    replace (Graph.size g') with (Graph.size g) by now rewrite Hg'.
    symmetry. apply (count_rows g _ (Graph.size g)).
    + intros i Hi. now apply in_range_iff.
    + now rewrite Hg'.
  - now rewrite Hg'.
  - unfold Graph.get_edgeList. rewrite Hl. reflexivity.
Qed.

Lemma edge_list_from_matrix_answers_the_same_witness :
  answers (Graph.generate_edgeList_from_conMatrix graph_with_free_edge) 0 1
  = answers graph_with_free_edge 0 1.
Proof.
  apply (edge_list_from_matrix_answers_the_same graph_with_free_edge 0 1);
    cbn; try reflexivity; lia.
Defined.

(** ** Edges added, forced and deleted in the matrix *)

Lemma entry_set_entry_square n m i j p a b :
  square n m -> 0 <= i < n -> 0 <= j < n ->
  Graph.entry (Graph.set_entry m i j p) a b
  = if (a =? i) && (b =? j) then p else Graph.entry m a b.
Proof.
  intros Hsq Hi Hj. rewrite entry_set_entry.
  rewrite (square_size n m Hsq) by lia.
  rewrite (square_row n m i Hsq Hi).
  replace (0 <=? i) with true by (symmetry; apply Z.leb_le; lia).
  replace (i <? n) with true by (symmetry; apply Z.ltb_lt; lia).
  replace (0 <=? j) with true by (symmetry; apply Z.leb_le; lia).
  replace (j <? n) with true by (symmetry; apply Z.ltb_lt; lia).
  now rewrite !andb_true_r.
Qed.

Lemma entry_both n m u v p a b :
  square n m -> 0 <= u < n -> 0 <= v < n ->
  square n (Graph.set_entry (Graph.set_entry m u v p) v u p)
  /\ Graph.entry (Graph.set_entry (Graph.set_entry m u v p) v u p) a b
     = if same_edge u v a b then p else Graph.entry m a b.
Proof.
  intros Hsq Hu Hv. split; [now repeat apply square_set_entry|].
  rewrite (entry_set_entry_square n) by (try apply square_set_entry; assumption).
  rewrite (entry_set_entry_square n) by assumption.
  unfold same_edge.
  destruct ((a =? v) && (b =? u)), ((a =? u) && (b =? v)); reflexivity.
Qed.

Lemma answers_matrix (g : Graph.t) (a b : Z) :
  Graph.conMatrix_was_computed g = true ->
  Graph.edgeList_was_computed g = false ->
  answers g a b
  = (get_bool (Graph.entry (Graph.connectivityMatrix g) a b),
     if get_bool (Graph.entry (Graph.connectivityMatrix g) a b)
     then (get_value (Graph.entry (Graph.connectivityMatrix g) a b), None)
     else (0, Some (Edge_doesnt_exist a b))).
Proof.
  intros Hm Hl. unfold answers, Graph.adjacent, Graph.get_edge_value.
  now rewrite Hm, Hl.
Qed.

Lemma same_edge_sym u v a b : same_edge u v b a = same_edge u v a b.
Proof.
  unfold same_edge.
  destruct (a =? u), (b =? v), (a =? v), (b =? u); reflexivity.
Qed.

Lemma same_edge_ends u v a b :
  same_edge u v a b = true -> (a = u /\ b = v) \/ (a = v /\ b = u).
Proof.
  unfold same_edge. intros H. apply orb_prop in H as [H | H];
    apply andb_prop in H as [H1 H2]; apply Z.eqb_eq in H1, H2; auto.
Qed.

Lemma addEdge_matrix
        (g : Graph.t) (u v cost a b : Z) :
  matrix_graph g ->
  0 <= u < Graph.size g -> 0 <= v < Graph.size g ->
  matrix_graph (undirected_Graph.addEdge g u v cost)
  /\ Graph.size (undirected_Graph.addEdge g u v cost) = Graph.size g
  /\ answers (undirected_Graph.addEdge g u v cost) a b
     = (if negb (fst (Graph.adjacent g u v)) && same_edge u v a b
        then (true, (cost, None))
        else answers g a b)
  /\ (fst (Graph.adjacent g u v) = true ->
      undirected_Graph.addEdge g u v cost = g).
Proof.
  intros (Hm & Hl & Hsq) Hu Hv.
  pose proof (answers_matrix g u v Hm Hl) as Huv.
  unfold answers in Huv. apply (f_equal fst) in Huv. cbn [fst] in Huv.
  rewrite Huv. unfold undirected_Graph.addEdge, undirected_Graph.set_both.
  rewrite Hl, Hm.
  destruct (get_bool (Graph.entry (Graph.connectivityMatrix g) u v)) eqn:Hthere;
    cbn [negb andb].
  - unfold matrix_graph; auto.
  - destruct (entry_both (Graph.size g) (Graph.connectivityMatrix g) u v
                         (mk_bool_num true cost) a b Hsq Hu Hv) as [Hsq' Hentry].
    split; [split; [reflexivity | split; [exact Hl | exact Hsq']]|].
    split; [reflexivity|].
    split; [|discriminate].
    rewrite answers_matrix by (try reflexivity; exact Hl).
    cbn [Graph.connectivityMatrix Graph.with_connectivityMatrix].
    rewrite Hentry.
    destruct (same_edge u v a b); [reflexivity|].
    now rewrite answers_matrix.
Qed.

(** X9: on a graph held as a matrix, [addEdge] adds the edge in both
    directions at the given cost when the two nodes were not adjacent, and
    changes nothing, the cost of the edge included, when they were; no
    other pair of nodes answers differently afterwards. *)
Theorem addEdge_adds_a_missing_edge_both_ways
        (g : Graph.t) (u v cost a b : Z) :
  matrix_graph g ->
  0 <= u < Graph.size g -> 0 <= v < Graph.size g ->
  matrix_graph (undirected_Graph.addEdge g u v cost)
  /\ Graph.size (undirected_Graph.addEdge g u v cost) = Graph.size g
  /\ answers (undirected_Graph.addEdge g u v cost) a b
     = (if negb (fst (Graph.adjacent g u v)) && same_edge u v a b
        then (true, (cost, None))
        else answers g a b)
  /\ (fst (Graph.adjacent g u v) = true ->
      undirected_Graph.addEdge g u v cost = g).
Proof. apply addEdge_matrix. Qed.

Lemma addEdge_adds_a_missing_edge_both_ways_witness :
  answers (undirected_Graph.addEdge graph_without_edges 0 1 4) 1 0
  = (true, (4, None)).
Proof.
  apply (addEdge_adds_a_missing_edge_both_ways graph_without_edges 0 1 4 1 0).
  - repeat split; repeat constructor.
  - cbn; lia.
  - cbn; lia.
Defined.

Lemma force_set_edge_value_matrix
        (g : Graph.t) (u v val a b : Z) :
  matrix_graph g ->
  0 <= u < Graph.size g -> 0 <= v < Graph.size g ->
  matrix_graph (undirected_Graph.force_set_edge_value g u v val)
  /\ Graph.size (undirected_Graph.force_set_edge_value g u v val)
     = Graph.size g
  /\ answers (undirected_Graph.force_set_edge_value g u v val) a b
     = (if same_edge u v a b then (true, (val, None)) else answers g a b).
Proof.
  intros (Hm & Hl & Hsq) Hu Hv.
  unfold undirected_Graph.force_set_edge_value, undirected_Graph.set_both.
  rewrite Hl, Hm.
  destruct (entry_both (Graph.size g) (Graph.connectivityMatrix g) u v
                       (mk_bool_num true val) a b Hsq Hu Hv) as [Hsq' Hentry].
  split; [split; [reflexivity | split; [exact Hl | exact Hsq']]|].
    split; [reflexivity|].
  rewrite answers_matrix by (try reflexivity; exact Hl).
  cbn [Graph.connectivityMatrix Graph.with_connectivityMatrix].
  rewrite Hentry.
  destruct (same_edge u v a b); [reflexivity|].
  now rewrite answers_matrix.
Qed.

(** X10: on a graph held as a matrix, [force_set_edge_value] leaves the
    edge in both directions at the given value, whether the nodes were
    adjacent or not, and no other pair of nodes answers differently
    afterwards. *)
Theorem force_set_edge_value_sets_both_ways
        (g : Graph.t) (u v val a b : Z) :
  matrix_graph g ->
  0 <= u < Graph.size g -> 0 <= v < Graph.size g ->
  matrix_graph (undirected_Graph.force_set_edge_value g u v val)
  /\ Graph.size (undirected_Graph.force_set_edge_value g u v val)
     = Graph.size g
  /\ answers (undirected_Graph.force_set_edge_value g u v val) a b
     = (if same_edge u v a b then (true, (val, None)) else answers g a b).
Proof. apply force_set_edge_value_matrix. Qed.

Lemma force_set_edge_value_sets_both_ways_witness :
  answers (undirected_Graph.force_set_edge_value graph_with_free_edge 0 1 9) 1 0
  = (true, (9, None)).
Proof.
  apply (force_set_edge_value_sets_both_ways graph_with_free_edge 0 1 9 1 0).
  - repeat split; repeat constructor.
  - cbn; lia.
  - cbn; lia.
Defined.

Lemma deleteEdge_matrix (g : Graph.t) (u v a b : Z) :
  matrix_graph g ->
  0 <= u < Graph.size g -> 0 <= v < Graph.size g ->
  matrix_graph (undirected_Graph.deleteEdge g u v)
  /\ Graph.size (undirected_Graph.deleteEdge g u v) = Graph.size g
  /\ answers (undirected_Graph.deleteEdge g u v) a b
     = (if fst (Graph.adjacent g u v) && same_edge u v a b
        then (false, (0, Some (Edge_doesnt_exist a b)))
        else answers g a b)
  /\ Graph.nodeTags (undirected_Graph.deleteEdge g u v) = Graph.nodeTags g.
Proof.
  intros (Hm & Hl & Hsq) Hu Hv.
  pose proof (answers_matrix g u v Hm Hl) as Huv.
  unfold answers in Huv. apply (f_equal fst) in Huv. cbn [fst] in Huv.
  rewrite Huv. unfold undirected_Graph.deleteEdge, undirected_Graph.clear_both.
  rewrite Hl, Hm.
  destruct (get_bool (Graph.entry (Graph.connectivityMatrix g) u v)) eqn:Hthere;
    cbn [andb].
  - destruct (entry_both (Graph.size g) (Graph.connectivityMatrix g) u v
                         (mk_bool_num false 0) a b Hsq Hu Hv) as [Hsq' Hentry].
    split; [split; [reflexivity | split; [exact Hl | exact Hsq']]|].
    split; [reflexivity|].
    split; [|reflexivity].
    rewrite answers_matrix by (try reflexivity; exact Hl).
    cbn [Graph.connectivityMatrix Graph.with_connectivityMatrix].
    rewrite Hentry.
    destruct (same_edge u v a b); [reflexivity|].
    now rewrite answers_matrix.
  - unfold matrix_graph; auto.
Qed.

(** X11: on a graph held as a matrix, [deleteEdge] takes the edge out in
    both directions when the first node is adjacent to the second (the two
    queries then answer as for an edge that was never there), does nothing
    when it is not, and no other pair of nodes answers differently
    afterwards; the tags of the nodes stay. *)
Theorem deleteEdge_removes_the_edge_both_ways
        (g : Graph.t) (u v a b : Z) :
  matrix_graph g ->
  0 <= u < Graph.size g -> 0 <= v < Graph.size g ->
  matrix_graph (undirected_Graph.deleteEdge g u v)
  /\ answers (undirected_Graph.deleteEdge g u v) a b
     = (if fst (Graph.adjacent g u v) && same_edge u v a b
        then (false, (0, Some (Edge_doesnt_exist a b)))
        else answers g a b)
  /\ Graph.nodeTags (undirected_Graph.deleteEdge g u v) = Graph.nodeTags g.
Proof.
  intros Hg Hu Hv.
  destruct (deleteEdge_matrix g u v a b Hg Hu Hv) as (H1 & _ & H2 & H3).
  auto.
Qed.

Lemma deleteEdge_removes_the_edge_both_ways_witness :
  answers (undirected_Graph.deleteEdge graph_with_free_edge 0 1) 1 0
  = (false, (0, Some (Edge_doesnt_exist 1 0))).
Proof.
  apply (deleteEdge_removes_the_edge_both_ways graph_with_free_edge 0 1 1 0).
  - repeat split; repeat constructor.
  - cbn; lia.
  - cbn; lia.
Defined.

Lemma deleteEdge_keeps_undirected (g : Graph.t) (u v : Z) :
  matrix_graph g -> undirected g ->
  0 <= u < Graph.size g -> 0 <= v < Graph.size g ->
  undirected (undirected_Graph.deleteEdge g u v).
Proof.
  intros Hg Hsym Hu Hv a b Ha Hb.
  destruct (deleteEdge_matrix g u v a b Hg Hu Hv) as (_ & Hsize & Hab & _).
  destruct (deleteEdge_matrix g u v b a Hg Hu Hv) as (_ & _ & Hba & _).
  rewrite Hsize in Ha, Hb. destruct (Hsym a b Ha Hb) as [H1 H2].
  change (fst (answers (undirected_Graph.deleteEdge g u v) a b)
          = fst (answers (undirected_Graph.deleteEdge g u v) b a)
          /\ fst (snd (answers (undirected_Graph.deleteEdge g u v) a b))
             = fst (snd (answers (undirected_Graph.deleteEdge g u v) b a))).
  rewrite Hab, Hba, (same_edge_sym u v a b).
  destruct (fst (Graph.adjacent g u v) && same_edge u v a b);
    [split; reflexivity | split; assumption].
Qed.

(** X12: the three editing methods keep a graph undirected: on a graph
    held as a matrix in which adjacency and edge values read the same in
    both directions, they still do after [addEdge], after
    [force_set_edge_value] and after [deleteEdge]. *)
Theorem edge_edits_keep_the_graph_undirected (g : Graph.t) (u v val : Z) :
  matrix_graph g -> undirected g ->
  0 <= u < Graph.size g -> 0 <= v < Graph.size g ->
  undirected (undirected_Graph.addEdge g u v val)
  /\ undirected (undirected_Graph.force_set_edge_value g u v val)
  /\ undirected (undirected_Graph.deleteEdge g u v).
Proof.
  intros Hg Hsym Hu Hv.
  assert (Hold : forall a b,
             0 <= a < Graph.size g -> 0 <= b < Graph.size g ->
             fst (answers g a b) = fst (answers g b a)
             /\ fst (snd (answers g a b)) = fst (snd (answers g b a)))
    by (intros a b Ha Hb; exact (Hsym a b Ha Hb)).
  split; [|split]; intros a b Ha Hb.
  - destruct (addEdge_matrix g u v val a b Hg Hu Hv) as (_ & Hsize & Hab & _).
    destruct (addEdge_matrix g u v val b a Hg Hu Hv) as (_ & _ & Hba & _).
    rewrite Hsize in Ha, Hb. destruct (Hold a b Ha Hb) as [H1 H2].
    change (fst (answers (undirected_Graph.addEdge g u v val) a b)
            = fst (answers (undirected_Graph.addEdge g u v val) b a)
            /\ fst (snd (answers (undirected_Graph.addEdge g u v val) a b))
               = fst (snd (answers (undirected_Graph.addEdge g u v val) b a))).
    rewrite Hab, Hba, (same_edge_sym u v a b).
    destruct (negb (fst (Graph.adjacent g u v)) && same_edge u v a b);
      [split; reflexivity | split; assumption].
  - destruct (force_set_edge_value_matrix g u v val a b Hg Hu Hv)
      as (_ & Hsize & Hab).
    destruct (force_set_edge_value_matrix g u v val b a Hg Hu Hv)
      as (_ & _ & Hba).
    rewrite Hsize in Ha, Hb. destruct (Hold a b Ha Hb) as [H1 H2].
    change (fst (answers (undirected_Graph.force_set_edge_value g u v val) a b)
            = fst (answers (undirected_Graph.force_set_edge_value g u v val)
                           b a)
            /\ fst (snd (answers
                           (undirected_Graph.force_set_edge_value g u v val)
                           a b))
               = fst (snd (answers
                             (undirected_Graph.force_set_edge_value g u v val)
                             b a))).
    rewrite Hab, Hba, (same_edge_sym u v a b).
    destruct (same_edge u v a b); [split; reflexivity | split; assumption].
  - exact (deleteEdge_keeps_undirected g u v Hg Hsym Hu Hv a b Ha Hb).
Qed.

Lemma graph_with_free_edge_undirected : undirected graph_with_free_edge.
Proof.
  intros a b Ha Hb. cbn in Ha, Hb.
  assert (Ha' : a = 0 \/ a = 1) by lia. assert (Hb' : b = 0 \/ b = 1) by lia.
  destruct Ha' as [-> | ->], Hb' as [-> | ->]; split; reflexivity.
Qed.

Lemma edge_edits_keep_the_graph_undirected_witness :
  undirected (undirected_Graph.addEdge graph_with_free_edge 0 1 5)
  /\ undirected (undirected_Graph.force_set_edge_value graph_with_free_edge 0 1 5)
  /\ undirected (undirected_Graph.deleteEdge graph_with_free_edge 0 1).
Proof.
  apply (edge_edits_keep_the_graph_undirected graph_with_free_edge 0 1 5).
  - repeat split; repeat constructor.
  - exact graph_with_free_edge_undirected.
  - cbn; lia.
  - cbn; lia.
Defined.

(** ** [disconnect_node_from_neighbors] *)

Lemma delete_each (pairs : list (Z * Z)) (n : Z) :
  (forall p, In p pairs -> 0 <= fst p < n /\ 0 <= snd p < n) ->
  forall g,
    matrix_graph g -> undirected g -> Graph.size g = n ->
    let g' :=
      fold_left (fun g p => undirected_Graph.deleteEdge g (fst p) (snd p))
                pairs g in
    matrix_graph g' /\ undirected g' /\ Graph.size g' = n
    /\ Graph.nodeTags g' = Graph.nodeTags g
    /\ forall a b, 0 <= a < n -> 0 <= b < n ->
         (fst (Graph.adjacent g' a b) = true ->
          fst (Graph.adjacent g a b) = true
          /\ forall p, In p pairs -> same_edge (fst p) (snd p) a b = false)
         /\ (fst (Graph.adjacent g' a b) = false ->
             answers g' a b = (false, (0, Some (Edge_doesnt_exist a b)))).
Proof.
  induction pairs as [|p pairs IH]; intros Hin g Hg Hsym Hsize; cbn zeta.
  - cbn [fold_left]. split; [exact Hg|]. split; [exact Hsym|].
    split; [exact Hsize|]. split; [reflexivity|]. intros a b Ha Hb. split.
    + intros Hadj. split; [exact Hadj | intros q []].
    + intros Hno. rewrite answers_matrix by apply Hg.
      pose proof (answers_matrix g a b (proj1 Hg) (proj1 (proj2 Hg))) as Hab.
      apply (f_equal fst) in Hab. cbn [fst answers] in Hab.
      rewrite <- Hab, Hno. reflexivity.
  - cbn [fold_left].
    destruct (Hin p (or_introl eq_refl)) as [Hu Hv]. rewrite <- Hsize in Hu, Hv.
    pose proof (fun a b => deleteEdge_matrix g (fst p) (snd p) a b Hg Hu Hv)
      as Hdel.
    destruct (Hdel 0 0) as (Hg1 & Hsize1 & _ & Htags1).
    assert (Hsym1 : undirected (undirected_Graph.deleteEdge g (fst p) (snd p)))
      by (apply (deleteEdge_keeps_undirected g (fst p) (snd p));
          assumption).
    destruct (IH (fun q Hq => Hin q (or_intror Hq))
                 (undirected_Graph.deleteEdge g (fst p) (snd p))
                 Hg1 Hsym1 (eq_trans Hsize1 Hsize))
      as (Hg' & Hsym' & Hsize' & Htags' & Hrest).
    split; [exact Hg'|]. split; [exact Hsym'|]. split; [exact Hsize'|].
    split; [now rewrite Htags'|].
    intros a b Ha Hb. destruct (Hrest a b Ha Hb) as [Hyes Hno].
    split; [|exact Hno].
    intros Hadj. destruct (Hyes Hadj) as [Hmid Hothers].
    destruct (Hdel a b) as (_ & _ & Hab & _).
    assert (Hadj1 :
              fst (Graph.adjacent
                     (undirected_Graph.deleteEdge g (fst p) (snd p)) a b)
              = fst (if fst (Graph.adjacent g (fst p) (snd p))
                        && same_edge (fst p) (snd p) a b
                     then (false, (0, Some (Edge_doesnt_exist a b)))
                     else answers g a b))
      by (rewrite <- Hab; reflexivity).
    rewrite Hmid in Hadj1.
    destruct (fst (Graph.adjacent g (fst p) (snd p))
              && same_edge (fst p) (snd p) a b) eqn:Hcut;
      [discriminate|].
    change (true = fst (Graph.adjacent g a b)) in Hadj1.
    split; [symmetry; exact Hadj1|].
    intros q [<- | Hq]; [|now apply Hothers].
    destruct (same_edge (fst p) (snd p) a b) eqn:Hsame; [|reflexivity].
    rewrite andb_true_r in Hcut. exfalso.
    rewrite <- Hsize in Ha, Hb.
    apply same_edge_ends in Hsame as [[-> ->] | [-> ->]].
    + congruence.
    + destruct (Hsym (snd p) (fst p) Ha Hb) as [Hflip _]. congruence.
Qed.

Lemma nested_deletions (h : Z -> list Z) (l : list Z) :
  forall g,
    fold_left
      (fun g i =>
         fold_left (fun g j => undirected_Graph.deleteEdge g i j) (h i) g)
      l g
    = fold_left (fun g p => undirected_Graph.deleteEdge g (fst p) (snd p))
                (flat_map (fun i => map (pair i) (h i)) l) g.
Proof.
  induction l as [|i l IH]; intros g; [reflexivity|].
  cbn [fold_left flat_map]. rewrite fold_left_app, IH. f_equal.
  generalize (h i) as js. intros js. revert g.
  induction js as [|j js IHj]; intros g; [reflexivity|].
  cbn [fold_left map fst snd]. apply IHj.
Qed.

(** X13: [disconnect_node_from_neighbors] does not look at the node it is
    given: on a board whose graph is held as a matrix and is undirected,
    whatever [node] is, no two nodes of the board are adjacent afterwards
    (both edge queries answer as for a missing edge), while the tags and
    the border length stay. *)
Theorem disconnect_node_from_neighbors_removes_every_edge
        (b : Hex_Board.t) (node u v : Z) :
  matrix_graph (Hex_Board.graph b) ->
  undirected (Hex_Board.graph b) ->
  0 <= u < Graph.size (Hex_Board.graph b) ->
  0 <= v < Graph.size (Hex_Board.graph b) ->
  answers (Hex_Board.graph (Hex_Board.disconnect_node_from_neighbors b node))
          u v
  = (false, (0, Some (Edge_doesnt_exist u v)))
  /\ Graph.nodeTags
       (Hex_Board.graph (Hex_Board.disconnect_node_from_neighbors b node))
     = Graph.nodeTags (Hex_Board.graph b)
  /\ Hex_Board.border_length (Hex_Board.disconnect_node_from_neighbors b node)
     = Hex_Board.border_length b.
Proof.
  intros Hg Hsym Hu Hv. unfold Hex_Board.disconnect_node_from_neighbors.
  cbn [Hex_Board.graph Hex_Board.with_graph Hex_Board.border_length].
  rewrite (nested_deletions (fun i => range (i + 1))).
  set (pairs := flat_map _ (range (Graph.size (Hex_Board.graph b)))).
  assert (Hpairs : forall p, In p pairs <->
                             0 <= snd p <= fst p
                             /\ fst p < Graph.size (Hex_Board.graph b)).
  { intros [i j]. unfold pairs. rewrite in_flat_map. cbn [fst snd]. split.
    - intros (k & Hk & Hin). apply in_map_iff in Hin as (j' & Heq & Hj').
      injection Heq as -> ->. apply in_range_iff in Hk, Hj'. lia.
    - intros [Hj Hi]. exists i. split; [apply in_range_iff; lia|].
      apply in_map, in_range_iff. lia. }
  destruct (delete_each pairs (Graph.size (Hex_Board.graph b))
              ltac:(intros p Hp; apply Hpairs in Hp; lia)
              (Hex_Board.graph b) Hg Hsym eq_refl)
    as (_ & _ & _ & Htags & Hedges).
  split; [|split; [exact Htags | reflexivity]].
  destruct (Hedges u v Hu Hv) as [Hyes Hno].
  destruct (fst (Graph.adjacent
                   (fold_left
                      (fun g p => undirected_Graph.deleteEdge g (fst p) (snd p))
                      pairs (Hex_Board.graph b)) u v)) eqn:Hadj;
    [|now apply Hno].
  exfalso. destruct (Hyes eq_refl) as [_ Hnone].
  destruct (Z.le_gt_cases v u) as [Hle | Hgt].
  - specialize (Hnone (u, v) ltac:(apply Hpairs; cbn [fst snd]; lia)).
    unfold same_edge in Hnone. cbn [fst snd] in Hnone.
    now rewrite !Z.eqb_refl in Hnone.
  - specialize (Hnone (v, u) ltac:(apply Hpairs; cbn [fst snd]; lia)).
    unfold same_edge in Hnone. cbn [fst snd] in Hnone.
    rewrite !Z.eqb_refl, orb_true_r in Hnone. discriminate.
Qed.

Lemma small_board_undirected :
  undirected (Hex_Board.graph (Hex_Board.new 2 CON_MATRIX)).
Proof.
  intros a b Ha Hb. change (Graph.size _) with 4 in Ha, Hb.
  assert (Ha' : a = 0 \/ a = 1 \/ a = 2 \/ a = 3) by lia.
  assert (Hb' : b = 0 \/ b = 1 \/ b = 2 \/ b = 3) by lia.
  destruct Ha' as [-> | [-> | [-> | ->]]], Hb' as [-> | [-> | [-> | ->]]];
    split; vm_compute; reflexivity.
Qed.

Lemma disconnect_node_from_neighbors_removes_every_edge_witness :
  answers (Hex_Board.graph
             (Hex_Board.disconnect_node_from_neighbors
                (Hex_Board.new 2 CON_MATRIX) 0)) 2 3
  = (false, (0, Some (Edge_doesnt_exist 2 3))).
Proof.
  apply (disconnect_node_from_neighbors_removes_every_edge
           (Hex_Board.new 2 CON_MATRIX) 0 2 3).
  - split; [reflexivity | split; [reflexivity|]].
    split; [reflexivity | repeat constructor].
  - exact small_board_undirected.
  - vm_compute. split; [discriminate | reflexivity].
  - vm_compute. split; [discriminate | reflexivity].
Defined.

(** * More on the board *)

Lemma index_to_coordinate_on_board (b : Hex_Board.t) (L i : Z) :
  0 < L -> Hex_Board.border_length b = L ->
  Graph.size (Hex_Board.graph b) = L * L ->
  0 <= i < L * L ->
  Hex_Board.nodeIndex_to_coordinate b i = (Z.quot i L, Z.rem i L).
Proof.
  intros HL Hborder Hsize Hi. unfold Hex_Board.nodeIndex_to_coordinate.
  rewrite Hsize, Hborder.
  replace (i <? 0) with false by (symmetry; apply Z.ltb_ge; lia).
  replace (i >? L * L - 1) with false
    by (symmetry; rewrite Z.gtb_ltb; apply Z.ltb_ge; lia).
  reflexivity.
Qed.

(** X14: on a board of border length [L >= 1], cells and node indices
    correspond one to one: the index of a cell of the board is a node of
    the graph and gives the cell back, a node of the graph gives a cell of
    the board and that cell gives the node back; coordinates off the board
    give the index -999 and an index that is no node gives (-999, -999). *)
Theorem cells_and_node_indices_correspond
        (L : Z) (mode : representationMode) (b : Hex_Board.t) (x y i : Z) :
  1 <= L ->
  in_play L mode b ->
  0 <= x < L -> 0 <= y < L ->
  0 <= i < L * L ->
  0 <= Hex_Board.coordinate_to_nodeIndex b x y < L * L
  /\ Hex_Board.nodeIndex_to_coordinate
       b (Hex_Board.coordinate_to_nodeIndex b x y) = (x, y)
  /\ 0 <= fst (Hex_Board.nodeIndex_to_coordinate b i) < L
  /\ 0 <= snd (Hex_Board.nodeIndex_to_coordinate b i) < L
  /\ Hex_Board.coordinate_to_nodeIndex
       b (fst (Hex_Board.nodeIndex_to_coordinate b i))
         (snd (Hex_Board.nodeIndex_to_coordinate b i)) = i
  /\ (forall x' y', ~ (0 <= x' < L /\ 0 <= y' < L) ->
                    Hex_Board.coordinate_to_nodeIndex b x' y' = -999)
  /\ (forall i', ~ 0 <= i' < L * L ->
                 Hex_Board.nodeIndex_to_coordinate b i' = (-999, -999)).
Proof.
  intros HL Hplay Hx Hy Hi.
  pose proof (in_play_board_of L mode b Hplay) as Hboard.
  pose proof (board_of_size L mode b Hboard) as Hsize.
  destruct Hboard as (Hborder & _).
  destruct (coordinate_on_board b L x y Hborder Hx Hy) as [Hindex Hrange].
  destruct (coords_of_index L (x * L + y) ltac:(lia) Hrange)
    as (Hq & Hr & Hsplit).
  destruct (coords_of_index L i ltac:(lia) Hi) as (Hqi & Hri & Hspliti).
  rewrite Hindex.
  rewrite !(index_to_coordinate_on_board b L) by (assumption || lia).
  cbn [fst snd].
  split; [exact Hrange|]. split.
  { destruct (coords_unique L x y (Z.quot (x * L + y) L) (Z.rem (x * L + y) L)
                            Hy Hr Hsplit) as [<- <-].
    reflexivity. }
  split; [exact Hqi|]. split; [exact Hri|]. split.
  { destruct (coordinate_on_board b L _ _ Hborder Hqi Hri) as [-> _]. lia. }
  split.
  - intros x' y' Hout. unfold Hex_Board.coordinate_to_nodeIndex. rewrite Hborder.
    destruct (x' <? 0) eqn:H1; [reflexivity|].
    destruct (x' >? L - 1) eqn:H2; [reflexivity|].
    destruct (y' <? 0) eqn:H3; [reflexivity|].
    destruct (y' >? L - 1) eqn:H4; [reflexivity|].
    exfalso. apply Hout. rewrite Z.gtb_ltb in H2, H4.
    apply Z.ltb_ge in H1, H2, H3, H4. lia.
  - intros i' Hout. unfold Hex_Board.nodeIndex_to_coordinate. rewrite Hsize.
    destruct (i' <? 0) eqn:H1; [reflexivity|].
    destruct (i' >? L * L - 1) eqn:H2; [reflexivity|].
    exfalso. apply Hout. rewrite Z.gtb_ltb in H2.
    apply Z.ltb_ge in H1, H2. lia.
Qed.

Lemma cells_and_node_indices_correspond_witness :
  0 <= Hex_Board.coordinate_to_nodeIndex (Hex_Board.new 3 CON_MATRIX) 1 2 < 3 * 3
  /\ Hex_Board.nodeIndex_to_coordinate
       (Hex_Board.new 3 CON_MATRIX)
       (Hex_Board.coordinate_to_nodeIndex (Hex_Board.new 3 CON_MATRIX) 1 2)
     = (1, 2).
Proof.
  pose proof (cells_and_node_indices_correspond
                3 CON_MATRIX (Hex_Board.new 3 CON_MATRIX) 1 2 7
                ltac:(lia) (in_play_new 3 CON_MATRIX)
                ltac:(lia) ltac:(lia) ltac:(lia)) as (H1 & H2 & _).
  exact (conj H1 H2).
Defined.

Lemma board_adjacency (L : Z) (mode : representationMode) (b : Hex_Board.t)
      (u v : Z) :
  in_play L mode b -> 0 <= u < L * L -> 0 <= v < L * L ->
  fst (Graph.adjacent (Hex_Board.graph b) u v) = hex_linked L u v.
Proof.
  intros Hplay Hu Hv.
  destruct (in_play_board_of L mode b Hplay) as (_ & Hgraph & _).
  destruct (with_nodeTags_queries
              (Graph.nodeTags (Hex_Board.graph b))
              (Hex_Board.graph (Hex_Board.new L mode)) u v) as (Hadj & _).
  rewrite <- Hgraph in Hadj. rewrite Hadj.
  now destruct (new_board_queries L mode u v Hu Hv).
Qed.

Lemma linked_cells (L a c a' c' : Z) :
  2 <= L -> 0 <= a < L -> 0 <= c < L -> 0 <= a' < L -> 0 <= c' < L ->
  hex_linked L (a * L + c) (a' * L + c') = true <-> hex_near a c a' c'.
Proof.
  intros HL Ha Hc Ha' Hc'.
  assert (Hi : 0 <= a * L + c < L * L) by nia.
  assert (Hj : 0 <= a' * L + c' < L * L) by nia.
  rewrite (hex_linked_iff L _ _ HL Hi Hj).
  destruct (coords_of_index L (a * L + c) ltac:(lia) Hi) as (_ & Hr & Hs).
  destruct (coords_of_index L (a' * L + c') ltac:(lia) Hj) as (_ & Hr' & Hs').
  destruct (coords_unique L a c _ _ Hc Hr Hs) as [<- <-].
  destruct (coords_unique L a' c' _ _ Hc' Hr' Hs') as [<- <-].
  apply hex_near_sym.
Qed.

(** X15: on a board of border length [L >= 2], as constructed and after
    any tag-setting, two cells are adjacent exactly when the second is one
    of the six hexagonal neighbours of the first: the two cells beside it
    in its row, the cell above and the cell above to the right, the cell
    below and the cell below to the left.  No cell is adjacent to
    itself. *)
Theorem cells_are_adjacent_exactly_when_hexagonal_neighbours
        (L : Z) (mode : representationMode) (b : Hex_Board.t)
        (x y x' y' : Z) :
  2 <= L ->
  in_play L mode b ->
  0 <= x < L -> 0 <= y < L -> 0 <= x' < L -> 0 <= y' < L ->
  (fst (Graph.adjacent (Hex_Board.graph b)
                       (Hex_Board.coordinate_to_nodeIndex b x y)
                       (Hex_Board.coordinate_to_nodeIndex b x' y')) = true
   <-> hex_near x y x' y')
  /\ fst (Graph.adjacent (Hex_Board.graph b)
                         (Hex_Board.coordinate_to_nodeIndex b x y)
                         (Hex_Board.coordinate_to_nodeIndex b x y)) = false.
Proof.
  intros HL Hplay Hx Hy Hx' Hy'.
  destruct (in_play_board_of L mode b Hplay) as (Hborder & _).
  destruct (coordinate_on_board b L x y Hborder Hx Hy) as [-> Hu].
  destruct (coordinate_on_board b L x' y' Hborder Hx' Hy') as [-> Hv].
  rewrite !(board_adjacency L mode b) by assumption.
  split; [now apply linked_cells|].
  destruct (hex_linked L (x * L + y) (x * L + y)) eqn:Hself; [|reflexivity].
  apply linked_cells in Hself; try assumption. unfold hex_near in Hself. lia.
Qed.

Lemma cells_are_adjacent_exactly_when_hexagonal_neighbours_witness :
  (fst (Graph.adjacent (Hex_Board.graph (Hex_Board.new 3 CON_MATRIX))
                       (Hex_Board.coordinate_to_nodeIndex
                          (Hex_Board.new 3 CON_MATRIX) 1 1)
                       (Hex_Board.coordinate_to_nodeIndex
                          (Hex_Board.new 3 CON_MATRIX) 0 2)) = true
   <-> hex_near 1 1 0 2)
  /\ hex_near 1 1 0 2.
Proof.
  split.
  - apply (cells_are_adjacent_exactly_when_hexagonal_neighbours
             3 CON_MATRIX (Hex_Board.new 3 CON_MATRIX) 1 1 0 2);
      try lia. apply in_play_new.
  - unfold hex_near. lia.
Defined.

Lemma new_board_mode (L : Z) (mode : representationMode) :
  Graph.preferredRepresentation (Hex_Board.graph (Hex_Board.new L mode)) = mode
  /\ (mode = EDGE_LIST ->
      Graph.edgeList_was_computed (Hex_Board.graph (Hex_Board.new L mode))
      = true).
Proof.
  unfold Hex_Board.new, Hex_Board.generate_blank_connected_board.
  cbn [Hex_Board.graph Graph.preferredRepresentation Graph.undirected_for_board
       Graph.new Graph.with_nodeValues Graph.with_nodeTags].
  destruct mode; (split; [|intros Hmode; try discriminate]).
  - unfold Hex_Board.generate_graph_matrixMode.
    cbn [Hex_Board.graph Graph.conMatrix_was_computed]. reflexivity.
  - unfold Hex_Board.generate_graph_edgeListMode. reflexivity.
  - unfold Hex_Board.generate_graph_edgeListMode. reflexivity.
Qed.

(** X16: building the board again changes nothing: on a board as
    constructed, in matrix or in edge-list mode, and after any
    tag-setting, [generate_blank_connected_board] and
    [generate_graph_matrixMode] return the board as it is (the tags set
    since the construction included), and so does
    [generate_graph_edgeListMode] on a board in edge-list mode. *)
Theorem generating_a_built_board_again_changes_nothing
        (L : Z) (mode : representationMode) (b : Hex_Board.t) :
  in_play L mode b ->
  Hex_Board.generate_blank_connected_board b = b
  /\ Hex_Board.generate_graph_matrixMode b = b
  /\ (mode = EDGE_LIST -> Hex_Board.generate_graph_edgeListMode b = b).
Proof.
  intros Hplay.
  destruct (in_play_board_of L mode b Hplay) as (Hborder & Hgraph & _).
  destruct (new_board_graph L mode) as (_ & Hsize & Hflag & _ & _ & Hlist).
  destruct (new_board_mode L mode) as [Hmode Hedge].
  assert (Hmatrix : Hex_Board.generate_graph_matrixMode b = b).
  { unfold Hex_Board.generate_graph_matrixMode. rewrite Hgraph.
    cbn [Graph.conMatrix_was_computed Graph.with_nodeTags]. now rewrite Hflag. }
  assert (Hedges : mode = EDGE_LIST -> Hex_Board.generate_graph_edgeListMode b = b).
  { intros Hm. unfold Hex_Board.generate_graph_edgeListMode. rewrite Hmatrix.
    unfold Graph.generate_edgeList_from_conMatrix.
    replace (Graph.conMatrix_was_computed (Hex_Board.graph b)) with true
      by (rewrite Hgraph; cbn [Graph.conMatrix_was_computed Graph.with_nodeTags];
          now rewrite Hflag).
    specialize (Hlist (Hedge Hm)). specialize (Hedge Hm).
    assert (Hrows : map (Graph.row_edges (Hex_Board.graph b))
                        (range (Graph.size (Hex_Board.graph b)))
                    = Graph.edgeList (Hex_Board.graph b)).
    { rewrite Hgraph.
      change (map (Graph.row_edges (Hex_Board.graph (Hex_Board.new L mode)))
                  (range (Graph.size (Hex_Board.graph (Hex_Board.new L mode))))
              = Graph.edgeList (Hex_Board.graph (Hex_Board.new L mode))).
      rewrite Hsize. symmetry. exact Hlist. }
    assert (Hcomputed : Graph.edgeList_was_computed (Hex_Board.graph b) = true)
      by (rewrite Hgraph; exact Hedge).
    rewrite Hrows. clear - Hcomputed.
    destruct b as [g border]. destruct g. cbn in Hcomputed. subst.
    reflexivity. }
  split; [|split; assumption].
  unfold Hex_Board.generate_blank_connected_board.
  replace (Graph.preferredRepresentation (Hex_Board.graph b)) with mode
    by (rewrite Hgraph; cbn [Graph.preferredRepresentation Graph.with_nodeTags];
        now rewrite Hmode).
  destruct mode; [exact Hmatrix | now apply Hedges].
Qed.

Lemma generating_a_built_board_again_changes_nothing_witness :
  Hex_Board.generate_blank_connected_board
    (Hex_Board.set_node_tag (Hex_Board.new 2 EDGE_LIST) 1 2)
  = Hex_Board.set_node_tag (Hex_Board.new 2 EDGE_LIST) 1 2.
Proof.
  exact (proj1 (generating_a_built_board_again_changes_nothing
                  2 EDGE_LIST _
                  (in_play_tag 2 EDGE_LIST _ 1 2 (in_play_new 2 EDGE_LIST)
                               ltac:(lia)))).
Defined.

(** X17: a tag set on a cell by its coordinates is the tag read back from
    that cell, by coordinates or by node index, and the other cells of the
    board keep their tags; the border length stays. *)
Theorem tags_set_by_coordinates_are_read_back
        (L : Z) (mode : representationMode) (b : Hex_Board.t)
        (x y val x' y' : Z) :
  1 <= L ->
  in_play L mode b ->
  0 <= x < L -> 0 <= y < L -> 0 <= x' < L -> 0 <= y' < L ->
  Hex_Board.get_node_tag_byCoordinates
    (Hex_Board.set_node_tag_byCoordinates b x y val) x' y'
  = (if (x' =? x) && (y' =? y) then val
     else Hex_Board.get_node_tag_byCoordinates b x' y')
  /\ Graph.get_node_tag
       (Hex_Board.graph (Hex_Board.set_node_tag_byCoordinates b x y val))
       (x * L + y) = val
  /\ Hex_Board.get_border_length
       (Hex_Board.set_node_tag_byCoordinates b x y val) = L.
Proof.
  intros HL Hplay Hx Hy Hx' Hy'.
  pose proof (in_play_board_of L mode b Hplay) as Hboard.
  pose proof (board_of_size L mode b Hboard) as Hsize.
  destruct Hboard as (Hborder & _ & Hlen).
  destruct (coordinate_on_board b L x y Hborder Hx Hy) as [Hindex Hrange].
  destruct (coordinate_on_board b L x' y' Hborder Hx' Hy') as [Hindex' Hrange'].
  assert (Hread : forall i, 0 <= i < L * L ->
             Graph.get_node_tag
               (Hex_Board.graph (Hex_Board.set_node_tag_byCoordinates b x y val))
               i
             = if i =? x * L + y then val
               else Graph.get_node_tag (Hex_Board.graph b) i).
  { intros i Hi. unfold Hex_Board.set_node_tag_byCoordinates,
      Hex_Board.set_node_tag.
    cbn [Hex_Board.graph Hex_Board.with_graph]. rewrite Hindex.
    destruct (set_node_tag_length (Hex_Board.graph b) (x * L + y) val)
      as [-> _]; [now rewrite Hsize|].
    unfold Graph.get_node_tag. cbn [Graph.nodeTags Graph.with_nodeTags].
    rewrite vat_vset. unfold vsize. rewrite Hlen.
    replace (0 <=? x * L + y) with true by (symmetry; apply Z.leb_le; lia).
    replace (x * L + y <? Z.of_nat (Z.to_nat (L * L))) with true
      by (symmetry; apply Z.ltb_lt; lia).
    now rewrite !andb_true_r. }
  split; [|split].
  - unfold Hex_Board.get_node_tag_byCoordinates.
    replace (Hex_Board.coordinate_to_nodeIndex
               (Hex_Board.set_node_tag_byCoordinates b x y val) x' y')
      with (x' * L + y') by (symmetry; exact Hindex').
    rewrite Hread, Hindex' by exact Hrange'.
    destruct (Z.eqb_spec (x' * L + y') (x * L + y)) as [Heq | Hne].
    + destruct (coords_unique L x' y' x y Hy' Hy Heq) as [-> ->].
      now rewrite !Z.eqb_refl.
    + destruct (Z.eqb_spec x' x) as [-> |]; [|reflexivity].
      destruct (Z.eqb_spec y' y) as [-> |]; [contradiction | reflexivity].
  - rewrite Hread by exact Hrange. now rewrite Z.eqb_refl.
  - exact Hborder.
Qed.

Lemma tags_set_by_coordinates_are_read_back_witness :
  Hex_Board.get_node_tag_byCoordinates
    (Hex_Board.set_node_tag_byCoordinates (Hex_Board.new 3 CON_MATRIX) 1 2 1)
    1 2
  = 1.
Proof.
  apply (tags_set_by_coordinates_are_read_back
           3 CON_MATRIX (Hex_Board.new 3 CON_MATRIX) 1 2 1 1 2); try lia.
  apply in_play_new.
Defined.

(** * The path that the search returns *)

(** ** Walks *)

Lemma last_of_nonempty (l : list Z) :
  forall a d d', last (a :: l) d = last (a :: l) d'.
Proof.
  induction l as [|b l IH]; intros a d d'; [reflexivity|].
  change (last (a :: b :: l) d) with (last (b :: l) d).
  change (last (a :: b :: l) d') with (last (b :: l) d').
  apply IH.
Qed.

Lemma walk_end_cons (u : Z) (nb : int_and_num_Pair)
      (rest : list int_and_num_Pair) :
  walk_end u (nb :: rest) = walk_end (Pair.get_value1 nb) rest.
Proof.
  unfold walk_end. cbn [map].
  destruct (map Pair.get_value1 rest) as [|b l]; [reflexivity|].
  change (last (Pair.get_value1 nb :: b :: l) u) with (last (b :: l) u).
  apply last_of_nonempty.
Qed.

Lemma walk_app (g : Graph.t) (avoid : list Z)
      (pre post : list int_and_num_Pair) :
  forall u, walk g avoid u (pre ++ post)
            <-> walk g avoid u pre /\ walk g avoid (walk_end u pre) post.
Proof.
  induction pre as [|nb pre IH]; intros u; cbn [app walk].
  - unfold walk_end. cbn. tauto.
  - rewrite walk_end_cons, IH. tauto.
Qed.

Lemma walk_end_app (pre post : list int_and_num_Pair) :
  forall u, walk_end u (pre ++ post) = walk_end (walk_end u pre) post.
Proof.
  induction pre as [|nb pre IH]; intros u; cbn [app]; [reflexivity|].
  now rewrite !walk_end_cons, IH.
Qed.

Lemma walk_cost_app (pre post : list int_and_num_Pair) :
  walk_cost (pre ++ post) = walk_cost pre + walk_cost post.
Proof.
  unfold walk_cost. induction pre as [|nb pre IH]; cbn [app fold_right]; lia.
Qed.

Lemma walk_cost_nonnegative (g : Graph.t) (avoid : list Z) :
  nonnegative_costs g ->
  forall steps u, 0 <= u < Graph.size g -> walk g avoid u steps ->
                  0 <= walk_cost steps.
Proof.
  intros Hpos. induction steps as [|nb rest IH]; intros u Hu Hwalk;
    cbn [walk_cost fold_right]; [lia|].
  destruct Hwalk as (Hnb & Hallowed & Hrest).
  specialize (Hpos u nb Hu Hnb).
  specialize (IH _ (proj1 Hallowed) Hrest). unfold walk_cost in IH. lia.
Qed.

(** A walk that starts inside a set of nodes and ends outside leaves it
    by one of its steps. *)
Lemma walk_exit (g : Graph.t) (avoid closed : list Z) :
  forall steps u,
    In u closed -> walk g avoid u steps -> ~ In (walk_end u steps) closed ->
    exists pre nb post,
      steps = pre ++ nb :: post
      /\ walk g avoid u pre
      /\ In (walk_end u pre) closed
      /\ In nb (fst (Graph.neighbors g (walk_end u pre)))
      /\ allowed g avoid (Pair.get_value1 nb)
      /\ ~ In (Pair.get_value1 nb) closed
      /\ walk g avoid (Pair.get_value1 nb) post.
Proof.
  induction steps as [|nb rest IH]; intros u Hu Hwalk Hout.
  - contradiction.
  - destruct Hwalk as (Hnb & Hallowed & Hrest).
    destruct (in_dec Z.eq_dec (Pair.get_value1 nb) closed) as [Hin | Hnot].
    + rewrite walk_end_cons in Hout.
      destruct (IH _ Hin Hrest Hout)
        as (pre & nb' & post & -> & Hpre & Hend & Hnb' & Hal & Hno & Hpost).
      exists (nb :: pre), nb', post. rewrite walk_end_cons.
      cbn [walk app]. auto 10.
    + exists [], nb, rest. cbn [app walk]. unfold walk_end at 1 2. cbn.
      auto 10.
Qed.

(** ** Relaxing the neighbours, with the costs *)

Lemma relax_entries (open banned_nodes tentative_costs : list Z)
      (currentNode : Z) (queue : PriorityQueue.t) (neighbor : int_and_num_Pair)
      (e : int_int_and_num_Triad) :
  In e (ShortestPath.relax open banned_nodes tentative_costs currentNode
                           queue neighbor) ->
  In e queue
  \/ e = Triad.mk currentNode (Pair.get_value1 neighbor)
                  (Pair.get_value2 neighbor
                   + vat 0 tentative_costs currentNode).
Proof.
  unfold ShortestPath.relax.
  destruct (existsb _ open && negb _); [|auto].
  destruct (negb _ && PriorityQueue.improves_cost_of_node queue _); [|auto].
  unfold PriorityQueue.update_queue_with_shorter_path. intros H.
  apply insert_In in H as [-> | H]; [now right | left].
  now apply update_loop_incl in H.
Qed.

Lemma relax_sorted (open banned_nodes tentative_costs : list Z)
      (currentNode : Z) (queue : PriorityQueue.t) (neighbor : int_and_num_Pair) :
  NoDup (map Triad.get_value2 queue) ->
  nondecreasing queue = true ->
  nondecreasing (ShortestPath.relax open banned_nodes tentative_costs
                                     currentNode queue neighbor) = true.
Proof.
  intros Hnd Hsorted. unfold ShortestPath.relax.
  destruct (existsb _ open && negb _); [|exact Hsorted].
  destruct (negb _ && PriorityQueue.improves_cost_of_node queue _);
    [|exact Hsorted].
  rewrite (update_queue_unique _ _ Hnd).
  now apply insert_sorted, filter_sorted.
Qed.

Lemma improving_is_cheaper queue triad e :
  PriorityQueue.improves_cost_of_node queue triad = true ->
  In e queue -> Triad.get_value2 e = Triad.get_value2 triad ->
  Triad.get_value3 triad < Triad.get_value3 e.
Proof.
  unfold PriorityQueue.improves_cost_of_node. intros H He Heq.
  apply negb_true_iff in H.
  destruct (Z.lt_ge_cases (Triad.get_value3 triad) (Triad.get_value3 e))
    as [Hlt | Hge]; [exact Hlt|].
  exfalso. apply (eq_true_false_abs _ (eq_refl true)). rewrite <- H.
  symmetry. apply existsb_exists. exists e. split; [exact He|].
  apply andb_true_intro. split; [now apply Z.eqb_eq | now apply Z.leb_le].
Qed.

Lemma relax_lowers (open banned_nodes tentative_costs : list Z)
      (currentNode : Z) (queue : PriorityQueue.t) (neighbor : int_and_num_Pair)
      (e : int_int_and_num_Triad) :
  NoDup (map Triad.get_value2 queue) ->
  In e queue ->
  exists e',
    In e' (ShortestPath.relax open banned_nodes tentative_costs currentNode
                              queue neighbor)
    /\ Triad.get_value2 e' = Triad.get_value2 e
    /\ Triad.get_value3 e' <= Triad.get_value3 e.
Proof.
  intros Hnd He. unfold ShortestPath.relax.
  destruct (existsb _ open && negb _); [|exists e; repeat split; [exact He|lia]].
  set (triad := ShortestPath.join_current_and_neighbor_and_cost _ _).
  destruct (negb _ && PriorityQueue.improves_cost_of_node queue triad) eqn:Hadd;
    [|exists e; repeat split; [exact He|lia]].
  apply andb_prop in Hadd as [_ Himproves].
  rewrite (update_queue_unique _ _ Hnd).
  destruct (Z.eqb_spec (Triad.get_value2 e) (Triad.get_value2 triad))
    as [Heq | Hne].
  - exists triad. split; [apply insert_In; now left|]. split; [now symmetry|].
    pose proof (improving_is_cheaper queue triad e Himproves He Heq). lia.
  - exists e. split; [|split; [reflexivity | lia]].
    apply insert_In. right. apply filter_In. split; [exact He|].
    apply negb_true_iff. now apply Z.eqb_neq.
Qed.

Lemma relax_reaches (open banned_nodes tentative_costs : list Z)
      (currentNode : Z) (queue : PriorityQueue.t) (neighbor : int_and_num_Pair) :
  (forall e, In e queue -> Triad.get_value1 e = currentNode ->
             Triad.get_value2 e = Pair.get_value1 neighbor ->
             Triad.get_value3 e
             <= Pair.get_value2 neighbor + vat 0 tentative_costs currentNode) ->
  In (Pair.get_value1 neighbor) open ->
  ShortestPath.i_is_in_vector (Pair.get_value1 neighbor) banned_nodes = false ->
  exists e',
    In e' (ShortestPath.relax open banned_nodes tentative_costs currentNode
                              queue neighbor)
    /\ Triad.get_value2 e' = Pair.get_value1 neighbor
    /\ Triad.get_value3 e'
       <= Pair.get_value2 neighbor + vat 0 tentative_costs currentNode.
Proof.
  intros Hsame Hopen Hbanned. unfold ShortestPath.relax.
  replace (existsb (fun k => k =? Pair.get_value1 neighbor) open) with true
    by (symmetry; now apply existsb_mem).
  rewrite Hbanned. cbn [andb negb].
  set (triad := ShortestPath.join_current_and_neighbor_and_cost _ _).
  destruct (PriorityQueue.contains_elem_with_val1_val2
              queue (Triad.get_value1 triad) (Triad.get_value2 triad))
    eqn:Hcontains; cbn [negb andb].
  - unfold PriorityQueue.contains_elem_with_val1_val2 in Hcontains.
    apply existsb_exists in Hcontains as (e & He & Heq).
    apply andb_prop in Heq as [H1 H2]. apply Z.eqb_eq in H1, H2.
    exists e. split; [exact He|]. split; [exact H2|]. now apply Hsame.
  - destruct (PriorityQueue.improves_cost_of_node queue triad) eqn:Himproves.
    + exists triad. split; [|split; [reflexivity | cbn; lia]].
      unfold PriorityQueue.update_queue_with_shorter_path.
      apply insert_In. now left.
    + unfold PriorityQueue.improves_cost_of_node in Himproves.
      apply negb_false_iff in Himproves.
      apply existsb_exists in Himproves as (e & He & Heq).
      apply andb_prop in Heq as [H1 H2]. apply Z.eqb_eq in H1.
      apply Z.leb_le in H2.
      exists e. split; [exact He|]. split; [exact H1 | exact H2].
Qed.

Lemma one_entry_is_one (l : list int_and_num_Pair) (a b : int_and_num_Pair) :
  NoDup (map Pair.get_value1 l) -> In a l -> In b l ->
  Pair.get_value1 a = Pair.get_value1 b -> a = b.
Proof.
  induction l as [|x l IH]; intros Hnd Ha Hb Heq; [contradiction|].
  cbn [map] in Hnd. apply NoDup_cons_iff in Hnd as [Hx Hnd].
  destruct Ha as [-> | Ha], Hb as [-> | Hb].
  - reflexivity.
  - exfalso. apply Hx. rewrite Heq. now apply in_map.
  - exfalso. apply Hx. rewrite <- Heq. now apply in_map.
  - now apply IH.
Qed.

(** All neighbours of the current node relaxed: every entry of the queue
    still prices an edge from a settled node, the queue stays sorted, no
    destination gets dearer, and every open neighbour is queued at the
    cost through the current node or below. *)
Lemma relax_all_priced (g : Graph.t)
      (open closed banned_nodes tentative_costs : list Z) (currentNode : Z) :
  In currentNode closed ->
  (forall v, In v open -> ShortestPath.i_is_in_vector v banned_nodes = false) ->
  forall neighbors,
    (forall nb, In nb neighbors ->
                In nb (fst (Graph.neighbors g currentNode))) ->
    forall queue,
      queue_ok g open closed queue ->
      (forall e, In e queue ->
         exists nb, In nb (fst (Graph.neighbors g (Triad.get_value1 e)))
                    /\ Pair.get_value1 nb = Triad.get_value2 e
                    /\ Triad.get_value3 e
                       = Pair.get_value2 nb
                         + vat 0 tentative_costs (Triad.get_value1 e)) ->
      (forall e,
          In e (fold_left (ShortestPath.relax open banned_nodes tentative_costs
                                              currentNode) neighbors queue) ->
          exists nb, In nb (fst (Graph.neighbors g (Triad.get_value1 e)))
                     /\ Pair.get_value1 nb = Triad.get_value2 e
                     /\ Triad.get_value3 e
                        = Pair.get_value2 nb
                          + vat 0 tentative_costs (Triad.get_value1 e))
      /\ (nondecreasing queue = true ->
          nondecreasing
            (fold_left (ShortestPath.relax open banned_nodes tentative_costs
                                           currentNode) neighbors queue) = true)
      /\ (forall e, In e queue ->
            exists e',
              In e' (fold_left (ShortestPath.relax open banned_nodes
                                                   tentative_costs currentNode)
                               neighbors queue)
              /\ Triad.get_value2 e' = Triad.get_value2 e
              /\ Triad.get_value3 e' <= Triad.get_value3 e)
      /\ (NoDup (map Pair.get_value1 (fst (Graph.neighbors g currentNode))) ->
          forall nb, In nb neighbors -> In (Pair.get_value1 nb) open ->
            exists e',
              In e' (fold_left (ShortestPath.relax open banned_nodes
                                                   tentative_costs currentNode)
                               neighbors queue)
              /\ Triad.get_value2 e' = Pair.get_value1 nb
              /\ Triad.get_value3 e'
                 <= Pair.get_value2 nb + vat 0 tentative_costs currentNode).
Proof.
  intros Hcur Hbanned.
  induction neighbors as [|nb rest IH]; intros Hlisted queue Hq Hedges.
  - cbn [fold_left]. split; [exact Hedges|]. split; [auto|]. split.
    + intros e He. exists e. split; [exact He|]. split; [reflexivity | lia].
    + intros _ nb [].
  - cbn [fold_left].
    set (q1 := ShortestPath.relax open banned_nodes tentative_costs currentNode
                                  queue nb).
    pose proof (Hlisted nb (or_introl eq_refl)) as Hnb.
    assert (Hlinked : linked g currentNode (Pair.get_value1 nb) = true)
      by (apply linked_listed; eauto).
    destruct (relax_ok g open closed banned_nodes tentative_costs currentNode
                       queue nb Hq Hcur Hlinked Hbanned) as (Hq1 & _ & _).
    fold q1 in Hq1.
    assert (Hedges1 : forall e, In e q1 ->
              exists nb', In nb' (fst (Graph.neighbors g (Triad.get_value1 e)))
                          /\ Pair.get_value1 nb' = Triad.get_value2 e
                          /\ Triad.get_value3 e
                             = Pair.get_value2 nb'
                               + vat 0 tentative_costs (Triad.get_value1 e)).
    { intros e He. apply relax_entries in He as [He | ->];
        [now apply Hedges|].
      exists nb. cbn [Triad.get_value1 Triad.get_value2 Triad.get_value3].
      auto. }
    destruct (IH (fun x Hx => Hlisted x (or_intror Hx)) q1 Hq1 Hedges1)
      as (Hall & Hsorted & Hlower & Hreach).
    split; [exact Hall|]. split; [|split].
    + intros Hs. apply Hsorted. apply relax_sorted; [apply Hq | exact Hs].
    + intros e He.
      destruct (relax_lowers open banned_nodes tentative_costs currentNode
                             queue nb e (proj1 Hq) He) as (e1 & He1 & H2 & H3).
      destruct (Hlower e1 He1) as (e' & He' & H2' & H3').
      exists e'. split; [exact He'|]. split; [congruence | lia].
    + intros Hsimple x [<- | Hx] Hopen; [|now apply Hreach].
      destruct (relax_reaches open banned_nodes tentative_costs currentNode
                              queue nb) as (e1 & He1 & H2 & H3).
      * intros e He Hfrom Hto. destruct (Hedges e He) as (nb' & Hnb' & H1 & ->).
        rewrite Hfrom in Hnb' |- *.
        rewrite (one_entry_is_one _ nb' nb Hsimple Hnb' Hnb) by congruence.
        lia.
      * exact Hopen.
      * now apply Hbanned.
      * destruct (Hlower e1 He1) as (e' & He' & H2' & H3').
        exists e'. split; [exact He'|]. split; [congruence | lia].
Qed.

(** ** One turn of the loop, by what the queue holds after the
    relaxations *)

Lemma seek_turn_cases (g : Graph.t) (avoid : list Z) (s t : Z)
      (sp : ShortestPath.t) :
  searching g avoid s t sp ->
  exists sp',
    ShortestPath.seek_turn g (ShortestPath.banned_nodes_of g avoid) sp = (g, sp')
    /\ ShortestPath.shortest_path sp' = ShortestPath.shortest_path sp
    /\ ShortestPath.raw_shortest_path sp' = ShortestPath.raw_shortest_path sp
    /\ match fold_left
               (ShortestPath.relax (ShortestPath.open_set sp)
                                   (ShortestPath.banned_nodes_of g avoid)
                                   (ShortestPath.tentative_costs sp)
                                   (ShortestPath.currentNode sp))
               (fst (Graph.neighbors g (ShortestPath.currentNode sp)))
               (ShortestPath.queue sp) with
       | [] =>
           ShortestPath.terminated sp' = true
           /\ ShortestPath.path_exists sp' = false
           /\ ShortestPath.used_queue_elements sp'
              = ShortestPath.used_queue_elements sp
       | x :: rest =>
           ShortestPath.used_queue_elements sp'
           = ShortestPath.used_queue_elements sp ++ [x]
           /\ if Triad.get_value2 x =? t
              then ShortestPath.terminated sp' = true
                   /\ ShortestPath.path_exists sp' = true
              else ShortestPath.terminated sp' = false
                   /\ ShortestPath.queue sp' = rest
                   /\ ShortestPath.currentNode sp' = Triad.get_value2 x
                   /\ ShortestPath.tentative_costs sp'
                      = vset (ShortestPath.tentative_costs sp)
                             (Triad.get_value2 x) (Triad.get_value3 x)
                   /\ forall v, In v (ShortestPath.open_set sp')
                                <-> In v (ShortestPath.open_set sp)
                                    /\ v <> Triad.get_value2 x
       end.
Proof.
  intros [Hfrom Hto Hrun Hunv Hcur Hopen Hond Hcnd Htgt Hq Hexp Hjoin Hchain
          Hcosts].
  unfold ShortestPath.seek_turn.
  pose proof (neighbors_keeps_graph g (ShortestPath.currentNode sp)) as Hg.
  assert (Hlisted : forall nb,
             In nb (fst (Graph.neighbors g (ShortestPath.currentNode sp))) ->
             linked g (ShortestPath.currentNode sp) (Pair.get_value1 nb) = true).
  { intros nb Hnb. apply linked_listed. eauto. }
  destruct (Graph.neighbors g (ShortestPath.currentNode sp)) as [nbrs g'].
  cbn [fst snd] in Hg, Hlisted |- *. subst g'.
  assert (Hnotbanned : forall v, In v (ShortestPath.open_set sp) ->
             ShortestPath.i_is_in_vector v (ShortestPath.banned_nodes_of g avoid)
             = false).
  { intros v Hv. apply allowed_not_banned_node. now apply Hopen in Hv as [Hv _]. }
  destruct (relax_all_ok g (ShortestPath.open_set sp) (closed_nodes s sp)
              (ShortestPath.banned_nodes_of g avoid)
              (ShortestPath.tentative_costs sp) (ShortestPath.currentNode sp)
              nbrs Hcur Hlisted Hnotbanned (ShortestPath.queue sp) Hq)
    as ([Hnd' Hq'] & _ & _).
  set (queue' := fold_left _ nbrs (ShortestPath.queue sp)) in *.
  assert (Hfresh : forall e, In e queue' ->
             PriorityQueue.in_ref (ShortestPath.used_queue_elements sp) e = false).
  { intros e He. apply in_ref_other_nodes. intros Hin.
    destruct (Hq' e He) as (Hopen_e & _). apply Hopen in Hopen_e as [_ Hnot].
    apply Hnot. now right. }
  destruct queue' as [|x rest] eqn:Equeue.
  - cbn [PriorityQueue.size vsize length Z.of_nat Z.gtb Z.compare andb].
    eexists. split; [reflexivity|]. sp_fields. auto.
  - assert (Hpos : (PriorityQueue.size (x :: rest) >? 0) = true).
    { unfold PriorityQueue.size, vsize. cbn [length]. rewrite Z.gtb_ltb.
      apply Z.ltb_lt. lia. }
    rewrite Hpos, (theres_any_when_disjoint _ _ Hfresh). cbn [andb].
    rewrite (get_first_is_head x rest _ (Hfresh x (or_introl eq_refl))).
    destruct (Hq' x (or_introl eq_refl)) as (Hx_open & _).
    rewrite Hto.
    destruct (Z.eqb_spec (Triad.get_value2 x) t) as [Htarget | Hother];
      cbn [negb].
    + rewrite theres_none_after_recording.
      eexists. split; [reflexivity|]. sp_fields. auto.
    + rewrite (getAndDelete_is_head x rest _ (Hfresh x (or_introl eq_refl))).
      destruct (erase_first_open _ _ Hond Hx_open)
        as (open' & -> & _ & _ & Hopen').
      eexists. split; [reflexivity|]. sp_fields. auto 10.
Qed.

Lemma vat_vset_other {A} (v : list A) (i j : Z) (x d : A) :
  j <> i -> vat d (vset v i x) j = vat d v j.
Proof.
  intros Hne. rewrite vat_vset.
  replace (j =? i) with false by (symmetry; now apply Z.eqb_neq).
  reflexivity.
Qed.

Lemma vat_vset_same {A} (v : list A) (i : Z) (x d : A) :
  0 <= i < vsize v -> vat d (vset v i x) i = x.
Proof.
  intros Hi. rewrite vat_vset, Z.eqb_refl.
  replace (0 <=? i) with true by (symmetry; apply Z.leb_le; lia).
  replace (i <? vsize v) with true by (symmetry; apply Z.ltb_lt; lia).
  reflexivity.
Qed.

Lemma chained_leaves_settled (s : Z) (newest_first : list int_int_and_num_Triad) :
  chained s newest_first ->
  forall e, In e newest_first ->
            In (Triad.get_value1 e) (s :: map Triad.get_value2 newest_first).
Proof.
  induction newest_first as [|x older IH]; intros Hch e He; [contradiction|].
  destruct Hch as [Hx Hch]. cbn [map].
  destruct He as [<- | He].
  - destruct Hx as [Hx | Hx]; [now left | right; now right].
  - destruct (IH Hch e He) as [H | H]; [now left | right; now right].
Qed.

Lemma used_leaves_settled (s : Z) (sp : ShortestPath.t) (e : int_int_and_num_Triad) :
  chained s (rev (ShortestPath.used_queue_elements sp)) ->
  In e (ShortestPath.used_queue_elements sp) ->
  In (Triad.get_value1 e) (closed_nodes s sp).
Proof.
  intros Hch He. unfold closed_nodes.
  destruct (chained_leaves_settled s _ Hch e (proj1 (in_rev _ _) He))
    as [H | H]; [now left | right].
  rewrite map_rev in H. now apply in_rev in H.
Qed.

(** The head of the sorted queue is no dearer than any walk that leaves
    the settled nodes. *)
Lemma head_is_cheapest (g : Graph.t) (avoid : list Z) (s : Z)
      (open closed tentative_costs : list Z)
      (x : int_int_and_num_Triad) (rest : PriorityQueue.t) :
  nonnegative_costs g ->
  In s closed ->
  (forall v, In v open <-> allowed g avoid v /\ ~ In v closed) ->
  nondecreasing (x :: rest) = true ->
  (forall u steps, In u closed -> walk g avoid s steps -> walk_end s steps = u ->
                   vat 0 tentative_costs u <= walk_cost steps) ->
  (forall u nb, In u closed -> In nb (fst (Graph.neighbors g u)) ->
                In (Pair.get_value1 nb) open ->
                exists e, In e (x :: rest)
                          /\ Triad.get_value2 e = Pair.get_value1 nb
                          /\ Triad.get_value3 e
                             <= vat 0 tentative_costs u + Pair.get_value2 nb) ->
  forall steps, walk g avoid s steps -> ~ In (walk_end s steps) closed ->
                Triad.get_value3 x <= walk_cost steps.
Proof.
  intros Hpos Hs Hopen Hsorted Hbest Hqueued steps Hwalk Hout.
  destruct (walk_exit g avoid closed steps s Hs Hwalk Hout)
    as (pre & nb & post & -> & Hpre & Hend & Hnb & Hallowed & Hnew & Hpost).
  destruct (Hqueued _ nb Hend Hnb (proj2 (Hopen _) (conj Hallowed Hnew)))
    as (e & He & _ & Hcost).
  pose proof (Hbest _ pre Hend Hpre eq_refl) as Hfar.
  apply nondecreasing_cons in Hsorted as [_ Hmin].
  assert (Hhead : Triad.get_value3 x <= Triad.get_value3 e)
    by (destruct He as [<- | He]; [lia | now apply Hmin]).
  pose proof (walk_cost_nonnegative g avoid Hpos post _ (proj1 Hallowed) Hpost)
    as Hrest.
  rewrite walk_cost_app. change (nb :: post) with ([nb] ++ post).
  rewrite walk_cost_app. cbn [walk_cost fold_right]. lia.
Qed.

(** One turn of the loop keeps what is known of the costs, or ends the
    search with every consumed triad accounted for. *)
Lemma priced_step (g : Graph.t) (avoid : list Z) (s t : Z)
      (sp : ShortestPath.t) :
  searching g avoid s t sp -> priced g avoid s sp ->
  exists sp',
    ShortestPath.seek_turn g (ShortestPath.banned_nodes_of g avoid) sp = (g, sp')
    /\ ((searching g avoid s t sp' /\ priced g avoid s sp'
         /\ (length (ShortestPath.open_set sp')
             < length (ShortestPath.open_set sp))%nat)
        \/ (finished g avoid s t sp'
            /\ (ShortestPath.path_exists sp' = true ->
                accounted g avoid s t sp'))).
Proof.
  intros Hs Hp.
  destruct (seek_turn_step g avoid s t sp Hs) as (sp1 & Heq1 & Hdisj).
  destruct (seek_turn_cases g avoid s t sp Hs)
    as (sp' & Heq & Hsp & Hraw & Hshape).
  rewrite Heq in Heq1. injection Heq1 as <-.
  exists sp'. split; [exact Heq|].
  destruct Hs as [Hfrom Hto Hrun Hunv Hcur Hopen Hond Hcnd Htgt Hq Hexp Hjoin
                  Hchain Hcosts].
  destruct Hp as [Hlen Hpaths Hsource Hused Hedges Hbest].
  assert (Hnotbanned : forall v, In v (ShortestPath.open_set sp) ->
             ShortestPath.i_is_in_vector v (ShortestPath.banned_nodes_of g avoid)
             = false).
  { intros v Hv. apply allowed_not_banned_node. now apply Hopen in Hv as [Hv _]. }
  assert (Hlisted : forall nb,
             In nb (fst (Graph.neighbors g (ShortestPath.currentNode sp))) ->
             linked g (ShortestPath.currentNode sp) (Pair.get_value1 nb) = true).
  { intros nb Hnb. apply linked_listed. eauto. }
  destruct (relax_all_ok g (ShortestPath.open_set sp) (closed_nodes s sp)
              (ShortestPath.banned_nodes_of g avoid)
              (ShortestPath.tentative_costs sp) (ShortestPath.currentNode sp)
              (fst (Graph.neighbors g (ShortestPath.currentNode sp)))
              Hcur Hlisted Hnotbanned (ShortestPath.queue sp) Hq)
    as ([Hnd' Hq'] & _ & _).
  destruct (relax_all_priced g (ShortestPath.open_set sp) (closed_nodes s sp)
              (ShortestPath.banned_nodes_of g avoid)
              (ShortestPath.tentative_costs sp) (ShortestPath.currentNode sp)
              Hcur Hnotbanned
              (fst (Graph.neighbors g (ShortestPath.currentNode sp)))
              (fun nb H => H) (ShortestPath.queue sp) Hq
              (fun e He => Hedges e (in_or_app _ _ _ (or_intror He))))
    as (Hedges' & Hsorted' & Hlower & Hreach).
  set (queue' := fold_left _ _ (ShortestPath.queue sp)) in *.
  assert (Hs_closed : In s (closed_nodes s sp)) by now left.
  assert (Hrange : forall u, In u (closed_nodes s sp) -> 0 <= u < Graph.size g).
  { intros u Hu. now apply (joined_allowed g avoid s), Hjoin. }
  assert (Hfinish : ShortestPath.terminated sp' = true ->
                    finished g avoid s t sp').
  { intros Hterm. destruct Hdisj as [[Hgo _] | Hend]; [|exact Hend].
    rewrite (sr_running _ _ _ _ _ Hgo) in Hterm. discriminate. }
  assert (Hsettled : forall u, In u (closed_nodes s sp) ->
             settled_at s (ShortestPath.used_queue_elements sp) u
                        (vat 0 (ShortestPath.tentative_costs sp) u)).
  { intros u [<- | Hu]; [left; auto|].
    apply in_map_iff in Hu as (e & <- & He). right. exists e.
    split; [exact He|]. split; [reflexivity|]. symmetry. now apply Hused. }
  assert (Hqueued : nonnegative_costs g -> one_entry_per_neighbour g ->
             forall u nb, In u (closed_nodes s sp) ->
               In nb (fst (Graph.neighbors g u)) ->
               In (Pair.get_value1 nb) (ShortestPath.open_set sp) ->
               exists e, In e queue'
                         /\ Triad.get_value2 e = Pair.get_value1 nb
                         /\ Triad.get_value3 e
                            <= vat 0 (ShortestPath.tentative_costs sp) u
                               + Pair.get_value2 nb).
  { intros Hpos Hsimple u nb Hu Hnb Hnb_open.
    destruct (Z.eq_dec u (ShortestPath.currentNode sp)) as [-> | Hne].
    - destruct (Hreach (Hsimple _ (Hrange _ Hcur)) nb Hnb Hnb_open)
        as (e & He & H2 & H3).
      exists e. split; [exact He|]. split; [exact H2 | lia].
    - destruct (Hbest Hpos Hsimple) as (_ & _ & Hold).
      destruct (Hold u nb Hu Hne Hnb Hnb_open) as (e & He & H2 & H3).
      destruct (Hlower e He) as (e' & He' & H2' & H3').
      exists e'. split; [exact He'|]. split; [congruence | lia]. }
  destruct queue' as [|x rest] eqn:Equeue.
  - (* nothing left to expand *)
    destruct Hshape as (Hterm & Hnone & _). right.
    split; [now apply Hfinish|]. intros Hyes. congruence.
  - destruct Hshape as [Hused' Hshape].
    destruct (Hq' x (or_introl eq_refl)) as (Hx_open & Hx_from & Hx_linked).
    pose proof (proj1 (Hopen _) Hx_open) as [Hx_allowed Hx_new].
    assert (Hcheapest : nonnegative_costs g -> one_entry_per_neighbour g ->
               forall steps, walk g avoid s steps ->
                             walk_end s steps = Triad.get_value2 x ->
                             Triad.get_value3 x <= walk_cost steps).
    { intros Hpos Hsimple steps Hwalk Hend.
      destruct (Hbest Hpos Hsimple) as (Hsorted & Hfar & _).
      apply (head_is_cheapest g avoid s (ShortestPath.open_set sp)
               (closed_nodes s sp) (ShortestPath.tentative_costs sp) x rest
               Hpos Hs_closed Hopen (Hsorted' Hsorted) Hfar
               (Hqueued Hpos Hsimple) steps Hwalk).
      now rewrite Hend. }
    assert (Hleaves : forall e, In e (ShortestPath.used_queue_elements sp ++ [x]) ->
               In (Triad.get_value1 e) (closed_nodes s sp)).
    { intros e He. apply in_app_or in He as [He | [<- | []]];
        [now apply used_leaves_settled | exact Hx_from]. }
    assert (Hpriced : forall e,
               In e (ShortestPath.used_queue_elements sp ++ x :: rest) ->
               exists nb,
                 In nb (fst (Graph.neighbors g (Triad.get_value1 e)))
                 /\ Pair.get_value1 nb = Triad.get_value2 e
                 /\ Triad.get_value3 e
                    = Pair.get_value2 nb
                      + vat 0 (ShortestPath.tentative_costs sp)
                            (Triad.get_value1 e)).
    { intros e He. apply in_app_or in He as [He | He];
        [apply Hedges, in_or_app; now left | now apply Hedges']. }
    destruct (Z.eqb_spec (Triad.get_value2 x) t) as [Htarget | Hother].
    + (* the head goes to the target *)
      destruct Hshape as [Hterm Hyes]. right.
      split; [now apply Hfinish|]. intros _. constructor.
      * now rewrite Hsp, Hraw.
      * rewrite Hused'. intros e He.
        apply in_app_or in He as [He | [<- | []]]; [|exact Hx_allowed].
        apply (joined_allowed g avoid s), Hjoin. right. now apply in_map.
      * rewrite Hused'. intros e He.
        destruct (Hpriced e) as (nb & Hnb & Hto_e & Hcost).
        { apply in_app_or in He as [He | [<- | []]]; apply in_or_app;
            [now left | right; now left]. }
        exists nb, (vat 0 (ShortestPath.tentative_costs sp) (Triad.get_value1 e)).
        split; [exact Hnb|]. split; [exact Hto_e|]. split; [|exact Hcost].
        destruct (Hsettled _ (Hleaves e He)) as [Hsrc | (e' & He' & H2 & H3)];
          [now left | right].
        exists e'. split; [apply in_or_app; now left | auto].
      * intros Hpos Hsimple e steps He Hto_t Hwalk Hend. rewrite Hused' in He.
        apply in_app_or in He as [He | [<- | []]].
        -- exfalso. apply Hx_new. rewrite Htarget, <- Hto_t. right.
           now apply in_map.
        -- apply (Hcheapest Hpos Hsimple steps Hwalk). congruence.
    + (* the head goes elsewhere *)
      destruct Hshape as (Hterm & Hqueue' & Hcur' & Htc' & Hopen'). left.
      destruct Hdisj as [[Hgo Hless] | Hend];
        [|rewrite (fin_terminated _ _ _ _ _ Hend) in Hterm; discriminate].
      split; [exact Hgo|]. split; [|exact Hless].
      assert (Hin_range : 0 <= Triad.get_value2 x
                          < vsize (ShortestPath.tentative_costs sp)).
      { unfold vsize. rewrite Hlen. destruct Hx_allowed as [Hx_range _]. lia. }
      assert (Hold : forall u, In u (closed_nodes s sp) ->
                 vat 0 (ShortestPath.tentative_costs sp') u
                 = vat 0 (ShortestPath.tentative_costs sp) u).
      { intros u Hu. rewrite Htc'. apply vat_vset_other. intros ->.
        contradiction. }
      assert (Hclosed' : forall u, In u (closed_nodes s sp') <->
                                   In u (closed_nodes s sp)
                                   \/ u = Triad.get_value2 x).
      { intros u. unfold closed_nodes. rewrite Hused'.
        apply closed_nodes_snoc. }
      constructor.
      * rewrite Htc'. now rewrite vset_length.
      * now rewrite Hsp, Hraw.
      * now rewrite Hold.
      * rewrite Hused'. intros e He.
        apply in_app_or in He as [He | [<- | []]].
        -- rewrite Hold; [now apply Hused|]. right. now apply in_map.
        -- rewrite Htc'. now apply vat_vset_same.
      * rewrite Hused', Hqueue', <- app_assoc. cbn [app]. intros e He.
        destruct (Hpriced e He) as (nb & Hnb & Hto_e & Hcost).
        exists nb. split; [exact Hnb|]. split; [exact Hto_e|].
        rewrite Hold; [exact Hcost|].
        apply in_app_or in He as [He | [<- | He]].
        -- now apply used_leaves_settled.
        -- exact Hx_from.
        -- now destruct (Hq' e (or_intror He)) as (_ & H & _).
      * intros Hpos Hsimple. destruct (Hbest Hpos Hsimple) as (Hsorted & Hfar & _).
        pose proof (Hsorted' Hsorted) as Hsorted_all.
        apply nondecreasing_cons in Hsorted_all as [Hsorted_rest _].
        split; [now rewrite Hqueue'|]. split.
        -- intros u steps Hu Hwalk Hend. apply Hclosed' in Hu as [Hu | ->].
           ++ rewrite Hold by exact Hu. now apply Hfar.
           ++ rewrite Htc', vat_vset_same by exact Hin_range.
              now apply Hcheapest.
        -- intros u nb Hu Hne Hnb Hnb_open. rewrite Hcur' in Hne.
           apply Hclosed' in Hu as [Hu | Hu]; [|contradiction].
           apply Hopen' in Hnb_open as [Hnb_open Hnb_other].
           destruct (Hqueued Hpos Hsimple u nb Hu Hnb Hnb_open)
             as (e & He & H2 & H3).
           exists e. rewrite Hqueue', Hold by exact Hu.
           split; [|auto]. destruct He as [<- | He]; [congruence | exact He].
Qed.

(** The loop ends, with the consumed triads accounted for when it has
    found the target. *)
Lemma seek_loop_priced (g : Graph.t) (avoid : list Z) (s t : Z) (fuel : nat) :
  forall sp,
    searching g avoid s t sp -> priced g avoid s sp ->
    (length (ShortestPath.open_set sp) < fuel)%nat ->
    exists sp',
      ShortestPath.seek_loop fuel g (ShortestPath.banned_nodes_of g avoid) sp
      = Some (g, sp')
      /\ finished g avoid s t sp'
      /\ (ShortestPath.path_exists sp' = true -> accounted g avoid s t sp').
Proof.
  induction fuel as [|fuel IH]; intros sp Hsp Hpr Hfuel; [lia|].
  cbn [ShortestPath.seek_loop]. rewrite (sr_running _ _ _ _ _ Hsp).
  destruct (priced_step g avoid s t sp Hsp Hpr)
    as (sp1 & -> & [(Hgo & Hpr1 & Hless) | [Hend Hacc]]).
  - apply IH; [exact Hgo | exact Hpr1 | lia].
  - exists sp1. split; [|split; assumption].
    apply seek_loop_when_terminated, (fin_terminated _ _ _ _ _ Hend).
Qed.

(** ** The path made of the consumed triads *)

Lemma trail_snoc (used : list int_int_and_num_Triad)
      (e : int_int_and_num_Triad) :
  forall raw u, trail used u raw (Triad.get_value1 e) -> In e used ->
                trail used u (raw ++ [e]) (Triad.get_value2 e).
Proof.
  induction raw as [|x raw IH]; intros u Htrail He; cbn [app trail] in *.
  - auto.
  - destruct Htrail as (H1 & H2 & H3). auto.
Qed.

(** What the backward walk returns: the triads from the source to the
    node it started at, put in front of what it was given. *)
Lemma walk_back_trail (elements : list PriorityQueue.t) (s : Z)
      (used : list int_int_and_num_Triad) :
  (forall e, In e used ->
             PriorityQueue.get_top_NotDelete
               (vat [] elements (Triad.get_value2 e)) = Some e) ->
  (forall e, In e used ->
             In (Triad.get_value1 e) (s :: map Triad.get_value2 used)) ->
  forall fuel cur raw r,
    In cur (s :: map Triad.get_value2 used) ->
    ShortestPath.walk_back fuel elements s cur raw = Some r ->
    exists front, r = (s, front ++ raw) /\ trail used s front cur.
Proof.
  intros Htop Hleaves.
  induction fuel as [|fuel IH]; intros cur raw r Hcur Hwalk;
    cbn [ShortestPath.walk_back] in Hwalk.
  - destruct (Z.eqb_spec cur s) as [-> | Hne]; cbn [negb] in Hwalk;
      [|discriminate].
    injection Hwalk as <-. exists []. split; reflexivity.
  - destruct (Z.eqb_spec cur s) as [-> | Hne]; cbn [negb] in Hwalk.
    + injection Hwalk as <-. exists []. split; reflexivity.
    + destruct Hcur as [-> | Hcur]; [contradiction|].
      apply in_map_iff in Hcur as (e & <- & He).
      rewrite (Htop e He) in Hwalk.
      destruct (IH _ _ _ (Hleaves e He) Hwalk) as (front & -> & Htrail).
      exists (front ++ [e]). rewrite <- app_assoc. split; [reflexivity|].
      now apply trail_snoc.
Qed.

Lemma path_fold (raw : list int_int_and_num_Triad) :
  forall path previous_cost current_cost,
    fold_left
      (fun '(path, previous_cost, _) rawAux =>
         let current_cost := Triad.get_value3 rawAux in
         let step_cost := current_cost - previous_cost in
         (path ++ [Pair.mk (Triad.get_value2 rawAux) step_cost],
          current_cost, current_cost))
      raw (path, previous_cost, current_cost)
    = (path ++ steps_of previous_cost raw,
       last (map Triad.get_value3 raw) previous_cost,
       last (map Triad.get_value3 raw) current_cost).
Proof.
  induction raw as [|e raw IH]; intros path previous_cost current_cost.
  - cbn. now rewrite app_nil_r.
  - cbn [fold_left steps_of map]. rewrite IH, <- app_assoc. cbn [app].
    f_equal; [f_equal|];
      (destruct (map Triad.get_value3 raw) as [|c l]; [reflexivity|]).
    + exact (last_of_nonempty l c (Triad.get_value3 e) previous_cost).
    + exact (last_of_nonempty l c (Triad.get_value3 e) current_cost).
Qed.

Lemma settled_once (s : Z) (used : list int_int_and_num_Triad) (u c c' : Z) :
  NoDup (s :: map Triad.get_value2 used) ->
  settled_at s used u c -> settled_at s used u c' -> c = c'.
Proof.
  intros Hnd H H'. apply NoDup_cons_iff in Hnd as [Hs Hnd].
  destruct H as [[-> ->] | (e & He & <- & <-)],
           H' as [[H1 ->] | (e' & He' & H1 & <-)].
  - reflexivity.
  - exfalso. apply Hs. rewrite <- H1. now apply in_map.
  - exfalso. apply Hs. rewrite <- H1. now apply in_map.
  - f_equal. clear Hs. induction used as [|x used IH]; [contradiction|].
    cbn [map] in Hnd. apply NoDup_cons_iff in Hnd as [Hx Hnd].
    destruct He as [-> | He], He' as [-> | He'].
    + reflexivity.
    + exfalso. apply Hx. rewrite <- H1. now apply in_map.
    + exfalso. apply Hx. rewrite H1. now apply in_map.
    + now apply IH.
Qed.

(** The steps made of a trail of accounted triads are a walk of the
    graph, at the costs of its edges. *)
Lemma steps_of_trail (g : Graph.t) (avoid : list Z) (s t : Z)
      (used : list int_int_and_num_Triad) :
  NoDup (s :: map Triad.get_value2 used) ->
  (forall e, In e used -> allowed g avoid (Triad.get_value2 e)) ->
  (forall e, In e used ->
     exists nb c,
       In nb (fst (Graph.neighbors g (Triad.get_value1 e)))
       /\ Pair.get_value1 nb = Triad.get_value2 e
       /\ settled_at s used (Triad.get_value1 e) c
       /\ Triad.get_value3 e = Pair.get_value2 nb + c) ->
  forall raw u c,
    trail used u raw t -> settled_at s used u c ->
    walk g avoid u (steps_of c raw)
    /\ walk_end u (steps_of c raw) = t
    /\ walk_cost (steps_of c raw) = last (map Triad.get_value3 raw) c - c.
Proof.
  intros Hnd Hallowed Hedges.
  induction raw as [|e raw IH]; intros u c Htrail Hsettled;
    cbn [trail steps_of] in *.
  - subst t. unfold walk_end, walk_cost. cbn. repeat split. lia.
  - destruct Htrail as (Hfrom & He & Htrail).
    destruct (Hedges e He) as (nb & c' & Hnb & Hto & Hsettled' & Hcost).
    rewrite Hfrom in Hsettled', Hnb.
    rewrite (settled_once s used u c' c Hnd Hsettled' Hsettled) in Hcost.
    assert (Hstep : Pair.mk (Triad.get_value2 e) (Triad.get_value3 e - c) = nb).
    { destruct nb as [n1 n2]. cbn in Hto, Hcost. subst n1. f_equal. lia. }
    destruct (IH (Triad.get_value2 e) (Triad.get_value3 e) Htrail)
      as (Hwalk & Hend & Hsum).
    { right. exists e. auto. }
    rewrite walk_end_cons. cbn [walk Pair.get_value1 Pair.get_value2 map].
    split; [|split].
    + rewrite Hstep. split; [exact Hnb|]. split; [|exact Hwalk].
      now apply Hallowed.
    + exact Hend.
    + change (walk_cost (?a :: ?l)) with (Pair.get_value2 a + walk_cost l).
      rewrite Hsum. cbn [Pair.get_value2].
      destruct (map Triad.get_value3 raw) as [|c1 l]; [cbn; lia|].
      change (last (Triad.get_value3 e :: c1 :: l) c) with (last (c1 :: l) c).
      rewrite (last_of_nonempty l c1 (Triad.get_value3 e) c). lia.
Qed.

Lemma trail_leads_to (used : list int_int_and_num_Triad) (t : Z) :
  forall raw u d,
    trail used u raw t -> raw <> [] ->
    exists e, In e used /\ Triad.get_value2 e = t
              /\ last (map Triad.get_value3 raw) d = Triad.get_value3 e.
Proof.
  induction raw as [|e raw IH]; intros u d Htrail Hne; [contradiction|].
  destruct Htrail as (_ & He & Htrail).
  destruct raw as [|e2 raw].
  - cbn [trail] in Htrail. exists e. cbn. auto.
  - destruct (IH _ d Htrail ltac:(discriminate)) as (x & Hx & Hto & Hlast).
    exists x. split; [exact Hx|]. split; [exact Hto|].
    cbn [map] in *.
    change (last (Triad.get_value3 e :: Triad.get_value3 e2
                  :: map Triad.get_value3 raw) d)
      with (last (Triad.get_value3 e2 :: map Triad.get_value3 raw) d).
    exact Hlast.
Qed.

(** [reproduce_found_path] on the consumed triads of a search that found
    the target: the path it stores is a walk of the graph from the source
    to the target, at the cost it stores. *)
Lemma reproduce_found_path_walk (g : Graph.t) (avoid : list Z) (s t : Z)
      (sp : ShortestPath.t) :
  ShortestPath.nodeFrom sp = s -> ShortestPath.nodeTo sp = t -> s <> t ->
  walkable g s t sp -> accounted g avoid s t sp ->
  exists sp',
    ShortestPath.reproduce_found_path g sp = Some sp'
    /\ ShortestPath.path_exists sp' = ShortestPath.path_exists sp
    /\ ShortestPath.path_was_seeked sp' = ShortestPath.path_was_seeked sp
    /\ walk g avoid s (ShortestPath.shortest_path sp')
    /\ walk_end s (ShortestPath.shortest_path sp') = t
    /\ ShortestPath.shortest_path_cost sp'
       = walk_cost (ShortestPath.shortest_path sp')
    /\ exists e, In e (ShortestPath.used_queue_elements sp)
                 /\ Triad.get_value2 e = t
                 /\ ShortestPath.shortest_path_cost sp' = Triad.get_value3 e.
Proof.
  intros Hfrom Hto Hst Hwalkable [[Hpath Hraw] Hallowed Hedges _].
  destruct (reproduce_found_path_returns g sp) as (sp' & Hrep & Hpe & Hpws & _);
    [now rewrite Hfrom, Hto|].
  exists sp'. split; [exact Hrep|]. split; [exact Hpe|]. split; [exact Hpws|].
  destruct Hwalkable as (Hch & Hnd & Ht & Hrange). unfold closed_nodes in *.
  unfold ShortestPath.reproduce_found_path in Hrep.
  rewrite Hfrom, Hto, Hpath, Hraw in Hrep.
  set (elements := map _ (range (Graph.V g))) in Hrep.
  destruct (ShortestPath.walk_back _ elements s t []) as [[cur raw]|] eqn:Hwb;
    [|discriminate].
  rewrite path_fold in Hrep. injection Hrep as <-.
  cbn [ShortestPath.shortest_path ShortestPath.shortest_path_cost app].
  destruct (walk_back_trail elements s (ShortestPath.used_queue_elements sp))
    with (fuel := length (ShortestPath.used_queue_elements sp)) (cur := t)
         (raw := @nil int_int_and_num_Triad) (r := (cur, raw))
    as (front & Heq & Htrail).
  - intros e He. unfold elements.
    rewrite vat_map_range by (apply Hrange; right; now apply in_map).
    rewrite group_single; [reflexivity | | exact He].
    now apply NoDup_cons_iff in Hnd as [_ Hnd].
  - intros e He.
    destruct (chained_leaves_settled s _ Hch e (proj1 (in_rev _ _) He))
      as [H | H]; [now left | right].
    rewrite map_rev in H. now apply in_rev in H.
  - exact Ht.
  - exact Hwb.
  - injection Heq as -> ->. rewrite app_nil_r.
    destruct (steps_of_trail g avoid s t (ShortestPath.used_queue_elements sp)
                Hnd Hallowed Hedges front s 0 Htrail)
      as (Hwalk & Hend & Hsum); [left; auto|].
    split; [exact Hwalk|]. split; [exact Hend|]. split; [lia|].
    apply (trail_leads_to _ t front s 0 Htrail).
    intros ->. cbn [trail] in Htrail. congruence.
Qed.

Lemma walk_is_joined (g : Graph.t) (avoid : list Z) (s : Z) :
  forall steps u, joined g avoid s u -> walk g avoid u steps ->
                  joined g avoid s (walk_end u steps).
Proof.
  induction steps as [|nb rest IH]; intros u Hu Hwalk; [exact Hu|].
  destruct Hwalk as (Hnb & Hallowed & Hrest). rewrite walk_end_cons.
  apply IH; [|exact Hrest].
  eapply joined_step; [exact Hu | | exact Hallowed].
  apply linked_listed. eauto.
Qed.

(** [seek_path], with the path it stores. *)
Lemma seek_path_walks (g : Graph.t) (sp : ShortestPath.t) (s t : Z)
      (avoid : list Z) :
  ready sp -> 0 <= s < Graph.size g -> 0 <= t < Graph.size g ->
  exists sp',
    ShortestPath.seek_path g sp s t avoid = Some (g, sp')
    /\ ShortestPath.path_was_seeked sp' = true
    /\ (ShortestPath.path_exists sp' = true <-> s <> t /\ joined g avoid s t)
    /\ (ShortestPath.path_exists sp' = true ->
        walk g avoid s (ShortestPath.shortest_path sp')
        /\ walk_end s (ShortestPath.shortest_path sp') = t
        /\ ShortestPath.shortest_path_cost sp'
           = walk_cost (ShortestPath.shortest_path sp')
        /\ (nonnegative_costs g -> one_entry_per_neighbour g ->
            forall steps, walk g avoid s steps -> walk_end s steps = t ->
                          ShortestPath.shortest_path_cost sp'
                          <= walk_cost steps)).
Proof.
  intros Hready Hs Ht. unfold ShortestPath.seek_path.
  destruct (clear_prior_clean sp Hready)
    as (Ho & Hc & Htc & Hq & Hu & Hp & Hr & Hv).
  set (sp0 := ShortestPath.clear_prior sp) in *.
  destruct (existsb (fun node => (node =? s) || (node =? t))
                    (ShortestPath.banned_nodes_of g avoid)) eqn:Hearly.
  - eexists. split; [reflexivity|]. split; [reflexivity|].
    cbn [ShortestPath.path_exists]. split; [|discriminate].
    split; [discriminate|].
    intros [_ Hj]. exfalso.
    assert (existsb (fun node => (node =? s) || (node =? t))
                    (ShortestPath.banned_nodes_of g avoid) = false).
    { apply early_return_iff; auto. split.
      - exact (joined_source_allowed _ _ _ _ Hj).
      - exact (joined_allowed _ _ _ _ Hj). }
    congruence.
  - apply early_return_iff in Hearly as [Hsa Hta]; [|assumption|assumption].
    rewrite Ho, Hc, Htc. cbn [app].
    set (started := ShortestPath.mk s t s false _ _ _ _ _ _ _ _ _ _ _ _ _).
    assert (Hstart : searching g avoid s t started).
    { constructor; unfold started; sp_fields; try reflexivity.
      - rewrite Hv. reflexivity.
      - rewrite Hu. now left.
      - intros v. rewrite Hu. apply open_at_start.
      - apply NoDup_filter, NoDup_range.
      - rewrite Hu. repeat constructor. intros [].
      - intros Hst. apply open_at_start. split; [exact Hta|].
        intros [-> | []]. contradiction.
      - rewrite Hq. split; [constructor | intros e []].
      - rewrite Hu. intros u v [<- | []] Hne. contradiction.
      - rewrite Hu. intros u [<- | []]. now apply joined_here.
      - rewrite Hu. exact I.
      - intros _. unfold costs_small, started. sp_fields.
        rewrite Hu, Hq, length_map, range_length.
        split; [reflexivity|]. split; [|split; intros e []].
        intros u [<- | []]. unfold Graph.V. rewrite vat_map_range by exact Hs.
        rewrite Z.eqb_refl. cbn. lia. }
    assert (Hprice : priced g avoid s started).
    { assert (Hzero : vat 0 (map (fun i => if negb (i =? s)
                                           then ShortestPath.infinity_or_max
                                           else 0)
                                 (range (Graph.V g))) s = 0).
      { unfold Graph.V. rewrite vat_map_range by exact Hs.
        now rewrite Z.eqb_refl. }
      constructor; unfold started; sp_fields.
      - now rewrite length_map, range_length.
      - now rewrite Hp, Hr.
      - exact Hzero.
      - rewrite Hu. intros e [].
      - rewrite Hu, Hq. intros e [].
      - intros Hpos _. rewrite Hq, Hu. split; [reflexivity|]. split.
        + intros u steps [<- | []] Hwalk _. rewrite Hzero.
          exact (walk_cost_nonnegative g avoid Hpos steps s Hs Hwalk).
        + intros u nb [<- | []] Hne. contradiction. }
    destruct (seek_loop_priced g avoid s t
                (S (length (ShortestPath.open_set started))) started Hstart
                Hprice (Nat.lt_succ_diag_r _))
      as (sp1 & Hloop & Hfin & Hacc).
    unfold started in Hloop at 1. cbn [ShortestPath.open_set] in Hloop.
    fold started in Hloop. rewrite Hloop.
    cbn [ShortestPath.path_exists].
    destruct (ShortestPath.path_exists sp1) eqn:Hexists.
    + pose proof (proj1 (fin_exists _ _ _ _ _ Hfin) Hexists) as [Hst _].
      destruct (reproduce_found_path_walk g avoid s t
                  (ShortestPath.mk
                     (ShortestPath.nodeFrom sp1) (ShortestPath.nodeTo sp1)
                     (ShortestPath.currentNode sp1) (ShortestPath.terminated sp1)
                     true (ShortestPath.path_exists sp1)
                     (ShortestPath.nodeTo_was_visited sp1)
                     (ShortestPath.open_set sp1) (ShortestPath.closed_set sp1)
                     (ShortestPath.tentative_costs sp1)
                     (ShortestPath.neighbors sp1) (ShortestPath.queue sp1)
                     (ShortestPath.last_top_of_queue sp1)
                     (ShortestPath.used_queue_elements sp1)
                     (ShortestPath.shortest_path sp1)
                     (ShortestPath.shortest_path_cost sp1)
                     (ShortestPath.raw_shortest_path sp1)))
        as (sp2 & Hrep & Hpe & Hpws & Hwalk & Hend & Hsum & e & He & Hto_t
            & Hcost).
      { exact (fin_from _ _ _ _ _ Hfin). }
      { exact (fin_to _ _ _ _ _ Hfin). }
      { exact Hst. }
      { exact (fin_walkable _ _ _ _ _ Hfin Hexists). }
      { destruct (Hacc eq_refl) as [H1 H2 H3 H4].
        constructor; sp_fields; assumption. }
      rewrite Hexists in Hrep. rewrite Hrep.
      exists sp2. split; [reflexivity|]. split; [exact Hpws|].
      rewrite Hpe. cbn [ShortestPath.path_exists].
      split; [exact (fin_exists _ _ _ _ _ Hfin)|].
      intros _. split; [exact Hwalk|]. split; [exact Hend|].
      split; [exact Hsum|].
      intros Hpos Hsimple steps Hsteps Hsteps_end. rewrite Hcost.
      cbn [ShortestPath.used_queue_elements] in He.
      exact (ac_best _ _ _ _ _ (Hacc eq_refl) Hpos Hsimple e steps He Hto_t
                     Hsteps Hsteps_end).
    + eexists. split; [reflexivity|]. split; [reflexivity|].
      cbn [ShortestPath.path_exists].
      split; [|intros Hyes; congruence].
      pose proof (fin_exists _ _ _ _ _ Hfin) as Hiff.
      rewrite Hexists in Hiff. exact Hiff.
Qed.

Lemma joined_iff_walk (g : Graph.t) (avoid : list Z) (s t : Z) :
  joined g avoid s t
  <-> allowed g avoid s
      /\ exists steps, walk g avoid s steps /\ walk_end s steps = t.
Proof.
  split.
  - induction 1 as [Hs | u v Hu IH Hlinked Hv].
    + split; [exact Hs|]. exists []. split; reflexivity.
    + destruct IH as (Hs & steps & Hwalk & Hend). split; [exact Hs|].
      apply linked_listed in Hlinked as (nb & Hnb & Hto).
      exists (steps ++ [nb]). split.
      * apply walk_app. split; [exact Hwalk|]. rewrite Hend.
        cbn [walk]. rewrite Hto. auto.
      * rewrite walk_end_app. unfold walk_end at 1. cbn. exact Hto.
  - intros (Hs & steps & Hwalk & <-).
    apply walk_is_joined; [now apply joined_here | exact Hwalk].
Qed.

(** X18: on every graph and for every set of banned tags, [seek_path]
    between two nodes of the graph returns, hands the graph back as it
    was and marks the object as used; it reports a path exactly when the
    target is another node than the source, the source is not banned and
    some walk along neighbour lists leads from the source to the target
    over nodes that are not banned.  When it reports none, [get_path] is
    empty and [get_path_cost] is -1. *)
Theorem seek_path_reports_a_path_exactly_when_a_walk_exists
        (g : Graph.t) (sp : ShortestPath.t) (s t : Z) (avoid : list Z) :
  ready sp -> 0 <= s < Graph.size g -> 0 <= t < Graph.size g ->
  exists sp',
    ShortestPath.seek_path g sp s t avoid = Some (g, sp')
    /\ ShortestPath.get_path_was_seeked sp' = true
    /\ (ShortestPath.get_path_exists sp' = true
        <-> s <> t /\ allowed g avoid s
            /\ exists steps, walk g avoid s steps /\ walk_end s steps = t)
    /\ (ShortestPath.get_path_exists sp' = false ->
        ShortestPath.get_path sp' = [] /\ ShortestPath.get_path_cost sp' = -1).
Proof.
  intros Hready Hs Ht.
  destruct (seek_path_walks g sp s t avoid Hready Hs Ht)
    as (sp' & Hret & Hseeked & Hiff & _).
  exists sp'. split; [exact Hret|]. split; [exact Hseeked|].
  unfold ShortestPath.get_path_exists, ShortestPath.get_path,
    ShortestPath.get_path_cost.
  split.
  - rewrite Hiff, joined_iff_walk. reflexivity.
  - intros Hno. rewrite Hseeked, Hno. split; reflexivity.
Qed.

Lemma seek_path_reports_a_path_exactly_when_a_walk_exists_witness :
  exists sp',
    ShortestPath.seek_path graph_with_free_edge ShortestPath.new 0 1 []
    = Some (graph_with_free_edge, sp')
    /\ ShortestPath.get_path_was_seeked sp' = true
    /\ (ShortestPath.get_path_exists sp' = true
        <-> 0 <> 1 /\ allowed graph_with_free_edge [] 0
            /\ exists steps, walk graph_with_free_edge [] 0 steps
                             /\ walk_end 0 steps = 1)
    /\ (ShortestPath.get_path_exists sp' = false ->
        ShortestPath.get_path sp' = [] /\ ShortestPath.get_path_cost sp' = -1).
Proof.
  apply (seek_path_reports_a_path_exactly_when_a_walk_exists
           graph_with_free_edge ShortestPath.new 0 1 []).
  - exact ready_new.
  - cbn. lia.
  - cbn. lia.
Defined.







(** * More on the game *)

(** ** The three win checks *)

Lemma lateral_checks (L : Z) (mode : representationMode) (b : Hex_Board.t) :
  2 <= L -> in_play L mode b -> tags_of_a_game (Hex_Board.graph b) ->
  exists connects path',
    Hex_Game.seek_each_source b ShortestPath.new [0; 1]
      (map (fun w => Hex_Board.coordinate_to_nodeIndex b w 0) (range L))
      (map (fun e => Hex_Board.coordinate_to_nodeIndex b e (L - 1)) (range L))
    = Some (connects, b, path')
    /\ (connects = true
        <-> exists w e, 0 <= w < L /\ 0 <= e < L
              /\ owned_path (Hex_Board.graph b) 2
                   (Hex_Board.coordinate_to_nodeIndex b w 0)
                   (Hex_Board.coordinate_to_nodeIndex b e (L - 1))).
Proof.
  intros HL Hplay Htags.
  pose proof (in_play_board_of L mode _ Hplay) as Hboard.
  assert (HbL : Hex_Board.border_length b = L) by apply Hboard.
  destruct (win_check_spec L mode b [0; 1]
              (fun w => (w, 0)) (fun e => (e, L - 1)) HL Hboard)
    as (cl & pl & Hl & Hliff); [cbn [fst snd]; intros; lia|].
  cbn [fst snd] in Hl, Hliff.
  exists cl, pl. split; [exact Hl|].
  rewrite Hliff. split.
  - intros (w & e & Hw & He & _ & Hj). exists w, e.
    split; [exact Hw|]. split; [exact He|].
    apply (joined_is_owned_path _ 2 1); auto.
  - intros (w & e & Hw & He & Hp). exists w, e.
    split; [exact Hw|]. split; [exact He|]. split.
    + destruct (coordinate_on_board _ L w 0 HbL Hw ltac:(lia)) as [-> _].
      destruct (coordinate_on_board _ L e (L - 1) HbL He ltac:(lia))
        as [-> _].
      now apply west_is_not_east.
    + apply (joined_is_owned_path _ 2 1); auto.
Qed.

Lemma vertical_checks (L : Z) (mode : representationMode) (b : Hex_Board.t) :
  2 <= L -> in_play L mode b -> tags_of_a_game (Hex_Board.graph b) ->
  exists connects path',
    Hex_Game.seek_each_source b ShortestPath.new [0; 2]
      (map (fun n => Hex_Board.coordinate_to_nodeIndex b 0 n) (range L))
      (map (fun s => Hex_Board.coordinate_to_nodeIndex b (L - 1) s) (range L))
    = Some (connects, b, path')
    /\ (connects = true
        <-> exists n s, 0 <= n < L /\ 0 <= s < L
              /\ owned_path (Hex_Board.graph b) 1
                   (Hex_Board.coordinate_to_nodeIndex b 0 n)
                   (Hex_Board.coordinate_to_nodeIndex b (L - 1) s)).
Proof.
  intros HL Hplay Htags.
  pose proof (in_play_board_of L mode _ Hplay) as Hboard.
  assert (HbL : Hex_Board.border_length b = L) by apply Hboard.
  destruct (win_check_spec L mode b [0; 2]
              (fun n => (0, n)) (fun s => (L - 1, s)) HL Hboard)
    as (cv & pv & Hv & Hviff); [cbn [fst snd]; intros; lia|].
  cbn [fst snd] in Hv, Hviff.
  exists cv, pv. split; [exact Hv|].
  rewrite Hviff. split.
  - intros (n & s & Hn & Hs & _ & Hj). exists n, s.
    split; [exact Hn|]. split; [exact Hs|].
    apply (joined_is_owned_path _ 1 2); auto.
  - intros (n & s & Hn & Hs & Hp). exists n, s.
    split; [exact Hn|]. split; [exact Hs|]. split.
    + destruct (coordinate_on_board _ L 0 n HbL ltac:(lia) Hn) as [-> _].
      destruct (coordinate_on_board _ L (L - 1) s HbL ltac:(lia) Hs)
        as [-> _].
      now apply north_is_not_south.
    + apply (joined_is_owned_path _ 1 2); auto.
Qed.

(** X21: [check_bot_won], the check that the bot runs on its trial
    boards, answers as [check_connection_lateral] does: on every board of
    a game of border length [L >= 2] it returns, leaves the board as it
    was, and answers true exactly when a chain of adjacent cells of player
    2 leads from a cell of the west border to a cell of the east border;
    the lateral check of a game played on that board gives the same
    answer. *)
Theorem check_bot_won_answers_as_the_lateral_check
        (L : Z) (mode : representationMode) (b : Hex_Board.t) :
  2 <= L -> in_play L mode b -> tags_of_a_game (Hex_Board.graph b) ->
  exists connects,
    Hex_Game.check_bot_won b = Some (connects, b)
    /\ (connects = true
        <-> exists w e, 0 <= w < L /\ 0 <= e < L
              /\ owned_path (Hex_Board.graph b) 2
                   (Hex_Board.coordinate_to_nodeIndex b w 0)
                   (Hex_Board.coordinate_to_nodeIndex b e (L - 1)))
    /\ forall game, Hex_Game.board game = b -> Hex_Game.border_length game = L ->
                    Hex_Game.check_connection_lateral game
                    = Some (connects, game).
Proof.
  intros HL Hplay Htags.
  destruct (lateral_checks L mode b HL Hplay Htags) as (cl & pl & Hl & Hiff).
  assert (HbL : Hex_Board.border_length b = L)
    by apply (in_play_board_of L mode _ Hplay).
  exists cl. split; [|split; [exact Hiff|]].
  - unfold Hex_Game.check_bot_won, Hex_Board.get_border_length.
    rewrite HbL, Hl. reflexivity.
  - intros game <- Hborder. unfold Hex_Game.check_connection_lateral.
    rewrite Hborder, Hl. now rewrite with_own_board.
Qed.

Lemma check_bot_won_answers_as_the_lateral_check_witness :
  exists connects,
    Hex_Game.check_bot_won (Hex_Board.new 2 CON_MATRIX)
    = Some (connects, Hex_Board.new 2 CON_MATRIX)
    /\ (connects = true
        <-> exists w e, 0 <= w < 2 /\ 0 <= e < 2
              /\ owned_path (Hex_Board.graph (Hex_Board.new 2 CON_MATRIX)) 2
                   (Hex_Board.coordinate_to_nodeIndex
                      (Hex_Board.new 2 CON_MATRIX) w 0)
                   (Hex_Board.coordinate_to_nodeIndex
                      (Hex_Board.new 2 CON_MATRIX) e (2 - 1)))
    /\ forall game,
         Hex_Game.board game = Hex_Board.new 2 CON_MATRIX ->
         Hex_Game.border_length game = 2 ->
         Hex_Game.check_connection_lateral game = Some (connects, game).
Proof.
  apply (check_bot_won_answers_as_the_lateral_check
           2 CON_MATRIX (Hex_Board.new 2 CON_MATRIX)).
  - lia.
  - apply in_play_new.
  - intros u _. left. apply new_board_tags.
Defined.

(** ** Stones and chains *)

Lemma tag_after_set (L : Z) (mode : representationMode) (b : Hex_Board.t)
      (node val u : Z) :
  in_play L mode b -> 0 <= node < L * L ->
  Graph.get_node_tag (Hex_Board.graph (Hex_Board.set_node_tag b node val)) u
  = if u =? node then val else Graph.get_node_tag (Hex_Board.graph b) u.
Proof.
  intros Hplay Hnode.
  pose proof (in_play_board_of L mode b Hplay) as Hboard.
  pose proof (board_of_size L mode b Hboard) as Hsize.
  destruct Hboard as (_ & _ & Hlen).
  unfold Hex_Board.set_node_tag. cbn [Hex_Board.graph Hex_Board.with_graph].
  destruct (set_node_tag_length (Hex_Board.graph b) node val) as [-> _];
    [now rewrite Hsize|].
  unfold Graph.get_node_tag. cbn [Graph.nodeTags Graph.with_nodeTags].
  rewrite vat_vset. unfold vsize. rewrite Hlen.
  replace (0 <=? node) with true by (symmetry; apply Z.leb_le; lia).
  replace (node <? Z.of_nat (Z.to_nat (L * L))) with true
    by (symmetry; apply Z.ltb_lt; lia).
  now rewrite !andb_true_r.
Qed.

Lemma tags_after_set (L : Z) (mode : representationMode) (b : Hex_Board.t)
      (node val : Z) :
  in_play L mode b -> tags_of_a_game (Hex_Board.graph b) ->
  0 <= node < L * L -> val = 0 \/ val = 1 \/ val = 2 ->
  tags_of_a_game (Hex_Board.graph (Hex_Board.set_node_tag b node val)).
Proof.
  intros Hplay Htags Hnode Hval u Hu.
  rewrite (tag_after_set L mode b node val u Hplay Hnode).
  destruct (u =? node); [exact Hval|].
  apply Htags.
  rewrite (board_of_size L mode _ (in_play_board_of L mode _ Hplay)).
  rewrite (board_of_size L mode _
             (in_play_board_of L mode _ (in_play_tag L mode b node val
                                                      Hplay Hnode))) in Hu.
  exact Hu.
Qed.

(** Cells of one player in a line, each adjacent to the next, form a
    chain. *)
Lemma line_is_a_chain (L : Z) (mode : representationMode) (b : Hex_Board.t)
      (player : Z) (cell : Z -> Z * Z) :
  2 <= L -> in_play L mode b ->
  (forall k, 0 <= k < L ->
             0 <= fst (cell k) < L /\ 0 <= snd (cell k) < L
             /\ Hex_Board.get_node_tag_byCoordinates
                  b (fst (cell k)) (snd (cell k)) = player) ->
  (forall k, 0 <= k -> k + 1 < L ->
             hex_near (fst (cell k)) (snd (cell k))
                      (fst (cell (k + 1))) (snd (cell (k + 1)))) ->
  forall k, 0 <= k < L ->
    owned_path (Hex_Board.graph b) player
      (Hex_Board.coordinate_to_nodeIndex b (fst (cell 0)) (snd (cell 0)))
      (Hex_Board.coordinate_to_nodeIndex b (fst (cell k)) (snd (cell k))).
Proof.
  intros HL Hplay Hcells Hnear.
  pose proof (in_play_board_of L mode b Hplay) as Hboard.
  pose proof (board_of_size L mode b Hboard) as Hsize.
  assert (HbL : Hex_Board.border_length b = L) by apply Hboard.
  assert (Hat : forall k, 0 <= k < L ->
             Hex_Board.coordinate_to_nodeIndex b (fst (cell k)) (snd (cell k))
             = fst (cell k) * L + snd (cell k)
             /\ 0 <= fst (cell k) * L + snd (cell k) < L * L
             /\ Graph.get_node_tag (Hex_Board.graph b)
                                   (fst (cell k) * L + snd (cell k)) = player).
  { intros k Hk. destruct (Hcells k Hk) as (Hx & Hy & Htag).
    destruct (coordinate_on_board b L _ _ HbL Hx Hy) as [Hindex Hrange].
    unfold Hex_Board.get_node_tag_byCoordinates in Htag.
    rewrite Hindex in Htag. auto. }
  intros k Hk. rewrite <- (Z2Nat.id k) in Hk |- * by lia.
  induction (Z.to_nat k) as [|n IH].
  - change (Z.of_nat 0) with 0.
    destruct (Hat 0 ltac:(lia)) as (-> & Hrange & Htag).
    apply owned_here; [now rewrite Hsize | exact Htag].
  - rewrite Nat2Z.inj_succ in Hk |- *. unfold Z.succ in *.
    specialize (IH ltac:(lia)).
    destruct (Hat (Z.of_nat n) ltac:(lia)) as (Hfrom & Hfrom_range & _).
    destruct (Hat (Z.of_nat n + 1) ltac:(lia)) as (Hto & Hto_range & Htag).
    destruct (Hcells (Z.of_nat n) ltac:(lia)) as (Hx & Hy & _).
    destruct (Hcells (Z.of_nat n + 1) ltac:(lia)) as (Hx' & Hy' & _).
    eapply owned_step; [exact IH | | now rewrite Hto, Hsize
                        | now rewrite Hto].
    rewrite Hfrom, Hto, (board_adjacency L mode b) by assumption.
    apply linked_cells; try assumption.
    apply Hnear; lia.
Qed.

(** X22: a straight line wins: on a board of a game of border length
    [L >= 2], when player 1 holds every cell of one column the vertical
    check answers true, and when player 2 holds every cell of one row the
    lateral check and the bot's check answer true. *)
Theorem a_full_line_of_a_player_wins
        (L : Z) (mode : representationMode) (game : Hex_Game.t) (line : Z) :
  2 <= L ->
  Hex_Game.border_length game = L ->
  in_play L mode (Hex_Game.board game) ->
  tags_of_a_game (Hex_Board.graph (Hex_Game.board game)) ->
  0 <= line < L ->
  ((forall x, 0 <= x < L ->
              Hex_Board.get_node_tag_byCoordinates (Hex_Game.board game) x line
              = 1) ->
   Hex_Game.check_connection_vertical game = Some (true, game))
  /\ ((forall y, 0 <= y < L ->
                 Hex_Board.get_node_tag_byCoordinates (Hex_Game.board game)
                                                      line y = 2) ->
      Hex_Game.check_connection_lateral game = Some (true, game)
      /\ Hex_Game.check_bot_won (Hex_Game.board game)
         = Some (true, Hex_Game.board game)).
Proof.
  intros HL Hborder Hplay Htags Hline.
  assert (HbL : Hex_Board.border_length (Hex_Game.board game) = L)
    by apply (in_play_board_of L mode _ Hplay).
  split.
  - intros Hcolumn.
    destruct (vertical_checks L mode _ HL Hplay Htags) as (cv & pv & Hv & Hiff).
    assert (Hyes : cv = true).
    { apply Hiff. exists line, line. split; [exact Hline|].
      split; [exact Hline|].
      pose proof (line_is_a_chain L mode (Hex_Game.board game) 1
                    (fun k => (k, line)) HL Hplay) as Hchain.
      cbn [fst snd] in Hchain.
      apply (Hchain ltac:(intros k Hk; auto)
                    ltac:(intros k Hk Hk'; unfold hex_near; lia)
                    (L - 1)).
      lia. }
    subst cv. unfold Hex_Game.check_connection_vertical.
    rewrite Hborder, Hv. now rewrite with_own_board.
  - intros Hrow.
    destruct (lateral_checks L mode _ HL Hplay Htags) as (cl & pl & Hl & Hiff).
    assert (Hyes : cl = true).
    { apply Hiff. exists line, line. split; [exact Hline|].
      split; [exact Hline|].
      pose proof (line_is_a_chain L mode (Hex_Game.board game) 2
                    (fun k => (line, k)) HL Hplay) as Hchain.
      cbn [fst snd] in Hchain.
      apply (Hchain ltac:(intros k Hk; auto)
                    ltac:(intros k Hk Hk'; unfold hex_near; lia)
                    (L - 1)).
      lia. }
    subst cl. split.
    + unfold Hex_Game.check_connection_lateral.
      rewrite Hborder, Hl. now rewrite with_own_board.
    + unfold Hex_Game.check_bot_won, Hex_Board.get_border_length.
      rewrite HbL, Hl. reflexivity.
Qed.

Lemma new_board_has_tags_of_a_game (L : Z) (mode : representationMode) :
  tags_of_a_game (Hex_Board.graph (Hex_Board.new L mode)).
Proof. intros u _. left. apply new_board_tags. Qed.

Lemma two_stones_in_play (L : Z) (mode : representationMode)
      (n1 v1 n2 v2 : Z) :
  0 <= n1 < L * L -> 0 <= n2 < L * L ->
  v1 = 0 \/ v1 = 1 \/ v1 = 2 -> v2 = 0 \/ v2 = 1 \/ v2 = 2 ->
  in_play L mode
    (Hex_Board.set_node_tag (Hex_Board.set_node_tag (Hex_Board.new L mode) n1 v1)
                            n2 v2)
  /\ tags_of_a_game
       (Hex_Board.graph
          (Hex_Board.set_node_tag
             (Hex_Board.set_node_tag (Hex_Board.new L mode) n1 v1) n2 v2)).
Proof.
  intros Hn1 Hn2 Hv1 Hv2.
  pose proof (in_play_tag L mode _ n1 v1 (in_play_new L mode) Hn1) as Hone.
  split; [now apply in_play_tag|].
  apply (tags_after_set L mode); [exact Hone | | exact Hn2 | exact Hv2].
  apply (tags_after_set L mode);
    [apply in_play_new | apply new_board_has_tags_of_a_game | exact Hn1
     | exact Hv1].
Qed.

Lemma a_full_line_of_a_player_wins_witness :
  Hex_Game.check_connection_vertical
    (Hex_Game.with_board board_with_a_column (Hex_Game.new 2 1 true false))
  = Some (true,
          Hex_Game.with_board board_with_a_column (Hex_Game.new 2 1 true false))
  /\ Hex_Game.check_connection_lateral
       (Hex_Game.with_board board_with_a_row (Hex_Game.new 2 1 true false))
     = Some (true,
             Hex_Game.with_board board_with_a_row (Hex_Game.new 2 1 true false)).
Proof.
  split.
  - apply (proj1 (a_full_line_of_a_player_wins
                    2 CON_MATRIX
                    (Hex_Game.with_board board_with_a_column
                                         (Hex_Game.new 2 1 true false))
                    0 ltac:(lia) eq_refl
                    (proj1 (two_stones_in_play 2 CON_MATRIX 0 1 2 1
                              ltac:(lia) ltac:(lia)
                              ltac:(right; now left) ltac:(right; now left)))
                    (proj2 (two_stones_in_play 2 CON_MATRIX 0 1 2 1
                              ltac:(lia) ltac:(lia)
                              ltac:(right; now left) ltac:(right; now left)))
                    ltac:(lia))).
    intros x Hx. assert (H : x = 0 \/ x = 1) by lia.
    destruct H as [-> | ->]; reflexivity.
  - apply (proj2 (a_full_line_of_a_player_wins
                    2 CON_MATRIX
                    (Hex_Game.with_board board_with_a_row
                                         (Hex_Game.new 2 1 true false))
                    0 ltac:(lia) eq_refl
                    (proj1 (two_stones_in_play 2 CON_MATRIX 0 2 1 2
                              ltac:(lia) ltac:(lia)
                              ltac:(right; now right) ltac:(right; now right)))
                    (proj2 (two_stones_in_play 2 CON_MATRIX 0 2 1 2
                              ltac:(lia) ltac:(lia)
                              ltac:(right; now right) ltac:(right; now right)))
                    ltac:(lia))).
    intros y Hy. assert (H : y = 0 \/ y = 1) by lia.
    destruct H as [-> | ->]; reflexivity.
Defined.

(** ** The Monte Carlo runs *)

Lemma unused_nodes_spec (L : Z) (mode : representationMode) (b : Hex_Board.t)
      (u : Z) :
  in_play L mode b ->
  In u (Hex_Game.unused_nodes b)
  <-> 0 <= u < L * L /\ Graph.get_node_tag (Hex_Board.graph b) u = 0.
Proof.
  intros Hplay. unfold Hex_Game.unused_nodes, Graph.V.
  rewrite (board_of_size L mode _ (in_play_board_of L mode _ Hplay)).
  rewrite filter_In, in_range_iff, Z.eqb_eq. reflexivity.
Qed.

Lemma next_player (p : Z) : p = 1 \/ p = 2 -> Z.rem p 2 + 1 = 1 \/ Z.rem p 2 + 1 = 2.
Proof. intros [-> | ->]; [right | left]; reflexivity. Qed.

Lemma fill_board_spec (L : Z) (mode : representationMode) (skipped : Z)
      (shufflable : list Z) :
  forall b p,
    in_play L mode b -> p = 1 \/ p = 2 ->
    (forall u, In u shufflable -> 0 <= u < L * L) ->
    in_play L mode (fst (Hex_Game.fill_board b p skipped shufflable))
    /\ forall u,
         (In u shufflable -> u <> skipped ->
          Graph.get_node_tag
            (Hex_Board.graph (fst (Hex_Game.fill_board b p skipped shufflable)))
            u = 1
          \/ Graph.get_node_tag
               (Hex_Board.graph
                  (fst (Hex_Game.fill_board b p skipped shufflable))) u = 2)
         /\ (~ (In u shufflable /\ u <> skipped) ->
             Graph.get_node_tag
               (Hex_Board.graph
                  (fst (Hex_Game.fill_board b p skipped shufflable))) u
             = Graph.get_node_tag (Hex_Board.graph b) u).
Proof.
  unfold Hex_Game.fill_board.
  induction shufflable as [|next rest IH]; intros b p Hplay Hp Hrange.
  - cbn [fold_left fst]. split; [exact Hplay|]. intros u. split.
    + intros [].
    + reflexivity.
  - cbn [fold_left].
    assert (Hrest : forall u, In u rest -> 0 <= u < L * L)
      by (intros u Hu; apply Hrange; now right).
    destruct (Z.eqb_spec next skipped) as [-> | Hne]; cbn [negb].
    + destruct (IH b p Hplay Hp Hrest) as [Hplay' Htags].
      split; [exact Hplay'|]. intros u. destruct (Htags u) as [Hin Hout].
      split.
      * intros [<- | Hu] Hother; [contradiction | now apply Hin].
      * intros Hnot. apply Hout. intros [Hu Hother]. apply Hnot.
        split; [now right | exact Hother].
    + pose proof (Hrange next (or_introl eq_refl)) as Hnext.
      destruct (IH (Hex_Board.set_node_tag b next p) (Z.rem p 2 + 1)
                   (in_play_tag L mode b next p Hplay Hnext)
                   (next_player p Hp) Hrest) as [Hplay' Htags].
      split; [exact Hplay'|]. intros u. destruct (Htags u) as [Hin Hout].
      split.
      * intros Hu Hother.
        destruct (in_dec Z.eq_dec u rest) as [Hlater | Hnow];
          [now apply Hin|].
        destruct Hu as [<- | Hu]; [|contradiction].
        rewrite Hout by tauto.
        rewrite (tag_after_set L mode b next p next Hplay Hnext), Z.eqb_refl.
        exact Hp.
      * intros Hnot. rewrite Hout
          by (intros [Hu Ho]; apply Hnot; split; [now right | exact Ho]).
        rewrite (tag_after_set L mode b next p u Hplay Hnext).
        destruct (Z.eqb_spec u next) as [-> | _]; [|reflexivity].
        exfalso. apply Hnot. split; [now left | exact Hne].
Qed.

Lemma playout_spec (L : Z) (mode : representationMode) (b : Hex_Board.t)
      (fixed : Z) (shufflable : list Z) :
  in_play L mode b -> tags_of_a_game (Hex_Board.graph b) ->
  In fixed (Hex_Game.unused_nodes b) ->
  Permutation shufflable (Hex_Game.unused_nodes b) ->
  in_play L mode (Hex_Game.playout b fixed shufflable)
  /\ Graph.get_node_tag
       (Hex_Board.graph (Hex_Game.playout b fixed shufflable)) fixed = 2
  /\ forall u, 0 <= u < L * L ->
       (Graph.get_node_tag
          (Hex_Board.graph (Hex_Game.playout b fixed shufflable)) u = 1
        \/ Graph.get_node_tag
             (Hex_Board.graph (Hex_Game.playout b fixed shufflable)) u = 2)
       /\ (Graph.get_node_tag (Hex_Board.graph b) u <> 0 ->
           Graph.get_node_tag
             (Hex_Board.graph (Hex_Game.playout b fixed shufflable)) u
           = Graph.get_node_tag (Hex_Board.graph b) u).
Proof.
  intros Hplay Htags Hfixed Hperm.
  pose proof (board_of_size L mode _ (in_play_board_of L mode _ Hplay)) as Hsize.
  apply (unused_nodes_spec L mode b fixed Hplay) in Hfixed as [Hfixed Hempty].
  assert (Hin : forall u, In u shufflable <->
                          0 <= u < L * L
                          /\ Graph.get_node_tag (Hex_Board.graph b) u = 0).
  { intros u. rewrite <- (unused_nodes_spec L mode b u Hplay). split.
    - apply Permutation_in, Hperm.
    - apply Permutation_in, Permutation_sym, Hperm. }
  unfold Hex_Game.playout.
  destruct (fill_board_spec L mode fixed shufflable
              (Hex_Board.set_node_tag b fixed 2) 2
              (in_play_tag L mode b fixed 2 Hplay Hfixed)
              (or_intror eq_refl)
              (fun u Hu => proj1 (proj1 (Hin u) Hu)))
    as [Hplay' Hfilled].
  split; [exact Hplay'|]. split.
  - destruct (Hfilled fixed) as [_ Hkept].
    rewrite Hkept by (intros [_ H]; now apply H).
    now rewrite (tag_after_set L mode b fixed 2 fixed Hplay Hfixed), Z.eqb_refl.
  - intros u Hu. destruct (Hfilled u) as [Hyes Hno].
    assert (Hstays : ~ (In u shufflable /\ u <> fixed) ->
               Graph.get_node_tag
                 (Hex_Board.graph
                    (fst (Hex_Game.fill_board (Hex_Board.set_node_tag b fixed 2)
                                              2 fixed shufflable))) u
               = if u =? fixed then 2
                 else Graph.get_node_tag (Hex_Board.graph b) u).
    { intros Hnot. rewrite (Hno Hnot).
      apply (tag_after_set L mode b fixed 2 u Hplay Hfixed). }
    destruct (Z.eq_dec (Graph.get_node_tag (Hex_Board.graph b) u) 0)
      as [Hzero | Hstone].
    + split; [|contradiction].
      destruct (Z.eq_dec u fixed) as [-> | Hother].
      * right. rewrite Hstays by (intros [_ H]; now apply H).
        now rewrite Z.eqb_refl.
      * apply Hyes; [apply Hin; auto | exact Hother].
    + assert (Hnot : ~ (In u shufflable /\ u <> fixed)).
      { intros [Hu' _]. apply Hin in Hu' as [_ Hu']. contradiction. }
      rewrite (Hstays Hnot).
      replace (u =? fixed) with false
        by (symmetry; apply Z.eqb_neq; intros ->; contradiction).
      split; [|reflexivity].
      rewrite <- Hsize in Hu. destruct (Htags u Hu) as [H | H]; tauto.
Qed.

(** X23: a Monte Carlo run fills the board: when the swap rule is off,
    whatever order [shuffle] has put the empty cells in, the run for a
    candidate cell ends with a stone on every cell of the board; the
    candidate holds a stone of player 2 and the stones that were on the
    board before the run are still there. *)
Theorem a_run_without_swap_fills_the_board
        (L : Z) (mode : representationMode) (b : Hex_Board.t)
        (fixed_possible_node : Z) (shufflable : list Z) (u : Z) :
  in_play L mode b ->
  tags_of_a_game (Hex_Board.graph b) ->
  In fixed_possible_node (Hex_Game.unused_nodes b) ->
  Permutation shufflable (Hex_Game.unused_nodes b) ->
  0 <= u < L * L ->
  (Graph.get_node_tag
     (Hex_Board.graph (Hex_Game.playout b fixed_possible_node shufflable)) u = 1
   \/ Graph.get_node_tag
        (Hex_Board.graph (Hex_Game.playout b fixed_possible_node shufflable)) u
      = 2)
  /\ (Graph.get_node_tag (Hex_Board.graph b) u <> 0 ->
      Graph.get_node_tag
        (Hex_Board.graph (Hex_Game.playout b fixed_possible_node shufflable)) u
      = Graph.get_node_tag (Hex_Board.graph b) u)
  /\ Graph.get_node_tag
       (Hex_Board.graph (Hex_Game.playout b fixed_possible_node shufflable))
       fixed_possible_node = 2
  /\ in_play L mode (Hex_Game.playout b fixed_possible_node shufflable).
Proof.
  intros Hplay Htags Hfixed Hperm Hu.
  destruct (playout_spec L mode b fixed_possible_node shufflable
                         Hplay Htags Hfixed Hperm) as (H1 & H2 & H3).
  destruct (H3 u Hu) as [H4 H5]. auto.
Qed.

Lemma a_run_without_swap_fills_the_board_witness :
  let b := Hex_Board.set_node_tag
             (Hex_Board.set_node_tag (Hex_Board.new 2 CON_MATRIX) 0 1) 3 2 in
  Hex_Game.unused_nodes b = 1 :: 2 :: nil
  /\ map (Graph.get_node_tag (Hex_Board.graph (Hex_Game.playout b 1 (2 :: 1 :: nil))))
         (0 :: 1 :: 2 :: 3 :: nil)
     = 1 :: 2 :: 2 :: 2 :: nil
  /\ (Graph.get_node_tag
        (Hex_Board.graph (Hex_Game.playout b 1 (2 :: 1 :: nil))) 0 = 1
      \/ Graph.get_node_tag
           (Hex_Board.graph (Hex_Game.playout b 1 (2 :: 1 :: nil))) 0 = 2)
  /\ (Graph.get_node_tag (Hex_Board.graph b) 0 <> 0 ->
      Graph.get_node_tag
        (Hex_Board.graph (Hex_Game.playout b 1 (2 :: 1 :: nil))) 0
      = Graph.get_node_tag (Hex_Board.graph b) 0)
  /\ Graph.get_node_tag
       (Hex_Board.graph (Hex_Game.playout b 1 (2 :: 1 :: nil))) 1 = 2
  /\ in_play 2 CON_MATRIX (Hex_Game.playout b 1 (2 :: 1 :: nil)).
Proof.
  intros b. split; [reflexivity|]. split; [reflexivity|].
  destruct (two_stones_in_play 2 CON_MATRIX 0 1 3 2) as [Hplay Htags];
    [lia | lia | auto | auto |].
  apply (a_run_without_swap_fills_the_board
           2 CON_MATRIX b 1 (2 :: 1 :: nil) 0 Hplay Htags).
  - vm_compute. left. reflexivity.
  - change (Hex_Game.unused_nodes b) with (1 :: 2 :: nil). apply perm_swap.
  - lia.
Defined.






(** ** The bot's turn *)





(** ** The runs of the swap case *)



